(** * media-server-go: incoming stream tracks, statistics and lifecycle

    A shallow embedding of [incomingstreamtrack.go], [incomingstream.go] and
    [streamersession.go], followed by the theorems that settle the
    properties stated about them.

    Conventions of the embedding
    - Go's [uint] and [int] are 64 bits wide; they are carried as [Z] and
      every arithmetic operation of the source is followed by its
      wrap-around ([Go.uint], [Go.int]).
    - A slice is a [list]; a [nil] slice and an empty slice are both [[]]
      unless the source tells them apart.
    - A Go map with string keys is a [gmap string _]; a [nil] map reads like
      the empty map.  The order in which [range] visits a map is chosen by
      the runtime and is a parameter of the model.
    - Calls into the native engine, the standard output and the event
      emitters are recorded, in order, in a trace. *)

From Stdlib Require Import ZArith Lia Ascii DecimalFacts DecimalNat DecimalN DecimalPos
  DecimalString.
From stdpp Require Import base option list sorting strings gmap fin_maps.

Local Open Scope Z_scope.

(* [set_solver] clears hypotheses by name and warns when one is gone. *)
#[local] Set Warnings "-clear-no-such-hyp".

(** ** Machine integers *)

Module Go.

Definition uint (x : Z) : Z := x mod 2 ^ 64.

Definition int (x : Z) : Z := (x + 2 ^ 63) mod 2 ^ 64 - 2 ^ 63.

Definition is_uint (x : Z) : Prop := 0 <= x < 2 ^ 64.

Definition is_int (x : Z) : Prop := - 2 ^ 63 <= x < 2 ^ 63.

(** [a + b] on [uint] operands. *)
Definition uadd (a b : Z) : Z := uint (a + b).

(** [a + b] and [a - b] on [int] (and [int64]) operands. *)
Definition iadd (a b : Z) : Z := int (a + b).

Definition isub (a b : Z) : Z := int (a - b).

(** [float64] values are only ever copied by this package; they are
    carried as their IEEE-754 bit pattern. *)
Definition float64 : Type := Z.

End Go.

(** ** Data model of [incomingstreamtrack.go] *)

Module Layer.
Record t : Type := mk {
    EncodingId : string;
    SpatialLayerId : Z;
    TemporalLayerId : Z;
    TotalBytes : Z;
    NumPackets : Z;
    Bitrate : Z;
    SimulcastIdx : Z;
  }.
End Layer.

Module IncomingStats.
Record t : Type := mk {
    LostPackets : Z;
    DropPackets : Z;
    NumPackets : Z;
    NumRTCPPackets : Z;
    TotalBytes : Z;
    TotalRTCPBytes : Z;
    TotalPLIs : Z;
    TotalNACKs : Z;
    Bitrate : Z;
    Layers : list Layer.t;
  }.
End IncomingStats.

Module IncomingAllStats.
Record t : Type := mk {
    Rtt : Z;
    MinWaitTime : Z;
    MaxWaitTime : Z;
    AvgWaitTime : Go.float64;
    Media : IncomingStats.t;
    Rtx : IncomingStats.t;
    Fec : IncomingStats.t;
    Bitrate : Z;
    Total : Z;
    Remb : Z;
    SimulcastIdx : Z;
    timestamp : Z;
  }.
End IncomingAllStats.

Module ActiveEncoding.
Record t : Type := mk {
    EncodingId : string;
    SimulcastIdx : Z;
    Bitrate : Z;
    Layers : list Layer.t;
  }.
End ActiveEncoding.

Module ActiveLayersInfo.
Record t : Type := mk {
    Active : list ActiveEncoding.t;
    Inactive : list ActiveEncoding.t;
    Layers : list Layer.t;
  }.
End ActiveLayersInfo.

(** ** The native engine, as this package observes it

    [RTPIncomingSource], its layer samples and [RTPIncomingSourceGroup] are
    handles on objects of the native engine.  Each is modelled by the values
    its getters return. *)

Module LayerSource.
Record t : Type := mk {
    GetSpatialLayerId : Z;
    GetTemporalLayerId : Z;
    GetTotalBytes : Z;
    GetNumPackets : Z;
    GetBitrate : Z;
  }.
End LayerSource.

Module RTPIncomingSource.
Record t : Type := mk {
    GetSsrc : Z;
    GetLostPackets : Z;
    GetDropPackets : Z;
    GetNumPackets : Z;
    GetNumRTCPPackets : Z;
    GetTotalBytes : Z;
    GetTotalRTCPBytes : Z;
    GetTotalPLIs : Z;
    GetTotalNACKs : Z;
    GetBitrate : Z;
    Layers : list LayerSource.t;
  }.

Definition SetSsrc (ssrc : Z) (s : t) : t :=
    mk ssrc (GetLostPackets s) (GetDropPackets s) (GetNumPackets s)
       (GetNumRTCPPackets s) (GetTotalBytes s) (GetTotalRTCPBytes s)
       (GetTotalPLIs s) (GetTotalNACKs s) (GetBitrate s) (Layers s).
End RTPIncomingSource.

(** ** Layer aggregator: [getStatsFromIncomingSource] *)

(** The [Layer] built from one raw sample in the first loop. *)
Definition layerInfo (layer : LayerSource.t) : Layer.t :=
  {| Layer.EncodingId := "";
     Layer.SpatialLayerId := Go.int (LayerSource.GetSpatialLayerId layer);
     Layer.TemporalLayerId := Go.int (LayerSource.GetTemporalLayerId layer);
     Layer.TotalBytes := LayerSource.GetTotalBytes layer;
     Layer.NumPackets := LayerSource.GetNumPackets layer;
     Layer.Bitrate := LayerSource.GetBitrate layer;
     Layer.SimulcastIdx := 0 |}.

(** One turn of the inner loop: [layer2] is added to [aggregated] when both
    of its ids are at most those of [aggregated]. *)
Definition accumulate (aggregated layer2 : Layer.t) : Layer.t :=
  if (Layer.SpatialLayerId layer2 <=? Layer.SpatialLayerId aggregated)
     && (Layer.TemporalLayerId layer2 <=? Layer.TemporalLayerId aggregated)
  then
    {| Layer.EncodingId := Layer.EncodingId aggregated;
       Layer.SpatialLayerId := Layer.SpatialLayerId aggregated;
       Layer.TemporalLayerId := Layer.TemporalLayerId aggregated;
       Layer.TotalBytes :=
         Go.uadd (Layer.TotalBytes aggregated) (Layer.TotalBytes layer2);
       Layer.NumPackets :=
         Go.uadd (Layer.NumPackets aggregated) (Layer.NumPackets layer2);
       Layer.Bitrate :=
         Go.uadd (Layer.Bitrate aggregated) (Layer.Bitrate layer2);
       Layer.SimulcastIdx := Layer.SimulcastIdx aggregated |}
  else aggregated.

(** The body of the outer loop: the aggregated layer for [layer]. *)
Definition aggregate (individual : list Layer.t) (layer : Layer.t) : Layer.t :=
  foldl accumulate
    {| Layer.EncodingId := "";
       Layer.SpatialLayerId := Layer.SpatialLayerId layer;
       Layer.TemporalLayerId := Layer.TemporalLayerId layer;
       Layer.TotalBytes := 0;
       Layer.NumPackets := 0;
       Layer.Bitrate := 0;
       Layer.SimulcastIdx := 0 |}
    individual.

Definition getStatsFromIncomingSource (source : RTPIncomingSource.t)
  : IncomingStats.t :=
  let individual := layerInfo <$> RTPIncomingSource.Layers source in
  {| IncomingStats.LostPackets := RTPIncomingSource.GetLostPackets source;
     IncomingStats.DropPackets := RTPIncomingSource.GetDropPackets source;
     IncomingStats.NumPackets := RTPIncomingSource.GetNumPackets source;
     IncomingStats.NumRTCPPackets := RTPIncomingSource.GetNumRTCPPackets source;
     IncomingStats.TotalBytes := RTPIncomingSource.GetTotalBytes source;
     IncomingStats.TotalRTCPBytes := RTPIncomingSource.GetTotalRTCPBytes source;
     IncomingStats.TotalPLIs := RTPIncomingSource.GetTotalPLIs source;
     IncomingStats.TotalNACKs := RTPIncomingSource.GetTotalNACKs source;
     IncomingStats.Bitrate := RTPIncomingSource.GetBitrate source;
     IncomingStats.Layers := aggregate individual <$> individual |}.

Module RTPIncomingSourceGroup.
Record t : Type := mk {
    mediaType : Z;
    GetRid : option string;
    GetMid : option string;
    GetMedia : RTPIncomingSource.t;
    GetRtx : RTPIncomingSource.t;
    GetFec : RTPIncomingSource.t;
    GetRtt : Z;
    GetMinWaitedTime : Z;
    GetMaxWaitedTime : Z;
    GetAvgWaitedTime : Go.float64;
  }.

Definition SetRid (rid : string) (g : t) : t :=
    mk (mediaType g) (Some rid) (GetMid g) (GetMedia g) (GetRtx g) (GetFec g)
       (GetRtt g) (GetMinWaitedTime g) (GetMaxWaitedTime g) (GetAvgWaitedTime g).

Definition SetMid (mid : string) (g : t) : t :=
    mk (mediaType g) (GetRid g) (Some mid) (GetMedia g) (GetRtx g) (GetFec g)
       (GetRtt g) (GetMinWaitedTime g) (GetMaxWaitedTime g) (GetAvgWaitedTime g).

(** [g.GetMedia().SetSsrc(ssrc)], and the same on the two companions. *)
Definition SetMediaSsrc (ssrc : Z) (g : t) : t :=
    mk (mediaType g) (GetRid g) (GetMid g)
       (RTPIncomingSource.SetSsrc ssrc (GetMedia g)) (GetRtx g) (GetFec g)
       (GetRtt g) (GetMinWaitedTime g) (GetMaxWaitedTime g) (GetAvgWaitedTime g).

Definition SetRtxSsrc (ssrc : Z) (g : t) : t :=
    mk (mediaType g) (GetRid g) (GetMid g) (GetMedia g)
       (RTPIncomingSource.SetSsrc ssrc (GetRtx g)) (GetFec g)
       (GetRtt g) (GetMinWaitedTime g) (GetMaxWaitedTime g) (GetAvgWaitedTime g).

Definition SetFecSsrc (ssrc : Z) (g : t) : t :=
    mk (mediaType g) (GetRid g) (GetMid g) (GetMedia g) (GetRtx g)
       (RTPIncomingSource.SetSsrc ssrc (GetFec g))
       (GetRtt g) (GetMinWaitedTime g) (GetMaxWaitedTime g) (GetAvgWaitedTime g).
End RTPIncomingSourceGroup.

(** Modelled from the spec: the constructor of the native engine is not part
    of these sources.  A new group has no rid, no media-stream id, and every
    SSRC and counter at zero ("SSRC left unset/zero"). *)
Definition NewRTPIncomingSourceGroup (mediaType : Z) : RTPIncomingSourceGroup.t :=
  let fresh := RTPIncomingSource.mk 0 0 0 0 0 0 0 0 0 0 [] in
  RTPIncomingSourceGroup.mk mediaType None None fresh fresh fresh 0 0 0 0.

(** The depacketizer made by [NewStreamTrackDepacketizer(source)], named
    after the group it was made for. *)
Record StreamTrackDepacketizer : Type := Depacketizer {
  boundTo : RTPIncomingSourceGroup.t;
}.

(** Opaque handles of the native engine. *)
Definition RTPReceiverFacade : Type := nat.
Definition DTLSICETransport : Type := nat.
Definition RTPSessionFacade : Type := nat.

(** ** The description of a track (package [sdp]) *)

Module SourceGroupInfo.
(** Modelled from the spec: package [sdp] is not part of these sources.
    A grouping relation is a label and the SSRCs it relates; [None] is
    the [nil] slice. *)
Record t : Type := mk {
    GetSemantics : string;
    GetSSRCs : option (list Z);
  }.
End SourceGroupInfo.

Module TrackEncodingInfo.
(** Modelled from the spec: one signaled encoding, its rid and its
    parameters (notably ["ssrc"]). *)
Record t : Type := mk {
    GetID : string;
    IsPaused : bool;
    GetParams : gmap string string;
  }.

Definition AddParam (k v : string) (e : t) : t :=
    mk (GetID e) (IsPaused e) (<[k := v]> (GetParams e)).
End TrackEncodingInfo.

Module TrackInfo.
(** Modelled from the spec: track id, media kind, media-stream id, the
    signaled SSRCs, the grouping relations and the per-rid encodings
    (a list of alternatives, each a list of encodings). *)
Record t : Type := mk {
    GetID : string;
    GetMedia : string;
    GetMediaID : string;
    GetSSRCS : list Z;
    GetSourceGroupS : list SourceGroupInfo.t;
    GetEncodings : list (list TrackEncodingInfo.t);
  }.

(** Modelled from the spec: the grouping relation with the given label,
    if the description has one. *)
Definition GetSourceGroup (semantics : string) (track : t)
    : option SourceGroupInfo.t :=
    List.find (fun g => bool_decide (SourceGroupInfo.GetSemantics g = semantics))
      (GetSourceGroupS track).

(** Modelled from the spec: the builders of a description, used for the
    sample descriptions below; each appends to the field it names. *)
Definition NewTrackInfo (id media : string) : t := mk id media "" [] [] [].

Definition AddSSRC (ssrc : Z) (track : t) : t :=
    mk (GetID track) (GetMedia track) (GetMediaID track)
       (GetSSRCS track ++ [ssrc]) (GetSourceGroupS track) (GetEncodings track).

Definition AddSourceGroup (g : SourceGroupInfo.t) (track : t) : t :=
    mk (GetID track) (GetMedia track) (GetMediaID track)
       (GetSSRCS track) (GetSourceGroupS track ++ [g]) (GetEncodings track).

Definition AddEncoding (e : TrackEncodingInfo.t) (track : t) : t :=
    mk (GetID track) (GetMedia track) (GetMediaID track)
       (GetSSRCS track) (GetSourceGroupS track) (GetEncodings track ++ [[e]]).
End TrackInfo.

(** ** Tracks, streams and sessions *)

Module Encoding.
(** [source] is never [nil]: the constructor of the track reads through it
    before it stores the encoding. *)
Record t : Type := mk {
    id : string;
    source : RTPIncomingSourceGroup.t;
    depacketizer : option StreamTrackDepacketizer;
  }.
End Encoding.

(** The one-shot "stopped" listeners this package registers on a track,
    each named after the closure it stands for. *)
Inductive Listener : Type :=
| OnStopped_CreateTrack (sources : gmap string RTPIncomingSourceGroup.t)
| OnStopped_AddTrack
| OnStopped_StreamerSession.

(** ** Effects *)

Inductive EmitterOf : Type :=
| OfTrack (id : string)
| OfStream (id : string)
| OfSession (id : string).

#[global] Instance EmitterOf_eq_dec : EqDecision EmitterOf.
Proof. solve_decision. Defined.

Inductive NumError : Type :=
| ErrSyntax (num : string)
| ErrRange (num : string).

(** What the package does to the world outside it, in order. *)
Inductive Call : Type :=
| Call_NewRTPIncomingSourceGroup (mediaType : Z)
| Call_DeleteRTPIncomingSourceGroup (g : RTPIncomingSourceGroup.t)
| Call_AddIncomingSourceGroup (g : RTPIncomingSourceGroup.t)
| Call_RemoveIncomingSourceGroup (g : RTPIncomingSourceGroup.t)
| Call_NewStreamTrackDepacketizer (g : RTPIncomingSourceGroup.t)
| Call_DepacketizerStop (d : StreamTrackDepacketizer)
| Call_DeleteStreamTrackDepacketizer (d : StreamTrackDepacketizer)
| Call_Update (g : RTPIncomingSourceGroup.t)
| Call_Println (msg : string) (err : NumError)
| Call_SessionEnd (s : RTPSessionFacade)
| Call_DeleteRTPSessionFacade (s : RTPSessionFacade)
| Call_OutgoingStop
| Call_Emit (who : EmitterOf) (event : string).

(** [tick] counts the questions put to the runtime so far (the clock, the
    order of a [range] over a map). *)
Record World : Type := mkWorld {
  tick : nat;
  trace : list Call;
}.

Definition next (w : World) : World := mkWorld (S (tick w)) (trace w).

Definition call (c : Call) (w : World) : World :=
  mkWorld (tick w) (trace w ++ [c]).

Definition isEmit (who : EmitterOf) (event : string) (c : Call) : bool :=
  match c with
  | Call_Emit who' event' =>
      bool_decide (who' = who) && bool_decide (event' = event)
  | _ => false
  end.

(** How often [who] has emitted [event]. *)
Definition emitted (who : EmitterOf) (event : string) (tr : list Call) : nat :=
  length (List.filter (isEmit who event) tr).

(** ** The track: [incomingstreamtrack.go] *)

Module IncomingStreamTrack.

Record t : Type := mk {
    id : string;
    media : string;
    receiver : option RTPReceiverFacade;
    counter : Z;
    encodings : gmap string Encoding.t;
    trackInfo : TrackInfo.t;
    stats : gmap string IncomingAllStats.t;
    Emitter : list Listener;
  }.

Section Track.

(** [now n] is what [time.Now().UnixNano()] answers to question [n] and
    [rangeMap n] the order in which a [range] asked at [n] visits a map;
    [sortSlice] is [sort.Slice], [Update] the engine's refresh of the
    counters of a group, [MaxLayerId] the engine's constant. *)
Variable now : nat -> Z.
Variable rangeMap : nat -> forall V : Type, gmap string V -> list (string * V).
Variable sortSlice : forall A : Type, (A -> A -> bool) -> list A -> list A.
Variable Update : RTPIncomingSourceGroup.t -> RTPIncomingSourceGroup.t.
Variable MaxLayerId : Z.

Definition withCounter (c : Z) (i : t) : t :=
    mk (id i) (media i) (receiver i) c (encodings i) (trackInfo i) (stats i)
       (Emitter i).

Definition withStats (m : gmap string IncomingAllStats.t) (i : t) : t :=
    mk (id i) (media i) (receiver i) (counter i) (encodings i) (trackInfo i) m
       (Emitter i).

Definition withEncodings (m : gmap string Encoding.t) (i : t) : t :=
    mk (id i) (media i) (receiver i) (counter i) m (trackInfo i) (stats i)
       (Emitter i).

(** *** [GetStats] *)

(** The condition of line 248.  The clock is read only when there is a
    cached entry. *)
Definition isStale (state : option IncomingAllStats.t) (w : World)
    : bool * World :=
    match state with
    | None => (true, w)
    | Some state =>
        (Go.isub (now (tick w)) (IncomingAllStats.timestamp state) >? 200000000,
         next w)
    end.

(** The entry built at lines 252-267 from the refreshed group. *)
Definition newEntry (source : RTPIncomingSourceGroup.t) (timestamp : Z)
    : IncomingAllStats.t :=
    let media := getStatsFromIncomingSource (RTPIncomingSourceGroup.GetMedia source) in
    let fec := getStatsFromIncomingSource (RTPIncomingSourceGroup.GetFec source) in
    let rtx := getStatsFromIncomingSource (RTPIncomingSourceGroup.GetRtx source) in
    {| IncomingAllStats.Rtt := RTPIncomingSourceGroup.GetRtt source;
       IncomingAllStats.MinWaitTime := RTPIncomingSourceGroup.GetMinWaitedTime source;
       IncomingAllStats.MaxWaitTime := RTPIncomingSourceGroup.GetMaxWaitedTime source;
       IncomingAllStats.AvgWaitTime := RTPIncomingSourceGroup.GetAvgWaitedTime source;
       IncomingAllStats.Media := media;
       IncomingAllStats.Rtx := rtx;
       IncomingAllStats.Fec := fec;
       IncomingAllStats.Bitrate := IncomingStats.Bitrate media;
       IncomingAllStats.Total :=
         Go.uadd (Go.uadd (IncomingStats.Bitrate media) (IncomingStats.Bitrate fec))
                 (IncomingStats.Bitrate rtx);
       IncomingAllStats.Remb := 0;
       IncomingAllStats.SimulcastIdx := 0;
       IncomingAllStats.timestamp := timestamp |}.

(** One turn of the loop of lines 246-269.  [Update] changes the group
    the encoding refers to, so the encoding is stored back with the
    refreshed group. *)
Definition refresh (acc : t * World) (kv : string * Encoding.t) : t * World :=
    let '(i, w) := acc in
    let '(id, encoding) := kv in
    let '(stale, w) := isStale (stats i !! id) w in
    if stale then
      let w := call (Call_Update (Encoding.source encoding)) w in
      let source := Update (Encoding.source encoding) in
      let entry := newEntry source (now (tick w)) in
      (withStats (<[id := entry]> (stats i))
         (withEncodings
            (<[id := Encoding.mk (Encoding.id encoding) source
                       (Encoding.depacketizer encoding)]> (encodings i)) i),
       next w)
    else (i, w).

Definition setLayerIdx (idx : Z) (layer : Layer.t) : Layer.t :=
    Layer.mk (Layer.EncodingId layer) (Layer.SpatialLayerId layer)
      (Layer.TemporalLayerId layer) (Layer.TotalBytes layer)
      (Layer.NumPackets layer) (Layer.Bitrate layer) idx.

(** [state.SimulcastIdx = idx] followed by the loop of lines 289-291. *)
Definition setSimulcastIdx (idx : Z) (state : IncomingAllStats.t)
    : IncomingAllStats.t :=
    let media := IncomingAllStats.Media state in
    IncomingAllStats.mk
      (IncomingAllStats.Rtt state) (IncomingAllStats.MinWaitTime state)
      (IncomingAllStats.MaxWaitTime state) (IncomingAllStats.AvgWaitTime state)
      (IncomingStats.mk
         (IncomingStats.LostPackets media) (IncomingStats.DropPackets media)
         (IncomingStats.NumPackets media) (IncomingStats.NumRTCPPackets media)
         (IncomingStats.TotalBytes media) (IncomingStats.TotalRTCPBytes media)
         (IncomingStats.TotalPLIs media) (IncomingStats.TotalNACKs media)
         (IncomingStats.Bitrate media)
         (setLayerIdx idx <$> IncomingStats.Layers media))
      (IncomingAllStats.Rtx state) (IncomingAllStats.Fec state)
      (IncomingAllStats.Bitrate state) (IncomingAllStats.Total state)
      (IncomingAllStats.Remb state) idx (IncomingAllStats.timestamp state).

(** One turn of the loop of lines 281-292.  The slice holds pointers to
    the entries of the cache; an entry is carried with its key and
    written back under it. *)
Definition rank (acc : Z * gmap string IncomingAllStats.t)
      (kv : string * IncomingAllStats.t) : Z * gmap string IncomingAllStats.t :=
    let '(simulcastIdx, m) := acc in
    let '(id, state) := kv in
    if IncomingAllStats.Bitrate state >? 0 then
      let simulcastIdx := Go.iadd simulcastIdx 1 in
      (simulcastIdx, <[id := setSimulcastIdx simulcastIdx state]> m)
    else
      (simulcastIdx, <[id := setSimulcastIdx (-1) state]> m).

(** Lines 271-292: collect the entries, sort them by descending bitrate,
    number them. *)
Definition rerank (m : gmap string IncomingAllStats.t) (w : World)
    : gmap string IncomingAllStats.t * World :=
    let stats := rangeMap (tick w) _ m in
    let w := next w in
    let stats :=
      sortSlice _
        (fun a b => IncomingAllStats.Bitrate a.2 >? IncomingAllStats.Bitrate b.2)
        stats in
    ((foldl rank (0, m) stats).2, w).

(** [GetStats] returns the cache itself, [stats] of the resulting track. *)
Definition GetStats (i : t) (w : World) : t * World :=
    let '(i, w) :=
      foldl refresh (i, next w) (rangeMap (tick w) _ (encodings i)) in
    let '(m, w) := rerank (stats i) w in
    (withStats m i, w).

(** *** [GetActiveLayers] *)

(** Line 324 and line 331: the two copies made of one layer. *)
Definition ownLayer (layer : Layer.t) : Layer.t :=
    {| Layer.EncodingId := "";
       Layer.SpatialLayerId := Layer.SpatialLayerId layer;
       Layer.TemporalLayerId := Layer.TemporalLayerId layer;
       Layer.TotalBytes := 0;
       Layer.NumPackets := 0;
       Layer.Bitrate := Layer.Bitrate layer;
       Layer.SimulcastIdx := Layer.SimulcastIdx layer |}.

Definition globalLayer (id : string) (layer : Layer.t) : Layer.t :=
    {| Layer.EncodingId := id;
       Layer.SpatialLayerId := Layer.SpatialLayerId layer;
       Layer.TemporalLayerId := Layer.TemporalLayerId layer;
       Layer.TotalBytes := 0;
       Layer.NumPackets := 0;
       Layer.Bitrate := Layer.Bitrate layer;
       Layer.SimulcastIdx := Layer.SimulcastIdx layer |}.

(** Line 345: the layer made up for an encoding without layers. *)
Definition flatLayer (encoding : ActiveEncoding.t) : Layer.t :=
    {| Layer.EncodingId := ActiveEncoding.EncodingId encoding;
       Layer.SpatialLayerId := MaxLayerId;
       Layer.TemporalLayerId := MaxLayerId;
       Layer.TotalBytes := 0;
       Layer.NumPackets := 0;
       Layer.Bitrate := ActiveEncoding.Bitrate encoding;
       Layer.SimulcastIdx := ActiveEncoding.SimulcastIdx encoding |}.

Definition lessLayer (a b : Layer.t) : bool :=
    Layer.Bitrate a <? Layer.Bitrate b.

Definition lessEncoding (a b : ActiveEncoding.t) : bool :=
    ActiveEncoding.Bitrate a <? ActiveEncoding.Bitrate b.

(** One turn of the loop of lines 323-339. *)
Definition copyLayer (id : string) (acc : list Layer.t * list Layer.t)
      (layer : Layer.t) : list Layer.t * list Layer.t :=
    let '(own, all) := acc in
    (own ++ [ownLayer layer], all ++ [globalLayer id layer]).

(** One turn of the loop of lines 305-354. *)
Definition select (acc : ActiveLayersInfo.t)
      (kv : string * IncomingAllStats.t) : ActiveLayersInfo.t :=
    let '(id, state) := kv in
    let active := ActiveLayersInfo.Active acc in
    let inactive := ActiveLayersInfo.Inactive acc in
    let all := ActiveLayersInfo.Layers acc in
    if IncomingAllStats.Bitrate state =? 0 then
      ActiveLayersInfo.mk active
        (inactive ++ [ActiveEncoding.mk id 0 0 []]) all
    else
      let encoding :=
        ActiveEncoding.mk id (IncomingAllStats.SimulcastIdx state)
          (IncomingAllStats.Bitrate state) [] in
      let layers := IncomingStats.Layers (IncomingAllStats.Media state) in
      let '(own, all) := foldl (copyLayer id) ([], all) layers in
      if (0 <? length own)%nat then
        ActiveLayersInfo.mk
          (active ++ [ActiveEncoding.mk id (IncomingAllStats.SimulcastIdx state)
                        (IncomingAllStats.Bitrate state)
                        (sortSlice _ lessLayer own)])
          inactive all
      else
        ActiveLayersInfo.mk (active ++ [encoding]) inactive
          (all ++ [flatLayer encoding]).

(** Lines 356-368, on the cache [GetStats] returned. *)
Definition activeLayers (stats : gmap string IncomingAllStats.t) (w : World)
    : ActiveLayersInfo.t * World :=
    let r := foldl select (ActiveLayersInfo.mk [] [] []) (rangeMap (tick w) _ stats) in
    let w := next w in
    let active := ActiveLayersInfo.Active r in
    let all := ActiveLayersInfo.Layers r in
    let active :=
      if (0 <? length active)%nat then sortSlice _ lessEncoding active else active in
    let all :=
      if (0 <? length all)%nat then sortSlice _ lessLayer all else all in
    (ActiveLayersInfo.mk active (ActiveLayersInfo.Inactive r) all, w).

Definition GetActiveLayers (i : t) (w : World)
    : ActiveLayersInfo.t * t * World :=
    let '(i, w) := GetStats i w in
    let '(info, w) := activeLayers (stats i) w in
    (info, i, w).

(** *** [Attached], [Detached], [Stop] *)

Definition Attached (i : t) (w : World) : t * World :=
    let i := withCounter (Go.iadd (counter i) 1) i in
    if counter i =? 1 then (i, call (Call_Emit (OfTrack (id i)) "attached") w)
    else (i, w).

Definition Detached (i : t) (w : World) : t * World :=
    let i := withCounter (Go.isub (counter i) 1) i in
    if counter i =? 0 then (i, call (Call_Emit (OfTrack (id i)) "detached") w)
    else (i, w).

(** One turn of the loop of lines 421-429. *)
Definition release (w : World) (kv : string * Encoding.t) : World :=
    let encoding := kv.2 in
    let w :=
      match Encoding.depacketizer encoding with
      | Some d =>
          call (Call_DeleteStreamTrackDepacketizer d)
            (call (Call_DepacketizerStop d) w)
      | None => w
      end in
    call (Call_DeleteRTPIncomingSourceGroup (Encoding.source encoding)) w.

(** [Stop] also hands back the one-shot listeners that "stopped" has
    fired: they act on the owner of the track, which runs them. *)
Definition Stop (i : t) (w : World) : t * list Listener * World :=
    match receiver i with
    | None => (i, [], w)
    | Some _ =>
        let w := foldl release (next w) (rangeMap (tick w) _ (encodings i)) in
        let w := call (Call_Emit (OfTrack (id i)) "stopped") w in
        (mk (id i) (media i) None (counter i) ∅ (trackInfo i) (stats i) [],
         Emitter i, w)
    end.

(** *** [GetSSRCs], [GetFirstEncoding], [Refresh] *)

(** One turn of the loop of lines 230-236: the three sources of an
    encoding, under the names the map literal gives them. *)
Definition ssrcsOf (acc : list (gmap string RTPIncomingSource.t))
      (kv : string * Encoding.t) : list (gmap string RTPIncomingSource.t) :=
    let source := Encoding.source kv.2 in
    acc ++ [<["fec" := RTPIncomingSourceGroup.GetFec source]>
              (<["rtx" := RTPIncomingSourceGroup.GetRtx source]>
                 (<["media" := RTPIncomingSourceGroup.GetMedia source]> ∅))].

Definition GetSSRCs (i : t) (w : World)
    : list (gmap string RTPIncomingSource.t) * World :=
    (foldl ssrcsOf [] (rangeMap (tick w) _ (encodings i)), next w).

(** [litter.Dump(i.encodings)] writes the encodings to the standard
    output; what it was given is the first component of the result.  The
    loop returns at its first turn: the map never holds a [nil] encoding. *)
Definition GetFirstEncoding (i : t) (w : World)
    : gmap string Encoding.t * option Encoding.t * World :=
    (encodings i, snd <$> head (rangeMap (tick w) _ (encodings i)), next w).

(** One turn of the loop of lines 400-403: the SSRC handed to
    [i.receiver.SendPLI]; a call through a [nil] receiver is a panic. *)
Definition sendPLI (i : t) (kv : string * Encoding.t) : option Z :=
    match receiver i with
    | Some _ =>
        Some (RTPIncomingSource.GetSsrc
                (RTPIncomingSourceGroup.GetMedia (Encoding.source kv.2)))
    | None => None
    end.

(** [Refresh] gives the keyframe requests it has sent, in order, or
    [None] when it panics. *)
Definition Refresh (i : t) (w : World) : option (list Z * World) :=
    sent ← mapM (sendPLI i) (rangeMap (tick w) _ (encodings i));
    Some (sent, next w).

End Track.

End IncomingStreamTrack.

(** ** Package [strconv] of the standard library, as far as it is used *)

Module strconv.

Definition digit (c : Ascii.ascii) : option Z :=
  let n := Z.of_N (Ascii.N_of_ascii c) in
  if (48 <=? n) && (n <=? 57) then Some (n - 48) else None.

(** The loop of [ParseUint] in base 10 with [bitSize] 32: the characters
    are read from the left, a character that is not a digit is a syntax
    error, a value above [2^32 - 1] is a range error. *)
Fixpoint parseFrom (num : string) (n : Z) (s : string) : Z + NumError :=
  match s with
  | EmptyString => inl n
  | String c s =>
      match digit c with
      | None => inr (ErrSyntax num)
      | Some d =>
          let n1 := n * 10 + d in
          if n1 >? 2 ^ 32 - 1 then inr (ErrRange num) else parseFrom num n1 s
      end
  end.

(** [strconv.ParseUint(s, 10, 32)]. *)
Definition ParseUint (s : string) : Z + NumError :=
  match s with
  | EmptyString => inr (ErrSyntax s)
  | _ => parseFrom s 0 s
  end.

(** [strconv.FormatUint(n, 10)] and [strconv.Itoa(n)] on a number that is
    not negative. *)
Definition FormatUint (n : Z) : string :=
  DecimalString.NilZero.string_of_uint (N.to_uint (Z.to_N n)).

Definition Itoa (n : nat) : string :=
  DecimalString.NilZero.string_of_uint (Nat.to_uint n).

End strconv.

(** A loop whose body may panic: [None] is the panic. *)
Fixpoint foldlM {A B : Type} (f : A -> B -> option A) (a : A) (l : list B)
  : option A :=
  match l with
  | [] => Some a
  | b :: l =>
      match f a b with
      | Some a => foldlM f a l
      | None => None
      end
  end.

(** ** The stream: [incomingstream.go] *)

Module IncomingStream.

(** The field [info] is never assigned by these sources and is left out. *)
Record t : Type := mk {
  id : string;
  transport : option DTLSICETransport;
  receiver : option RTPReceiverFacade;
  tracks : gmap string IncomingStreamTrack.t;
}.

Section Stream.

Variable rangeMap : nat -> forall V : Type, gmap string V -> list (string * V).

Definition withTracks (m : gmap string IncomingStreamTrack.t) (i : t) : t :=
  mk (id i) (transport i) (receiver i) m.

(** *** [newIncomingStreamTrack] (incomingstreamtrack.go, lines 153-212) *)

(** Lines 174-207: what one source group adds to the descriptor. *)
Definition describe (k : string) (source : RTPIncomingSourceGroup.t)
    (info : TrackInfo.t) : TrackInfo.t :=
  let media := RTPIncomingSource.GetSsrc (RTPIncomingSourceGroup.GetMedia source) in
  let rtx := RTPIncomingSource.GetSsrc (RTPIncomingSourceGroup.GetRtx source) in
  let fec := RTPIncomingSource.GetSsrc (RTPIncomingSourceGroup.GetFec source) in
  let info := if media >? 0 then TrackInfo.AddSSRC media info else info in
  let info := if rtx >? 0 then TrackInfo.AddSSRC rtx info else info in
  let info := if fec >? 0 then TrackInfo.AddSSRC fec info else info in
  let info :=
    if rtx >? 0
    then TrackInfo.AddSourceGroup (SourceGroupInfo.mk "FID" (Some [media; rtx])) info
    else info in
  let info :=
    if fec >? 0
    then TrackInfo.AddSourceGroup (SourceGroupInfo.mk "FEC-FR" (Some [media; fec])) info
    else info in
  if (0 <? String.length k)%nat then
    let encodingInfo := TrackEncodingInfo.mk k false ∅ in
    let encodingInfo :=
      if media >? 0
      then TrackEncodingInfo.AddParam "ssrc" (strconv.FormatUint media) encodingInfo
      else encodingInfo in
    TrackInfo.AddEncoding encodingInfo info
  else info.

(** One turn of the loop of lines 165-209. *)
Definition addSource (acc : IncomingStreamTrack.t * World)
    (kv : string * RTPIncomingSourceGroup.t) : IncomingStreamTrack.t * World :=
  let '(track, w) := acc in
  let '(k, source) := kv in
  let w := call (Call_NewStreamTrackDepacketizer source) w in
  let encoding := Encoding.mk k source (Some (Depacketizer source)) in
  (IncomingStreamTrack.mk
     (IncomingStreamTrack.id track) (IncomingStreamTrack.media track)
     (IncomingStreamTrack.receiver track) (IncomingStreamTrack.counter track)
     (<[k := encoding]> (IncomingStreamTrack.encodings track))
     (describe k source (IncomingStreamTrack.trackInfo track))
     (IncomingStreamTrack.stats track) (IncomingStreamTrack.Emitter track),
   w).

Definition newIncomingStreamTrack (media id : string)
    (receiver : option RTPReceiverFacade)
    (sources : gmap string RTPIncomingSourceGroup.t) (w : World)
  : IncomingStreamTrack.t * World :=
  let track :=
    IncomingStreamTrack.mk id media receiver 0 ∅ (TrackInfo.NewTrackInfo id media)
      ∅ [] in
  foldl addSource (track, next w) (rangeMap (tick w) _ sources).

(** *** [CreateTrack] *)

(** [s[n]] on a slice: out of range is a panic. *)
Definition index (s : option (list Z)) (n : nat) : option Z :=
  default [] s !! n.

Definition bindRtxFec (group : SourceGroupInfo.t)
    (source : RTPIncomingSourceGroup.t) : option RTPIncomingSourceGroup.t :=
  source ←
    (if bool_decide (SourceGroupInfo.GetSemantics group = "FID")
     then ssrc ← index (SourceGroupInfo.GetSSRCs group) 1;
          Some (RTPIncomingSourceGroup.SetRtxSsrc ssrc source)
     else Some source);
  if bool_decide (SourceGroupInfo.GetSemantics group = "FEC-FR")
  then ssrc ← index (SourceGroupInfo.GetSSRCs group) 1;
       Some (RTPIncomingSourceGroup.SetFecSsrc ssrc source)
  else Some source.

(** One turn of the loop of lines 147-158. *)
Definition bindByRid (source : RTPIncomingSourceGroup.t)
    (group : SourceGroupInfo.t) : option RTPIncomingSourceGroup.t :=
  match SourceGroupInfo.GetSSRCs group with
  | None => Some source
  | Some ssrcs =>
      first ← ssrcs !! 0%nat;
      if first =? RTPIncomingSource.GetSsrc (RTPIncomingSourceGroup.GetMedia source)
      then bindRtxFec group source
      else Some source
  end.

(** One turn of the loop of lines 180-192. *)
Definition bindBySsrc (ssrc : Z) (source : RTPIncomingSourceGroup.t)
    (group : SourceGroupInfo.t) : option RTPIncomingSourceGroup.t :=
  first ← index (SourceGroupInfo.GetSSRCs group) 0;
  if first =? ssrc then bindRtxFec group source else Some source.

(** [i.transport.AddIncomingSourceGroup(source)]: a call through a [nil]
    transport is a panic. *)
Definition register (i : t) (source : RTPIncomingSourceGroup.t) (w : World)
  : option World :=
  match transport i with
  | Some _ => Some (call (Call_AddIncomingSourceGroup source) w)
  | None => None
  end.

(** One turn of the loop of lines 123-163. *)
Definition createByRid (i : t) (track : TrackInfo.t) (mediaType : Z)
    (acc : gmap string RTPIncomingSourceGroup.t * World)
    (encoding : TrackEncodingInfo.t)
  : option (gmap string RTPIncomingSourceGroup.t * World) :=
  let '(sources, w) := acc in
  let w := call (Call_NewRTPIncomingSourceGroup mediaType) w in
  let source := NewRTPIncomingSourceGroup mediaType in
  let mid := TrackInfo.GetMediaID track in
  let rid := TrackEncodingInfo.GetID encoding in
  let source := RTPIncomingSourceGroup.SetRid rid source in
  let source :=
    if bool_decide (mid ≠ "") then RTPIncomingSourceGroup.SetMid mid source
    else source in
  let params := TrackEncodingInfo.GetParams encoding in
  match params !! "ssrc" with
  | Some ssrc =>
      match strconv.ParseUint ssrc with
      | inr err => Some (sources, call (Call_Println "ssrc parse error " err) w)
      | inl ssrcUint =>
          let source := RTPIncomingSourceGroup.SetMediaSsrc ssrcUint source in
          source ← foldlM bindByRid source (TrackInfo.GetSourceGroupS track);
          w ← register i source w;
          Some (<[rid := source]> sources, w)
      end
  | None =>
      w ← register i source w;
      Some (<[rid := source]> sources, w)
  end.

(** One turn of the loop of lines 174-197; [j] is the position of [ssrc]. *)
Definition createBySsrc (i : t) (track : TrackInfo.t) (mediaType : Z)
    (acc : nat * gmap string RTPIncomingSourceGroup.t * World) (ssrc : Z)
  : option (nat * gmap string RTPIncomingSourceGroup.t * World) :=
  let '(j, sources, w) := acc in
  let w := call (Call_NewRTPIncomingSourceGroup mediaType) w in
  let source := NewRTPIncomingSourceGroup mediaType in
  let source := RTPIncomingSourceGroup.SetMediaSsrc ssrc source in
  source ← foldlM (bindBySsrc ssrc) source (TrackInfo.GetSourceGroupS track);
  w ← register i source w;
  Some (S j, <[strconv.Itoa j := source]> sources, w).

(** Lines 200-222. *)
Definition createFlat (i : t) (track : TrackInfo.t) (mediaType : Z) (w : World)
  : option (gmap string RTPIncomingSourceGroup.t * World) :=
  let w := call (Call_NewRTPIncomingSourceGroup mediaType) w in
  let source := NewRTPIncomingSourceGroup mediaType in
  first ← TrackInfo.GetSSRCS track !! 0%nat;
  let source := RTPIncomingSourceGroup.SetMediaSsrc first source in
  let fid := TrackInfo.GetSourceGroup "FID" track in
  let fec_fr := TrackInfo.GetSourceGroup "FEC-FR" track in
  source ←
    match fid with
    | Some fid =>
        ssrc ← index (SourceGroupInfo.GetSSRCs fid) 1;
        Some (RTPIncomingSourceGroup.SetRtxSsrc ssrc source)
    | None => Some (RTPIncomingSourceGroup.SetRtxSsrc 0 source)
    end;
  source ←
    match fec_fr with
    | Some fec_fr =>
        ssrc ← index (SourceGroupInfo.GetSSRCs fec_fr) 1;
        Some (RTPIncomingSourceGroup.SetFecSsrc ssrc source)
    | None => Some (RTPIncomingSourceGroup.SetFecSsrc 0 source)
    end;
  w ← register i source w;
  Some (<["" := source]> ∅, w).

(** Lines 110-223: the source groups of a track, keyed as the track will
    key its encodings. *)
Definition createSources (i : t) (track : TrackInfo.t) (w : World)
  : option (gmap string RTPIncomingSourceGroup.t * World) :=
  let mediaType := if bool_decide (TrackInfo.GetMedia track = "video") then 1 else 0 in
  let encodings := TrackInfo.GetEncodings track in
  if (0 <? length encodings)%nat then
    foldlM (createByRid i track mediaType) (∅, w) (concat encodings)
  else
    match TrackInfo.GetSourceGroup "SIM" track with
    | Some SIM =>
        r ← foldlM (createBySsrc i track mediaType) (0%nat, ∅, w)
              (default [] (SourceGroupInfo.GetSSRCs SIM));
        Some (r.1.2, r.2)
    | None => createFlat i track mediaType w
    end.

Definition CreateTrack (i : t) (track : TrackInfo.t) (w : World)
  : option (IncomingStreamTrack.t * t * World) :=
  r ← createSources i track w;
  let '(sources, w) := r in
  let '(incomingTrack, w) :=
    newIncomingStreamTrack (TrackInfo.GetMedia track) (TrackInfo.GetID track)
      (receiver i) sources w in
  let incomingTrack :=
    IncomingStreamTrack.mk
      (IncomingStreamTrack.id incomingTrack) (IncomingStreamTrack.media incomingTrack)
      (IncomingStreamTrack.receiver incomingTrack)
      (IncomingStreamTrack.counter incomingTrack)
      (IncomingStreamTrack.encodings incomingTrack)
      (IncomingStreamTrack.trackInfo incomingTrack)
      (IncomingStreamTrack.stats incomingTrack)
      (IncomingStreamTrack.Emitter incomingTrack ++ [OnStopped_CreateTrack sources]) in
  let i := withTracks (<[TrackInfo.GetID track := incomingTrack]> (tracks i)) i in
  let w := call (Call_Emit (OfStream (id i)) "track") w in
  Some (incomingTrack, i, w).

(** *** [Stop] *)

(** The closures of lines 227-234 and 100-102, run for the track [trackID]
    that has stopped. *)
Definition runListener (trackID : string) (acc : t * World) (l : Listener)
  : option (t * World) :=
  let '(i, w) := acc in
  match l with
  | OnStopped_CreateTrack sources =>
      let i := withTracks (delete trackID (tracks i)) i in
      w ← foldlM
            (fun w kv =>
               match transport i with
               | Some _ => Some (call (Call_RemoveIncomingSourceGroup kv.2) w)
               | None => None
               end)
            (next w) (rangeMap (tick w) _ sources);
      Some (i, w)
  | OnStopped_AddTrack => Some (withTracks (delete trackID (tracks i)) i, w)
  | OnStopped_StreamerSession => Some (i, w)
  end.

(** One turn of the loop of lines 249-252.  An entry that an earlier turn
    has deleted is not visited. *)
Definition stopTrack (acc : t * World) (kv : string * IncomingStreamTrack.t)
  : option (t * World) :=
  let '(i, w) := acc in
  match tracks i !! kv.1 with
  | None => Some (i, w)
  | Some track =>
      let '(track, fired, w) := IncomingStreamTrack.Stop rangeMap track w in
      r ← foldlM (runListener (IncomingStreamTrack.id track)) (i, w) fired;
      let '(i, w) := r in
      Some (withTracks (delete kv.1 (tracks i)) i, w)
  end.

Definition Stop (i : t) (w : World) : option (t * World) :=
  match transport i with
  | None => Some (i, w)
  | Some _ =>
      r ← foldlM stopTrack (i, next w) (rangeMap (tick w) _ (tracks i));
      let '(i, w) := r in
      Some (mk (id i) None (receiver i) (tracks i),
            call (Call_Emit (OfStream (id i)) "stopped") w)
  end.

(** *** [GetTrack], [GetTracks], [AddTrack], [newIncomingStream] *)

Definition GetTrack (trackID : string) (i : t) : option IncomingStreamTrack.t :=
  tracks i !! trackID.

Definition GetTracks (i : t) (w : World) : list IncomingStreamTrack.t * World :=
  (foldl (fun tracks kv => tracks ++ [kv.2]) [] (rangeMap (tick w) _ (tracks i)),
   next w).

(** [AddTrack] stores the track it was given with one more listener, and
    the caller's reference sees that listener too: both are returned.  The
    error is a message. *)
Definition AddTrack (i : t) (track : IncomingStreamTrack.t)
  : t * IncomingStreamTrack.t + string :=
  match tracks i !! IncomingStreamTrack.id track with
  | Some _ => inr "Track id already present in stream"
  | None =>
      let track :=
        IncomingStreamTrack.mk
          (IncomingStreamTrack.id track) (IncomingStreamTrack.media track)
          (IncomingStreamTrack.receiver track) (IncomingStreamTrack.counter track)
          (IncomingStreamTrack.encodings track) (IncomingStreamTrack.trackInfo track)
          (IncomingStreamTrack.stats track)
          (IncomingStreamTrack.Emitter track ++ [OnStopped_AddTrack]) in
      inl (withTracks (<[IncomingStreamTrack.id track := track]> (tracks i)) i, track)
  end.

(** One turn of the loop of lines 30-32. *)
Definition createNext (acc : t * World) (track : TrackInfo.t) : option (t * World) :=
  let '(stream, w) := acc in
  r ← CreateTrack stream track w;
  Some (r.1.2, r.2).

(** [info] is given by what its getters answer: [infoID] is
    [info.GetID()] and [infoTracks] lists the descriptions in the order in
    which the loop over [info.GetTracks()] meets them. *)
Definition newIncomingStream (transport : option DTLSICETransport)
    (receiver : option RTPReceiverFacade) (infoID : string)
    (infoTracks : list TrackInfo.t) (w : World) : option (t * World) :=
  foldlM createNext (mk infoID transport receiver ∅, w) infoTracks.

End Stream.

Section Queries.

(** [ToLower] is [strings.ToLower]; the clock, [sort.Slice] and the
    engine's [Update] are those of the track. *)
Variable now : nat -> Z.
Variable rangeMap : nat -> forall V : Type, gmap string V -> list (string * V).
Variable sortSlice : forall A : Type, (A -> A -> bool) -> list A -> list A.
Variable Update : RTPIncomingSourceGroup.t -> RTPIncomingSourceGroup.t.
Variable ToLower : string -> string.

(** One turn of the loops of lines 76-80 and 86-90. *)
Definition ofMedia (kind : string) (acc : list IncomingStreamTrack.t)
    (kv : string * IncomingStreamTrack.t) : list IncomingStreamTrack.t :=
  if bool_decide (ToLower (IncomingStreamTrack.media kv.2) = kind)
  then acc ++ [kv.2] else acc.

Definition GetAudioTracks (i : t) (w : World) : list IncomingStreamTrack.t * World :=
  (foldl (ofMedia "audio") [] (rangeMap (tick w) _ (tracks i)), next w).

Definition GetVideoTracks (i : t) (w : World) : list IncomingStreamTrack.t * World :=
  (foldl (ofMedia "video") [] (rangeMap (tick w) _ (tracks i)), next w).

(** One turn of the loop of lines 55-57.  [track.GetStats()] refreshes the
    cache of the track the stream holds, and the cache is filed under the
    id of the track. *)
Definition statsOf
    (acc : gmap string (gmap string IncomingAllStats.t) * t * World)
    (kv : string * IncomingStreamTrack.t)
  : gmap string (gmap string IncomingAllStats.t) * t * World :=
  let '(stats, i, w) := acc in
  let '(track, w) :=
    IncomingStreamTrack.GetStats now rangeMap sortSlice Update kv.2 w in
  (<[IncomingStreamTrack.id track := IncomingStreamTrack.stats track]> stats,
   withTracks (<[kv.1 := track]> (tracks i)) i, w).

Definition GetStats (i : t) (w : World)
  : gmap string (gmap string IncomingAllStats.t) * t * World :=
  foldl statsOf (∅, i, next w) (rangeMap (tick w) _ (tracks i)).

End Queries.

End IncomingStream.

(** ** The session: [streamersession.go] *)

Module StreamerSession.

Section Session.

Variable rangeMap : nat -> forall V : Type, gmap string V -> list (string * V).

(** [OutgoingStreamTrack] is not part of these sources.  [o.Stop()] is one
    call out of them; [outgoingStop o] is the track after it and whether it
    has emitted "stopped", which runs the listener of line 72. *)
Variable OutgoingStreamTrack : Type.
Variable outgoingStop : OutgoingStreamTrack -> OutgoingStreamTrack * bool.

Record t : Type := mk {
  id : string;
  local : bool;
  port : Z;
  ip : string;
  incoming : option IncomingStreamTrack.t;
  outgoing : option OutgoingStreamTrack;
  session : option RTPSessionFacade;
}.

(** Whether the closure of line 68 is among the listeners that fired. *)
Definition clearsIncoming (fired : list Listener) : bool :=
  existsb (fun l => match l with OnStopped_StreamerSession => true | _ => false end)
    fired.

Definition Stop (s : t) (w : World) : t * World :=
  match session s with
  | None => (s, w)
  | Some session =>
      let '(incoming, w) :=
        match incoming s with
        | Some track =>
            let '(track, fired, w) := IncomingStreamTrack.Stop rangeMap track w in
            (if clearsIncoming fired then None else Some track, w)
        | None => (None, w)
        end in
      let '(outgoing, w) :=
        match outgoing s with
        | Some track =>
            let '(track, stopped) := outgoingStop track in
            (if stopped then None else Some track, call Call_OutgoingStop w)
        | None => (None, w)
        end in
      let w := call (Call_SessionEnd session) w in
      let w := call (Call_DeleteRTPSessionFacade session) w in
      let w := call (Call_Emit (OfSession (id s)) "stopped") w in
      (mk (id s) (local s) (port s) (ip s) incoming outgoing None, w)
  end.

End Session.

End StreamerSession.

(** ** A runtime to compute with *)

Module Runtime.

(** What the model assumes of [sort.Slice]: the result is a rearrangement
    of the slice in which no element is less than one before it, whenever
    [less] is a strict weak order. *)
Record StrictWeakOrder {A : Type} (less : A -> A -> bool) : Prop := {
  less_irrefl : forall a, less a a = false;
  less_trans : forall a b c, less a b = true -> less b c = true -> less a c = true;
  not_less_trans :
    forall a b c, less a b = false -> less b c = false -> less a c = false;
}.

Record SortSliceSpec
    (sortSlice : forall A : Type, (A -> A -> bool) -> list A -> list A) : Prop := {
  sortSlice_perm : forall A less (l : list A), sortSlice A less l ≡ₚ l;
  sortSlice_sorted :
    forall A less (l : list A),
      StrictWeakOrder less ->
      StronglySorted (fun a b => less b a = false) (sortSlice A less l);
}.

(** What the model assumes of [range] over a map: every entry is visited
    once, in some order. *)
Definition RangeSpec
    (rangeMap : nat -> forall V : Type, gmap string V -> list (string * V)) : Prop :=
  forall n V (m : gmap string V), rangeMap n V m ≡ₚ map_to_list m.

(** The insertion sort that [sort.Slice] runs on a short slice. *)
Fixpoint insert {A : Type} (less : A -> A -> bool) (x : A) (l : list A) : list A :=
  match l with
  | [] => [x]
  | y :: l' => if less x y then x :: l else y :: insert less x l'
  end.

Definition insertionSort (A : Type) (less : A -> A -> bool) (l : list A) : list A :=
  foldl (fun sorted x => insert less x sorted) [] l.

Definition rangeInOrder (n : nat) (V : Type) (m : gmap string V)
  : list (string * V) :=
  map_to_list m.

Definition rangeReversed (n : nat) (V : Type) (m : gmap string V)
  : list (string * V) :=
  reverse (map_to_list m).

End Runtime.

(** * Vocabulary of the statements and sample data *)

Definition Zsum (l : list Z) : Z := foldr Z.add 0 l.

(** Whether the raw sample [r] counts towards the layer [(s, t)]. *)
Definition covers (s t : Z) (r : LayerSource.t) : bool :=
  (Layer.SpatialLayerId (layerInfo r) <=? s)
  && (Layer.TemporalLayerId (layerInfo r) <=? t).

(** The sum of one field over the raw samples that count towards [(s, t)]. *)
Definition sumOver (field : LayerSource.t -> Z) (s t : Z)
    (raw : list LayerSource.t) : Z :=
  Zsum (field <$> List.filter (covers s t) raw).

Definition layerIds (l : Layer.t) : Z * Z :=
  (Layer.SpatialLayerId l, Layer.TemporalLayerId l).

(** The property as first stated: every output field is the sum itself. *)
Definition exactSums (source : RTPIncomingSource.t) : Prop :=
  let raw := RTPIncomingSource.Layers source in
  forall l : Layer.t,
    l ∈ IncomingStats.Layers (getStatsFromIncomingSource source) ->
    let s := Layer.SpatialLayerId l in
    let t := Layer.TemporalLayerId l in
    Layer.TotalBytes l = sumOver LayerSource.GetTotalBytes s t raw
    /\ Layer.NumPackets l = sumOver LayerSource.GetNumPackets s t raw
    /\ Layer.Bitrate l = sumOver LayerSource.GetBitrate s t raw.

(** Two temporal layers of one spatial layer, each with [2^63] bytes. *)
Definition overflowingSource : RTPIncomingSource.t :=
  RTPIncomingSource.mk 1 0 0 2 0 0 0 0 0 0
    [LayerSource.mk 0 0 (2 ^ 63) 1 100; LayerSource.mk 0 1 (2 ^ 63) 1 100].

(** A source with three layers and one with the single layer (0,0). *)
Definition threeLayers : RTPIncomingSource.t :=
  RTPIncomingSource.mk 7 1 2 30 4 6000 50 6 7 800
    [LayerSource.mk 1 1 3000 15 400; LayerSource.mk 0 0 1000 5 100;
     LayerSource.mk 0 1 2000 10 300].

Definition oneLayer : RTPIncomingSource.t :=
  RTPIncomingSource.mk 7 0 0 5 0 1000 0 0 0 100 [LayerSource.mk 0 0 1000 5 100].

(** A track that nothing is attached to. *)
Definition idleTrack : IncomingStreamTrack.t :=
  IncomingStreamTrack.mk "t0" "video" (Some 1%nat) 0 ∅ (TrackInfo.NewTrackInfo "t0" "video") ∅ [].

Definition startOfWorld : World := mkWorld 0 [].

(** [f] after the call that gave [r]. *)
Definition andThen
    (f : IncomingStreamTrack.t -> World -> IncomingStreamTrack.t * World)
    (r : IncomingStreamTrack.t * World) : IncomingStreamTrack.t * World :=
  f r.1 r.2.

(** The property as first stated: a [Detached] at 0 takes the counter to
    -1 and emits "detached". *)
Definition detachAtZeroEmits (i : IncomingStreamTrack.t) (w : World) : Prop :=
  IncomingStreamTrack.counter i = 0 ->
  IncomingStreamTrack.counter (IncomingStreamTrack.Detached i w).1 = -1
  /\ emitted (OfTrack (IncomingStreamTrack.id i)) "detached"
       (trace (IncomingStreamTrack.Detached i w).2)
     = S (emitted (OfTrack (IncomingStreamTrack.id i)) "detached" (trace w)).

(** Nothing that happened between [w] and [w'] was [who] emitting [ev]. *)
Definition silent (who : EmitterOf) (ev : string) (w w' : World) : Prop :=
  emitted who ev (trace w') = emitted who ev (trace w).

(** What a step on a stream keeps: its id, its transport and receiver, and
    no track is added. *)
Definition keepsStream (who : EmitterOf) (ev : string)
    (a a' : IncomingStream.t * World) : Prop :=
  IncomingStream.id a'.1 = IncomingStream.id a.1
  /\ IncomingStream.transport a'.1 = IncomingStream.transport a.1
  /\ IncomingStream.receiver a'.1 = IncomingStream.receiver a.1
  /\ dom (IncomingStream.tracks a'.1) ⊆ dom (IncomingStream.tracks a.1)
  /\ silent who ev a.2 a'.2.

(** A track with two encodings, a stream that owns it, and a session. *)
Definition sampleGroup (rid : string) (ssrc : Z) : RTPIncomingSourceGroup.t :=
  RTPIncomingSourceGroup.SetMediaSsrc ssrc
    (RTPIncomingSourceGroup.SetRid rid (NewRTPIncomingSourceGroup 1)).

Definition sampleSources : gmap string RTPIncomingSourceGroup.t :=
  <["a" := sampleGroup "a" 100]> (<["b" := sampleGroup "b" 200]> ∅).

Definition sampleTrack : IncomingStreamTrack.t :=
  IncomingStreamTrack.mk "t1" "video" (Some 1%nat) 0
    (<["a" := Encoding.mk "a" (sampleGroup "a" 100)
               (Some (Depacketizer (sampleGroup "a" 100)))]>
       (<["b" := Encoding.mk "b" (sampleGroup "b" 200)
                  (Some (Depacketizer (sampleGroup "b" 200)))]> ∅))
    (TrackInfo.NewTrackInfo "t1" "video") ∅
    [OnStopped_CreateTrack sampleSources].

Definition sampleStream : IncomingStream.t :=
  IncomingStream.mk "s1" (Some 1%nat) (Some 1%nat) (<["t1" := sampleTrack]> ∅).

Definition sampleSession : StreamerSession.t unit :=
  StreamerSession.mk unit "x1" true 5004 ""
    (Some (IncomingStreamTrack.mk "video" "video" (Some 2%nat) 0 ∅
             (TrackInfo.NewTrackInfo "video" "video") ∅
             [OnStopped_StreamerSession]))
    (Some tt) (Some 3%nat).

(** The calls [Stop] makes for one encoding (lines 422-428): its
    depacketizer is stopped and deleted, then its group is deleted. *)
Definition released (encoding : Encoding.t) : list Call :=
  match Encoding.depacketizer encoding with
  | Some d => [Call_DepacketizerStop d; Call_DeleteStreamTrackDepacketizer d]
  | None => []
  end
  ++ [Call_DeleteRTPIncomingSourceGroup (Encoding.source encoding)].

(** The calls that release what a track holds. *)
Definition isReleasing (c : Call) : bool :=
  match c with
  | Call_DepacketizerStop _ | Call_DeleteStreamTrackDepacketizer _
  | Call_DeleteRTPIncomingSourceGroup _ => true
  | _ => false
  end.

(** The calls [Stop] makes on a track: for each encoding, in the order the
    map gives them at question [tick w], what releases it, and at the end
    the "stopped" event; nothing on a track without receiver. *)
Definition teardown
    (rangeMap : nat -> forall V : Type, gmap string V -> list (string * V))
    (t : IncomingStreamTrack.t) (w : World) : list Call :=
  match IncomingStreamTrack.receiver t with
  | Some _ =>
      concat (released <$> (rangeMap (tick w) _ (IncomingStreamTrack.encodings t)).*2)
      ++ [Call_Emit (OfTrack (IncomingStreamTrack.id t)) "stopped"]
  | None => []
  end.

(** Every track of the stream is filed under its own id. *)
Definition keyedById (i : IncomingStream.t) : Prop :=
  forall k t, IncomingStream.tracks i !! k = Some t -> IncomingStreamTrack.id t = k.

(** How often the track [k] has emitted "stopped". *)
Definition trackStopped (k : string) (w : World) : nat :=
  emitted (OfTrack k) "stopped" (trace w).

(** Whether a track is live: it has its receiver. *)
Definition isLive (t : IncomingStreamTrack.t) : bool :=
  bool_decide (is_Some (IncomingStreamTrack.receiver t)).

(** The encodings a track holds while it is live. *)
Definition heldBy (t : IncomingStreamTrack.t) : list Encoding.t :=
  if isLive t then (map_to_list (IncomingStreamTrack.encodings t)).*2 else [].

(** The encodings of the live tracks of a stream. *)
Definition liveEncodings (i : IncomingStream.t) : list Encoding.t :=
  concat (heldBy <$> (map_to_list (IncomingStream.tracks i)).*2).

(** Orders of the entries of a cache, and whether an entry has bitrate. *)
Definition byBitrateDesc (a b : string * IncomingAllStats.t) : Prop :=
  IncomingAllStats.Bitrate b.2 <= IncomingAllStats.Bitrate a.2.

Definition hasBitrate (kv : string * IncomingAllStats.t) : bool :=
  IncomingAllStats.Bitrate kv.2 >? 0.

Definition lessByBitrateDesc (a b : string * IncomingAllStats.t) : bool :=
  IncomingAllStats.Bitrate a.2 >? IncomingAllStats.Bitrate b.2.

(** The simulcast index [rank] gives the entry at position [p] of the
    sorted slice. *)
Definition indexAt (p : nat) (kv : string * IncomingAllStats.t) : Z :=
  if hasBitrate kv then Z.of_nat p + 1 else -1.

(** A cache whose simulcast indices are in order: its entries can be listed
    by descending bitrate so that the [N] entries with bitrate come first
    and carry the indices 1 to [N] in that order, the others carry -1, and
    every media layer of an entry carries the index of the entry. *)
Definition ranked (cache : gmap string IncomingAllStats.t) : Prop :=
  exists sorted : list (string * IncomingAllStats.t),
    sorted ≡ₚ map_to_list cache
    /\ StronglySorted byBitrateDesc sorted
    /\ forall (p : nat) (kv : string * IncomingAllStats.t),
         sorted !! p = Some kv ->
         (hasBitrate kv = true <-> (p < length (List.filter hasBitrate sorted))%nat)
         /\ IncomingAllStats.SimulcastIdx kv.2 = indexAt p kv
         /\ Forall
              (fun layer =>
                 Layer.SimulcastIdx layer = IncomingAllStats.SimulcastIdx kv.2)
              (IncomingStats.Layers (IncomingAllStats.Media kv.2)).

(** The loop of lines 246-269 as a whole. *)
Definition refreshed (now : nat -> Z)
    (rangeMap : nat -> forall V : Type, gmap string V -> list (string * V))
    (Update : RTPIncomingSourceGroup.t -> RTPIncomingSourceGroup.t)
    (i : IncomingStreamTrack.t) (w : World) : IncomingStreamTrack.t * World :=
  foldl (IncomingStreamTrack.refresh now Update) (i, next w)
    (rangeMap (tick w) _ (IncomingStreamTrack.encodings i)).

(** What the loop makes of the entry [old] of an encoding it reaches at
    question [n]: a new entry when there was none or when [old] is more
    than 200 ms old at [n], else [old] itself. *)
Definition refreshOutcome (now : nat -> Z)
    (Update : RTPIncomingSourceGroup.t -> RTPIncomingSourceGroup.t)
    (n : nat) (old : option IncomingAllStats.t) (encoding : Encoding.t)
    (new : option IncomingAllStats.t) : Prop :=
  match old with
  | None =>
      new = Some (IncomingStreamTrack.newEntry (Update (Encoding.source encoding))
                    (now n))
  | Some state =>
      if decide (200000000 < now n - IncomingAllStats.timestamp state)
      then new = Some (IncomingStreamTrack.newEntry
                         (Update (Encoding.source encoding)) (now (S n)))
      else new = Some state
  end.

(** The clock answers with nanoseconds since 1970 that fit an [int64], and
    so do the timestamps of a cache it has stamped. *)
Definition clockInRange (now : nat -> Z) : Prop :=
  forall n : nat, 0 <= now n < 2 ^ 63.

Definition stampsInRange (cache : gmap string IncomingAllStats.t) : Prop :=
  forall id state,
    cache !! id = Some state -> 0 <= IncomingAllStats.timestamp state < 2 ^ 63.

(** A group whose media source reports the given bitrate, and a track with
    four encodings of bitrates 0, 50, 0 and 200. *)
Definition groupAt (rid : string) (bitrate : Z) : RTPIncomingSourceGroup.t :=
  RTPIncomingSourceGroup.mk 1 (Some rid) None
    (RTPIncomingSource.mk 1 0 0 0 0 0 0 0 0 bitrate [])
    (RTPIncomingSource.mk 0 0 0 0 0 0 0 0 0 0 [])
    (RTPIncomingSource.mk 0 0 0 0 0 0 0 0 0 0 []) 0 0 0 0.

Definition encodingAt (rid : string) (bitrate : Z) : Encoding.t :=
  Encoding.mk rid (groupAt rid bitrate) (Some (Depacketizer (groupAt rid bitrate))).

Definition fourEncodings : IncomingStreamTrack.t :=
  IncomingStreamTrack.mk "t4" "video" (Some 1%nat) 0
    (list_to_map
       [("0", encodingAt "0" 0); ("1", encodingAt "1" 50);
        ("2", encodingAt "2" 0); ("3", encodingAt "3" 200)])
    (TrackInfo.NewTrackInfo "t4" "video") ∅ [].

(** A clock that starts one second after 1970 and advances by a
    millisecond between two questions, a thousand times. *)
Definition sampleClock (n : nat) : Z :=
  1000000000 + 1000000 * Z.of_nat (Nat.min n 1000).

(** Whether an entry has more bitrate than [b], or at least [b]. *)
Definition above (b : Z) (kv : string * IncomingAllStats.t) : bool :=
  b <? IncomingAllStats.Bitrate kv.2.

Definition atLeast (b : Z) (kv : string * IncomingAllStats.t) : bool :=
  b <=? IncomingAllStats.Bitrate kv.2.

(** A track whose one encoding has a cached entry stamped at one second. *)
Definition cachedTrack : IncomingStreamTrack.t :=
  IncomingStreamTrack.mk "t5" "video" (Some 1%nat) 0
    (<["" := encodingAt "" 300]> ∅) (TrackInfo.NewTrackInfo "t5" "video")
    (<["" := IncomingStreamTrack.setSimulcastIdx 1
               (IncomingStreamTrack.newEntry (groupAt "" 300) 1000000000)]> ∅)
    [].

(** A clock that advances by 150 ms between two questions, a thousand
    times. *)
Definition slowClock (n : nat) : Z :=
  1000000000 + 150000000 * Z.of_nat (Nat.min n 1000).

(** Whether an entry of the cache has no bitrate (line 307). *)
Definition isInactive (kv : string * IncomingAllStats.t) : bool :=
  IncomingAllStats.Bitrate kv.2 =? 0.

Definition isActive (kv : string * IncomingAllStats.t) : bool :=
  negb (isInactive kv).

(** What [select] appends for one entry of the cache: to the inactive
    list, to the active list and to the global layer list. *)
Definition inactiveOf (kv : string * IncomingAllStats.t) : ActiveEncoding.t :=
  ActiveEncoding.mk kv.1 0 0 [].

Definition activeOf
    (sortSlice : forall A : Type, (A -> A -> bool) -> list A -> list A)
    (kv : string * IncomingAllStats.t) : ActiveEncoding.t :=
  let own :=
    IncomingStreamTrack.ownLayer
      <$> IncomingStats.Layers (IncomingAllStats.Media kv.2) in
  ActiveEncoding.mk kv.1 (IncomingAllStats.SimulcastIdx kv.2)
    (IncomingAllStats.Bitrate kv.2)
    (if (0 <? length own)%nat
     then sortSlice _ IncomingStreamTrack.lessLayer own else []).

Definition globalOf (MaxLayerId : Z) (kv : string * IncomingAllStats.t)
  : list Layer.t :=
  match IncomingStats.Layers (IncomingAllStats.Media kv.2) with
  | [] =>
      [Layer.mk kv.1 MaxLayerId MaxLayerId 0 0 (IncomingAllStats.Bitrate kv.2)
         (IncomingAllStats.SimulcastIdx kv.2)]
  | layers => IncomingStreamTrack.globalLayer kv.1 <$> layers
  end.

(** Ascending bitrate, on layers and on encodings. *)
Definition ascLayer (a b : Layer.t) : Prop := Layer.Bitrate a <= Layer.Bitrate b.

Definition ascEncoding (a b : ActiveEncoding.t) : Prop :=
  ActiveEncoding.Bitrate a <= ActiveEncoding.Bitrate b.


Definition ofEncoding (id : string) (layer : Layer.t) : bool :=
  bool_decide (Layer.EncodingId layer = id).

(** A track with a layered encoding ["hi"], a flat encoding ["lo"] and an
    encoding ["off"] that receives nothing. *)
Definition layeredGroup : RTPIncomingSourceGroup.t :=
  RTPIncomingSourceGroup.mk 1 (Some "hi") None
    (RTPIncomingSource.mk 1 0 0 30 0 6000 0 0 0 900
       [LayerSource.mk 0 1 2000 10 600; LayerSource.mk 0 0 1000 5 300])
    (RTPIncomingSource.mk 0 0 0 0 0 0 0 0 0 0 [])
    (RTPIncomingSource.mk 0 0 0 0 0 0 0 0 0 0 []) 0 0 0 0.

Definition mixedTrack : IncomingStreamTrack.t :=
  IncomingStreamTrack.mk "t6" "video" (Some 1%nat) 0
    (list_to_map
       [("hi", Encoding.mk "hi" layeredGroup (Some (Depacketizer layeredGroup)));
        ("lo", encodingAt "lo" 100); ("off", encodingAt "off" 0)])
    (TrackInfo.NewTrackInfo "t6" "video") ∅ [].

(** The groups a trace registers with the transport, the groups it
    creates, and the warnings it prints, each in order. *)
Definition registeredIn (tr : list Call) : list RTPIncomingSourceGroup.t :=
  omap (fun c => match c with Call_AddIncomingSourceGroup g => Some g | _ => None end) tr.

Definition createdIn (tr : list Call) : list Z :=
  omap (fun c => match c with Call_NewRTPIncomingSourceGroup m => Some m | _ => None end) tr.

Definition printedIn (tr : list Call) : list NumError :=
  omap (fun c => match c with Call_Println _ err => Some err | _ => None end) tr.

(** What has been added to the trace between [w] and [w']. *)
Definition since (w w' : World) : list Call := drop (length (trace w)) (trace w').

(** Whether the ["ssrc"] parameter of a signaled encoding, if it has one,
    parses; and the error it gives when it does not. *)
Definition parseError (e : TrackEncodingInfo.t) : option NumError :=
  match TrackEncodingInfo.GetParams e !! "ssrc" with
  | Some ssrc =>
      match strconv.ParseUint ssrc with
      | inl _ => None
      | inr err => Some err
      end
  | None => None
  end.

Definition resolvable (e : TrackEncodingInfo.t) : bool :=
  match parseError e with
  | None => true
  | Some _ => false
  end.

(** Every grouping relation of the description lists two SSRCs or more. *)
Definition wellFormedGroups (track : TrackInfo.t) : Prop :=
  Forall
    (fun g => exists a b rest, SourceGroupInfo.GetSSRCs g = Some (a :: b :: rest))
    (TrackInfo.GetSourceGroupS track).

(** The media SSRC of a group. *)
Definition mediaSsrc (g : RTPIncomingSourceGroup.t) : Z :=
  RTPIncomingSource.GetSsrc (RTPIncomingSourceGroup.GetMedia g).

(** Descriptions: one with rid encodings (the second with a malformed
    ssrc) and a SIM group, one with a SIM group only, one with neither. *)
Definition encodingInfo (rid : string) (ssrc : option string) : TrackEncodingInfo.t :=
  TrackEncodingInfo.mk rid false
    (match ssrc with Some s => <["ssrc" := s]> ∅ | None => ∅ end).

Definition ridTrack : TrackInfo.t :=
  TrackInfo.mk "v1" "video" "m0" [100; 101; 1; 2]
    [SourceGroupInfo.mk "FID" (Some [100; 101]);
     SourceGroupInfo.mk "SIM" (Some [1; 2])]
    [[encodingInfo "a" (Some "100")]; [encodingInfo "b" (Some "abc")];
     [encodingInfo "c" None]].

Definition simTrack : TrackInfo.t :=
  TrackInfo.mk "v2" "video" "" [1; 11; 2; 12]
    [SourceGroupInfo.mk "SIM" (Some [1; 2]);
     SourceGroupInfo.mk "FID" (Some [1; 11]);
     SourceGroupInfo.mk "FID" (Some [2; 12]);
     SourceGroupInfo.mk "FEC-FR" (Some [1; 21])]
    [].

Definition flatTrack : TrackInfo.t :=
  TrackInfo.mk "a1" "audio" "" [5; 6] [SourceGroupInfo.mk "FID" (Some [5; 6])] [].

(** A description whose only encoding has a malformed ssrc. *)
Definition malformedOnly : TrackInfo.t :=
  TrackInfo.mk "v3" "video" "" [] [] [[encodingInfo "a" (Some "abc")]].

Definition emptyStream : IncomingStream.t :=
  IncomingStream.mk "s0" (Some 1%nat) (Some 1%nat) ∅.

(** The property as first stated: building the source groups creates a
    group for the encodings that are not malformed and for no other. *)
Definition noGroupForMalformed (i : IncomingStream.t) (track : TrackInfo.t)
    (w : World) : Prop :=
  forall sources w',
    IncomingStream.createSources i track w = Some (sources, w') ->
    length (createdIn (since w w'))
    = length (List.filter resolvable (concat (TrackInfo.GetEncodings track))).

(** ** Vocabulary of the further properties *)

(** The raw counters of a source are not negative, and each of them sums
    over all the samples to less than [2^64]. *)
Definition countersFit (raw : list LayerSource.t) : Prop :=
  Forall
    (fun r =>
       0 <= LayerSource.GetTotalBytes r /\ 0 <= LayerSource.GetNumPackets r
       /\ 0 <= LayerSource.GetBitrate r)
    raw
  /\ Zsum (LayerSource.GetTotalBytes <$> raw) < 2 ^ 64
  /\ Zsum (LayerSource.GetNumPackets <$> raw) < 2 ^ 64
  /\ Zsum (LayerSource.GetBitrate <$> raw) < 2 ^ 64.

(** [n] calls of [f] in a row. *)
Definition times (n : nat)
    (f : IncomingStreamTrack.t -> World -> IncomingStreamTrack.t * World)
    (r : IncomingStreamTrack.t * World) : IncomingStreamTrack.t * World :=
  Nat.iter n (andThen f) r.

(** The rtx and fec SSRCs of a group. *)
Definition rtxSsrc (g : RTPIncomingSourceGroup.t) : Z :=
  RTPIncomingSource.GetSsrc (RTPIncomingSourceGroup.GetRtx g).

Definition fecSsrc (g : RTPIncomingSourceGroup.t) : Z :=
  RTPIncomingSource.GetSsrc (RTPIncomingSourceGroup.GetFec g).

(** What one source group, met under the key [k], adds to the descriptor
    of its track: SSRCs, grouping relations and encodings. *)
Definition signaledSsrcs (g : RTPIncomingSourceGroup.t) : list Z :=
  List.filter (fun ssrc => ssrc >? 0) [mediaSsrc g; rtxSsrc g; fecSsrc g].

Definition signaledGroups (g : RTPIncomingSourceGroup.t) : list SourceGroupInfo.t :=
  (if rtxSsrc g >? 0
   then [SourceGroupInfo.mk "FID" (Some [mediaSsrc g; rtxSsrc g])] else [])
  ++ (if fecSsrc g >? 0
      then [SourceGroupInfo.mk "FEC-FR" (Some [mediaSsrc g; fecSsrc g])] else []).

Definition signaledEncodings (kv : string * RTPIncomingSourceGroup.t)
  : list (list TrackEncodingInfo.t) :=
  if bool_decide (kv.1 = "") then []
  else [[TrackEncodingInfo.mk kv.1 false
           (if mediaSsrc kv.2 >? 0
            then <["ssrc" := strconv.FormatUint (mediaSsrc kv.2)]> ∅ else ∅)]].

(** Source groups whose descriptor can be read back: the media SSRC of
    every group is a 32-bit number other than 0 and no two groups share
    it, the other SSRCs are not negative, and the keys are either all rids
    (none empty, at least one) or the empty key alone. *)
Definition readBack (sources : gmap string RTPIncomingSourceGroup.t) : Prop :=
  (forall k g,
     sources !! k = Some g ->
     0 < mediaSsrc g <= 2 ^ 32 - 1 /\ 0 <= rtxSsrc g /\ 0 <= fecSsrc g)
  /\ (forall k k' g g',
        sources !! k = Some g -> sources !! k' = Some g' ->
        mediaSsrc g = mediaSsrc g' -> k = k')
  /\ ((sources <> ∅ /\ sources !! "" = None) \/ dom sources = {[""]}).

(** Two groups with the same three SSRCs. *)
Definition sameSsrcs (g g' : RTPIncomingSourceGroup.t) : Prop :=
  mediaSsrc g' = mediaSsrc g /\ rtxSsrc g' = rtxSsrc g /\ fecSsrc g' = fecSsrc g.

(** A track with a flat source group with an rtx companion. *)
Definition flatSources : gmap string RTPIncomingSourceGroup.t :=
  <["" := RTPIncomingSourceGroup.SetRtxSsrc 6 (sampleGroup "" 5)]> ∅.

(** The groups a trace deletes and those it removes from the transport,
    in order. *)
Definition deletedIn (tr : list Call) : list RTPIncomingSourceGroup.t :=
  omap (fun c => match c with Call_DeleteRTPIncomingSourceGroup g => Some g | _ => None end)
    tr.

Definition removedIn (tr : list Call) : list RTPIncomingSourceGroup.t :=
  omap (fun c => match c with Call_RemoveIncomingSourceGroup g => Some g | _ => None end)
    tr.

(** An encoding after the engine has updated the counters of its group. *)
Definition updatedEncoding
    (Update : RTPIncomingSourceGroup.t -> RTPIncomingSourceGroup.t)
    (e : Encoding.t) : Encoding.t :=
  Encoding.mk (Encoding.id e) (Update (Encoding.source e)) (Encoding.depacketizer e).

(** A description from which [CreateTrack] can build source groups: every
    grouping relation lists two SSRCs or more, and a description without
    rid encodings and without SIM relation signals an SSRC. *)
Definition buildable (track : TrackInfo.t) : Prop :=
  wellFormedGroups track
  /\ (TrackInfo.GetEncodings track = [] ->
      TrackInfo.GetSourceGroup "SIM" track = None ->
      TrackInfo.GetSSRCS track <> []).

(** The media frame type [CreateTrack] creates the groups of a
    description with (lines 110-113). *)
Definition mediaTypeOf (track : TrackInfo.t) : Z :=
  if bool_decide (TrackInfo.GetMedia track = "video") then 1 else 0.

(** The calls by which a track is built. *)
Definition isBuilding (c : Call) : bool :=
  match c with
  | Call_NewRTPIncomingSourceGroup _ | Call_AddIncomingSourceGroup _
  | Call_Println _ _ | Call_NewStreamTrackDepacketizer _ => true
  | _ => false
  end.

(** What a trace is made of after the source groups of a description have
    been built: only calls that build, each group created with the given
    media type. *)
Definition built (mediaType : Z) (w w' : World) : Prop :=
  exists tr,
    w' = mkWorld (tick w) (trace w ++ tr)
    /\ Forall (fun c => isBuilding c = true) tr
    /\ Forall (fun m => m = mediaType) (createdIn tr).

(** [track.Stop()] called by whoever holds [track], a track whose
    listeners were registered by the stream [i]: the track stops and the
    listeners that "stopped" fires run on the stream. *)
Definition stopTrackOf
    (rangeMap : nat -> forall V : Type, gmap string V -> list (string * V))
    (i : IncomingStream.t) (track : IncomingStreamTrack.t) (w : World)
  : option (IncomingStreamTrack.t * IncomingStream.t * World) :=
  let '(track, fired, w) := IncomingStreamTrack.Stop rangeMap track w in
  r ← foldlM (IncomingStream.runListener rangeMap (IncomingStreamTrack.id track))
        (i, w) fired;
  Some (track, r.1, r.2).

(** Whether [strings.ToLower] makes the media kind of a track [kind]. *)
Definition ofKind (ToLower : string -> string) (kind : string)
    (track : IncomingStreamTrack.t) : bool :=
  bool_decide (ToLower (IncomingStreamTrack.media track) = kind).

(** A stream with the track of two encodings and a track without any. *)
Definition twoTrackStream : IncomingStream.t :=
  IncomingStream.mk "s2" (Some 1%nat) (Some 1%nat)
    (<["t1" := sampleTrack]> (<["t0" := idleTrack]> ∅)).

(** Whether a listed track was built from one of the descriptions. *)
Definition builtFrom (receiver : option RTPReceiverFacade)
    (infoTracks : list TrackInfo.t) (k : string) (t : IncomingStreamTrack.t) : Prop :=
  IncomingStreamTrack.receiver t = receiver
  /\ IncomingStreamTrack.counter t = 0
  /\ exists track,
       track ∈ infoTracks
       /\ TrackInfo.GetID track = k
       /\ IncomingStreamTrack.media t = TrackInfo.GetMedia track.

(** * Verification *)

(** ** Machine integers *)

Lemma uint_range (x : Z) : Go.is_uint (Go.uint x).
Proof. unfold Go.is_uint, Go.uint. apply Z.mod_pos_bound. lia. Qed.

Lemma uint_small (x : Z) : Go.is_uint x -> Go.uint x = x.
Proof. unfold Go.is_uint, Go.uint. intros H. apply Z.mod_small. lia. Qed.

Lemma uadd_uint_l (x y : Z) : Go.uadd (Go.uint x) y = Go.uint (x + y).
Proof. unfold Go.uadd, Go.uint. apply Zplus_mod_idemp_l. Qed.

Lemma int_range (x : Z) : Go.is_int (Go.int x).
Proof.
  unfold Go.is_int, Go.int.
  pose proof (Z.mod_pos_bound (x + 2 ^ 63) (2 ^ 64) ltac:(lia)). lia.
Qed.

Lemma int_small (x : Z) : Go.is_int x -> Go.int x = x.
Proof.
  unfold Go.is_int, Go.int. intros H.
  rewrite Z.mod_small by lia. lia.
Qed.

(** ** Layer aggregator *)

Lemma accumulate_ids (a l2 : Layer.t) :
  layerIds (accumulate a l2) = layerIds a
  /\ Layer.EncodingId (accumulate a l2) = Layer.EncodingId a
  /\ Layer.SimulcastIdx (accumulate a l2) = Layer.SimulcastIdx a.
Proof. unfold accumulate, layerIds. by case_match. Qed.

Lemma foldl_accumulate_ids (raw : list LayerSource.t) (a : Layer.t) :
  layerIds (foldl accumulate a (layerInfo <$> raw)) = layerIds a
  /\ Layer.EncodingId (foldl accumulate a (layerInfo <$> raw)) = Layer.EncodingId a
  /\ Layer.SimulcastIdx (foldl accumulate a (layerInfo <$> raw)) = Layer.SimulcastIdx a.
Proof.
  revert a. induction raw as [|r raw IH]; intros a; [done|].
  rewrite fmap_cons. cbn [foldl].
  destruct (IH (accumulate a (layerInfo r))) as (H1 & H2 & H3).
  rewrite H1, H2, H3. apply accumulate_ids.
Qed.

Lemma accumulate_sums (a : Layer.t) (x : LayerSource.t) :
  let s := Layer.SpatialLayerId a in
  let t := Layer.TemporalLayerId a in
  let k (v : Z) := if covers s t x then v else 0 in
  Go.uint (Layer.TotalBytes (accumulate a (layerInfo x)))
    = Go.uint (Layer.TotalBytes a + k (LayerSource.GetTotalBytes x))
  /\ Go.uint (Layer.NumPackets (accumulate a (layerInfo x)))
    = Go.uint (Layer.NumPackets a + k (LayerSource.GetNumPackets x))
  /\ Go.uint (Layer.Bitrate (accumulate a (layerInfo x)))
    = Go.uint (Layer.Bitrate a + k (LayerSource.GetBitrate x)).
Proof.
  unfold accumulate, covers. case_match; cbn.
  - unfold Go.uadd, Go.uint. by rewrite !Z.mod_mod by lia.
  - by rewrite !Z.add_0_r.
Qed.

Lemma sumOver_cons (field : LayerSource.t -> Z) (s t : Z) (x : LayerSource.t)
    (raw : list LayerSource.t) :
  sumOver field s t (x :: raw)
  = (if covers s t x then field x else 0) + sumOver field s t raw.
Proof. unfold sumOver. cbn [List.filter]. by case_match. Qed.

Lemma uint_add_congr (a a' b : Z) :
  Go.uint a = Go.uint a' -> Go.uint (a + b) = Go.uint (a' + b).
Proof.
  unfold Go.uint. intros H.
  rewrite <- (Zplus_mod_idemp_l a), <- (Zplus_mod_idemp_l a'). by rewrite H.
Qed.

(** The inner loop: each field of the result is, up to wrap-around, what
    the accumulator held plus the sum over the samples that count. *)
Lemma foldl_accumulate_sums (raw : list LayerSource.t) (a : Layer.t) :
  let s := Layer.SpatialLayerId a in
  let t := Layer.TemporalLayerId a in
  let out := foldl accumulate a (layerInfo <$> raw) in
  Go.uint (Layer.TotalBytes out)
    = Go.uint (Layer.TotalBytes a + sumOver LayerSource.GetTotalBytes s t raw)
  /\ Go.uint (Layer.NumPackets out)
    = Go.uint (Layer.NumPackets a + sumOver LayerSource.GetNumPackets s t raw)
  /\ Go.uint (Layer.Bitrate out)
    = Go.uint (Layer.Bitrate a + sumOver LayerSource.GetBitrate s t raw).
Proof.
  revert a. induction raw as [|x raw IH]; intros a.
  - unfold sumOver; cbn. by rewrite !Z.add_0_r.
  - rewrite fmap_cons. cbn [foldl]. cbv zeta.
    destruct (IH (accumulate a (layerInfo x))) as (H1 & H2 & H3).
    destruct (accumulate_ids a (layerInfo x)) as (Hids & _).
    injection Hids as Hs Ht. rewrite Hs, Ht in H1, H2, H3.
    destruct (accumulate_sums a x) as (A1 & A2 & A3).
    rewrite H1, H2, H3, !sumOver_cons, !Z.add_assoc.
    split_and!; by apply uint_add_congr.
Qed.

(** Every field the loops write is the result of an addition on [uint], or
    the zero it started from. *)
Lemma foldl_accumulate_range (l : list Layer.t) (a : Layer.t) :
  Go.is_uint (Layer.TotalBytes a) ->
  Go.is_uint (Layer.NumPackets a) ->
  Go.is_uint (Layer.Bitrate a) ->
  Go.is_uint (Layer.TotalBytes (foldl accumulate a l))
  /\ Go.is_uint (Layer.NumPackets (foldl accumulate a l))
  /\ Go.is_uint (Layer.Bitrate (foldl accumulate a l)).
Proof.
  revert a. induction l as [|x l IH]; intros a H1 H2 H3; [done|].
  cbn [foldl]. apply IH; unfold accumulate; case_match; cbn;
    try done; apply uint_range.
Qed.

Lemma aggregate_spec (raw : list LayerSource.t) (layer : Layer.t) :
  let s := Layer.SpatialLayerId layer in
  let t := Layer.TemporalLayerId layer in
  let out := aggregate (layerInfo <$> raw) layer in
  layerIds out = (s, t)
  /\ Layer.EncodingId out = ""
  /\ Layer.SimulcastIdx out = 0
  /\ Layer.TotalBytes out = Go.uint (sumOver LayerSource.GetTotalBytes s t raw)
  /\ Layer.NumPackets out = Go.uint (sumOver LayerSource.GetNumPackets s t raw)
  /\ Layer.Bitrate out = Go.uint (sumOver LayerSource.GetBitrate s t raw).
Proof.
  cbv zeta. unfold aggregate.
  match goal with |- context [foldl accumulate ?a _] => set (a0 := a) end.
  destruct (foldl_accumulate_ids raw a0) as (H1 & H2 & H3).
  destruct (foldl_accumulate_sums raw a0) as (S1 & S2 & S3).
  destruct (foldl_accumulate_range (layerInfo <$> raw) a0) as (R1 & R2 & R3);
    [done..|].
  rewrite (uint_small _ R1) in S1. rewrite (uint_small _ R2) in S2.
  rewrite (uint_small _ R3) in S3.
  by rewrite H1, H2, H3, S1, S2, S3.
Qed.

(** The ids an output layer carries are those of the raw sample it was
    made for. *)
Lemma getStats_layers (source : RTPIncomingSource.t) :
  IncomingStats.Layers (getStatsFromIncomingSource source)
  = (fun r => aggregate (layerInfo <$> RTPIncomingSource.Layers source) (layerInfo r))
      <$> RTPIncomingSource.Layers source.
Proof. unfold getStatsFromIncomingSource. cbn. by rewrite <- list_fmap_compose. Qed.

Lemma getStats_layer_ids (source : RTPIncomingSource.t) :
  layerIds <$> IncomingStats.Layers (getStatsFromIncomingSource source)
  = (fun r => layerIds (layerInfo r)) <$> RTPIncomingSource.Layers source.
Proof.
  rewrite getStats_layers, <- list_fmap_compose.
  apply list_fmap_ext. intros _ r _. cbn.
  by destruct (aggregate_spec (RTPIncomingSource.Layers source) (layerInfo r))
    as (-> & _).
Qed.

Example getStats_threeLayers :
  IncomingStats.Layers (getStatsFromIncomingSource threeLayers)
  = [Layer.mk "" 1 1 6000 30 800 0; Layer.mk "" 0 0 1000 5 100 0;
     Layer.mk "" 0 1 3000 15 400 0].
Proof. reflexivity. Qed.

Example getStats_oneLayer :
  IncomingStats.Layers (getStatsFromIncomingSource oneLayer)
  = layerInfo <$> RTPIncomingSource.Layers oneLayer.
Proof. reflexivity. Qed.

(** C1, as first stated, fails: with two layers of [2^63] bytes each, the
    layer (0,1) reports 0 bytes, not [2^64]. *)
Lemma aggregator_exact_sum_fails : ~ exactSums overflowingSource.
Proof.
  intros H.
  destruct (H (Layer.mk "" 0 1 0 2 200 0)) as (Hbytes & _).
  - vm_compute. apply list_elem_of_In. right. by left.
  - vm_compute in Hbytes. discriminate Hbytes.
Qed.

(** C1 (amended).  For every receive sub-source, [getStatsFromIncomingSource]
    copies the nine top-level counters verbatim and produces one output layer
    per raw layer, in the same order and with the same (spatial, temporal)
    ids, so one per observed pair when the pairs are unique.  TotalBytes,
    NumPackets and Bitrate of the output layer for (s, t) each equal, modulo
    2^64 (the additions are on Go's [uint]), the sum of that field over all
    raw layers with spatial id <= s and temporal id <= t, the layer itself
    included; whenever that sum fits a [uint] the field is the sum itself.
    An empty raw layer list gives an empty output list. *)
Theorem aggregator_cumulative_sums (source : RTPIncomingSource.t) :
  let raw := RTPIncomingSource.Layers source in
  let out := getStatsFromIncomingSource source in
  (IncomingStats.LostPackets out = RTPIncomingSource.GetLostPackets source
   /\ IncomingStats.DropPackets out = RTPIncomingSource.GetDropPackets source
   /\ IncomingStats.NumPackets out = RTPIncomingSource.GetNumPackets source
   /\ IncomingStats.NumRTCPPackets out = RTPIncomingSource.GetNumRTCPPackets source
   /\ IncomingStats.TotalBytes out = RTPIncomingSource.GetTotalBytes source
   /\ IncomingStats.TotalRTCPBytes out = RTPIncomingSource.GetTotalRTCPBytes source
   /\ IncomingStats.TotalPLIs out = RTPIncomingSource.GetTotalPLIs source
   /\ IncomingStats.TotalNACKs out = RTPIncomingSource.GetTotalNACKs source
   /\ IncomingStats.Bitrate out = RTPIncomingSource.GetBitrate source)
  /\ length (IncomingStats.Layers out) = length raw
  /\ (forall (n : nat) (r : LayerSource.t),
        raw !! n = Some r ->
        exists l : Layer.t,
          IncomingStats.Layers out !! n = Some l
          /\ layerIds l = layerIds (layerInfo r)
          /\ let s := Layer.SpatialLayerId l in
             let t := Layer.TemporalLayerId l in
             let bytes := sumOver LayerSource.GetTotalBytes s t raw in
             let packets := sumOver LayerSource.GetNumPackets s t raw in
             let bitrate := sumOver LayerSource.GetBitrate s t raw in
             Layer.TotalBytes l = Go.uint bytes
             /\ Layer.NumPackets l = Go.uint packets
             /\ Layer.Bitrate l = Go.uint bitrate
             /\ (Go.is_uint bytes -> Layer.TotalBytes l = bytes)
             /\ (Go.is_uint packets -> Layer.NumPackets l = packets)
             /\ (Go.is_uint bitrate -> Layer.Bitrate l = bitrate))
  /\ (NoDup ((fun r => layerIds (layerInfo r)) <$> raw) ->
      NoDup (layerIds <$> IncomingStats.Layers out))
  /\ (raw = [] -> IncomingStats.Layers out = []).
Proof.
  cbv zeta. split; [done|]. split_and!.
  - by rewrite getStats_layers, length_fmap.
  - intros n r Hr.
    pose proof (aggregate_spec (RTPIncomingSource.Layers source) (layerInfo r))
      as (Hids & _ & _ & Hb & Hp & Hbr). cbv zeta in *.
    eexists. split.
    { rewrite getStats_layers, list_lookup_fmap, Hr. reflexivity. }
    injection Hids as Hs Ht. unfold layerIds. rewrite Hs, Ht.
    split; [done|]. rewrite Hb, Hp, Hbr.
    split_and!; try done; apply uint_small.
  - by rewrite getStats_layer_ids.
  - intros Hraw. by rewrite getStats_layers, Hraw.
Qed.

Lemma aggregator_cumulative_sums_witness :
  exists l : Layer.t,
    IncomingStats.Layers (getStatsFromIncomingSource threeLayers) !! 0%nat = Some l
    /\ layerIds l = (1, 1)
    /\ Layer.TotalBytes l = 6000 /\ Layer.NumPackets l = 30 /\ Layer.Bitrate l = 800.
Proof.
  destruct (aggregator_cumulative_sums threeLayers) as (_ & _ & H & _).
  destruct (H 0%nat (LayerSource.mk 1 1 3000 15 400) eq_refl)
    as (l & Hl & Hids & _ & _ & _ & Hb & Hp & Hr).
  exists l. split; [exact Hl|]. split; [exact Hids|].
  injection Hids as Hs Ht. rewrite Hs, Ht in Hb, Hp, Hr.
  split_and!; [apply Hb | apply Hp | apply Hr]; vm_compute; split; congruence.
Defined.

(** ** Counting notifications *)

Lemma emitted_app (who : EmitterOf) (ev : string) (tr tr' : list Call) :
  emitted who ev (tr ++ tr') = (emitted who ev tr + emitted who ev tr')%nat.
Proof. unfold emitted. by rewrite List.filter_app, length_app. Qed.

Lemma emitted_call (who : EmitterOf) (ev : string) (c : Call) (w : World) :
  emitted who ev (trace (call c w))
  = (emitted who ev (trace w) + if isEmit who ev c then 1 else 0)%nat.
Proof.
  change (trace (call c w)) with (trace w ++ [c]).
  rewrite emitted_app. unfold emitted. cbn. by case_match.
Qed.

Lemma isEmit_same (who : EmitterOf) (ev : string) :
  isEmit who ev (Call_Emit who ev) = true.
Proof. cbn. by rewrite !bool_decide_eq_true_2. Qed.

Lemma isEmit_other_event (who who' : EmitterOf) (ev ev' : string) :
  ev' <> ev -> isEmit who ev (Call_Emit who' ev') = false.
Proof.
  intros H. cbn. rewrite (bool_decide_eq_false_2 (ev' = ev)) by done.
  apply andb_false_r.
Qed.

Lemma isEmit_other_emitter (who who' : EmitterOf) (ev ev' : string) :
  who' <> who -> isEmit who ev (Call_Emit who' ev') = false.
Proof. intros H. cbn. by rewrite (bool_decide_eq_false_2 (who' = who)). Qed.

(** ** Attach and detach *)

Section Lifecycle.

Import IncomingStreamTrack.

Lemma Attached_spec (i : t) (w : World) :
  Attached i w
  = (withCounter (Go.iadd (counter i) 1) i,
     if Go.iadd (counter i) 1 =? 1
     then call (Call_Emit (OfTrack (id i)) "attached") w else w).
Proof. unfold Attached. cbn. by case_match. Qed.

Lemma Detached_spec (i : t) (w : World) :
  Detached i w
  = (withCounter (Go.isub (counter i) 1) i,
     if Go.isub (counter i) 1 =? 0
     then call (Call_Emit (OfTrack (id i)) "detached") w else w).
Proof. unfold Detached. cbn. by case_match. Qed.

Lemma iadd_1_is_1 (c : Z) : Go.is_int c -> (Go.iadd c 1 =? 1) = (c =? 0).
Proof.
  unfold Go.is_int, Go.iadd, Go.int. intros H.
  destruct (Z.eq_dec c (2 ^ 63 - 1)) as [->|Hne]; [done|].
  rewrite Z.mod_small by lia.
  destruct (Z.eqb_spec c 0); [subst; done|]. apply Z.eqb_neq. lia.
Qed.

Lemma isub_1_is_0 (c : Z) : Go.is_int c -> (Go.isub c 1 =? 0) = (c =? 1).
Proof.
  unfold Go.is_int, Go.isub, Go.int. intros H.
  destruct (Z.eq_dec c (- 2 ^ 63)) as [->|Hne]; [done|].
  rewrite Z.mod_small by lia.
  destruct (Z.eqb_spec c 1); [subst; done|]. apply Z.eqb_neq. lia.
Qed.

Lemma withCounter_same (i : t) : withCounter (counter i) i = i.
Proof. by destruct i. Qed.

Lemma withCounter_twice (c c' : Z) (i : t) :
  withCounter c (withCounter c' i) = withCounter c i.
Proof. done. Qed.

(** C7.  [Attached] adds one to the counter and [Detached] takes one off.
    [Attached] emits "attached", once, exactly when it takes the counter
    from 0 to 1, and [Detached] emits "detached", once, exactly when it
    takes the counter from 1 to 0; every other call emits nothing and
    neither call changes anything else.  Three [Attached] followed by two
    [Detached] on an idle track leave the counter at 1 (attached) with
    "attached" emitted once and "detached" never; one more [Detached] then
    emits "detached" once and leaves the counter at 0. *)
Theorem attach_detach_reference_count (i : t) (w : World) :
  Go.is_int (counter i) ->
  let who := OfTrack (id i) in
  (Attached i w
   = (withCounter (Go.iadd (counter i) 1) i,
      if counter i =? 0 then call (Call_Emit who "attached") w else w))
  /\ (Detached i w
      = (withCounter (Go.isub (counter i) 1) i,
         if counter i =? 1 then call (Call_Emit who "detached") w else w))
  /\ (counter i = 0 ->
      let r :=
        andThen Detached (andThen Detached
          (andThen Attached (andThen Attached (Attached i w)))) in
      r = (withCounter 1 i, call (Call_Emit who "attached") w)
      /\ emitted who "attached" (trace r.2) = S (emitted who "attached" (trace w))
      /\ emitted who "detached" (trace r.2) = emitted who "detached" (trace w)
      /\ andThen Detached r
         = (i, call (Call_Emit who "detached") (call (Call_Emit who "attached") w))
      /\ emitted who "detached" (trace (andThen Detached r).2)
         = S (emitted who "detached" (trace w))).
Proof.
  intros Hc who. split_and!.
  - by rewrite Attached_spec, iadd_1_is_1.
  - by rewrite Detached_spec, isub_1_is_0.
  - intros H0. cbv zeta.
    assert (andThen Detached (andThen Detached
              (andThen Attached (andThen Attached (Attached i w))))
            = (withCounter 1 i, call (Call_Emit who "attached") w)) as Hr.
    { unfold andThen. rewrite !Attached_spec, !Detached_spec. cbn. by rewrite H0. }
    rewrite Hr. split; [done|]. split_and!.
    + cbn [snd]. rewrite emitted_call, isEmit_same. lia.
    + cbn [snd]. rewrite emitted_call, isEmit_other_event by done. lia.
    + unfold andThen. rewrite Detached_spec. cbn.
      change (Go.isub 1 1) with 0. cbn. f_equal.
      rewrite withCounter_twice, <- H0. apply withCounter_same.
    + unfold andThen. rewrite Detached_spec. cbn [fst snd counter withCounter].
      change (Go.isub 1 1) with 0. cbn [Z.eqb snd].
      rewrite !emitted_call, isEmit_same, isEmit_other_event by done. lia.
Qed.

Lemma attach_detach_reference_count_witness :
  let who := OfTrack "t0" in
  let r :=
    andThen Detached (andThen Detached
      (andThen Attached (andThen Attached (Attached idleTrack startOfWorld)))) in
  counter r.1 = 1
  /\ emitted who "attached" (trace r.2) = 1%nat
  /\ emitted who "detached" (trace r.2) = 0%nat
  /\ counter (andThen Detached r).1 = 0
  /\ emitted who "detached" (trace (andThen Detached r).2) = 1%nat.
Proof.
  assert (Go.is_int (counter idleTrack)) as Hint by (vm_compute; split; congruence).
  destruct (attach_detach_reference_count idleTrack startOfWorld Hint)
    as (_ & _ & H).
  destruct (H eq_refl) as (Hr & Ha & Hd & Hr' & Hd').
  cbv zeta. split_and!.
  - by rewrite Hr.
  - exact Ha.
  - exact Hd.
  - by rewrite Hr'.
  - exact Hd'.
Defined.

(** C10, as first stated, fails: a [Detached] on an idle track takes the
    counter to -1 and emits nothing. *)
Lemma detach_at_zero_emits_fails : ~ detachAtZeroEmits idleTrack startOfWorld.
Proof.
  intros H. destruct (H eq_refl) as (_ & Hemit).
  vm_compute in Hemit. discriminate Hemit.
Qed.

(** C10 (amended).  The counter is not clamped at zero: a [Detached] at 0
    takes it to -1 and emits nothing, since "detached" is emitted only when
    the counter becomes exactly 0.  An [Attached] after it takes the counter
    from -1 to 0 and emits nothing either, since "attached" is emitted only
    when the counter becomes exactly 1: the two calls together leave track
    and world as they were.  One extra [Detached] thus shifts which later
    calls emit: it is the second [Attached] after it that emits
    "attached". *)
Theorem detach_below_zero_shifts (i : t) (w : World) :
  counter i = 0 ->
  let who := OfTrack (id i) in
  Detached i w = (withCounter (-1) i, w)
  /\ andThen Attached (Detached i w) = (i, w)
  /\ andThen Attached (andThen Attached (Detached i w))
     = (withCounter 1 i, call (Call_Emit who "attached") w)
  /\ Attached i w = (withCounter 1 i, call (Call_Emit who "attached") w).
Proof.
  intros H0 who. subst who. destruct i as [id' media' recv c encs info st em].
  cbn in H0. subst c. unfold andThen.
  rewrite !Detached_spec, !Attached_spec. by split_and!.
Qed.

Lemma detach_below_zero_shifts_witness :
  counter (Detached idleTrack startOfWorld).1 = -1
  /\ trace (Detached idleTrack startOfWorld).2 = []
  /\ andThen Attached (Detached idleTrack startOfWorld) = (idleTrack, startOfWorld).
Proof.
  destruct (detach_below_zero_shifts idleTrack startOfWorld eq_refl)
    as (Hd & Ha & _).
  rewrite Ha, Hd. by vm_compute.
Defined.

End Lifecycle.

(** ** Stop *)

Lemma silent_refl (who : EmitterOf) (ev : string) (w : World) : silent who ev w w.
Proof. done. Qed.

Lemma silent_trans (who : EmitterOf) (ev : string) (w1 w2 w3 : World) :
  silent who ev w1 w2 -> silent who ev w2 w3 -> silent who ev w1 w3.
Proof. unfold silent. congruence. Qed.

Lemma silent_next (who : EmitterOf) (ev : string) (w : World) :
  silent who ev w (next w).
Proof. done. Qed.

Lemma silent_call (who : EmitterOf) (ev : string) (c : Call) (w : World) :
  isEmit who ev c = false -> silent who ev w (call c w).
Proof. intros H. unfold silent. rewrite emitted_call, H. lia. Qed.

Lemma loud_call (who : EmitterOf) (ev : string) (w : World) :
  emitted who ev (trace (call (Call_Emit who ev) w)) = S (emitted who ev (trace w)).
Proof. rewrite emitted_call, isEmit_same. lia. Qed.

(** A loop that cannot panic: if every turn keeps [P] and is related by the
    preorder [R] to where it began, so is the whole loop. *)
Lemma foldlM_keeps {A B : Type} (f : A -> B -> option A) (P : A -> Prop)
    (R : A -> A -> Prop) (l : list B) (a : A) :
  (forall a, R a a) ->
  (forall a1 a2 a3, R a1 a2 -> R a2 a3 -> R a1 a3) ->
  (forall a b, P a -> b ∈ l -> exists a', f a b = Some a' /\ P a' /\ R a a') ->
  P a ->
  exists a', foldlM f a l = Some a' /\ P a' /\ R a a'.
Proof.
  intros Hrefl Htrans. revert a.
  induction l as [|b l IH]; intros a Hstep Ha; cbn.
  - eauto.
  - destruct (Hstep a b Ha) as (a1 & -> & Ha1 & HR1); [by left|].
    destruct (IH a1) as (a2 & -> & Ha2 & HR2); [|done|].
    + intros a' b' Ha' Hb'. apply Hstep; [done | by right].
    + eauto.
Qed.

Section StopProofs.

Variable rangeMap : nat -> forall V : Type, gmap string V -> list (string * V).

Lemma release_silent (who : EmitterOf) (ev : string) (w : World)
    (kv : string * Encoding.t) :
  silent who ev w (IncomingStreamTrack.release w kv).
Proof.
  unfold IncomingStreamTrack.release.
  destruct (Encoding.depacketizer kv.2);
    repeat (eapply silent_trans; [|by apply silent_call]); apply silent_refl.
Qed.

Lemma foldl_release_silent (who : EmitterOf) (ev : string)
    (l : list (string * Encoding.t)) (w : World) :
  silent who ev w (foldl IncomingStreamTrack.release w l).
Proof.
  revert w. induction l as [|kv l IH]; intros w; cbn; [done|].
  eapply silent_trans; [apply release_silent | apply IH].
Qed.

(** [Stop] on a track that is stopped changes nothing. *)
Lemma track_Stop_stopped (i : IncomingStreamTrack.t) (w : World) :
  IncomingStreamTrack.receiver i = None ->
  IncomingStreamTrack.Stop rangeMap i w = (i, [], w).
Proof. unfold IncomingStreamTrack.Stop. by intros ->. Qed.

(** [Stop] on a live track. *)
Lemma track_Stop_live (i : IncomingStreamTrack.t) (w : World) :
  is_Some (IncomingStreamTrack.receiver i) ->
  exists i' w',
    IncomingStreamTrack.Stop rangeMap i w = (i', IncomingStreamTrack.Emitter i, w')
    /\ IncomingStreamTrack.id i' = IncomingStreamTrack.id i
    /\ IncomingStreamTrack.receiver i' = None
    /\ IncomingStreamTrack.encodings i' = ∅
    /\ IncomingStreamTrack.Emitter i' = []
    /\ emitted (OfTrack (IncomingStreamTrack.id i)) "stopped" (trace w')
       = S (emitted (OfTrack (IncomingStreamTrack.id i)) "stopped" (trace w))
    /\ (forall who ev,
          who <> OfTrack (IncomingStreamTrack.id i) -> silent who ev w w').
Proof.
  intros [r Hr]. unfold IncomingStreamTrack.Stop. rewrite Hr.
  eexists _, _. split; [reflexivity|]. cbn [IncomingStreamTrack.id
    IncomingStreamTrack.receiver IncomingStreamTrack.encodings
    IncomingStreamTrack.Emitter]. split_and!; try done.
  - rewrite loud_call. f_equal.
    apply (foldl_release_silent _ _ _ (next w)).
  - intros who ev Hwho.
    eapply silent_trans; [apply silent_next|].
    eapply silent_trans; [apply foldl_release_silent|].
    apply silent_call. by apply isEmit_other_emitter.
Qed.

Lemma track_Stop_silent (i : IncomingStreamTrack.t) (w : World)
    (who : EmitterOf) (ev : string) :
  who <> OfTrack (IncomingStreamTrack.id i) ->
  silent who ev w (IncomingStreamTrack.Stop rangeMap i w).2.
Proof.
  intros Hwho. destruct (IncomingStreamTrack.receiver i) as [r|] eqn:Hr.
  - destruct (track_Stop_live i w) as (i' & w' & -> & _ & _ & _ & _ & _ & H);
      [by eexists|]. by apply H.
  - by rewrite track_Stop_stopped.
Qed.

Lemma keepsStream_refl (who : EmitterOf) (ev : string)
    (a : IncomingStream.t * World) : keepsStream who ev a a.
Proof. by unfold keepsStream. Qed.

Lemma keepsStream_trans (who : EmitterOf) (ev : string)
    (a1 a2 a3 : IncomingStream.t * World) :
  keepsStream who ev a1 a2 -> keepsStream who ev a2 a3 -> keepsStream who ev a1 a3.
Proof.
  unfold keepsStream. intros (? & ? & ? & ? & ?) (? & ? & ? & ? & ?).
  split_and!.
  - congruence.
  - congruence.
  - congruence.
  - set_solver.
  - by eapply silent_trans.
Qed.

Lemma remove_sources_silent (who : EmitterOf) (ev : string)
    (i : IncomingStream.t) (l : list (string * RTPIncomingSourceGroup.t))
    (w : World) :
  is_Some (IncomingStream.transport i) ->
  exists w',
    foldlM
      (fun w kv =>
         match IncomingStream.transport i with
         | Some _ => Some (call (Call_RemoveIncomingSourceGroup kv.2) w)
         | None => None
         end) w l = Some w'
    /\ silent who ev w w'.
Proof.
  intros [tr Htr]. rewrite Htr. clear Htr.
  revert w. induction l as [|kv l IH]; intros w; cbn.
  - eauto using silent_refl.
  - destruct (IH (call (Call_RemoveIncomingSourceGroup kv.2) w))
      as (w' & -> & Hs).
    eexists. split; [done|].
    eapply silent_trans; [|exact Hs]. by apply silent_call.
Qed.

(** With a transport at hand a listener cannot panic; it only deletes. *)
Lemma runListener_keeps (who : EmitterOf) (ev : string) (trackID : string)
    (a : IncomingStream.t * World) (l : Listener) :
  is_Some (IncomingStream.transport a.1) ->
  exists a',
    IncomingStream.runListener rangeMap trackID a l = Some a'
    /\ is_Some (IncomingStream.transport a'.1)
    /\ keepsStream who ev a a'.
Proof.
  destruct a as [i w]. cbn [fst]. intros Htr.
  destruct l as [sources| |]; cbn [IncomingStream.runListener].
  - destruct (remove_sources_silent who ev
                (IncomingStream.withTracks
                   (delete trackID (IncomingStream.tracks i)) i)
                (rangeMap (tick w) _ sources) (next w)) as (w' & Hw' & Hs);
      [done|].
    rewrite Hw'. cbn. eexists. split; [done|]. split; [done|].
    unfold keepsStream. cbn. split_and!; try done.
    rewrite dom_delete_L. set_solver.
  - eexists. split; [done|]. split; [done|].
    unfold keepsStream. cbn. split_and!; try done.
    rewrite dom_delete_L. set_solver.
  - eexists. split; [done|]. split; [done|]. apply keepsStream_refl.
Qed.

(** One turn of the loop of the stream's [Stop]: no panic, the entry is
    gone afterwards, and no stream has emitted anything. *)
Lemma stopTrack_keeps (sid : string) (ev : string)
    (a : IncomingStream.t * World) (kv : string * IncomingStreamTrack.t) :
  is_Some (IncomingStream.transport a.1) ->
  exists a',
    IncomingStream.stopTrack rangeMap a kv = Some a'
    /\ is_Some (IncomingStream.transport a'.1)
    /\ keepsStream (OfStream sid) ev a a'
    /\ kv.1 ∉ dom (IncomingStream.tracks a'.1).
Proof.
  destruct a as [i w]. cbn [fst]. intros Htr.
  unfold IncomingStream.stopTrack.
  destruct (IncomingStream.tracks i !! kv.1) as [track|] eqn:Hk.
  - pose proof (track_Stop_silent track w (OfStream sid) ev) as Hsil.
    destruct (IncomingStreamTrack.Stop rangeMap track w) as [[track' fired] w1].
    destruct (foldlM_keeps
                (IncomingStream.runListener rangeMap (IncomingStreamTrack.id track'))
                (fun a => is_Some (IncomingStream.transport a.1))
                (keepsStream (OfStream sid) ev) fired (i, w1))
      as ([i2 w2] & -> & Htr2 & Hk2).
    + apply keepsStream_refl.
    + apply keepsStream_trans.
    + intros a b Ha _. by apply runListener_keeps.
    + done.
    + cbn. eexists. split; [done|]. cbn. split; [done|].
      destruct Hk2 as (? & ? & ? & Hdom & Hs2). cbn in *. split.
      * unfold keepsStream. cbn. split_and!; try done.
        -- rewrite dom_delete_L. set_solver.
        -- eapply silent_trans; [|done]. by apply Hsil.
      * rewrite dom_delete_L. set_solver.
  - eexists. split; [done|]. split; [done|]. split; [apply keepsStream_refl|].
    by apply not_elem_of_dom.
Qed.

Lemma stopTracks_keeps (sid : string) (ev : string)
    (l : list (string * IncomingStreamTrack.t)) (a : IncomingStream.t * World) :
  is_Some (IncomingStream.transport a.1) ->
  exists a',
    foldlM (IncomingStream.stopTrack rangeMap) a l = Some a'
    /\ is_Some (IncomingStream.transport a'.1)
    /\ keepsStream (OfStream sid) ev a a'
    /\ (forall k, k ∈ l.*1 -> k ∉ dom (IncomingStream.tracks a'.1)).
Proof.
  revert a. induction l as [|kv l IH]; intros a Htr; cbn.
  - eexists. split; [done|]. split; [done|]. split; [apply keepsStream_refl|].
    intros k Hk. by apply elem_of_nil in Hk.
  - destruct (stopTrack_keeps sid ev a kv Htr) as (a1 & -> & Htr1 & Hk1 & Hgone).
    destruct (IH a1 Htr1) as (a2 & -> & Htr2 & Hk2 & Hgone2).
    eexists. split; [done|]. split; [done|].
    split; [by eapply keepsStream_trans|].
    intros k [->|Hk]%elem_of_cons; [|by apply Hgone2].
    destruct Hk2 as (_ & _ & _ & Hdom & _). set_solver.
Qed.

(** [Stop] on a stream that is stopped changes nothing. *)
Lemma stream_Stop_stopped (i : IncomingStream.t) (w : World) :
  IncomingStream.transport i = None ->
  IncomingStream.Stop rangeMap i w = Some (i, w).
Proof. unfold IncomingStream.Stop. by intros ->. Qed.

(** [Stop] on a live stream does not panic. *)
Lemma stream_Stop_live (i : IncomingStream.t) (w : World) :
  is_Some (IncomingStream.transport i) ->
  exists i' w',
    IncomingStream.Stop rangeMap i w = Some (i', w')
    /\ IncomingStream.id i' = IncomingStream.id i
    /\ IncomingStream.transport i' = None
    /\ emitted (OfStream (IncomingStream.id i)) "stopped" (trace w')
       = S (emitted (OfStream (IncomingStream.id i)) "stopped" (trace w))
    /\ (Runtime.RangeSpec rangeMap -> IncomingStream.tracks i' = ∅).
Proof.
  intros Htr. unfold IncomingStream.Stop.
  destruct (IncomingStream.transport i) as [tr|] eqn:Htr'; [|by destruct Htr].
  destruct (stopTracks_keeps (IncomingStream.id i) "stopped"
              (rangeMap (tick w) _ (IncomingStream.tracks i)) (i, next w))
    as ([i1 w1] & -> & _ & (Hid & _ & _ & Hdom & Hs) & Hgone).
  { cbn. by rewrite Htr'. }
  cbn [fst snd] in *. eexists _, _. split; [reflexivity|].
  cbn [IncomingStream.id IncomingStream.transport IncomingStream.tracks].
  split_and!; try done.
  - rewrite Hid, loud_call. f_equal. apply Hs.
  - intros Hrange. apply map_empty. intros k.
    apply not_elem_of_dom. intros Hk.
    assert (k ∈ dom (IncomingStream.tracks i)) as Hk0 by set_solver.
    apply elem_of_dom in Hk0 as [t Ht].
    apply (Hgone k); [|done].
    apply list_elem_of_fmap. exists (k, t). split; [done|].
    rewrite (Hrange (tick w) _ (IncomingStream.tracks i)).
    by apply elem_of_map_to_list.
Qed.

End StopProofs.

Section SessionProofs.

Variable rangeMap : nat -> forall V : Type, gmap string V -> list (string * V).
Variable OutgoingStreamTrack : Type.
Variable outgoingStop : OutgoingStreamTrack -> OutgoingStreamTrack * bool.

Local Abbreviation sessionStop := (StreamerSession.Stop rangeMap OutgoingStreamTrack outgoingStop).

(** [Stop] on a session that is stopped changes nothing. *)
Lemma session_Stop_stopped (s : StreamerSession.t OutgoingStreamTrack) (w : World) :
  StreamerSession.session _ s = None -> sessionStop s w = (s, w).
Proof. unfold StreamerSession.Stop. by intros ->. Qed.

(** [Stop] on a live session. *)
Lemma session_Stop_live (s : StreamerSession.t OutgoingStreamTrack) (w : World) :
  is_Some (StreamerSession.session _ s) ->
  let who := OfSession (StreamerSession.id _ s) in
  StreamerSession.id _ (sessionStop s w).1 = StreamerSession.id _ s
  /\ StreamerSession.session _ (sessionStop s w).1 = None
  /\ emitted who "stopped" (trace (sessionStop s w).2)
     = S (emitted who "stopped" (trace w)).
Proof.
  intros [session Hs] who. unfold StreamerSession.Stop. rewrite Hs.
  assert (exists inc w1,
            match StreamerSession.incoming _ s with
            | Some track =>
                let '(track, fired, w) := IncomingStreamTrack.Stop rangeMap track w in
                (if StreamerSession.clearsIncoming fired then None else Some track, w)
            | None => (None, w)
            end = (inc, w1)
            /\ silent who "stopped" w w1) as (inc & w1 & -> & Hs1).
  { destruct (StreamerSession.incoming _ s) as [track|].
    - pose proof (track_Stop_silent rangeMap track w who "stopped") as Hsil.
      destruct (IncomingStreamTrack.Stop rangeMap track w) as [[track' fired] w1].
      eexists _, _. split; [done|]. by apply Hsil.
    - eexists _, _. split; [done|]. apply silent_refl. }
  assert (exists out w2,
            match StreamerSession.outgoing _ s with
            | Some track =>
                let '(track, stopped) := outgoingStop track in
                (if stopped then None else Some track, call Call_OutgoingStop w1)
            | None => (None, w1)
            end = (out, w2)
            /\ silent who "stopped" w1 w2) as (out & w2 & -> & Hs2).
  { destruct (StreamerSession.outgoing _ s) as [track|].
    - destruct (outgoingStop track) as [track' stopped].
      eexists _, _. split; [done|]. by apply silent_call.
    - eexists _, _. split; [done|]. apply silent_refl. }
  cbn [fst snd StreamerSession.id StreamerSession.session].
  split; [done|]. split; [done|].
  rewrite loud_call. f_equal.
  transitivity (emitted who "stopped" (trace w2)).
  - eapply silent_trans; by apply silent_call.
  - eapply silent_trans; [exact Hs1 | exact Hs2].
Qed.

End SessionProofs.

(** Visiting a map in the order of its keys, or in the reverse order, is a
    [range]. *)
Lemma rangeInOrder_spec : Runtime.RangeSpec Runtime.rangeInOrder.
Proof. by intros n V m. Qed.

Lemma rangeReversed_spec : Runtime.RangeSpec Runtime.rangeReversed.
Proof. intros n V m. unfold Runtime.rangeReversed. by rewrite reverse_Permutation. Qed.

(** *** What [Stop] adds to the trace *)

Lemma release_eq (w : World) (kv : string * Encoding.t) :
  IncomingStreamTrack.release w kv = mkWorld (tick w) (trace w ++ released kv.2).
Proof.
  unfold IncomingStreamTrack.release, released, call.
  destruct (Encoding.depacketizer kv.2); cbn; by rewrite <- ?app_assoc.
Qed.

Lemma foldl_release (l : list (string * Encoding.t)) (w : World) :
  foldl IncomingStreamTrack.release w l
  = mkWorld (tick w) (trace w ++ concat (released <$> l.*2)).
Proof.
  revert w. induction l as [|kv l IH]; intros w.
  - cbn. rewrite app_nil_r. by destruct w.
  - cbn [foldl]. rewrite IH, release_eq, !fmap_cons. cbn. by rewrite <- app_assoc.
Qed.

Lemma remove_sources (i : IncomingStream.t)
    (l : list (string * RTPIncomingSourceGroup.t)) (w : World) :
  is_Some (IncomingStream.transport i) ->
  foldlM
    (fun w kv =>
       match IncomingStream.transport i with
       | Some _ => Some (call (Call_RemoveIncomingSourceGroup kv.2) w)
       | None => None
       end) w l
  = Some (mkWorld (tick w) (trace w ++ (Call_RemoveIncomingSourceGroup <$> l.*2))).
Proof.
  intros [tr Htr]. rewrite Htr. clear Htr.
  revert w. induction l as [|kv l IH]; intros w; cbn [foldlM].
  - cbn. rewrite app_nil_r. by destruct w.
  - rewrite IH, !fmap_cons. cbn. by rewrite <- app_assoc.
Qed.

(** The listeners of a track that has stopped, run on a stream with a
    transport: none panics, and together they at most take the track out
    of the stream. *)
Lemma runListeners_tracks
    (rangeMap : nat -> forall V : Type, gmap string V -> list (string * V))
    (trackID : string) (ls : list Listener) (i : IncomingStream.t) (w : World) :
  is_Some (IncomingStream.transport i) ->
  exists i' w',
    foldlM (IncomingStream.runListener rangeMap trackID) (i, w) ls = Some (i', w')
    /\ IncomingStream.id i' = IncomingStream.id i
    /\ IncomingStream.transport i' = IncomingStream.transport i
    /\ IncomingStream.receiver i' = IncomingStream.receiver i
    /\ (IncomingStream.tracks i' = IncomingStream.tracks i
        \/ IncomingStream.tracks i' = delete trackID (IncomingStream.tracks i))
    /\ forall who ev, silent who ev w w'.
Proof.
  revert i w. induction ls as [|l ls IH]; intros i w Htr; cbn [foldlM].
  - exists i, w. split_and!; try done. by left.
  - assert (exists i1 w1,
              IncomingStream.runListener rangeMap trackID (i, w) l = Some (i1, w1)
              /\ IncomingStream.id i1 = IncomingStream.id i
              /\ IncomingStream.transport i1 = IncomingStream.transport i
              /\ IncomingStream.receiver i1 = IncomingStream.receiver i
              /\ (IncomingStream.tracks i1 = IncomingStream.tracks i
                  \/ IncomingStream.tracks i1 = delete trackID (IncomingStream.tracks i))
              /\ forall who ev, silent who ev w w1)
      as (i1 & w1 & -> & Hid & Htr1 & Hrecv & Htracks & Hsil).
    { destruct l as [sources| |]; cbn [IncomingStream.runListener].
      - rewrite remove_sources by done. cbn [mbind option_bind].
        eexists _, _. split; [reflexivity|]. split_and!; try done; [by right|].
        intros who ev. unfold silent, emitted. cbn [trace next].
        rewrite List.filter_app, length_app.
        assert (forall l : list RTPIncomingSourceGroup.t,
                  List.filter (isEmit who ev) (Call_RemoveIncomingSourceGroup <$> l)
                  = []) as ->; [|cbn; lia].
        induction l as [|g l IHl]; [done|]. by rewrite fmap_cons.
      - eexists _, _. split; [reflexivity|]. split_and!; try done. by right.
      - eexists _, _. split; [reflexivity|]. split_and!; try done. by left. }
    destruct (IH i1 w1) as (i2 & w2 & -> & Hid2 & Htr2 & Hrecv2 & Htracks2 & Hsil2).
    { by rewrite Htr1. }
    exists i2, w2. split; [done|].
    split; [congruence|]. split; [congruence|]. split; [congruence|]. split.
    + destruct Htracks as [->| ->] in Htracks2; destruct Htracks2 as [->| ->];
        rewrite ?delete_delete_eq; auto.
    + intros who ev. eapply silent_trans; [apply Hsil | apply Hsil2].
Qed.

Section Cascade.

Variable rangeMap : nat -> forall V : Type, gmap string V -> list (string * V).

(** One turn of the loop of lines 249-252 on a track that is filed under
    its own id. *)
Lemma stopTrack_keyed (i : IncomingStream.t) (w : World) (k : string)
    (t : IncomingStreamTrack.t) :
  is_Some (IncomingStream.transport i) ->
  IncomingStream.tracks i !! k = Some t ->
  IncomingStreamTrack.id t = k ->
  exists i' w',
    IncomingStream.stopTrack rangeMap (i, w) (k, t) = Some (i', w')
    /\ IncomingStream.id i' = IncomingStream.id i
    /\ IncomingStream.transport i' = IncomingStream.transport i
    /\ IncomingStream.tracks i' = delete k (IncomingStream.tracks i)
    /\ trackStopped k w' = (trackStopped k w + if isLive t then 1 else 0)%nat
    /\ (forall k', k' <> k -> trackStopped k' w' = trackStopped k' w)
    /\ forall sid ev, silent (OfStream sid) ev w w'.
Proof.
  intros Htr Hk Hid. unfold IncomingStream.stopTrack. cbn [fst]. rewrite Hk.
  unfold isLive, trackStopped.
  destruct (IncomingStreamTrack.receiver t) as [recv|] eqn:Hrecv.
  - destruct (track_Stop_live rangeMap t w) as (t' & w1 & -> & Hid' & _ & _ & _ & Hem & Hsil);
      [by eexists|].
    rewrite Hid', Hid in *.
    destruct (runListeners_tracks rangeMap k (IncomingStreamTrack.Emitter t) i w1 Htr)
      as (i2 & w2 & -> & Hid2 & Htr2 & _ & Htracks & Hsil2).
    cbn [mbind option_bind]. eexists _, _. split; [reflexivity|].
    cbn [IncomingStream.id IncomingStream.transport IncomingStream.tracks
         IncomingStream.withTracks].
    split_and!; try done.
    + destruct Htracks as [->| ->]; by rewrite ?delete_delete_eq.
    + rewrite bool_decide_eq_true_2 by by eexists.
      rewrite (Hsil2 (OfTrack k) "stopped"), Hem. lia.
    + intros k' Hk'. rewrite (Hsil2 (OfTrack k') "stopped").
      apply Hsil. congruence.
    + intros sid ev. eapply silent_trans; [by apply Hsil | apply Hsil2].
  - rewrite track_Stop_stopped by done. cbn [foldlM mbind option_bind].
    eexists _, _. split; [reflexivity|].
    cbn [IncomingStream.id IncomingStream.transport IncomingStream.tracks
         IncomingStream.withTracks].
    rewrite bool_decide_eq_false_2 by by intros [? ?].
    split_and!; try done; lia.
Qed.

(** The loop of lines 249-252 over tracks met once each. *)
Lemma stopTracks_keyed (l : list (string * IncomingStreamTrack.t))
    (i : IncomingStream.t) (w : World) :
  is_Some (IncomingStream.transport i) ->
  NoDup l.*1 ->
  (forall k t, (k, t) ∈ l ->
               IncomingStream.tracks i !! k = Some t /\ IncomingStreamTrack.id t = k) ->
  exists i' w',
    foldlM (IncomingStream.stopTrack rangeMap) (i, w) l = Some (i', w')
    /\ IncomingStream.id i' = IncomingStream.id i
    /\ (forall k t, (k, t) ∈ l ->
          trackStopped k w' = (trackStopped k w + if isLive t then 1 else 0)%nat)
    /\ (forall k, k ∉ l.*1 -> trackStopped k w' = trackStopped k w)
    /\ forall sid ev, silent (OfStream sid) ev w w'.
Proof.
  revert i w. induction l as [|[k0 t0] l IH]; intros i w Htr Hnd Hl.
  - exists i, w. split_and!; try done. intros k t Hkt. by apply elem_of_nil in Hkt.
  - rewrite fmap_cons in Hnd. apply NoDup_cons in Hnd as [Hk0 Hnd].
    destruct (Hl k0 t0) as [Hk Hid]; [by left|]. cbn [foldlM].
    destruct (stopTrack_keyed i w k0 t0 Htr Hk Hid)
      as (i1 & w1 & -> & Hid1 & Htr1 & Htracks1 & Hem1 & Hother1 & Hsil1).
    destruct (IH i1 w1) as (i2 & w2 & -> & Hid2 & Hin2 & Hout2 & Hsil2).
    { by rewrite Htr1. }
    { done. }
    { intros k t Hkt. destruct (Hl k t) as [Hk' Hid']; [by right|].
      split; [|done]. rewrite Htracks1, lookup_delete_ne; [done|].
      intros <-. apply Hk0. apply list_elem_of_fmap. by exists (k0, t). }
    exists i2, w2. split; [done|]. split; [congruence|]. split_and!.
    + intros k t [[= -> ->]|Hkt]%elem_of_cons.
      * by rewrite Hout2, Hem1.
      * rewrite (Hin2 k t Hkt), Hother1; [done|].
        intros ->. apply Hk0. apply list_elem_of_fmap. by exists (k0, t).
    + intros k Hk'. rewrite fmap_cons in Hk'. cbn in Hk'.
      apply not_elem_of_cons in Hk' as [Hne Hk'].
      by rewrite Hout2, Hother1.
    + intros sid ev. eapply silent_trans; [apply Hsil1 | apply Hsil2].
Qed.

End Cascade.

(** What [Stop] on a track adds to the trace. *)
Lemma track_Stop_teardown
    (rangeMap : nat -> forall V : Type, gmap string V -> list (string * V))
    (t : IncomingStreamTrack.t) (w : World) :
  trace (IncomingStreamTrack.Stop rangeMap t w).2 = trace w ++ teardown rangeMap t w.
Proof.
  unfold IncomingStreamTrack.Stop, teardown.
  destruct (IncomingStreamTrack.receiver t); cbn [snd].
  - rewrite foldl_release. unfold call. cbn [trace next]. by rewrite <- app_assoc.
  - by rewrite app_nil_r.
Qed.

Lemma concat_perm {A : Type} (l l' : list (list A)) :
  l ≡ₚ l' -> concat l ≡ₚ concat l'.
Proof.
  induction 1 as [|x l l' _ IH|x y l|l l' l'' _ IH1 _ IH2]; cbn [concat].
  - done.
  - by rewrite IH.
  - rewrite !app_assoc. f_equiv. apply Permutation_app_comm.
  - by rewrite IH1.
Qed.

Lemma releasing_released (l : list Encoding.t) :
  List.filter isReleasing (concat (released <$> l)) = concat (released <$> l).
Proof.
  induction l as [|e l IH]; [done|].
  rewrite fmap_cons. cbn [concat]. rewrite List.filter_app, IH. f_equal.
  unfold released. by destruct (Encoding.depacketizer e).
Qed.

(** Of the calls of [Stop] on a track, those that release are the ones
    for the encodings the track held. *)
Lemma releasing_teardown
    (rangeMap : nat -> forall V : Type, gmap string V -> list (string * V))
    (t : IncomingStreamTrack.t) (w : World) :
  Runtime.RangeSpec rangeMap ->
  List.filter isReleasing (teardown rangeMap t w) ≡ₚ concat (released <$> heldBy t).
Proof.
  intros Hrange. unfold teardown, heldBy, isLive.
  destruct (IncomingStreamTrack.receiver t) as [recv|] eqn:Hr.
  - rewrite bool_decide_eq_true_2 by by eexists.
    rewrite List.filter_app, releasing_released. cbn [List.filter isReleasing].
    rewrite app_nil_r. apply concat_perm, fmap_Permutation, fmap_Permutation, Hrange.
  - rewrite bool_decide_eq_false_2; [done|]. by intros [? ?].
Qed.

Lemma remove_sources_release_nothing (transport : option DTLSICETransport)
    (l : list (string * RTPIncomingSourceGroup.t)) (w w' : World) :
  foldlM
    (fun w kv =>
       match transport with
       | Some _ => Some (call (Call_RemoveIncomingSourceGroup kv.2) w)
       | None => None
       end) w l = Some w' ->
  exists tr, trace w' = trace w ++ tr /\ List.filter isReleasing tr = [].
Proof.
  revert w. induction l as [|kv l IH]; intros w; cbn [foldlM].
  - intros [= <-]. exists []. by rewrite app_nil_r.
  - destruct transport; [|done]. cbn [mbind option_bind].
    intros (tr & Htr & Hf)%IH. cbn [call trace] in Htr.
    exists (Call_RemoveIncomingSourceGroup kv.2 :: tr).
    split; [by rewrite Htr, <- app_assoc|done].
Qed.

(** The listeners of a stopped track release nothing: what they add to
    the trace are removals from the transport. *)
Lemma runListeners_release_nothing
    (rangeMap : nat -> forall V : Type, gmap string V -> list (string * V))
    (trackID : string) (ls : list Listener) (i i' : IncomingStream.t) (w w' : World) :
  foldlM (IncomingStream.runListener rangeMap trackID) (i, w) ls = Some (i', w') ->
  exists tr, trace w' = trace w ++ tr /\ List.filter isReleasing tr = [].
Proof.
  revert i w. induction ls as [|l ls IH]; intros i w; cbn [foldlM].
  - intros [= <- <-]. exists []. by rewrite app_nil_r.
  - destruct (IncomingStream.runListener rangeMap trackID (i, w) l)
      as [[i1 w1]|] eqn:Hl; [|done].
    cbn [mbind option_bind]. intros (tr2 & Htr2 & Hf2)%IH.
    assert (exists tr1, trace w1 = trace w ++ tr1 /\ List.filter isReleasing tr1 = [])
      as (tr1 & Htr1 & Hf1).
    { destruct l as [sources| |]; cbn [IncomingStream.runListener] in Hl.
      - destruct (foldlM _ (next w) _) as [w2|] eqn:Hloop; [|done].
        injection Hl as <- <-.
        by apply remove_sources_release_nothing in Hloop.
      - injection Hl as <- <-. exists []. by rewrite app_nil_r.
      - injection Hl as <- <-. exists []. by rewrite app_nil_r. }
    exists (tr1 ++ tr2). rewrite Htr2, Htr1, <- app_assoc. split; [done|].
    by rewrite List.filter_app, Hf1, Hf2.
Qed.

(** One turn of the loop of lines 249-252: the calls it adds that release
    are those of [Stop] on the track it visits. *)
Lemma stopTrack_teardown
    (rangeMap : nat -> forall V : Type, gmap string V -> list (string * V))
    (i i' : IncomingStream.t) (w w' : World) (k : string)
    (t0 t : IncomingStreamTrack.t) :
  IncomingStream.tracks i !! k = Some t ->
  IncomingStream.stopTrack rangeMap (i, w) (k, t0) = Some (i', w') ->
  exists tr,
    trace w' = trace w ++ tr
    /\ List.filter isReleasing tr = List.filter isReleasing (teardown rangeMap t w).
Proof.
  intros Hk. unfold IncomingStream.stopTrack. cbn [fst]. rewrite Hk.
  pose proof (track_Stop_teardown rangeMap t w) as Htrace.
  destruct (IncomingStreamTrack.Stop rangeMap t w) as [[t' fired] w1].
  cbn [snd] in Htrace.
  destruct (foldlM _ (i, w1) fired) as [[i2 w2]|] eqn:Hls; [|done].
  cbn [mbind option_bind]. intros [= <- <-].
  apply runListeners_release_nothing in Hls as (tr & Htr & Hf).
  exists (teardown rangeMap t w ++ tr).
  rewrite Htr, Htrace, <- app_assoc. split; [done|].
  by rewrite List.filter_app, Hf, app_nil_r.
Qed.

(** The loop of lines 249-252 over tracks met once each, each filed under
    its own id: what it releases is what the live ones held. *)
Lemma stopTracks_teardown
    (rangeMap : nat -> forall V : Type, gmap string V -> list (string * V))
    (l : list (string * IncomingStreamTrack.t))
    (i i' : IncomingStream.t) (w w' : World) :
  Runtime.RangeSpec rangeMap ->
  is_Some (IncomingStream.transport i) ->
  NoDup l.*1 ->
  (forall k t, (k, t) ∈ l ->
               IncomingStream.tracks i !! k = Some t /\ IncomingStreamTrack.id t = k) ->
  foldlM (IncomingStream.stopTrack rangeMap) (i, w) l = Some (i', w') ->
  exists tr,
    trace w' = trace w ++ tr
    /\ List.filter isReleasing tr ≡ₚ concat (released <$> concat (heldBy <$> l.*2)).
Proof.
  intros Hrange. revert i w. induction l as [|[k0 t0] l IH]; intros i w Htr Hnd Hl.
  - intros [= <- <-]. exists []. by rewrite app_nil_r.
  - rewrite fmap_cons in Hnd. apply NoDup_cons in Hnd as [Hk0 Hnd].
    destruct (Hl k0 t0) as [Hk Hid]; [by left|]. cbn [foldlM].
    destruct (stopTrack_keyed rangeMap i w k0 t0 Htr Hk Hid)
      as (i1 & w1 & Hstep & _ & Htr1 & Htracks1 & _).
    rewrite Hstep. cbn [mbind option_bind]. intros Hloop.
    destruct (stopTrack_teardown rangeMap i i1 w w1 k0 t0 t0 Hk Hstep)
      as (tr1 & Htrace1 & Hf1).
    destruct (IH i1 w1) as (tr2 & Htrace2 & Hf2).
    { by rewrite Htr1. }
    { done. }
    { intros k t Hkt. destruct (Hl k t) as [Hk' Hid']; [by right|].
      split; [|done]. rewrite Htracks1, lookup_delete_ne; [done|].
      intros <-. apply Hk0. apply list_elem_of_fmap. by exists (k0, t). }
    { done. }
    exists (tr1 ++ tr2). rewrite Htrace2, Htrace1, <- app_assoc. split; [done|].
    rewrite List.filter_app, Hf1, Hf2, !fmap_cons. cbn [concat snd].
    rewrite fmap_app, concat_app. f_equiv. by apply releasing_teardown.
Qed.

(** What [Stop] on a session with a session reference adds to the trace. *)
Lemma session_Stop_trace
    (rangeMap : nat -> forall V : Type, gmap string V -> list (string * V))
    (OutgoingStreamTrack : Type)
    (outgoingStop : OutgoingStreamTrack -> OutgoingStreamTrack * bool)
    (s : StreamerSession.t OutgoingStreamTrack) (w : World)
    (session : RTPSessionFacade) :
  StreamerSession.session _ s = Some session ->
  trace (StreamerSession.Stop rangeMap _ outgoingStop s w).2
  = trace w
    ++ match StreamerSession.incoming _ s with
       | Some t => teardown rangeMap t w
       | None => []
       end
    ++ match StreamerSession.outgoing _ s with
       | Some _ => [Call_OutgoingStop]
       | None => []
       end
    ++ [Call_SessionEnd session; Call_DeleteRTPSessionFacade session;
        Call_Emit (OfSession (StreamerSession.id _ s)) "stopped"].
Proof.
  intros Hs. unfold StreamerSession.Stop. rewrite Hs.
  assert (exists inc w1,
            match StreamerSession.incoming _ s with
            | Some track =>
                let '(track, fired, w) := IncomingStreamTrack.Stop rangeMap track w in
                (if StreamerSession.clearsIncoming fired then None else Some track, w)
            | None => (None, w)
            end = (inc, w1)
            /\ trace w1
               = trace w ++ match StreamerSession.incoming _ s with
                            | Some t => teardown rangeMap t w
                            | None => []
                            end) as (inc & w1 & -> & Hw1).
  { destruct (StreamerSession.incoming _ s) as [t|].
    - pose proof (track_Stop_teardown rangeMap t w) as Htrace.
      destruct (IncomingStreamTrack.Stop rangeMap t w) as [[t' fired] w1].
      by eexists _, _.
    - eexists _, _. by rewrite app_nil_r. }
  assert (exists out w2,
            match StreamerSession.outgoing _ s with
            | Some track =>
                let '(track, stopped) := outgoingStop track in
                (if stopped then None else Some track, call Call_OutgoingStop w1)
            | None => (None, w1)
            end = (out, w2)
            /\ trace w2
               = trace w1 ++ match StreamerSession.outgoing _ s with
                             | Some _ => [Call_OutgoingStop]
                             | None => []
                             end) as (out & w2 & -> & Hw2).
  { destruct (StreamerSession.outgoing _ s) as [o|].
    - destruct (outgoingStop o). by eexists _, _.
    - eexists _, _. by rewrite app_nil_r. }
  cbn [snd]. unfold call. cbn [trace]. rewrite Hw2, Hw1.
  by rewrite <- !app_assoc.
Qed.

Lemma since_extends (w w' : World) (tr : list Call) :
  trace w' = trace w ++ tr -> since w w' = tr.
Proof. intros H. unfold since. by rewrite H, drop_app_length. Qed.

(** C8.  On a track, a stream and a session alike: [Stop] on a live object
    (receiver, transport or session reference set) does its teardown without
    a panic, emits "stopped" on the object's own emitter exactly once, and
    clears that reference; [Stop] on an object whose reference is cleared
    returns it and the world unchanged.  Hence a second [Stop] emits nothing
    more and fails in no way: two calls produce exactly one "stopped".

    The teardown is what the first [Stop] adds to the trace.  For a track:
    for each encoding, its depacketizer is stopped and deleted and its
    source group is deleted, then "stopped" is emitted and the listeners
    of the track are handed over; the encodings are emptied.  For a stream
    whose tracks are filed under their ids: every track that still has its
    receiver is stopped, once, the encodings those tracks held are
    released, the track map is emptied, and the stream's "stopped" comes
    last.  For a session: the incoming track is stopped, then the outgoing
    one, then the session is ended and deleted, then "stopped" is emitted. *)
Theorem stop_is_idempotent
    (rangeMap : nat -> forall V : Type, gmap string V -> list (string * V))
    (OutgoingStreamTrack : Type)
    (outgoingStop : OutgoingStreamTrack -> OutgoingStreamTrack * bool) :
  (forall (i : IncomingStreamTrack.t) (w : World),
     is_Some (IncomingStreamTrack.receiver i) ->
     exists i' fired w',
       IncomingStreamTrack.Stop rangeMap i w = (i', fired, w')
       /\ IncomingStreamTrack.receiver i' = None
       /\ IncomingStreamTrack.encodings i' = ∅
       /\ fired = IncomingStreamTrack.Emitter i
       /\ since w w'
          = concat (released
                      <$> (rangeMap (tick w) _ (IncomingStreamTrack.encodings i)).*2)
            ++ [Call_Emit (OfTrack (IncomingStreamTrack.id i)) "stopped"]
       /\ (Runtime.RangeSpec rangeMap ->
           List.filter isReleasing (since w w')
           ≡ₚ concat (released <$> (map_to_list (IncomingStreamTrack.encodings i)).*2))
       /\ emitted (OfTrack (IncomingStreamTrack.id i)) "stopped" (trace w')
          = S (emitted (OfTrack (IncomingStreamTrack.id i)) "stopped" (trace w))
       /\ IncomingStreamTrack.Stop rangeMap i' w' = (i', [], w'))
  /\ (forall (i : IncomingStream.t) (w : World),
        is_Some (IncomingStream.transport i) ->
        exists i' w',
          IncomingStream.Stop rangeMap i w = Some (i', w')
          /\ IncomingStream.transport i' = None
          /\ (Runtime.RangeSpec rangeMap -> IncomingStream.tracks i' = ∅)
          /\ (Runtime.RangeSpec rangeMap -> keyedById i ->
              (forall k t,
                 IncomingStream.tracks i !! k = Some t ->
                 trackStopped k w' = (trackStopped k w + if isLive t then 1 else 0)%nat)
              /\ List.filter isReleasing (since w w')
                 ≡ₚ concat (released <$> liveEncodings i))
          /\ emitted (OfStream (IncomingStream.id i)) "stopped" (trace w')
             = S (emitted (OfStream (IncomingStream.id i)) "stopped" (trace w))
          /\ last (trace w')
             = Some (Call_Emit (OfStream (IncomingStream.id i)) "stopped")
          /\ IncomingStream.Stop rangeMap i' w' = Some (i', w'))
  /\ (forall (s : StreamerSession.t OutgoingStreamTrack) (w : World)
             (session : RTPSessionFacade),
        StreamerSession.session _ s = Some session ->
        exists s' w',
          StreamerSession.Stop rangeMap _ outgoingStop s w = (s', w')
          /\ StreamerSession.session _ s' = None
          /\ since w w'
             = match StreamerSession.incoming _ s with
               | Some t => teardown rangeMap t w
               | None => []
               end
               ++ match StreamerSession.outgoing _ s with
                  | Some _ => [Call_OutgoingStop]
                  | None => []
                  end
               ++ [Call_SessionEnd session; Call_DeleteRTPSessionFacade session;
                   Call_Emit (OfSession (StreamerSession.id _ s)) "stopped"]
          /\ emitted (OfSession (StreamerSession.id _ s)) "stopped" (trace w')
             = S (emitted (OfSession (StreamerSession.id _ s)) "stopped" (trace w))
          /\ StreamerSession.Stop rangeMap _ outgoingStop s' w' = (s', w')).
Proof.
  split_and!.
  - intros i w Hlive.
    destruct (track_Stop_live rangeMap i w Hlive)
      as (i' & w' & HS & _ & Hr & He & _ & Hem & _).
    exists i', (IncomingStreamTrack.Emitter i), w'.
    pose proof (track_Stop_teardown rangeMap i w) as Htrace.
    rewrite HS in Htrace. cbn [snd] in Htrace. apply since_extends in Htrace.
    assert (teardown rangeMap i w
            = concat (released
                        <$> (rangeMap (tick w) _ (IncomingStreamTrack.encodings i)).*2)
              ++ [Call_Emit (OfTrack (IncomingStreamTrack.id i)) "stopped"]) as Htd.
    { unfold teardown. by destruct Hlive as [recv ->]. }
    split_and!; try done.
    + by rewrite Htrace.
    + intros Hrange. rewrite Htrace, (releasing_teardown rangeMap i w Hrange).
      unfold heldBy, isLive. by rewrite bool_decide_eq_true_2.
    + by apply track_Stop_stopped.
  - intros i w Hlive.
    destruct (stream_Stop_live rangeMap i w Hlive)
      as (i' & w' & HS & _ & Htr & Hem & Hempty).
    exists i', w'. split; [exact HS|]. split; [done|]. split; [done|].
    split; [|split; [done|split; [|by apply stream_Stop_stopped]]].
    + intros Hrange Hkeyed.
      unfold IncomingStream.Stop in HS. destruct Hlive as [tr Htr0]. rewrite Htr0 in HS.
      set (visited := rangeMap (tick w) _ (IncomingStream.tracks i)) in *.
      assert (visited ≡ₚ map_to_list (IncomingStream.tracks i)) as Hperm
        by apply Hrange.
      assert (forall k t, (k, t) ∈ visited <-> IncomingStream.tracks i !! k = Some t)
        as Hv.
      { intros k t. by rewrite Hperm, elem_of_map_to_list. }
      assert (NoDup visited.*1) as Hnd.
      { rewrite Hperm. apply NoDup_fst_map_to_list. }
      assert (forall k t, (k, t) ∈ visited ->
                IncomingStream.tracks i !! k = Some t /\ IncomingStreamTrack.id t = k)
        as Hfiled.
      { intros k t Hkt. apply Hv in Hkt. split; [done|]. by apply Hkeyed. }
      destruct (stopTracks_keyed rangeMap visited i (next w))
        as (i1 & w1 & Hloop & Hid & Hin & _); [by rewrite Htr0|done..|].
      destruct (stopTracks_teardown rangeMap visited i i1 (next w) w1)
        as (tr1 & Htrace & Hrel); [done|by rewrite Htr0|done..|].
      rewrite Hloop in HS. cbn [mbind option_bind] in HS. injection HS as <- <-.
      split.
      * intros k t Ht. unfold trackStopped in *. rewrite emitted_call.
        rewrite isEmit_other_emitter by done. rewrite (Hin k t) by by apply Hv.
        cbn [trace next]. lia.
      * rewrite (since_extends w _ (tr1 ++ [Call_Emit (OfStream (IncomingStream.id i1))
                                           "stopped"])).
        2:{ unfold call. cbn [trace]. rewrite Htrace. cbn [trace next].
            by rewrite <- app_assoc. }
        rewrite List.filter_app. cbn [List.filter isReleasing]. rewrite app_nil_r, Hrel.
        unfold liveEncodings. by rewrite Hperm.
    + unfold IncomingStream.Stop in HS. destruct Hlive as [tr Htr0]. rewrite Htr0 in HS.
      destruct (foldlM _ _ _) as [[i1 w1]|] eqn:Hloop; [|done].
      cbn [mbind option_bind] in HS. injection HS as <- <-.
      unfold call. cbn [trace]. rewrite last_snoc.
      destruct (stopTracks_keeps rangeMap (IncomingStream.id i) "stopped"
                  (rangeMap (tick w) _ (IncomingStream.tracks i)) (i, next w))
        as ([i2 w2] & Hloop' & _ & (Hid & _) & _); [cbn; by rewrite Htr0|].
      rewrite Hloop in Hloop'. injection Hloop' as <- <-.
      cbn [fst] in Hid. by rewrite Hid.
  - intros s w session Hs.
    destruct (session_Stop_live rangeMap _ outgoingStop s w) as (_ & Hs' & Hem);
      [by eexists|].
    pose proof (session_Stop_trace rangeMap _ outgoingStop s w session Hs) as Htrace.
    destruct (StreamerSession.Stop rangeMap _ outgoingStop s w) as [s' w'] eqn:HS.
    exists s', w'. split_and!; try done.
    + by apply since_extends.
    + by apply session_Stop_stopped.
Qed.

Lemma stop_is_idempotent_witness :
  let stopTrack := IncomingStreamTrack.Stop Runtime.rangeInOrder in
  let stopStream := IncomingStream.Stop Runtime.rangeInOrder in
  let stopSession :=
    StreamerSession.Stop Runtime.rangeInOrder unit (fun o => (o, true)) in
  (exists i' fired w',
     stopTrack sampleTrack startOfWorld = (i', fired, w')
     /\ since startOfWorld w'
        = [Call_DepacketizerStop (Depacketizer (sampleGroup "a" 100));
           Call_DeleteStreamTrackDepacketizer (Depacketizer (sampleGroup "a" 100));
           Call_DeleteRTPIncomingSourceGroup (sampleGroup "a" 100);
           Call_DepacketizerStop (Depacketizer (sampleGroup "b" 200));
           Call_DeleteStreamTrackDepacketizer (Depacketizer (sampleGroup "b" 200));
           Call_DeleteRTPIncomingSourceGroup (sampleGroup "b" 200);
           Call_Emit (OfTrack "t1") "stopped"]
     /\ emitted (OfTrack "t1") "stopped" (trace w') = 1%nat
     /\ stopTrack i' w' = (i', [], w'))
  /\ (exists i' w',
        stopStream sampleStream startOfWorld = Some (i', w')
        /\ IncomingStream.tracks i' = ∅
        /\ trackStopped "t1" w' = 1%nat
        /\ List.filter isReleasing (since startOfWorld w')
           ≡ₚ concat (released <$> liveEncodings sampleStream)
        /\ emitted (OfStream "s1") "stopped" (trace w') = 1%nat
        /\ stopStream i' w' = Some (i', w'))
  /\ (exists s' w',
        stopSession sampleSession startOfWorld = (s', w')
        /\ since startOfWorld w'
           = [Call_Emit (OfTrack "video") "stopped"; Call_OutgoingStop;
              Call_SessionEnd 3%nat; Call_DeleteRTPSessionFacade 3%nat;
              Call_Emit (OfSession "x1") "stopped"]
        /\ emitted (OfSession "x1") "stopped" (trace w') = 1%nat
        /\ stopSession s' w' = (s', w')).
Proof.
  destruct (stop_is_idempotent Runtime.rangeInOrder unit (fun o => (o, true)))
    as (Htrack & Hstream & Hsession).
  cbv zeta. split_and!.
  - destruct (Htrack sampleTrack startOfWorld)
      as (i' & fired & w' & HS & _ & _ & _ & Hsince & _ & He & H2); [by eexists|].
    exists i', fired, w'. split_and!; [exact HS | | exact He | exact H2].
    rewrite Hsince. reflexivity.
  - destruct (Hstream sampleStream startOfWorld)
      as (i' & w' & HS & _ & Hempty & Hkeyed & He & _ & H2); [by eexists|].
    assert (keyedById sampleStream) as Hfiled.
    { intros k t. unfold sampleStream. cbn [IncomingStream.tracks].
      by intros [<- <-]%lookup_singleton_Some. }
    destruct (Hkeyed rangeInOrder_spec Hfiled) as [Hstopped Hreleased].
    exists i', w'.
    split_and!; [exact HS | exact (Hempty rangeInOrder_spec) | | exact Hreleased
                | exact He | exact H2].
    apply (Hstopped "t1" sampleTrack). reflexivity.
  - destruct (Hsession sampleSession startOfWorld 3%nat eq_refl)
      as (s' & w' & HS & _ & Hsince & He & H2).
    exists s', w'. split_and!; [exact HS | | exact He | exact H2].
    rewrite Hsince. reflexivity.
Defined.

(** ** Sorting *)

Section Sorting.

Context {A : Type} (less : A -> A -> bool).

Lemma insert_perm (x : A) (l : list A) : Runtime.insert less x l ≡ₚ x :: l.
Proof.
  induction l as [|y l IH]; cbn; [done|].
  case_match; [done|]. rewrite IH. apply Permutation_swap.
Qed.

Lemma insertionSort_perm (l : list A) : Runtime.insertionSort A less l ≡ₚ l.
Proof.
  unfold Runtime.insertionSort.
  assert (forall acc, foldl (fun sorted x => Runtime.insert less x sorted) acc l
                      ≡ₚ l ++ acc) as H.
  { induction l as [|x l IH]; intros acc; cbn; [done|].
    rewrite IH, insert_perm. by rewrite Permutation_middle. }
  by rewrite H, app_nil_r.
Qed.

Hypothesis Hless : Runtime.StrictWeakOrder less.

Lemma insert_sorted (x : A) (l : list A) :
  StronglySorted (fun a b => less b a = false) l ->
  StronglySorted (fun a b => less b a = false) (Runtime.insert less x l).
Proof.
  destruct Hless as [Hirr Htr Hntr].
  induction 1 as [|y l Hs IH Hy]; cbn.
  - repeat constructor.
  - destruct (less x y) eqn:Hxy.
    + constructor; [by constructor|].
      constructor.
      * destruct (less y x) eqn:Hyx; [|done].
        by rewrite <- (Hirr x), <- (Htr x y x Hxy Hyx).
      * eapply Forall_impl; [exact Hy|]. intros z Hzy. cbn in Hzy.
        destruct (less z x) eqn:Hzx; [|done].
        by rewrite <- Hzy, <- (Htr z x y Hzx Hxy).
    + constructor; [done|].
      rewrite insert_perm. by constructor.
Qed.

Lemma insertionSort_sorted (l : list A) :
  StronglySorted (fun a b => less b a = false) (Runtime.insertionSort A less l).
Proof.
  unfold Runtime.insertionSort.
  assert (forall acc,
            StronglySorted (fun a b => less b a = false) acc ->
            StronglySorted (fun a b => less b a = false)
              (foldl (fun sorted x => Runtime.insert less x sorted) acc l)) as H.
  { induction l as [|x l IH]; intros acc Hacc; cbn; [done|].
    by apply IH, insert_sorted. }
  apply H. constructor.
Qed.

End Sorting.

(** The insertion sort is a [sort.Slice]. *)
Lemma insertionSort_spec : Runtime.SortSliceSpec Runtime.insertionSort.
Proof.
  split.
  - intros A less l. apply insertionSort_perm.
  - intros A less l Hless. by apply insertionSort_sorted.
Qed.

Lemma lessByBitrateDesc_order : Runtime.StrictWeakOrder lessByBitrateDesc.
Proof.
  unfold lessByBitrateDesc.
  split; intros; repeat match goal with
    | H : (_ >? _) = _ |- _ => rewrite Z.gtb_ltb in H
    | |- (_ >? _) = _ => rewrite Z.gtb_ltb
    | H : (_ <? _) = true |- _ => apply Z.ltb_lt in H
    | H : (_ <? _) = false |- _ => apply Z.ltb_ge in H
    | |- (_ <? _) = true => apply Z.ltb_lt
    | |- (_ <? _) = false => apply Z.ltb_ge
    end; lia.
Qed.

Lemma StronglySorted_weaken {A : Type} (R1 R2 : A -> A -> Prop) (l : list A) :
  (forall a b, R1 a b -> R2 a b) -> StronglySorted R1 l -> StronglySorted R2 l.
Proof.
  intros HR. induction 1 as [|x l Hs IH Hx]; constructor; [done|].
  eapply Forall_impl; [exact Hx | apply HR].
Qed.

(** What [sort.Slice] makes of the slice of line 279. *)
Lemma sorted_byBitrateDesc
    (sortSlice : forall A : Type, (A -> A -> bool) -> list A -> list A)
    (l : list (string * IncomingAllStats.t)) :
  Runtime.SortSliceSpec sortSlice ->
  StronglySorted byBitrateDesc (sortSlice _ lessByBitrateDesc l).
Proof.
  intros [_ Hsorted].
  eapply StronglySorted_weaken; [|apply Hsorted, lessByBitrateDesc_order].
  intros a b. unfold lessByBitrateDesc, byBitrateDesc.
  rewrite Z.gtb_ltb. intros H%Z.ltb_ge. lia.
Qed.

(** ** Simulcast indices *)

Lemma setSimulcastIdx_idx (idx : Z) (st : IncomingAllStats.t) :
  IncomingAllStats.SimulcastIdx (IncomingStreamTrack.setSimulcastIdx idx st) = idx
  /\ Forall (fun layer => Layer.SimulcastIdx layer = idx)
       (IncomingStats.Layers
          (IncomingAllStats.Media (IncomingStreamTrack.setSimulcastIdx idx st))).
Proof.
  split; [done|]. cbn. apply Forall_fmap, Forall_true. by intros [].
Qed.

(** Numbering an entry changes its index and that of its media layers and
    nothing else. *)
Lemma setSimulcastIdx_keeps (idx : Z) (st : IncomingAllStats.t) :
  let st' := IncomingStreamTrack.setSimulcastIdx idx st in
  IncomingAllStats.timestamp st' = IncomingAllStats.timestamp st
  /\ IncomingAllStats.Bitrate st' = IncomingAllStats.Bitrate st
  /\ IncomingAllStats.Total st' = IncomingAllStats.Total st
  /\ IncomingAllStats.Rtt st' = IncomingAllStats.Rtt st
  /\ IncomingAllStats.MinWaitTime st' = IncomingAllStats.MinWaitTime st
  /\ IncomingAllStats.MaxWaitTime st' = IncomingAllStats.MaxWaitTime st
  /\ IncomingAllStats.AvgWaitTime st' = IncomingAllStats.AvgWaitTime st
  /\ IncomingAllStats.Remb st' = IncomingAllStats.Remb st
  /\ IncomingAllStats.Rtx st' = IncomingAllStats.Rtx st
  /\ IncomingAllStats.Fec st' = IncomingAllStats.Fec st
  /\ IncomingStreamTrack.setSimulcastIdx 0 st'
     = IncomingStreamTrack.setSimulcastIdx 0 st.
Proof.
  cbv zeta. split_and!; try done.
  unfold IncomingStreamTrack.setSimulcastIdx. cbn. do 2 f_equal.
  rewrite <- list_fmap_compose. apply list_fmap_ext. by intros _ [] _.
Qed.

Lemma rank_eq (n : Z) (m : gmap string IncomingAllStats.t)
    (kv : string * IncomingAllStats.t) :
  IncomingStreamTrack.rank (n, m) kv
  = if hasBitrate kv
    then (Go.iadd n 1,
          <[kv.1 := IncomingStreamTrack.setSimulcastIdx (Go.iadd n 1) kv.2]> m)
    else (n, <[kv.1 := IncomingStreamTrack.setSimulcastIdx (-1) kv.2]> m).
Proof. destruct kv as [id st]. unfold IncomingStreamTrack.rank, hasBitrate. cbn. by case_match. Qed.

Lemma foldl_rank_notin (l : list (string * IncomingAllStats.t)) (n : Z)
    (m : gmap string IncomingAllStats.t) (id : string) :
  id ∉ l.*1 -> (foldl IncomingStreamTrack.rank (n, m) l).2 !! id = m !! id.
Proof.
  revert n m. induction l as [|kv l IH]; intros n m Hid; [done|].
  cbn [foldl]. rewrite fmap_cons in Hid.
  apply not_elem_of_cons in Hid as [Hne Hid].
  rewrite rank_eq. destruct (hasBitrate kv); rewrite IH by done;
    by rewrite lookup_insert_ne.
Qed.

(** The number of entries with bitrate in a slice. *)
Lemma count_cons (kv : string * IncomingAllStats.t)
    (l : list (string * IncomingAllStats.t)) :
  length (List.filter hasBitrate (kv :: l))
  = ((if hasBitrate kv then 1 else 0) + length (List.filter hasBitrate l))%nat.
Proof. cbn. by destruct (hasBitrate kv). Qed.

Lemma count_le (l : list (string * IncomingAllStats.t)) :
  (length (List.filter hasBitrate l) <= length l)%nat.
Proof. induction l as [|kv l IH]; [done|]. rewrite count_cons. cbn. case_match; lia. Qed.

(** The loop of lines 281-292 on a slice without repeated keys: the entry
    at position [p] is stored with the count of the entries with bitrate up
    to and including [p], or with -1. *)
Lemma foldl_rank_lookup (l : list (string * IncomingAllStats.t)) (n : Z)
    (m : gmap string IncomingAllStats.t) (p : nat)
    (kv : string * IncomingAllStats.t) :
  NoDup l.*1 ->
  l !! p = Some kv ->
  0 <= n -> n + Z.of_nat (length l) < 2 ^ 63 ->
  (foldl IncomingStreamTrack.rank (n, m) l).2 !! kv.1
  = Some (IncomingStreamTrack.setSimulcastIdx
            (if hasBitrate kv
             then n + Z.of_nat (length (List.filter hasBitrate (take (S p) l)))
             else -1) kv.2).
Proof.
  revert n m p. induction l as [|x l IH]; intros n m p Hnd Hp Hn Hlen; [done|].
  rewrite fmap_cons in Hnd. apply NoDup_cons in Hnd as [Hx Hnd].
  cbn [foldl]. cbn [length] in Hlen. rewrite rank_eq.
  assert (Go.iadd n 1 = n + 1) as Hadd.
  { apply int_small. unfold Go.is_int. lia. }
  destruct p as [|p].
  - injection Hp as ->. cbn [take]. rewrite count_cons. cbn [List.filter length].
    destruct (hasBitrate kv) eqn:Hb; rewrite foldl_rank_notin by done;
      rewrite lookup_insert_eq; [|done].
    rewrite Hadd. do 2 f_equal; lia.
  - cbn in Hp. change (take (S (S p)) (x :: l)) with (x :: take (S p) l).
    rewrite count_cons.
    destruct (hasBitrate x) eqn:Hb.
    + rewrite (IH _ _ p) by (done || lia).
      rewrite Hadd. destruct (hasBitrate kv); [|done]. do 2 f_equal; lia.
    + rewrite (IH _ _ p) by (done || lia). done.
Qed.

(** In a slice sorted by descending bitrate the entries with bitrate come
    first. *)
Lemma sorted_bitrate_first (l : list (string * IncomingAllStats.t)) (p : nat)
    (kv : string * IncomingAllStats.t) :
  StronglySorted byBitrateDesc l ->
  l !! p = Some kv ->
  (hasBitrate kv = true <-> (p < length (List.filter hasBitrate l))%nat)
  /\ (hasBitrate kv = true ->
      length (List.filter hasBitrate (take (S p) l)) = S p).
Proof.
  intros Hs. revert p. induction Hs as [|x l Hs IH Hx]; intros p Hp; [done|].
  rewrite count_cons.
  destruct p as [|p].
  - injection Hp as ->. cbn [take]. rewrite count_cons. cbn.
    destruct (hasBitrate kv) eqn:Hb.
    + split; [split; [lia|done]|done].
    + split; [|done]. split; [done|].
      assert (List.filter hasBitrate l = []) as ->; [|cbn; lia].
      clear IH Hs. induction Hx as [|y l Hy Hx IH]; [done|].
      cbn. unfold hasBitrate, byBitrateDesc in *.
      rewrite Z.gtb_ltb in Hb. apply Z.ltb_ge in Hb.
      rewrite Z.gtb_ltb. destruct (Z.ltb_spec 0 (IncomingAllStats.Bitrate y.2)); [lia|done].
  - cbn in Hp. destruct (IH p Hp) as [IH1 IH2].
    change (take (S (S p)) (x :: l)) with (x :: take (S p) l).
    rewrite count_cons.
    assert (hasBitrate kv = true -> hasBitrate x = true) as Hmono.
    { rewrite Forall_forall in Hx.
      specialize (Hx kv (list_elem_of_lookup_2 _ _ _ Hp)).
      unfold hasBitrate, byBitrateDesc in *. rewrite !Z.gtb_ltb.
      intros H%Z.ltb_lt. apply Z.ltb_lt. lia. }
    split; [split|].
    + intros Hb. rewrite (Hmono Hb). apply IH1 in Hb. lia.
    + intros Hlt. destruct (hasBitrate x) eqn:Hbx.
      * apply IH1. lia.
      * apply IH1.
        assert (List.filter hasBitrate l = []) as Hnil; [|rewrite Hnil in Hlt; cbn in Hlt; lia].
        clear -Hx Hbx. induction Hx as [|y l Hy Hx IH]; [done|].
        cbn. unfold hasBitrate, byBitrateDesc in *.
        rewrite Z.gtb_ltb in Hbx. apply Z.ltb_ge in Hbx.
        rewrite Z.gtb_ltb. destruct (Z.ltb_spec 0 (IncomingAllStats.Bitrate y.2)); [lia|done].
    + intros Hb. rewrite (Hmono Hb), (IH2 Hb). lia.
Qed.

Lemma StronglySorted_lookup {A : Type} (R : A -> A -> Prop) (l : list A) :
  StronglySorted R l
  <-> (forall (i j : nat) (x y : A),
         (i < j)%nat -> l !! i = Some x -> l !! j = Some y -> R x y).
Proof.
  split.
  - induction 1 as [|z l Hs IH Hz]; intros i j x y Hij Hi Hj; [done|].
    destruct j as [|j]; [lia|]. cbn in Hj.
    destruct i as [|i].
    + injection Hi as ->. rewrite Forall_forall in Hz.
      apply Hz. by eapply list_elem_of_lookup_2.
    + cbn in Hi. apply (IH i j); [lia|done..].
  - induction l as [|z l IH]; intros H; constructor.
    + apply IH. intros i j x y Hij Hi Hj. apply (H (S i) (S j)); [lia|done..].
    + apply Forall_forall. intros y [j Hj]%list_elem_of_lookup_1.
      apply (H 0%nat (S j)); [lia|done..].
Qed.

Section Ranking.

Variable rangeMap : nat -> forall V : Type, gmap string V -> list (string * V).
Variable sortSlice : forall A : Type, (A -> A -> bool) -> list A -> list A.
Hypothesis Hrange : Runtime.RangeSpec rangeMap.
Hypothesis Hsort : Runtime.SortSliceSpec sortSlice.

(** The slice of lines 273-279. *)
Lemma rerank_eq (m : gmap string IncomingAllStats.t) (w : World) :
  IncomingStreamTrack.rerank rangeMap sortSlice m w
  = ((foldl IncomingStreamTrack.rank (0, m)
        (sortSlice _ lessByBitrateDesc (rangeMap (tick w) _ m))).2,
     next w).
Proof. done. Qed.

(** What [rerank] stores: each entry of the cache, numbered after its
    position in the sorted slice. *)
Lemma rerank_lookup (m : gmap string IncomingAllStats.t) (w : World) :
  Z.of_nat (size m) < 2 ^ 63 ->
  let sorted := sortSlice _ lessByBitrateDesc (rangeMap (tick w) _ m) in
  let m' := (IncomingStreamTrack.rerank rangeMap sortSlice m w).1 in
  sorted ≡ₚ map_to_list m
  /\ StronglySorted byBitrateDesc sorted
  /\ (forall p kv,
        sorted !! p = Some kv ->
        m' !! kv.1
        = Some (IncomingStreamTrack.setSimulcastIdx (indexAt p kv) kv.2))
  /\ (forall id, m !! id = None -> m' !! id = None).
Proof.
  intros Hsize sorted m'.
  assert (sorted ≡ₚ map_to_list m) as Hperm.
  { unfold sorted. destruct Hsort as [Hp _]. by rewrite Hp, (Hrange _ _ m). }
  assert (StronglySorted byBitrateDesc sorted) as Hsorted
    by by apply sorted_byBitrateDesc.
  assert (NoDup sorted.*1) as Hnd.
  { rewrite Hperm. apply NoDup_fst_map_to_list. }
  split; [done|]. split; [done|]. subst m'. rewrite rerank_eq. cbn [fst].
  fold sorted. split.
  - intros p kv Hp.
    rewrite (foldl_rank_lookup sorted 0 m p kv Hnd Hp); [|lia|].
    + unfold indexAt. destruct (hasBitrate kv) eqn:Hb; [|done].
      destruct (sorted_bitrate_first sorted p kv Hsorted Hp) as [_ Hcount].
      rewrite (Hcount Hb). do 2 f_equal. lia.
    + rewrite Hperm, length_map_to_list. lia.
  - intros id Hid. rewrite foldl_rank_notin; [done|].
    rewrite Hperm. intros [[id' st] [-> Hin]]%list_elem_of_fmap.
    apply elem_of_map_to_list in Hin. cbn in Hid. congruence.
Qed.

(** After [rerank] the cache is ranked. *)
Lemma rerank_ranked (m : gmap string IncomingAllStats.t) (w : World) :
  Z.of_nat (size m) < 2 ^ 63 ->
  ranked (IncomingStreamTrack.rerank rangeMap sortSlice m w).1.
Proof.
  intros Hsize.
  destruct (rerank_lookup m w Hsize) as (Hperm & Hsorted & Hin & Hout).
  set (sorted := sortSlice _ lessByBitrateDesc (rangeMap (tick w) _ m)) in *.
  set (m' := (IncomingStreamTrack.rerank rangeMap sortSlice m w).1) in *.
  set (number := fun (p : nat) (kv : string * IncomingAllStats.t) =>
                   (kv.1, IncomingStreamTrack.setSimulcastIdx (indexAt p kv) kv.2)).
  assert (forall p kv, hasBitrate (number p kv) = hasBitrate kv) as Hhas by done.
  assert (forall p kv, indexAt p (number p kv) = indexAt p kv) as Hidx by done.
  assert (length (List.filter hasBitrate (imap number sorted))
          = length (List.filter hasBitrate sorted)) as Hcount.
  { clear -Hhas. generalize number Hhas. clear.
    induction sorted as [|kv l IH]; intros number Hhas; [done|].
    rewrite imap_cons. cbn [List.filter]. rewrite Hhas.
    destruct (hasBitrate kv); cbn [length]; rewrite IH; try done;
      intros p kv'; apply (Hhas (S p)). }
  exists (imap number sorted). split_and!.
  - apply NoDup_Permutation.
    + apply (NoDup_fmap_1 fst). rewrite fmap_imap.
      assert (imap (fun n => fst ∘ number n) sorted = sorted.*1) as ->.
      { rewrite <- (imap_const fst). by apply imap_ext. }
      rewrite Hperm. apply NoDup_fst_map_to_list.
    + apply NoDup_map_to_list.
    + intros [id st']. rewrite elem_of_map_to_list. split.
      * intros [p Hp]%list_elem_of_lookup_1.
        rewrite list_lookup_imap in Hp.
        destruct (sorted !! p) as [kv|] eqn:Hkv; [|done].
        injection Hp as <- <-. by apply Hin.
      * intros Hst'.
        destruct (m !! id) as [st|] eqn:Hst; [|by rewrite Hout in Hst'].
        assert ((id, st) ∈ sorted) as [p Hp]%list_elem_of_lookup_1.
        { rewrite Hperm. by apply elem_of_map_to_list. }
        apply (list_elem_of_lookup_2 _ p). rewrite list_lookup_imap, Hp. cbn.
        pose proof (Hin p _ Hp) as Hin'. cbn [fst snd] in Hin'.
        rewrite Hst' in Hin'. injection Hin' as ->. done.
  - apply StronglySorted_lookup. intros i j x y Hij Hi Hj.
    rewrite list_lookup_imap in Hi, Hj.
    destruct (sorted !! i) as [kx|] eqn:Hkx; [|done].
    destruct (sorted !! j) as [ky|] eqn:Hky; [|done].
    injection Hi as <-. injection Hj as <-.
    apply (proj1 (StronglySorted_lookup _ _) Hsorted i j kx ky Hij Hkx Hky).
  - intros p kv' Hp. rewrite list_lookup_imap in Hp.
    destruct (sorted !! p) as [kv|] eqn:Hkv; [|done].
    injection Hp as <-. rewrite Hcount, Hhas, Hidx.
    split; [by apply (sorted_bitrate_first sorted p kv)|].
    apply setSimulcastIdx_idx.
Qed.

End Ranking.

(** ** The freshness window *)

Lemma isub_small (a b : Z) :
  0 <= a < 2 ^ 63 -> 0 <= b < 2 ^ 63 -> Go.isub a b = a - b.
Proof. intros Ha Hb. apply int_small. unfold Go.is_int. lia. Qed.

Section Freshness.

Variable now : nat -> Z.
Variable Update : RTPIncomingSourceGroup.t -> RTPIncomingSourceGroup.t.
Hypothesis Hclock : clockInRange now.

Local Abbreviation refresh := (IncomingStreamTrack.refresh now Update).

(** One turn of the loop, by the three cases of line 248. *)
Lemma refresh_outcome (i : IncomingStreamTrack.t) (w : World) (id : string)
    (encoding : Encoding.t) :
  stampsInRange (IncomingStreamTrack.stats i) ->
  let r := refresh (i, w) (id, encoding) in
  (tick w <= tick r.2)%nat
  /\ refreshOutcome now Update (tick w) (IncomingStreamTrack.stats i !! id)
       encoding (IncomingStreamTrack.stats r.1 !! id)
  /\ (forall id', id' <> id ->
        IncomingStreamTrack.stats r.1 !! id' = IncomingStreamTrack.stats i !! id')
  /\ (forall st,
        IncomingStreamTrack.stats i !! id = Some st ->
        now (tick w) - IncomingAllStats.timestamp st <= 200000000 ->
        r = (i, next w)).
Proof.
  intros Hstamps. unfold IncomingStreamTrack.refresh, refreshOutcome.
  destruct (IncomingStreamTrack.stats i !! id) as [st|] eqn:Hst;
    cbn [IncomingStreamTrack.isStale].
  - rewrite isub_small by (apply Hclock || by eapply Hstamps).
    rewrite Z.gtb_ltb.
    destruct (Z.ltb_spec 200000000 (now (tick w) - IncomingAllStats.timestamp st))
      as [Hold|Hfresh].
    + rewrite decide_True by done. cbn.
      rewrite lookup_insert_eq. split; [lia|]. split; [done|].
      split; [intros id' Hne; by rewrite lookup_insert_ne|].
      intros st' [= <-] Hfresh. lia.
    + rewrite decide_False by lia. cbn. rewrite Hst.
      split; [lia|]. done.
  - cbn. rewrite lookup_insert_eq. split; [lia|]. split; [done|].
    split; [intros id' Hne; by rewrite lookup_insert_ne|]. done.
Qed.

Lemma newEntry_timestamp (source : RTPIncomingSourceGroup.t) (ts : Z) :
  IncomingAllStats.timestamp (IncomingStreamTrack.newEntry source ts) = ts.
Proof. done. Qed.

Lemma refreshOutcome_stamp (n : nat) (old new : IncomingAllStats.t)
    (encoding : Encoding.t) :
  0 <= IncomingAllStats.timestamp old < 2 ^ 63 ->
  refreshOutcome now Update n (Some old) encoding (Some new) ->
  0 <= IncomingAllStats.timestamp new < 2 ^ 63.
Proof.
  unfold refreshOutcome. intros Hold. case_decide; intros [= ->]; [|done].
  rewrite newEntry_timestamp. apply Hclock.
Qed.

Lemma refresh_stamps (i : IncomingStreamTrack.t) (w : World)
    (kv : string * Encoding.t) :
  stampsInRange (IncomingStreamTrack.stats i) ->
  stampsInRange (IncomingStreamTrack.stats (refresh (i, w) kv).1).
Proof.
  intros Hstamps. destruct kv as [id encoding].
  destruct (refresh_outcome i w id encoding Hstamps) as (_ & Hout & Hother & _).
  intros id' st' Hst'. destruct (decide (id' = id)) as [->|Hne].
  - rewrite Hst' in Hout.
    destruct (IncomingStreamTrack.stats i !! id) as [st|] eqn:Hst.
    + eapply refreshOutcome_stamp; [|exact Hout]. by eapply Hstamps.
    + cbn in Hout. injection Hout as ->. rewrite newEntry_timestamp. apply Hclock.
  - rewrite Hother in Hst' by done. by eapply Hstamps.
Qed.

(** The loop, over encodings met once each. *)
Lemma refresh_loop (l : list (string * Encoding.t)) (i : IncomingStreamTrack.t)
    (w : World) :
  NoDup l.*1 ->
  stampsInRange (IncomingStreamTrack.stats i) ->
  let r := foldl refresh (i, w) l in
  (tick w <= tick r.2)%nat
  /\ stampsInRange (IncomingStreamTrack.stats r.1)
  /\ (forall id, id ∉ l.*1 ->
        IncomingStreamTrack.stats r.1 !! id = IncomingStreamTrack.stats i !! id)
  /\ (forall id encoding,
        (id, encoding) ∈ l ->
        exists n,
          (tick w <= n)%nat
          /\ refreshOutcome now Update n (IncomingStreamTrack.stats i !! id)
               encoding (IncomingStreamTrack.stats r.1 !! id))
  /\ ((forall id encoding,
         (id, encoding) ∈ l ->
         exists st,
           IncomingStreamTrack.stats i !! id = Some st
           /\ forall n, (tick w <= n)%nat ->
                        now n - IncomingAllStats.timestamp st <= 200000000) ->
      r.1 = i /\ trace r.2 = trace w).
Proof.
  revert i w. induction l as [|[id0 enc0] l IH]; intros i w Hnd Hstamps.
  - cbn. split_and!; try done. intros id encoding Hin. by apply elem_of_nil in Hin.
  - rewrite fmap_cons in Hnd. apply NoDup_cons in Hnd as [Hid0 Hnd].
    cbn [foldl]. cbv zeta.
    destruct (refresh_outcome i w id0 enc0 Hstamps) as (Ht0 & Hout0 & Hother0 & Hfresh0).
    pose proof (refresh_stamps i w (id0, enc0) Hstamps) as Hstamps1.
    destruct (refresh (i, w) (id0, enc0)) as [i1 w1] eqn:Hr1. cbn [fst snd] in *.
    destruct (IH i1 w1 Hnd Hstamps1) as (Ht & Hst & Hnotin & Hin & Hfresh).
    split_and!.
    + lia.
    + done.
    + intros id Hid. rewrite fmap_cons in Hid.
      apply not_elem_of_cons in Hid as [Hne Hid].
      rewrite Hnotin by done. by apply Hother0.
    + intros id encoding [[= -> ->]|Hel]%elem_of_cons.
      * exists (tick w). split; [lia|]. by rewrite Hnotin.
      * destruct (Hin id encoding Hel) as (n & Hn & Hout).
        exists n. split; [lia|]. rewrite <- Hother0; [done|].
        intros ->. apply Hid0. apply list_elem_of_fmap. by exists (id0, encoding).
    + intros Hall.
      destruct (Hall id0 enc0) as (st0 & Hst0 & Hwin0); [by left|].
      specialize (Hfresh0 st0 Hst0 (Hwin0 _ (le_n _))).
      injection Hfresh0 as -> ->.
      apply Hfresh. intros id encoding Hel.
      destruct (Hall id encoding) as (st & Hst' & Hwin); [by right|].
      exists st. split; [done|]. intros n Hn. apply Hwin. cbn in Hn. lia.
Qed.

End Freshness.

(** ** [GetStats] *)

Lemma GetStats_eq (now : nat -> Z)
    (rangeMap : nat -> forall V : Type, gmap string V -> list (string * V))
    (sortSlice : forall A : Type, (A -> A -> bool) -> list A -> list A)
    (Update : RTPIncomingSourceGroup.t -> RTPIncomingSourceGroup.t)
    (i : IncomingStreamTrack.t) (w : World) :
  let r := refreshed now rangeMap Update i w in
  let rr :=
    IncomingStreamTrack.rerank rangeMap sortSlice
      (IncomingStreamTrack.stats r.1) r.2 in
  IncomingStreamTrack.GetStats now rangeMap sortSlice Update i w
  = (IncomingStreamTrack.withStats rr.1 r.1, rr.2).
Proof.
  cbv zeta. unfold IncomingStreamTrack.GetStats, refreshed.
  by destruct (foldl _ _ _) as [i1 w1].
Qed.

Lemma foldl_rank_lookup_some (l : list (string * IncomingAllStats.t)) (n : Z)
    (m : gmap string IncomingAllStats.t) (kv : string * IncomingAllStats.t) :
  NoDup l.*1 ->
  kv ∈ l ->
  exists idx,
    (foldl IncomingStreamTrack.rank (n, m) l).2 !! kv.1
    = Some (IncomingStreamTrack.setSimulcastIdx idx kv.2).
Proof.
  revert n m. induction l as [|x l IH]; intros n m Hnd Hin.
  - by apply elem_of_nil in Hin.
  - rewrite fmap_cons in Hnd. apply NoDup_cons in Hnd as [Hx Hnd].
    cbn [foldl]. rewrite rank_eq.
    apply elem_of_cons in Hin as [->|Hin].
    + destruct (hasBitrate x); rewrite foldl_rank_notin by done;
        rewrite lookup_insert_eq; eauto.
    + destruct (hasBitrate x); by apply IH.
Qed.

(** [rerank] keeps every entry of the cache and changes nothing of it but
    the simulcast indices. *)
Lemma rerank_entry
    (rangeMap : nat -> forall V : Type, gmap string V -> list (string * V))
    (sortSlice : forall A : Type, (A -> A -> bool) -> list A -> list A)
    (m : gmap string IncomingAllStats.t) (w : World) (id : string) :
  Runtime.RangeSpec rangeMap ->
  Runtime.SortSliceSpec sortSlice ->
  exists idx,
    (IncomingStreamTrack.rerank rangeMap sortSlice m w).1 !! id
    = IncomingStreamTrack.setSimulcastIdx idx <$> m !! id.
Proof.
  intros Hrange Hsort. rewrite rerank_eq. cbn [fst].
  set (sorted := sortSlice _ lessByBitrateDesc (rangeMap (tick w) _ m)).
  assert (sorted ≡ₚ map_to_list m) as Hperm.
  { unfold sorted. destruct Hsort as [Hp _]. by rewrite Hp, (Hrange _ _ m). }
  destruct (m !! id) as [st|] eqn:Hst.
  - apply (foldl_rank_lookup_some sorted 0 m (id, st)).
    + rewrite Hperm. apply NoDup_fst_map_to_list.
    + rewrite Hperm. by apply elem_of_map_to_list.
  - exists 0. rewrite foldl_rank_notin; [done|].
    rewrite Hperm. intros [[id' st] [-> Hin]]%list_elem_of_fmap.
    apply elem_of_map_to_list in Hin. cbn in Hst. congruence.
Qed.

Lemma rerank_dom
    (rangeMap : nat -> forall V : Type, gmap string V -> list (string * V))
    (sortSlice : forall A : Type, (A -> A -> bool) -> list A -> list A)
    (m : gmap string IncomingAllStats.t) (w : World) :
  Runtime.RangeSpec rangeMap ->
  Runtime.SortSliceSpec sortSlice ->
  dom (IncomingStreamTrack.rerank rangeMap sortSlice m w).1 = dom m.
Proof.
  intros Hrange Hsort. apply set_eq. intros id. rewrite !elem_of_dom.
  destruct (rerank_entry rangeMap sortSlice m w id Hrange Hsort) as [idx ->].
  by rewrite fmap_is_Some.
Qed.

(** ** The example of the four encodings *)

Lemma count_perm {A : Type} (f : A -> bool) (l l' : list A) :
  l ≡ₚ l' -> length (List.filter f l) = length (List.filter f l').
Proof.
  induction 1 as [|x l l' _ IH|x y l|l l' l'' _ IH1 _ IH2]; cbn.
  - done.
  - destruct (f x); cbn; by rewrite IH.
  - by destruct (f x), (f y).
  - congruence.
Qed.

(** In a slice sorted by descending bitrate, an entry stands after all
    entries with more bitrate and among the entries with at least its own. *)
Lemma sorted_position_bounds (l : list (string * IncomingAllStats.t)) (p : nat)
    (kv : string * IncomingAllStats.t) :
  StronglySorted byBitrateDesc l ->
  l !! p = Some kv ->
  (length (List.filter (above (IncomingAllStats.Bitrate kv.2)) l) <= p
   < length (List.filter (atLeast (IncomingAllStats.Bitrate kv.2)) l))%nat.
Proof.
  intros Hs. revert p. induction Hs as [|x l Hs IH Hx]; intros p Hp; [done|].
  destruct p as [|p].
  - injection Hp as ->. cbn [List.filter]. unfold above at 1, atLeast at 1.
    rewrite Z.ltb_irrefl, Z.leb_refl. cbn [length].
    assert (List.filter (above (IncomingAllStats.Bitrate kv.2)) l = []) as ->;
      [|cbn; lia].
    clear -Hx. induction Hx as [|y l Hy Hx IH]; [done|].
    cbn. unfold above at 1. unfold byBitrateDesc in Hy.
    destruct (Z.ltb_spec (IncomingAllStats.Bitrate kv.2)
                (IncomingAllStats.Bitrate y.2)); [lia|done].
  - cbn in Hp. specialize (IH p Hp).
    rewrite Forall_forall in Hx.
    specialize (Hx kv (list_elem_of_lookup_2 _ _ _ Hp)). unfold byBitrateDesc in Hx.
    cbn [List.filter]. unfold above at 1, atLeast at 1.
    destruct (Z.leb_spec (IncomingAllStats.Bitrate kv.2)
                (IncomingAllStats.Bitrate x.2)); [|lia].
    destruct (Z.ltb_spec (IncomingAllStats.Bitrate kv.2)
                (IncomingAllStats.Bitrate x.2)); cbn [length]; lia.
Qed.

(** A ranked cache of four entries with bitrates 0, 50, 0 and 200 has the
    indices -1, 2, -1 and 1. *)
Lemma ranked_0_50_0_200 (cache : gmap string IncomingAllStats.t)
    (k1 k2 k3 k4 : string) (e1 e2 e3 e4 : IncomingAllStats.t) :
  ranked cache ->
  map_to_list cache ≡ₚ [(k1, e1); (k2, e2); (k3, e3); (k4, e4)] ->
  IncomingAllStats.Bitrate e1 = 0 ->
  IncomingAllStats.Bitrate e2 = 50 ->
  IncomingAllStats.Bitrate e3 = 0 ->
  IncomingAllStats.Bitrate e4 = 200 ->
  IncomingAllStats.SimulcastIdx e1 = -1
  /\ IncomingAllStats.SimulcastIdx e2 = 2
  /\ IncomingAllStats.SimulcastIdx e3 = -1
  /\ IncomingAllStats.SimulcastIdx e4 = 1.
Proof.
  intros (sorted & Hperm & Hsorted & Hall) Hlist H1 H2 H3 H4.
  rewrite Hlist in Hperm.
  assert (forall k e, (k, e) ∈ [(k1, e1); (k2, e2); (k3, e3); (k4, e4)] ->
            exists p, sorted !! p = Some (k, e)
              /\ IncomingAllStats.SimulcastIdx e = indexAt p (k, e)
              /\ (length (List.filter (above (IncomingAllStats.Bitrate e))
                            [(k1, e1); (k2, e2); (k3, e3); (k4, e4)]) <= p
                  < length (List.filter (atLeast (IncomingAllStats.Bitrate e))
                              [(k1, e1); (k2, e2); (k3, e3); (k4, e4)]))%nat)
    as Hpos.
  { intros k e Hin. rewrite <- Hperm in Hin.
    apply list_elem_of_lookup_1 in Hin as [p Hp]. exists p.
    split; [done|]. split; [by apply (Hall p (k, e))|].
    rewrite <- !(count_perm _ _ _ Hperm).
    by apply (sorted_position_bounds sorted p (k, e)). }
  split_and!.
  - destruct (Hpos k1 e1) as (p & _ & -> & _); [set_solver|].
    unfold indexAt, hasBitrate. cbn. by rewrite H1.
  - destruct (Hpos k2 e2) as (p & _ & -> & Hb); [set_solver|].
    unfold indexAt, hasBitrate. cbn [snd].
    unfold above, atLeast in Hb. cbn [List.filter snd] in Hb.
    rewrite H1, H2, H3, H4 in Hb. rewrite H2. cbn in Hb |- *. lia.
  - destruct (Hpos k3 e3) as (p & _ & -> & _); [set_solver|].
    unfold indexAt, hasBitrate. cbn. by rewrite H3.
  - destruct (Hpos k4 e4) as (p & _ & -> & Hb); [set_solver|].
    unfold indexAt, hasBitrate. cbn [snd].
    unfold above, atLeast in Hb. cbn [List.filter snd] in Hb.
    rewrite H1, H2, H3, H4 in Hb. rewrite H4. cbn in Hb |- *. lia.
Qed.

Lemma refresh_dom (now : nat -> Z)
    (Update : RTPIncomingSourceGroup.t -> RTPIncomingSourceGroup.t)
    (i : IncomingStreamTrack.t) (w : World) (kv : string * Encoding.t) :
  dom (IncomingStreamTrack.stats (IncomingStreamTrack.refresh now Update (i, w) kv).1)
  = {[kv.1]} ∪ dom (IncomingStreamTrack.stats i).
Proof.
  destruct kv as [id encoding]. unfold IncomingStreamTrack.refresh.
  destruct (IncomingStreamTrack.stats i !! id) as [st|] eqn:Hst;
    cbn [IncomingStreamTrack.isStale].
  - case_match; cbn.
    + by rewrite dom_insert_L.
    + apply (elem_of_dom_2 (D := gset string)) in Hst. set_solver.
  - cbn. by rewrite dom_insert_L.
Qed.

Lemma foldl_refresh_dom (now : nat -> Z)
    (Update : RTPIncomingSourceGroup.t -> RTPIncomingSourceGroup.t)
    (l : list (string * Encoding.t)) (i : IncomingStreamTrack.t) (w : World) :
  dom (IncomingStreamTrack.stats
         (foldl (IncomingStreamTrack.refresh now Update) (i, w) l).1)
  = list_to_set l.*1 ∪ dom (IncomingStreamTrack.stats i).
Proof.
  revert i w. induction l as [|kv l IH]; intros i w; cbn [foldl].
  - set_solver.
  - destruct (IncomingStreamTrack.refresh now Update (i, w) kv) as [i1 w1] eqn:Hr.
    rewrite IH. pose proof (refresh_dom now Update i w kv) as Hd.
    rewrite Hr in Hd. cbn [fst] in Hd. rewrite Hd. set_solver.
Qed.

(** The cache holds an entry for every encoding of the track and keeps
    those it held before. *)
Lemma refreshed_dom (now : nat -> Z)
    (rangeMap : nat -> forall V : Type, gmap string V -> list (string * V))
    (Update : RTPIncomingSourceGroup.t -> RTPIncomingSourceGroup.t)
    (i : IncomingStreamTrack.t) (w : World) :
  Runtime.RangeSpec rangeMap ->
  dom (IncomingStreamTrack.stats (refreshed now rangeMap Update i w).1)
  = dom (IncomingStreamTrack.stats i) ∪ dom (IncomingStreamTrack.encodings i).
Proof.
  intros Hrange. unfold refreshed. rewrite foldl_refresh_dom.
  rewrite (Hrange _ _ (IncomingStreamTrack.encodings i)).
  apply set_eq. intros id. rewrite !elem_of_union, elem_of_list_to_set.
  rewrite !elem_of_dom. split.
  - intros [[[id' enc] [-> Hin]]%list_elem_of_fmap|H]; [|by left].
    apply elem_of_map_to_list in Hin. right. by eexists.
  - intros [H|[enc Henc]]; [by right|]. left.
    apply list_elem_of_fmap. exists (id, enc). by rewrite elem_of_map_to_list.
Qed.

(** C2.  On every [GetStats] call, whatever order the runtime visits the
    maps in and whatever [sort.Slice] does with equal bitrates, the cache
    returned holds the entries of all encodings, refreshed or reused, and is
    ranked as a whole: its entries can be listed by descending bitrate so
    that the N entries with bitrate > 0 come first and carry the simulcast
    indices 1, ..., N in that order, without gaps, the entries with bitrate
    0 carry -1, and every layer of the media stats of an entry carries the
    index of the entry.  A cache of four entries with bitrates 0, 50, 0 and
    200 so has the indices -1, 2, -1 and 1.  (A Go map has fewer than 2^63
    entries.) *)
Theorem simulcast_index_is_bitrate_rank (now : nat -> Z)
    (rangeMap : nat -> forall V : Type, gmap string V -> list (string * V))
    (sortSlice : forall A : Type, (A -> A -> bool) -> list A -> list A)
    (Update : RTPIncomingSourceGroup.t -> RTPIncomingSourceGroup.t)
    (i : IncomingStreamTrack.t) (w : World) :
  Runtime.RangeSpec rangeMap ->
  Runtime.SortSliceSpec sortSlice ->
  let cache :=
    IncomingStreamTrack.stats
      (IncomingStreamTrack.GetStats now rangeMap sortSlice Update i w).1 in
  Z.of_nat (size cache) < 2 ^ 63 ->
  dom cache = dom (IncomingStreamTrack.stats i) ∪ dom (IncomingStreamTrack.encodings i)
  /\ ranked cache
  /\ (forall (k1 k2 k3 k4 : string) (e1 e2 e3 e4 : IncomingAllStats.t),
        map_to_list cache ≡ₚ [(k1, e1); (k2, e2); (k3, e3); (k4, e4)] ->
        IncomingAllStats.Bitrate e1 = 0 ->
        IncomingAllStats.Bitrate e2 = 50 ->
        IncomingAllStats.Bitrate e3 = 0 ->
        IncomingAllStats.Bitrate e4 = 200 ->
        IncomingAllStats.SimulcastIdx e1 = -1
        /\ IncomingAllStats.SimulcastIdx e2 = 2
        /\ IncomingAllStats.SimulcastIdx e3 = -1
        /\ IncomingAllStats.SimulcastIdx e4 = 1).
Proof.
  intros Hrange Hsort cache Hsize. subst cache.
  rewrite GetStats_eq in *. cbn [fst IncomingStreamTrack.stats
    IncomingStreamTrack.withStats] in *.
  set (r := refreshed now rangeMap Update i w) in *.
  assert (dom (IncomingStreamTrack.rerank rangeMap sortSlice
                 (IncomingStreamTrack.stats r.1) r.2).1
          = dom (IncomingStreamTrack.stats r.1)) as Hdom by by apply rerank_dom.
  assert (ranked (IncomingStreamTrack.rerank rangeMap sortSlice
                    (IncomingStreamTrack.stats r.1) r.2).1) as Hranked.
  { apply rerank_ranked; [done..|].
    pose proof (size_dom (D := gset string) (IncomingStreamTrack.stats r.1)) as E1.
    pose proof (size_dom (D := gset string)
                  (IncomingStreamTrack.rerank rangeMap sortSlice
                     (IncomingStreamTrack.stats r.1) r.2).1) as E2.
    rewrite Hdom in E2. lia. }
  split_and!.
  - rewrite Hdom. by apply refreshed_dom.
  - done.
  - intros k1 k2 k3 k4 e1 e2 e3 e4. by apply ranked_0_50_0_200.
Qed.

Lemma simulcast_index_is_bitrate_rank_witness :
  let cache :=
    IncomingStreamTrack.stats
      (IncomingStreamTrack.GetStats sampleClock Runtime.rangeReversed
         Runtime.insertionSort (fun g => g) fourEncodings startOfWorld).1 in
  exists e0 e1 e2 e3 : IncomingAllStats.t,
    map_to_list cache = [("3", e3); ("1", e1); ("2", e2); ("0", e0)]
    /\ IncomingAllStats.SimulcastIdx e0 = -1
    /\ IncomingAllStats.SimulcastIdx e1 = 2
    /\ IncomingAllStats.SimulcastIdx e2 = -1
    /\ IncomingAllStats.SimulcastIdx e3 = 1.
Proof.
  intros cache.
  assert (exists e0 e1 e2 e3 : IncomingAllStats.t,
            map_to_list cache = [("3", e3); ("1", e1); ("2", e2); ("0", e0)]
            /\ IncomingAllStats.Bitrate e0 = 0 /\ IncomingAllStats.Bitrate e1 = 50
            /\ IncomingAllStats.Bitrate e2 = 0 /\ IncomingAllStats.Bitrate e3 = 200)
    as (e0 & e1 & e2 & e3 & Hl & H0 & H1 & H2 & H3).
  { vm_compute. eexists _, _, _, _. split; [reflexivity|]. done. }
  destruct (simulcast_index_is_bitrate_rank sampleClock Runtime.rangeReversed
              Runtime.insertionSort (fun g => g) fourEncodings startOfWorld
              rangeReversed_spec insertionSort_spec) as (_ & _ & Hex).
  { fold cache. rewrite <- length_map_to_list, Hl. done. }
  fold cache in Hex.
  destruct (Hex "0" "1" "2" "3" e0 e1 e2 e3) as (I0 & I1 & I2 & I3);
    [rewrite Hl; solve_Permutation | done..|].
  exists e0, e1, e2, e3. done.
Defined.

(** C3.  On a stats request every encoding of the track is reached once, at
    some reading of the clock, and its cache entry is recomputed from the
    refreshed source and replaced, with the time then read as its
    timestamp, exactly when there is no cached entry or the cached entry is
    more than 200 ms old at that reading; otherwise the cached entry stays,
    timestamp included, and nothing is recomputed (the ranking that follows
    only rewrites simulcast indices).  Hence a query during which the clock
    stays within 200 ms of an entry's timestamp returns that entry with the
    same timestamp, and a query made after the window returns an entry with
    a new, later timestamp, whatever the counters are.  (The clock and the
    cached timestamps are nanoseconds since 1970 that fit an [int64].) *)
Theorem stats_cache_freshness (now : nat -> Z)
    (rangeMap : nat -> forall V : Type, gmap string V -> list (string * V))
    (sortSlice : forall A : Type, (A -> A -> bool) -> list A -> list A)
    (Update : RTPIncomingSourceGroup.t -> RTPIncomingSourceGroup.t)
    (i : IncomingStreamTrack.t) (w : World) :
  Runtime.RangeSpec rangeMap ->
  Runtime.SortSliceSpec sortSlice ->
  clockInRange now ->
  stampsInRange (IncomingStreamTrack.stats i) ->
  let r := IncomingStreamTrack.GetStats now rangeMap sortSlice Update i w in
  let cache := IncomingStreamTrack.stats r.1 in
  (forall id encoding,
     IncomingStreamTrack.encodings i !! id = Some encoding ->
     exists (n : nat) (idx : Z) (entry : IncomingAllStats.t),
       (tick w < n)%nat
       /\ refreshOutcome now Update n (IncomingStreamTrack.stats i !! id)
            encoding (Some entry)
       /\ cache !! id = Some (IncomingStreamTrack.setSimulcastIdx idx entry))
  /\ (forall id encoding old,
        IncomingStreamTrack.encodings i !! id = Some encoding ->
        IncomingStreamTrack.stats i !! id = Some old ->
        (forall n, (tick w <= n)%nat ->
                   now n - IncomingAllStats.timestamp old <= 200000000) ->
        exists idx,
          cache !! id = Some (IncomingStreamTrack.setSimulcastIdx idx old)
          /\ IncomingAllStats.timestamp (IncomingStreamTrack.setSimulcastIdx idx old)
             = IncomingAllStats.timestamp old)
  /\ (forall id encoding old,
        IncomingStreamTrack.encodings i !! id = Some encoding ->
        IncomingStreamTrack.stats i !! id = Some old ->
        (forall n, (tick w <= n)%nat ->
                   200000000 < now n - IncomingAllStats.timestamp old) ->
        exists (n : nat) (idx : Z) (new : IncomingAllStats.t),
          (tick w < n)%nat
          /\ new = IncomingStreamTrack.setSimulcastIdx idx
                     (IncomingStreamTrack.newEntry
                        (Update (Encoding.source encoding)) (now n))
          /\ cache !! id = Some new
          /\ IncomingAllStats.timestamp new = now n
          /\ IncomingAllStats.timestamp old + 200000000
             < IncomingAllStats.timestamp new)
  /\ ((forall id encoding,
         IncomingStreamTrack.encodings i !! id = Some encoding ->
         exists old,
           IncomingStreamTrack.stats i !! id = Some old
           /\ forall n, (tick w <= n)%nat ->
                        now n - IncomingAllStats.timestamp old <= 200000000) ->
      trace r.2 = trace w
      /\ IncomingStreamTrack.encodings r.1 = IncomingStreamTrack.encodings i).
Proof.
  intros Hrange Hsort Hclock Hstamps r cache. subst cache r.
  rewrite GetStats_eq. cbn [fst snd IncomingStreamTrack.stats
    IncomingStreamTrack.withStats IncomingStreamTrack.encodings].
  set (r := refreshed now rangeMap Update i w).
  pose proof (refresh_loop now Update Hclock
                (rangeMap (tick w) _ (IncomingStreamTrack.encodings i)) i (next w))
    as Hloop.
  cbv zeta in Hloop. fold (refreshed now rangeMap Update i w) in Hloop.
  fold r in Hloop.
  destruct Hloop as (_ & _ & _ & Hloop & Hfresh); [|done|].
  { rewrite (Hrange _ _ _). apply NoDup_fst_map_to_list. }
  assert (forall id encoding,
            IncomingStreamTrack.encodings i !! id = Some encoding <->
            (id, encoding) ∈ rangeMap (tick w) _ (IncomingStreamTrack.encodings i))
    as Hin.
  { intros id encoding. by rewrite (Hrange _ _ _), elem_of_map_to_list. }
  assert (forall id encoding,
            IncomingStreamTrack.encodings i !! id = Some encoding ->
            exists (n : nat) (idx : Z) (entry : IncomingAllStats.t),
              (tick w < n)%nat
              /\ refreshOutcome now Update n (IncomingStreamTrack.stats i !! id)
                   encoding (Some entry)
              /\ (IncomingStreamTrack.rerank rangeMap sortSlice
                    (IncomingStreamTrack.stats r.1) r.2).1 !! id
                 = Some (IncomingStreamTrack.setSimulcastIdx idx entry)) as Hmain.
  { intros id encoding Henc.
    destruct (Hloop id encoding (proj1 (Hin _ _) Henc)) as (n & Hn & Hout).
    destruct (rerank_entry rangeMap sortSlice (IncomingStreamTrack.stats r.1) r.2 id
                Hrange Hsort) as [idx Hidx].
    assert (is_Some (IncomingStreamTrack.stats r.1 !! id)) as [entry Hentry].
    { unfold refreshOutcome in Hout.
      destruct (IncomingStreamTrack.stats i !! id); [case_decide|];
        rewrite Hout; by eexists. }
    exists n, idx, entry. cbn in Hn. split; [lia|].
    rewrite Hentry in Hout, Hidx. done. }
  split_and!.
  - exact Hmain.
  - intros id encoding old Henc Hold Hwin.
    destruct (Hmain id encoding Henc) as (n & idx & entry & Hn & Hout & Hc).
    rewrite Hold in Hout. unfold refreshOutcome in Hout.
    rewrite decide_False in Hout by (specialize (Hwin n ltac:(lia)); lia).
    injection Hout as ->. by exists idx.
  - intros id encoding old Henc Hold Hwin.
    destruct (Hmain id encoding Henc) as (n & idx & entry & Hn & Hout & Hc).
    rewrite Hold in Hout. unfold refreshOutcome in Hout.
    rewrite decide_True in Hout by (apply Hwin; lia).
    injection Hout as ->. exists (S n), idx. eexists.
    split; [lia|]. split; [reflexivity|]. split; [done|]. split; [done|].
    cbn. specialize (Hwin (S n) ltac:(lia)). lia.
  - intros Hall. destruct Hfresh as [Hi Htr].
    + intros id encoding Hel. destruct (Hall id encoding (proj2 (Hin _ _) Hel))
        as (old & Hold & Hwin).
      exists old. split; [done|]. intros n Hn. apply Hwin. cbn in Hn. lia.
    + rewrite rerank_eq. cbn [snd]. change (trace (next r.2)) with (trace r.2).
      by rewrite Hi, Htr.
Qed.

Lemma slowClock_in_range : clockInRange slowClock.
Proof. intros n. unfold slowClock. lia. Qed.

Lemma sampleClock_in_range : clockInRange sampleClock.
Proof. intros n. unfold sampleClock. lia. Qed.

Lemma stats_cache_freshness_witness :
  let getStats :=
    IncomingStreamTrack.GetStats slowClock Runtime.rangeInOrder
      Runtime.insertionSort (fun g => g) in
  exists (n : nat) (idx : Z) (entry : IncomingAllStats.t),
    (0 < n)%nat
    /\ refreshOutcome slowClock (fun g => g) n
         (IncomingStreamTrack.stats cachedTrack !! "") (encodingAt "" 300)
         (Some entry)
    /\ IncomingStreamTrack.stats (getStats cachedTrack startOfWorld).1 !! ""
       = Some (IncomingStreamTrack.setSimulcastIdx idx entry).
Proof.
  assert (stampsInRange (IncomingStreamTrack.stats cachedTrack)) as Hstamps.
  { intros id st. unfold cachedTrack. cbn [IncomingStreamTrack.stats].
    intros [[_ <-]|[_ H]]%lookup_insert_Some; [by vm_compute|done]. }
  destruct (stats_cache_freshness slowClock Runtime.rangeInOrder
              Runtime.insertionSort (fun g => g) cachedTrack startOfWorld
              rangeInOrder_spec insertionSort_spec slowClock_in_range Hstamps)
    as (H & _).
  exact (H "" (encodingAt "" 300) eq_refl).
Defined.

(** ** Active layers *)

Section ActiveLayers.

Variable rangeMap : nat -> forall V : Type, gmap string V -> list (string * V).
Variable sortSlice : forall A : Type, (A -> A -> bool) -> list A -> list A.
Variable MaxLayerId : Z.

Local Abbreviation select := (IncomingStreamTrack.select sortSlice MaxLayerId).

Lemma foldl_copyLayer (id : string) (layers own all : list Layer.t) :
  foldl (IncomingStreamTrack.copyLayer id) (own, all) layers
  = (own ++ (IncomingStreamTrack.ownLayer <$> layers),
     all ++ (IncomingStreamTrack.globalLayer id <$> layers)).
Proof.
  revert own all. induction layers as [|layer layers IH]; intros own all; cbn.
  - by rewrite !app_nil_r.
  - rewrite IH. by rewrite <- !app_assoc.
Qed.

(** One turn of the loop of lines 305-354. *)
Lemma select_eq (acc : ActiveLayersInfo.t) (kv : string * IncomingAllStats.t) :
  select acc kv
  = if isInactive kv
    then ActiveLayersInfo.mk (ActiveLayersInfo.Active acc)
           (ActiveLayersInfo.Inactive acc ++ [inactiveOf kv])
           (ActiveLayersInfo.Layers acc)
    else ActiveLayersInfo.mk
           (ActiveLayersInfo.Active acc ++ [activeOf sortSlice kv])
           (ActiveLayersInfo.Inactive acc)
           (ActiveLayersInfo.Layers acc ++ globalOf MaxLayerId kv).
Proof.
  destruct kv as [id st]. unfold IncomingStreamTrack.select, isInactive.
  cbn [snd fst]. destruct (IncomingAllStats.Bitrate st =? 0); [done|].
  rewrite foldl_copyLayer. cbn [app]. unfold activeOf, globalOf. cbn [fst snd].
  destruct (IncomingStats.Layers (IncomingAllStats.Media st)) as [|layer layers].
  - cbn. by rewrite app_nil_r.
  - done.
Qed.

(** The loop as a whole. *)
Lemma foldl_select (l : list (string * IncomingAllStats.t))
    (acc : ActiveLayersInfo.t) :
  foldl select acc l
  = ActiveLayersInfo.mk
      (ActiveLayersInfo.Active acc
         ++ (activeOf sortSlice <$> List.filter isActive l))
      (ActiveLayersInfo.Inactive acc ++ (inactiveOf <$> List.filter isInactive l))
      (ActiveLayersInfo.Layers acc
         ++ concat (globalOf MaxLayerId <$> List.filter isActive l)).
Proof.
  revert acc. induction l as [|kv l IH]; intros acc.
  - cbn. rewrite !app_nil_r. by destruct acc.
  - cbn [foldl List.filter]. rewrite IH, select_eq. unfold isActive.
    destruct (isInactive kv); cbn; by rewrite <- ?app_assoc.
Qed.

Hypothesis Hrange : Runtime.RangeSpec rangeMap.
Hypothesis Hsort : Runtime.SortSliceSpec sortSlice.

Lemma lessLayer_order : Runtime.StrictWeakOrder IncomingStreamTrack.lessLayer.
Proof.
  unfold IncomingStreamTrack.lessLayer.
  split; intros; repeat match goal with
    | H : (_ <? _) = true |- _ => apply Z.ltb_lt in H
    | H : (_ <? _) = false |- _ => apply Z.ltb_ge in H
    | |- (_ <? _) = true => apply Z.ltb_lt
    | |- (_ <? _) = false => apply Z.ltb_ge
    end; lia.
Qed.

Lemma lessEncoding_order : Runtime.StrictWeakOrder IncomingStreamTrack.lessEncoding.
Proof.
  unfold IncomingStreamTrack.lessEncoding.
  split; intros; repeat match goal with
    | H : (_ <? _) = true |- _ => apply Z.ltb_lt in H
    | H : (_ <? _) = false |- _ => apply Z.ltb_ge in H
    | |- (_ <? _) = true => apply Z.ltb_lt
    | |- (_ <? _) = false => apply Z.ltb_ge
    end; lia.
Qed.

(** The guarded sorts of lines 341, 356 and 360. *)
Lemma sorted_layers (l : list Layer.t) :
  let sorted :=
    if (0 <? length l)%nat
    then sortSlice _ IncomingStreamTrack.lessLayer l else l in
  sorted ≡ₚ l /\ StronglySorted ascLayer sorted.
Proof.
  destruct Hsort as [Hperm Hsorted]. cbv zeta.
  destruct l as [|x l]; [split; [done|constructor]|].
  cbn [length Nat.ltb Nat.leb]. split; [apply Hperm|].
  eapply StronglySorted_weaken; [|apply Hsorted, lessLayer_order].
  intros a b. unfold IncomingStreamTrack.lessLayer, ascLayer.
  intros H%Z.ltb_ge. lia.
Qed.

Lemma sorted_encodings (l : list ActiveEncoding.t) :
  let sorted :=
    if (0 <? length l)%nat
    then sortSlice _ IncomingStreamTrack.lessEncoding l else l in
  sorted ≡ₚ l /\ StronglySorted ascEncoding sorted.
Proof.
  destruct Hsort as [Hperm Hsorted]. cbv zeta.
  destruct l as [|x l]; [split; [done|constructor]|].
  cbn [length Nat.ltb Nat.leb]. split; [apply Hperm|].
  eapply StronglySorted_weaken; [|apply Hsorted, lessEncoding_order].
  intros a b. unfold IncomingStreamTrack.lessEncoding, ascEncoding.
  intros H%Z.ltb_ge. lia.
Qed.

Lemma List_filter_perm {A : Type} (f : A -> bool) (l l' : list A) :
  l ≡ₚ l' -> List.filter f l ≡ₚ List.filter f l'.
Proof.
  induction 1 as [|x l l' _ IH|x y l|l l' l'' _ IH1 _ IH2]; cbn.
  - done.
  - destruct (f x); by rewrite IH.
  - destruct (f x), (f y); try done. apply Permutation_swap.
  - by rewrite IH1.
Qed.

(** What the selector returns for a cache. *)
Lemma activeLayers_spec (cache : gmap string IncomingAllStats.t) (w : World) :
  let info :=
    (IncomingStreamTrack.activeLayers rangeMap sortSlice MaxLayerId cache w).1 in
  ActiveLayersInfo.Inactive info
    ≡ₚ inactiveOf <$> List.filter isInactive (map_to_list cache)
  /\ ActiveLayersInfo.Active info
      ≡ₚ activeOf sortSlice <$> List.filter isActive (map_to_list cache)
  /\ ActiveLayersInfo.Layers info
      ≡ₚ concat (globalOf MaxLayerId <$> List.filter isActive (map_to_list cache))
  /\ StronglySorted ascEncoding (ActiveLayersInfo.Active info)
  /\ StronglySorted ascLayer (ActiveLayersInfo.Layers info).
Proof.
  cbv zeta. unfold IncomingStreamTrack.activeLayers. rewrite foldl_select.
  cbn [fst ActiveLayersInfo.Active ActiveLayersInfo.Inactive
       ActiveLayersInfo.Layers app].
  pose proof (Hrange (tick w) _ cache) as Hl.
  destruct (sorted_encodings
              (activeOf sortSlice <$> List.filter isActive (rangeMap (tick w) _ cache)))
    as [Ha1 Ha2].
  destruct (sorted_layers
              (concat (globalOf MaxLayerId
                         <$> List.filter isActive (rangeMap (tick w) _ cache))))
    as [Hg1 Hg2].
  split_and!; try done.
  - by rewrite (List_filter_perm _ _ _ Hl).
  - by rewrite Ha1, (List_filter_perm _ _ _ Hl).
  - rewrite Hg1. apply concat_perm. by rewrite (List_filter_perm _ _ _ Hl).
Qed.

End ActiveLayers.

Lemma elem_of_List_filter {A : Type} (f : A -> bool) (l : list A) (x : A) :
  x ∈ List.filter f l <-> x ∈ l /\ f x = true.
Proof. rewrite !list_elem_of_In. apply List.filter_In. Qed.

Lemma elem_of_concat {A : Type} (x : A) (ls : list (list A)) :
  x ∈ concat ls <-> exists l, x ∈ l /\ l ∈ ls.
Proof.
  rewrite list_elem_of_In, List.in_concat.
  split; intros [l [H1 H2]]; exists l; by rewrite ?list_elem_of_In in *.
Qed.

Lemma NoDup_fst_List_filter {A B : Type} (f : A * B -> bool) (l : list (A * B)) :
  NoDup l.*1 -> NoDup (List.filter f l).*1.
Proof.
  induction l as [|x l IH]; [done|]. rewrite fmap_cons.
  intros [Hx Hnd]%NoDup_cons. cbn. destruct (f x); [|by apply IH].
  rewrite fmap_cons. apply NoDup_cons. split; [|by apply IH].
  intros [y [Hy Hin]]%list_elem_of_fmap. apply Hx.
  apply list_elem_of_fmap. exists y. split; [done|].
  by apply elem_of_List_filter in Hin as [Hin _].
Qed.

Lemma globalOf_encoding (MaxLayerId : Z) (kv : string * IncomingAllStats.t) :
  Forall (fun g => Layer.EncodingId g = kv.1) (globalOf MaxLayerId kv).
Proof.
  unfold globalOf.
  destruct (IncomingStats.Layers (IncomingAllStats.Media kv.2)) as [|x l].
  - by repeat constructor.
  - apply Forall_fmap, Forall_true. by intros [].
Qed.

Lemma globalOf_nonempty (MaxLayerId : Z) (kv : string * IncomingAllStats.t) :
  globalOf MaxLayerId kv <> [].
Proof.
  unfold globalOf.
  by destruct (IncomingStats.Layers (IncomingAllStats.Media kv.2)).
Qed.

Lemma filter_all {A : Type} (f : A -> bool) (l : list A) :
  Forall (fun x => f x = true) l -> List.filter f l = l.
Proof. induction 1 as [|x l Hx _ IH]; cbn; [done|]. by rewrite Hx, IH. Qed.

Lemma filter_none {A : Type} (f : A -> bool) (l : list A) :
  Forall (fun x => f x = false) l -> List.filter f l = [].
Proof. induction 1 as [|x l Hx _ IH]; cbn; [done|]. by rewrite Hx, IH. Qed.

(** Of the global layers of a list of entries with distinct ids, those of
    the encoding [kv.1] are the ones made for [kv]. *)
Lemma filter_globalOf (MaxLayerId : Z) (l : list (string * IncomingAllStats.t))
    (kv : string * IncomingAllStats.t) :
  NoDup l.*1 ->
  kv ∈ l ->
  List.filter (ofEncoding kv.1) (concat (globalOf MaxLayerId <$> l))
  = globalOf MaxLayerId kv.
Proof.
  induction l as [|x l IH]; intros Hnd Hin; [by apply elem_of_nil in Hin|].
  rewrite fmap_cons in Hnd. apply NoDup_cons in Hnd as [Hx Hnd].
  rewrite fmap_cons. cbn [concat]. rewrite List.filter_app.
  apply elem_of_cons in Hin as [->|Hin].
  - rewrite filter_all.
    + rewrite filter_none; [by rewrite app_nil_r|].
      apply Forall_forall. intros g [gs [Hgs Hg]]%elem_of_concat.
      apply list_elem_of_fmap in Hg as [y [-> Hy]].
      pose proof (globalOf_encoding MaxLayerId y) as Hall.
      rewrite Forall_forall in Hall. unfold ofEncoding.
      apply bool_decide_eq_false_2. rewrite (Hall g Hgs). intros Heq.
      apply Hx. apply list_elem_of_fmap. by exists y.
    + eapply Forall_impl; [apply globalOf_encoding|].
      intros g Hg. by apply bool_decide_eq_true_2.
  - rewrite filter_none; [by rewrite IH|].
    eapply Forall_impl; [apply globalOf_encoding|].
    intros g Hg. apply bool_decide_eq_false_2. rewrite Hg. intros Heq.
    apply Hx. apply list_elem_of_fmap. by exists kv.
Qed.

Section ActiveLayersOfTrack.

Variable now : nat -> Z.
Variable rangeMap : nat -> forall V : Type, gmap string V -> list (string * V).
Variable sortSlice : forall A : Type, (A -> A -> bool) -> list A -> list A.
Variable Update : RTPIncomingSourceGroup.t -> RTPIncomingSourceGroup.t.
Variable MaxLayerId : Z.
Hypothesis Hrange : Runtime.RangeSpec rangeMap.
Hypothesis Hsort : Runtime.SortSliceSpec sortSlice.

Local Abbreviation getStats :=
  (IncomingStreamTrack.GetStats now rangeMap sortSlice Update).
Local Abbreviation getActiveLayers :=
  (IncomingStreamTrack.GetActiveLayers now rangeMap sortSlice Update MaxLayerId).

Lemma GetActiveLayers_eq (i : IncomingStreamTrack.t) (w : World) :
  let g := getStats i w in
  let a :=
    IncomingStreamTrack.activeLayers rangeMap sortSlice MaxLayerId
      (IncomingStreamTrack.stats g.1) g.2 in
  getActiveLayers i w = (a.1, g.1, a.2).
Proof.
  cbv zeta. unfold IncomingStreamTrack.GetActiveLayers.
  destruct (getStats i w) as [i1 w1]. cbn [fst snd].
  by destruct (IncomingStreamTrack.activeLayers _ _ _ _ _).
Qed.


End ActiveLayersOfTrack.

Lemma isActive_bitrate (kv : string * IncomingAllStats.t) :
  isActive kv = true <-> IncomingAllStats.Bitrate kv.2 <> 0.
Proof.
  unfold isActive, isInactive. rewrite negb_true_iff. apply Z.eqb_neq.
Qed.



(** C5.  Every active encoding (bitrate not 0, that is > 0 on an unsigned
    bitrate) of the cache has at least one layer in the global layer list.
    For an active encoding without aggregated layers that list holds
    exactly one layer of the encoding, made up for it: it carries the
    encoding id and simulcast index, [MaxLayerId] as spatial and as temporal
    layer id, and the bitrate of the encoding; the encoding's own layer
    list in the active list stays empty. *)
Theorem flat_encoding_gets_one_layer (now : nat -> Z)
    (rangeMap : nat -> forall V : Type, gmap string V -> list (string * V))
    (sortSlice : forall A : Type, (A -> A -> bool) -> list A -> list A)
    (Update : RTPIncomingSourceGroup.t -> RTPIncomingSourceGroup.t)
    (MaxLayerId : Z) (i : IncomingStreamTrack.t) (w : World) :
  Runtime.RangeSpec rangeMap ->
  Runtime.SortSliceSpec sortSlice ->
  let r :=
    IncomingStreamTrack.GetActiveLayers now rangeMap sortSlice Update MaxLayerId i w in
  let info := r.1.1 in
  let cache := IncomingStreamTrack.stats r.1.2 in
  forall id st,
    cache !! id = Some st ->
    IncomingAllStats.Bitrate st <> 0 ->
    (exists g, g ∈ ActiveLayersInfo.Layers info /\ Layer.EncodingId g = id)
    /\ (IncomingStats.Layers (IncomingAllStats.Media st) = [] ->
        List.filter (ofEncoding id) (ActiveLayersInfo.Layers info)
        = [Layer.mk id MaxLayerId MaxLayerId 0 0 (IncomingAllStats.Bitrate st)
             (IncomingAllStats.SimulcastIdx st)]
        /\ exists a,
             a ∈ ActiveLayersInfo.Active info
             /\ ActiveEncoding.EncodingId a = id
             /\ ActiveEncoding.SimulcastIdx a = IncomingAllStats.SimulcastIdx st
             /\ ActiveEncoding.Bitrate a = IncomingAllStats.Bitrate st
             /\ ActiveEncoding.Layers a = []).
Proof.
  intros Hrange Hsort r info cache id st Hst Hbitrate. subst cache info r.
  rewrite GetActiveLayers_eq in *. cbn [fst snd] in *.
  set (g := IncomingStreamTrack.GetStats now rangeMap sortSlice Update i w) in *.
  destruct (activeLayers_spec rangeMap sortSlice MaxLayerId Hrange Hsort
              (IncomingStreamTrack.stats g.1) g.2) as (_ & Hact & Hall & _ & _).
  set (info := (IncomingStreamTrack.activeLayers rangeMap sortSlice MaxLayerId
                  (IncomingStreamTrack.stats g.1) g.2).1) in *.
  set (F := List.filter isActive (map_to_list (IncomingStreamTrack.stats g.1))) in *.
  assert ((id, st) ∈ F) as HF.
  { apply elem_of_List_filter. split; [by apply elem_of_map_to_list|].
    by apply isActive_bitrate. }
  assert (NoDup F.*1) as Hnd
    by apply NoDup_fst_List_filter, NoDup_fst_map_to_list.
  pose proof (filter_globalOf MaxLayerId F (id, st) Hnd HF) as Hmine.
  cbn [fst] in Hmine.
  split.
  - destruct (globalOf MaxLayerId (id, st)) as [|g0 gs] eqn:Hg0;
      [by apply globalOf_nonempty in Hg0|].
    exists g0. split.
    + rewrite Hall. apply elem_of_concat. exists (g0 :: gs). split; [by left|].
      apply list_elem_of_fmap. by exists (id, st).
    + pose proof (globalOf_encoding MaxLayerId (id, st)) as Henc.
      rewrite Hg0 in Henc. by apply Forall_cons in Henc as [Henc _].
  - intros Hflat. split.
    + apply Permutation_singleton_r.
      rewrite (List_filter_perm _ _ _ Hall), Hmine.
      unfold globalOf. cbn [fst snd]. by rewrite Hflat.
    + exists (activeOf sortSlice (id, st)). split.
      * rewrite Hact. apply list_elem_of_fmap. by exists (id, st).
      * unfold activeOf. cbn. by rewrite Hflat.
Qed.


Lemma flat_encoding_gets_one_layer_witness :
  let r :=
    IncomingStreamTrack.GetActiveLayers sampleClock Runtime.rangeInOrder
      Runtime.insertionSort (fun g => g) 255 mixedTrack startOfWorld in
  exists st,
    IncomingStreamTrack.stats r.1.2 !! "lo" = Some st
    /\ IncomingAllStats.Bitrate st = 100
    /\ IncomingStats.Layers (IncomingAllStats.Media st) = []
    /\ List.filter (ofEncoding "lo") (ActiveLayersInfo.Layers r.1.1)
       = [Layer.mk "lo" 255 255 0 0 100 2].
Proof.
  cbv zeta.
  assert (exists st,
            IncomingStreamTrack.stats
              (IncomingStreamTrack.GetActiveLayers sampleClock Runtime.rangeInOrder
                 Runtime.insertionSort (fun g => g) 255 mixedTrack startOfWorld).1.2
            !! "lo" = Some st
            /\ IncomingAllStats.Bitrate st = 100
            /\ IncomingAllStats.SimulcastIdx st = 2
            /\ IncomingStats.Layers (IncomingAllStats.Media st) = [])
    as (st & Hst & Hb & Hidx & Hflat).
  { vm_compute. eexists. split; [reflexivity|]. done. }
  exists st. split; [exact Hst|]. split; [exact Hb|]. split; [exact Hflat|].
  destruct (flat_encoding_gets_one_layer sampleClock Runtime.rangeInOrder
              Runtime.insertionSort (fun g => g) 255 mixedTrack startOfWorld
              rangeInOrder_spec insertionSort_spec "lo" st Hst) as [_ H].
  { rewrite Hb. discriminate. }
  destruct (H Hflat) as [Hone _]. rewrite Hone. by rewrite Hb, Hidx.
Defined.

(** ** Building the source groups *)

Lemma registeredIn_app (tr tr' : list Call) :
  registeredIn (tr ++ tr') = registeredIn tr ++ registeredIn tr'.
Proof. apply omap_app. Qed.

Lemma createdIn_app (tr tr' : list Call) :
  createdIn (tr ++ tr') = createdIn tr ++ createdIn tr'.
Proof. apply omap_app. Qed.

Lemma printedIn_app (tr tr' : list Call) :
  printedIn (tr ++ tr') = printedIn tr ++ printedIn tr'.
Proof. apply omap_app. Qed.

Lemma since_app (w : World) (tr : list Call) :
  since w (mkWorld (tick w) (trace w ++ tr)) = tr.
Proof. unfold since. cbn. by rewrite drop_app_length. Qed.

Lemma world_eta (w : World) : mkWorld (tick w) (trace w ++ []) = w.
Proof. destruct w. cbn. by rewrite app_nil_r. Qed.

Lemma call_app (c : Call) (w : World) (tr : list Call) :
  call c (mkWorld (tick w) (trace w ++ tr)) = mkWorld (tick w) (trace w ++ (tr ++ [c])).
Proof. unfold call. cbn. by rewrite app_assoc. Qed.

Section SourceGroups.

Variable i : IncomingStream.t.
Variable track : TrackInfo.t.
Variable mediaType : Z.
Hypothesis Htransport : is_Some (IncomingStream.transport i).
Hypothesis Hgroups : wellFormedGroups track.

Lemma register_ok (source : RTPIncomingSourceGroup.t) (w : World) :
  IncomingStream.register i source w
  = Some (call (Call_AddIncomingSourceGroup source) w).
Proof. unfold IncomingStream.register. by destruct Htransport as [tr ->]. Qed.

(** Binding the companions changes the rtx and fec SSRCs only. *)
Lemma bindRtxFec_ok (group : SourceGroupInfo.t) (source : RTPIncomingSourceGroup.t) :
  (exists a b rest, SourceGroupInfo.GetSSRCs group = Some (a :: b :: rest)) ->
  exists source',
    IncomingStream.bindRtxFec group source = Some source'
    /\ RTPIncomingSourceGroup.GetRid source' = RTPIncomingSourceGroup.GetRid source
    /\ RTPIncomingSourceGroup.GetMedia source' = RTPIncomingSourceGroup.GetMedia source.
Proof.
  intros (a & b & rest & Hs). unfold IncomingStream.bindRtxFec, IncomingStream.index.
  rewrite Hs. cbn. repeat case_bool_decide; cbn; eauto.
Qed.

Lemma bindByRid_ok (source : RTPIncomingSourceGroup.t) (group : SourceGroupInfo.t) :
  (exists a b rest, SourceGroupInfo.GetSSRCs group = Some (a :: b :: rest)) ->
  exists source',
    IncomingStream.bindByRid source group = Some source'
    /\ RTPIncomingSourceGroup.GetRid source' = RTPIncomingSourceGroup.GetRid source
    /\ RTPIncomingSourceGroup.GetMedia source' = RTPIncomingSourceGroup.GetMedia source.
Proof.
  intros Hwf. pose proof Hwf as (a & b & rest & Hs).
  unfold IncomingStream.bindByRid. rewrite Hs. cbn.
  case_match; [|eauto]. by apply bindRtxFec_ok.
Qed.

Lemma bindBySsrc_ok (ssrc : Z) (source : RTPIncomingSourceGroup.t)
    (group : SourceGroupInfo.t) :
  (exists a b rest, SourceGroupInfo.GetSSRCs group = Some (a :: b :: rest)) ->
  exists source',
    IncomingStream.bindBySsrc ssrc source group = Some source'
    /\ RTPIncomingSourceGroup.GetRid source' = RTPIncomingSourceGroup.GetRid source
    /\ RTPIncomingSourceGroup.GetMedia source' = RTPIncomingSourceGroup.GetMedia source.
Proof.
  intros Hwf. pose proof Hwf as (a & b & rest & Hs).
  unfold IncomingStream.bindBySsrc, IncomingStream.index. rewrite Hs. cbn.
  case_match; [|eauto]. by apply bindRtxFec_ok.
Qed.

(** The loops over the grouping relations (lines 147-158 and 180-192). *)
Lemma bind_loop
    (bind : RTPIncomingSourceGroup.t -> SourceGroupInfo.t ->
            option RTPIncomingSourceGroup.t)
    (groups : list SourceGroupInfo.t) (source : RTPIncomingSourceGroup.t) :
  (forall source group,
     (exists a b rest, SourceGroupInfo.GetSSRCs group = Some (a :: b :: rest)) ->
     exists source',
       bind source group = Some source'
       /\ RTPIncomingSourceGroup.GetRid source' = RTPIncomingSourceGroup.GetRid source
       /\ RTPIncomingSourceGroup.GetMedia source'
          = RTPIncomingSourceGroup.GetMedia source) ->
  Forall
    (fun g => exists a b rest, SourceGroupInfo.GetSSRCs g = Some (a :: b :: rest))
    groups ->
  exists source',
    foldlM bind source groups = Some source'
    /\ RTPIncomingSourceGroup.GetRid source' = RTPIncomingSourceGroup.GetRid source
    /\ RTPIncomingSourceGroup.GetMedia source' = RTPIncomingSourceGroup.GetMedia source.
Proof.
  intros Hbind Hwf. revert source.
  induction Hwf as [|group groups Hg _ IH]; intros source; cbn; [eauto|].
  destruct (Hbind source group Hg) as (s1 & -> & Hr1 & Hm1).
  destruct (IH s1) as (s2 & -> & Hr2 & Hm2).
  exists s2. split; [done|]. split; congruence.
Qed.

End SourceGroups.

Section SourceLoops.

Variable i : IncomingStream.t.
Variable track : TrackInfo.t.
Variable mediaType : Z.
Hypothesis Htransport : is_Some (IncomingStream.transport i).
Hypothesis Hgroups : wellFormedGroups track.

(** One turn of the loop of lines 123-163: a group is created; it is
    registered and keyed by its rid unless the ssrc is malformed, in which
    case a warning is printed instead. *)
Lemma createByRid_step (sources : gmap string RTPIncomingSourceGroup.t)
    (w : World) (e : TrackEncodingInfo.t) :
  exists sources' tr,
    IncomingStream.createByRid i track mediaType (sources, w) e
    = Some (sources', mkWorld (tick w) (trace w ++ tr))
    /\ createdIn tr = [mediaType]
    /\ match parseError e with
       | Some err =>
           sources' = sources /\ registeredIn tr = [] /\ printedIn tr = [err]
       | None =>
           exists g,
             sources' = <[TrackEncodingInfo.GetID e := g]> sources
             /\ registeredIn tr = [g] /\ printedIn tr = []
             /\ RTPIncomingSourceGroup.GetRid g = Some (TrackEncodingInfo.GetID e)
       end.
Proof.
  unfold IncomingStream.createByRid, parseError.
  set (source0 :=
         if bool_decide (TrackInfo.GetMediaID track ≠ "")
         then RTPIncomingSourceGroup.SetMid (TrackInfo.GetMediaID track)
                (RTPIncomingSourceGroup.SetRid (TrackEncodingInfo.GetID e)
                   (NewRTPIncomingSourceGroup mediaType))
         else RTPIncomingSourceGroup.SetRid (TrackEncodingInfo.GetID e)
                (NewRTPIncomingSourceGroup mediaType)).
  assert (RTPIncomingSourceGroup.GetRid source0 = Some (TrackEncodingInfo.GetID e))
    as Hrid0 by (unfold source0; by case_bool_decide).
  destruct (TrackEncodingInfo.GetParams e !! "ssrc") as [ssrc|].
  - destruct (strconv.ParseUint ssrc) as [ssrcUint|err].
    + destruct (bind_loop IncomingStream.bindByRid (TrackInfo.GetSourceGroupS track)
                  (RTPIncomingSourceGroup.SetMediaSsrc ssrcUint source0)
                  bindByRid_ok Hgroups) as (g & -> & Hrid & _).
      cbn. rewrite register_ok by done. cbn.
      eexists _, [_; _]. split; [unfold call; cbn; by rewrite <- app_assoc|].
      split; [done|]. exists g. split_and!; try done. by rewrite Hrid.
    + eexists _, [_; _]. split; [unfold call; cbn; by rewrite <- app_assoc|].
      done.
  - rewrite register_ok by done. cbn.
    eexists _, [_; _]. split; [unfold call; cbn; by rewrite <- app_assoc|].
    split; [done|]. by exists source0.
Qed.

Lemma resolvable_parseError (e : TrackEncodingInfo.t) :
  resolvable e = true <-> parseError e = None.
Proof. unfold resolvable. by destruct (parseError e). Qed.

(** The loop of lines 121-164. *)
Lemma createByRid_loop (encs : list TrackEncodingInfo.t)
    (sources : gmap string RTPIncomingSourceGroup.t) (w : World) :
  exists sources' tr,
    foldlM (IncomingStream.createByRid i track mediaType) (sources, w) encs
    = Some (sources', mkWorld (tick w) (trace w ++ tr))
    /\ createdIn tr = replicate (length encs) mediaType
    /\ printedIn tr = omap parseError encs
    /\ RTPIncomingSourceGroup.GetRid <$> registeredIn tr
       = (fun e => Some (TrackEncodingInfo.GetID e)) <$> List.filter resolvable encs
    /\ dom sources'
       = dom sources
         ∪ list_to_set (TrackEncodingInfo.GetID <$> List.filter resolvable encs)
    /\ (forall rid g,
          sources' !! rid = Some g ->
          sources !! rid = Some g
          \/ (RTPIncomingSourceGroup.GetRid g = Some rid /\ g ∈ registeredIn tr)).
Proof.
  revert sources w. induction encs as [|e encs IH]; intros sources w; cbn [foldlM].
  - exists sources, []. rewrite world_eta. split_and!; try done.
    + cbn. set_solver.
    + by left.
  - destruct (createByRid_step sources w e) as (s1 & tr1 & -> & Hc1 & Hstep).
    destruct (IH s1 (mkWorld (tick w) (trace w ++ tr1)))
      as (s2 & tr2 & -> & Hc2 & Hp2 & Hr2 & Hd2 & Hl2).
    exists s2, (tr1 ++ tr2). cbn [tick trace]. rewrite <- app_assoc.
    split; [done|].
    rewrite createdIn_app, printedIn_app, registeredIn_app, Hc1, Hc2, Hp2, fmap_app, Hr2.
    cbn [omap list_omap List.filter].
    destruct (parseError e) as [err|] eqn:Herr.
    + assert (resolvable e = false) as -> by (unfold resolvable; by rewrite Herr).
      destruct Hstep as (-> & -> & ->). split_and!; try done.
    + assert (resolvable e = true) as -> by (unfold resolvable; by rewrite Herr).
      destruct Hstep as (g & -> & -> & -> & Hrid). cbn. rewrite Hrid.
      split_and!; try done.
      * rewrite Hd2, dom_insert_L. set_solver.
      * intros rid g' Hg'. destruct (Hl2 rid g' Hg') as [Hin|[Hr Hin]].
        -- apply lookup_insert_Some in Hin as [[<- <-]|[_ Hin]]; [|by left].
           right. split; [done|]. by left.
        -- right. split; [done|]. by right.
Qed.

End SourceLoops.

Lemma to_uint_nonnil (n : nat) : Nat.to_uint n <> Decimal.Nil.
Proof.
  rewrite <- (DecimalNat.Unsigned.of_to n) at 1.
  rewrite DecimalNat.Unsigned.to_of. apply DecimalFacts.unorm_nonnil.
Qed.

(** [strconv.Itoa] gives different strings for different numbers. *)
Lemma Itoa_inj (n m : nat) : strconv.Itoa n = strconv.Itoa m -> n = m.
Proof.
  unfold strconv.Itoa. intros H.
  apply (f_equal DecimalString.NilZero.uint_of_string) in H.
  rewrite !DecimalString.NilZero.usu in H by apply to_uint_nonnil.
  injection H as H. by apply DecimalNat.Unsigned.to_uint_inj.
Qed.

Section SimAndFlat.

Variable i : IncomingStream.t.
Variable track : TrackInfo.t.
Variable mediaType : Z.
Hypothesis Htransport : is_Some (IncomingStream.transport i).
Hypothesis Hgroups : wellFormedGroups track.

(** One turn of the loop of lines 174-197. *)
Lemma createBySsrc_step (j : nat) (sources : gmap string RTPIncomingSourceGroup.t)
    (w : World) (ssrc : Z) :
  exists g,
    IncomingStream.createBySsrc i track mediaType (j, sources, w) ssrc
    = Some (S j, <[strconv.Itoa j := g]> sources,
            mkWorld (tick w)
              (trace w ++ [Call_NewRTPIncomingSourceGroup mediaType;
                           Call_AddIncomingSourceGroup g]))
    /\ mediaSsrc g = ssrc
    /\ RTPIncomingSourceGroup.GetRid g = None.
Proof.
  unfold IncomingStream.createBySsrc.
  destruct (bind_loop (IncomingStream.bindBySsrc ssrc)
              (TrackInfo.GetSourceGroupS track)
              (RTPIncomingSourceGroup.SetMediaSsrc ssrc
                 (NewRTPIncomingSourceGroup mediaType))
              (bindBySsrc_ok ssrc) Hgroups) as (g & -> & Hrid & Hmedia).
  cbn. rewrite register_ok by done. cbn. exists g.
  split; [unfold call; cbn; by rewrite <- app_assoc|].
  unfold mediaSsrc. by rewrite Hrid, Hmedia.
Qed.

(** The loop of lines 174-197. *)
Lemma createBySsrc_loop (ssrcs : list Z) (j : nat)
    (sources : gmap string RTPIncomingSourceGroup.t) (w : World) :
  exists sources' tr,
    foldlM (IncomingStream.createBySsrc i track mediaType) (j, sources, w) ssrcs
    = Some ((j + length ssrcs)%nat, sources', mkWorld (tick w) (trace w ++ tr))
    /\ createdIn tr = replicate (length ssrcs) mediaType
    /\ printedIn tr = []
    /\ mediaSsrc <$> registeredIn tr = ssrcs
    /\ Forall (fun g => RTPIncomingSourceGroup.GetRid g = None) (registeredIn tr)
    /\ (forall k g,
          registeredIn tr !! k = Some g ->
          sources' !! strconv.Itoa (j + k) = Some g)
    /\ (forall key,
          (forall k, (k < length ssrcs)%nat -> key <> strconv.Itoa (j + k)) ->
          sources' !! key = sources !! key).
Proof.
  revert j sources w. induction ssrcs as [|ssrc ssrcs IH]; intros j sources w;
    cbn [foldlM length].
  - exists sources, []. rewrite world_eta, Nat.add_0_r. split_and!; try done.
  - destruct (createBySsrc_step j sources w ssrc) as (g & -> & Hm & Hrid).
    destruct (IH (S j) (<[strconv.Itoa j := g]> sources)
                (mkWorld (tick w)
                   (trace w ++ [Call_NewRTPIncomingSourceGroup mediaType;
                                Call_AddIncomingSourceGroup g])))
      as (s2 & tr2 & -> & Hc2 & Hp2 & Hr2 & Hn2 & Hk2 & Ho2).
    exists s2, ([Call_NewRTPIncomingSourceGroup mediaType;
                 Call_AddIncomingSourceGroup g] ++ tr2).
    cbn [tick trace]. rewrite <- app_assoc.
    split; [do 3 f_equal; lia|].
    rewrite createdIn_app, printedIn_app, registeredIn_app, Hc2, Hp2.
    cbn [createdIn printedIn registeredIn omap list_omap app].
    fold (registeredIn tr2). rewrite fmap_cons, Hr2, Hm.
    split_and!; try done.
    + by constructor.
    + intros [|k] g' Hg'.
      * injection Hg' as <-. rewrite Nat.add_0_r.
        rewrite Ho2; [by rewrite lookup_insert_eq|].
        intros k _ Heq%Itoa_inj. lia.
      * cbn in Hg'. rewrite <- Nat.add_succ_comm. by apply Hk2.
    + intros key Hkey. rewrite Ho2.
      * rewrite lookup_insert_ne; [done|]. intros Heq.
        apply (Hkey 0%nat); [lia|]. by rewrite Nat.add_0_r.
      * intros k Hk. rewrite Nat.add_succ_comm. apply Hkey. lia.
Qed.

Lemma GetSourceGroup_in (semantics : string) (g : SourceGroupInfo.t) :
  TrackInfo.GetSourceGroup semantics track = Some g ->
  exists a b rest, SourceGroupInfo.GetSSRCs g = Some (a :: b :: rest).
Proof.
  unfold TrackInfo.GetSourceGroup. intros [Hin _]%List.find_some.
  unfold wellFormedGroups in Hgroups. rewrite Forall_forall in Hgroups.
  apply Hgroups. by apply list_elem_of_In.
Qed.

(** Lines 200-222. *)
Lemma createFlat_ok (w : World) (first : Z) :
  TrackInfo.GetSSRCS track !! 0%nat = Some first ->
  exists g,
    IncomingStream.createFlat i track mediaType w
    = Some (<["" := g]> ∅,
            mkWorld (tick w)
              (trace w ++ [Call_NewRTPIncomingSourceGroup mediaType;
                           Call_AddIncomingSourceGroup g]))
    /\ mediaSsrc g = first
    /\ RTPIncomingSourceGroup.GetRid g = None
    /\ RTPIncomingSource.GetSsrc (RTPIncomingSourceGroup.GetRtx g)
       = match TrackInfo.GetSourceGroup "FID" track with
         | Some fid => default 0 (default [] (SourceGroupInfo.GetSSRCs fid) !! 1%nat)
         | None => 0
         end
    /\ RTPIncomingSource.GetSsrc (RTPIncomingSourceGroup.GetFec g)
       = match TrackInfo.GetSourceGroup "FEC-FR" track with
         | Some fec => default 0 (default [] (SourceGroupInfo.GetSSRCs fec) !! 1%nat)
         | None => 0
         end.
Proof.
  intros Hfirst. unfold IncomingStream.createFlat. rewrite Hfirst. cbn [mbind option_bind].
  unfold IncomingStream.index.
  destruct (TrackInfo.GetSourceGroup "FID" track) as [fid|] eqn:Hfid;
    [destruct (GetSourceGroup_in _ _ Hfid) as (a & b & rest & ->)|];
    (destruct (TrackInfo.GetSourceGroup "FEC-FR" track) as [fec|] eqn:Hfec;
      [destruct (GetSourceGroup_in _ _ Hfec) as (a' & b' & rest' & ->)|]);
    cbn; rewrite register_ok by done; cbn;
    (eexists; split; [unfold call; cbn; by rewrite <- app_assoc|]; done).
Qed.

End SimAndFlat.

Lemma createBySsrc_dom (i : IncomingStream.t) (track : TrackInfo.t) (mediaType : Z)
    (ssrcs : list Z) (j : nat) (sources : gmap string RTPIncomingSourceGroup.t)
    (w : World) (r : nat * gmap string RTPIncomingSourceGroup.t * World) :
  foldlM (IncomingStream.createBySsrc i track mediaType) (j, sources, w) ssrcs
  = Some r ->
  dom r.1.2 = dom sources ∪ list_to_set (strconv.Itoa <$> seq j (length ssrcs)).
Proof.
  revert j sources w. induction ssrcs as [|ssrc ssrcs IH]; intros j sources w;
    cbn [foldlM].
  - intros [= <-]. cbn. set_solver.
  - destruct (IncomingStream.createBySsrc i track mediaType (j, sources, w) ssrc)
      as [[[j1 s1] w1]|] eqn:Hstep; [|done].
    intros Hrest. unfold IncomingStream.createBySsrc in Hstep.
    destruct (foldlM _ _ _) as [g|]; [|done]. cbn in Hstep.
    destruct (IncomingStream.register i g _) as [w'|]; [|done]. cbn in Hstep.
    injection Hstep as <- <- <-.
    rewrite (IH _ _ _ Hrest), dom_insert_L. cbn. set_solver.
Qed.

(** C4.  For a stream with a transport and a description whose grouping
    relations each list two SSRCs or more, building the source groups does
    not fail and follows the first strategy that matches.  When the
    description has rid encodings, SIM group or not, the groups registered
    are those of the signaled encodings whose ssrc is not malformed, one
    each and in order, each carrying the rid of its encoding and keyed by
    it; no group without a rid is made.  When it has none but has a SIM
    group, one group per SSRC of the SIM group is registered, in order,
    bound to that SSRC, without rid and keyed by its position written in
    decimal.  When it has neither, and at least one signaled SSRC, exactly
    one group is registered, bound to the first signaled SSRC, without rid
    and keyed by the empty string. *)
Theorem source_groups_by_first_matching_strategy (i : IncomingStream.t)
    (track : TrackInfo.t) (w : World) :
  is_Some (IncomingStream.transport i) ->
  wellFormedGroups track ->
  (TrackInfo.GetEncodings track = [] ->
   TrackInfo.GetSourceGroup "SIM" track = None ->
   TrackInfo.GetSSRCS track <> []) ->
  exists sources w',
    IncomingStream.createSources i track w = Some (sources, w')
    /\ let registered := registeredIn (since w w') in
       let encs := concat (TrackInfo.GetEncodings track) in
       (TrackInfo.GetEncodings track <> [] ->
        RTPIncomingSourceGroup.GetRid <$> registered
        = (fun e => Some (TrackEncodingInfo.GetID e)) <$> List.filter resolvable encs
        /\ dom sources
           = list_to_set (TrackEncodingInfo.GetID <$> List.filter resolvable encs)
        /\ forall rid g,
             sources !! rid = Some g ->
             RTPIncomingSourceGroup.GetRid g = Some rid /\ g ∈ registered)
       /\ (TrackInfo.GetEncodings track = [] ->
           forall SIM,
             TrackInfo.GetSourceGroup "SIM" track = Some SIM ->
             let ssrcs := default [] (SourceGroupInfo.GetSSRCs SIM) in
             mediaSsrc <$> registered = ssrcs
             /\ Forall (fun g => RTPIncomingSourceGroup.GetRid g = None) registered
             /\ dom sources = list_to_set (strconv.Itoa <$> seq 0 (length ssrcs))
             /\ forall k g,
                  registered !! k = Some g -> sources !! strconv.Itoa k = Some g)
       /\ (TrackInfo.GetEncodings track = [] ->
           TrackInfo.GetSourceGroup "SIM" track = None ->
           exists g first,
             TrackInfo.GetSSRCS track !! 0%nat = Some first
             /\ sources = <["" := g]> ∅
             /\ registered = [g]
             /\ mediaSsrc g = first
             /\ RTPIncomingSourceGroup.GetRid g = None).
Proof.
  intros Htransport Hgroups Hssrcs. unfold IncomingStream.createSources.
  set (mediaType := if bool_decide (TrackInfo.GetMedia track = "video") then 1 else 0).
  destruct (TrackInfo.GetEncodings track) as [|items encodings] eqn:Hencs.
  - cbn [length Nat.ltb Nat.leb].
    destruct (TrackInfo.GetSourceGroup "SIM" track) as [SIM|] eqn:HSIM.
    + destruct (createBySsrc_loop i track mediaType Htransport Hgroups
                  (default [] (SourceGroupInfo.GetSSRCs SIM)) 0 ∅ w)
        as (sources & tr & Hloop & _ & _ & Hmedia & Hrid & Hkeys & _).
      pose proof (createBySsrc_dom _ _ _ _ _ _ _ _ Hloop) as Hdom.
      rewrite Hloop. cbn [mbind option_bind fst snd] in *.
      eexists _, _. split; [done|]. rewrite since_app. cbv zeta.
      split; [done|]. split; [|done].
      intros _ SIM' [= <-]. split_and!; try done.
      rewrite Hdom, dom_empty_L. set_solver.
    + destruct (TrackInfo.GetSSRCS track) as [|first ssrcs] eqn:Hs;
        [by destruct Hssrcs|].
      destruct (createFlat_ok i track mediaType Htransport Hgroups w first)
        as (g & -> & Hmedia & Hrid & _); [by rewrite Hs|].
      eexists _, _. split; [done|]. rewrite since_app. cbv zeta.
      split; [done|]. split; [done|]. intros _ _. by exists g, first.
  - cbn [length Nat.ltb Nat.leb].
    destruct (createByRid_loop i track mediaType Htransport Hgroups
                (concat (items :: encodings)) ∅ w)
      as (sources & tr & -> & _ & _ & Hrids & Hdom & Hin).
    eexists _, _. split; [done|]. rewrite since_app. cbv zeta.
    split; [|done]. intros _. split_and!; try done.
    + rewrite Hdom, dom_empty_L. set_solver.
    + intros rid g Hg. by destruct (Hin rid g Hg) as [?|?].
Qed.

Lemma ridTrack_wellFormed : wellFormedGroups ridTrack.
Proof. unfold wellFormedGroups, ridTrack. cbn. repeat constructor; by eexists _, _, _. Qed.

Lemma source_groups_by_first_matching_strategy_witness :
  exists sources w',
    IncomingStream.createSources emptyStream ridTrack startOfWorld
    = Some (sources, w')
    /\ TrackInfo.GetSourceGroup "SIM" ridTrack
       = Some (SourceGroupInfo.mk "SIM" (Some [1; 2]))
    /\ RTPIncomingSourceGroup.GetRid <$> registeredIn (since startOfWorld w')
       = [Some "a"; Some "c"]
    /\ dom sources = {["a"; "c"]}.
Proof.
  destruct (source_groups_by_first_matching_strategy emptyStream ridTrack
              startOfWorld) as (sources & w' & Hs & Hrid & _).
  - by eexists.
  - exact ridTrack_wellFormed.
  - intros H. discriminate H.
  - exists sources, w'. split; [exact Hs|]. split; [reflexivity|].
    destruct Hrid as (Hreg & Hdom & _); [discriminate|].
    split; [exact Hreg|]. rewrite Hdom. vm_compute. reflexivity.
Defined.

(** ** The track that is built *)

(** The loop of lines 165-209 of [newIncomingStreamTrack], over sources met
    once each: an encoding per source, under the key of the source. *)
Lemma foldl_addSource (l : list (string * RTPIncomingSourceGroup.t))
    (t : IncomingStreamTrack.t) (w : World) :
  NoDup l.*1 ->
  let r := foldl IncomingStream.addSource (t, w) l in
  (forall k g,
     (k, g) ∈ l ->
     IncomingStreamTrack.encodings r.1 !! k
     = Some (Encoding.mk k g (Some (Depacketizer g))))
  /\ (forall k, k ∉ l.*1 ->
        IncomingStreamTrack.encodings r.1 !! k = IncomingStreamTrack.encodings t !! k)
  /\ IncomingStreamTrack.id r.1 = IncomingStreamTrack.id t
  /\ IncomingStreamTrack.receiver r.1 = IncomingStreamTrack.receiver t
  /\ IncomingStreamTrack.Emitter r.1 = IncomingStreamTrack.Emitter t
  /\ exists tr,
       r.2 = mkWorld (tick w) (trace w ++ tr)
       /\ registeredIn tr = [] /\ printedIn tr = [] /\ createdIn tr = [].
Proof.
  revert t w. induction l as [|[k0 g0] l IH]; intros t w Hnd.
  - cbn. split_and!; try done.
    + intros k g Hin. by apply elem_of_nil in Hin.
    + exists []. by rewrite world_eta.
  - rewrite fmap_cons in Hnd. apply NoDup_cons in Hnd as [Hk0 Hnd].
    cbn [foldl IncomingStream.addSource]. cbv zeta.
    match goal with |- context [foldl _ (?t1, ?w1) l] =>
      destruct (IH t1 w1 Hnd) as (Hin & Hout & Hid & Hrecv & Hem & tr & Htr & H1 & H2 & H3)
    end.
    cbn [IncomingStreamTrack.id IncomingStreamTrack.receiver
         IncomingStreamTrack.Emitter IncomingStreamTrack.encodings] in *.
    split_and!; try done.
    + intros k g [[= -> ->]|Hel]%elem_of_cons.
      * rewrite Hout by done. by rewrite lookup_insert_eq.
      * by apply Hin.
    + intros k Hk. rewrite fmap_cons in Hk.
      apply not_elem_of_cons in Hk as [Hne Hk].
      rewrite Hout by done. by rewrite lookup_insert_ne.
    + exists (Call_NewStreamTrackDepacketizer g0 :: tr).
      rewrite Htr. cbn. split; [by rewrite <- app_assoc|].
      unfold registeredIn, printedIn, createdIn in *. cbn. done.
Qed.

Lemma newIncomingStreamTrack_spec
    (rangeMap : nat -> forall V : Type, gmap string V -> list (string * V))
    (media id : string) (receiver : option RTPReceiverFacade)
    (sources : gmap string RTPIncomingSourceGroup.t) (w : World) :
  Runtime.RangeSpec rangeMap ->
  let r := IncomingStream.newIncomingStreamTrack rangeMap media id receiver sources w in
  (forall k,
     IncomingStreamTrack.encodings r.1 !! k
     = (fun g => Encoding.mk k g (Some (Depacketizer g))) <$> sources !! k)
  /\ IncomingStreamTrack.id r.1 = id
  /\ IncomingStreamTrack.receiver r.1 = receiver
  /\ IncomingStreamTrack.Emitter r.1 = []
  /\ exists tr,
       r.2 = mkWorld (S (tick w)) (trace w ++ tr)
       /\ registeredIn tr = [] /\ printedIn tr = [] /\ createdIn tr = [].
Proof.
  intros Hrange. cbv zeta. unfold IncomingStream.newIncomingStreamTrack.
  match goal with |- context [foldl _ (?t1, ?w1) ?l] =>
    destruct (foldl_addSource l t1 w1) as (Hin & Hout & Hid & Hrecv & Hem & Htr)
  end.
  { rewrite (Hrange _ _ _). apply NoDup_fst_map_to_list. }
  split_and!; try done.
  intros k. destruct (sources !! k) as [g|] eqn:Hk; cbn.
  - apply Hin. rewrite (Hrange _ _ _). by apply elem_of_map_to_list.
  - rewrite Hout; [done|]. rewrite (Hrange _ _ _).
    intros [[k' g] [-> Hel]]%list_elem_of_fmap.
    apply elem_of_map_to_list in Hel. cbn in Hk. congruence.
Qed.

(** The rid strategy as a whole. *)
Lemma createSources_by_rid (i : IncomingStream.t) (track : TrackInfo.t) (w : World) :
  is_Some (IncomingStream.transport i) ->
  wellFormedGroups track ->
  TrackInfo.GetEncodings track <> [] ->
  let encs := concat (TrackInfo.GetEncodings track) in
  exists sources tr,
    IncomingStream.createSources i track w
    = Some (sources, mkWorld (tick w) (trace w ++ tr))
    /\ printedIn tr = omap parseError encs
    /\ RTPIncomingSourceGroup.GetRid <$> registeredIn tr
       = (fun e => Some (TrackEncodingInfo.GetID e)) <$> List.filter resolvable encs
    /\ dom sources
       = list_to_set (TrackEncodingInfo.GetID <$> List.filter resolvable encs)
    /\ forall rid g,
         sources !! rid = Some g -> RTPIncomingSourceGroup.GetRid g = Some rid.
Proof.
  intros Htransport Hgroups Hencs. cbv zeta. unfold IncomingStream.createSources.
  destruct (TrackInfo.GetEncodings track) as [|items encodings] eqn:He; [done|].
  cbn [length Nat.ltb Nat.leb].
  destruct (createByRid_loop i track
              (if bool_decide (TrackInfo.GetMedia track = "video") then 1 else 0)
              Htransport Hgroups (concat (items :: encodings)) ∅ w)
    as (sources & tr & -> & _ & Hp & Hreg & Hdom & Hin).
  exists sources, tr. split_and!; try done.
  - rewrite Hdom, dom_empty_L. set_solver.
  - intros rid g Hg. by destruct (Hin rid g Hg) as [?|[? _]].
Qed.

Lemma since_call (w : World) (n : nat) (tr1 tr2 : list Call) (c : Call) :
  since w (call c (mkWorld n ((trace w ++ tr1) ++ tr2))) = tr1 ++ tr2 ++ [c].
Proof.
  unfold since, call. cbn. rewrite <- !app_assoc. by rewrite drop_app_length.
Qed.

(** C9, as first stated, fails: for a description whose one encoding has
    the ssrc ["abc"], no encoding is resolvable, yet a group is created. *)
Lemma malformed_ssrc_still_creates_group :
  ~ noGroupForMalformed emptyStream malformedOnly startOfWorld.
Proof.
  intros H. specialize (H _ _ eq_refl). vm_compute in H. discriminate H.
Qed.

(** C9 (amended).  For a stream with a transport and a rid-based
    description whose grouping relations each list two SSRCs or more,
    [CreateTrack] does not fail and stores the track it returns, however
    many encodings carry an ssrc that does not parse.  Each such encoding
    gets a warning printed, in order, and is skipped: no group is registered
    with the transport for it and none is keyed under its rid on its
    behalf.  The other encodings are built, one registered group each, in
    order, and the track has exactly their rids as the keys of its
    encodings.  When no encoding is resolvable the track has no encodings
    and nothing is registered. *)
Theorem malformed_ssrc_is_skipped
    (rangeMap : nat -> forall V : Type, gmap string V -> list (string * V))
    (i : IncomingStream.t) (track : TrackInfo.t) (w : World) :
  Runtime.RangeSpec rangeMap ->
  is_Some (IncomingStream.transport i) ->
  wellFormedGroups track ->
  TrackInfo.GetEncodings track <> [] ->
  let encs := concat (TrackInfo.GetEncodings track) in
  exists t i' w',
    IncomingStream.CreateTrack rangeMap i track w = Some (t, i', w')
    /\ IncomingStream.tracks i' !! TrackInfo.GetID track = Some t
    /\ printedIn (since w w') = omap parseError encs
    /\ RTPIncomingSourceGroup.GetRid <$> registeredIn (since w w')
       = (fun e => Some (TrackEncodingInfo.GetID e)) <$> List.filter resolvable encs
    /\ dom (IncomingStreamTrack.encodings t)
       = list_to_set (TrackEncodingInfo.GetID <$> List.filter resolvable encs)
    /\ (forall k e,
          IncomingStreamTrack.encodings t !! k = Some e ->
          RTPIncomingSourceGroup.GetRid (Encoding.source e) = Some k)
    /\ (Forall (fun e => resolvable e = false) encs ->
        IncomingStreamTrack.encodings t = ∅
        /\ registeredIn (since w w') = []).
Proof.
  intros Hrange Htransport Hgroups Hencs encs. subst encs.
  destruct (createSources_by_rid i track w Htransport Hgroups Hencs)
    as (sources & tr1 & Hsources & Hprinted & Hreg & Hdom & Hkeys).
  unfold IncomingStream.CreateTrack. rewrite Hsources. cbn [mbind option_bind].
  destruct (newIncomingStreamTrack_spec rangeMap (TrackInfo.GetMedia track)
              (TrackInfo.GetID track) (IncomingStream.receiver i) sources
              (mkWorld (tick w) (trace w ++ tr1)) Hrange)
    as (Hlookup & _ & _ & _ & tr2 & Hw2 & R2 & P2 & _).
  destruct (IncomingStream.newIncomingStreamTrack _ _ _ _ _ _) as [t w2].
  cbn [fst snd] in *. subst w2. cbn [tick trace].
  eexists _, _, _. split; [reflexivity|].
  rewrite since_call, !registeredIn_app, !printedIn_app, R2, P2, Hprinted.
  cbn [IncomingStream.tracks IncomingStream.withTracks
       IncomingStreamTrack.encodings].
  rewrite !app_nil_r. split_and!.
  - by rewrite lookup_insert_eq.
  - done.
  - done.
  - rewrite <- Hdom. apply set_eq. intros k. rewrite !elem_of_dom, Hlookup.
    by rewrite fmap_is_Some.
  - intros k e. rewrite Hlookup. destruct (sources !! k) as [g|] eqn:Hg; [|done].
    intros [= <-]. cbn. by apply Hkeys.
  - intros Hnone.
    assert (List.filter resolvable (concat (TrackInfo.GetEncodings track)) = [])
      as Hnil by by apply filter_none.
    rewrite Hnil in *. cbn in Hdom, Hreg. split.
    + apply map_empty. intros k. rewrite Hlookup.
      apply dom_empty_inv_L in Hdom. by rewrite Hdom.
    + by apply fmap_nil_inv in Hreg.
Qed.

Lemma malformed_ssrc_is_skipped_witness :
  exists t i' w',
    IncomingStream.CreateTrack Runtime.rangeInOrder emptyStream ridTrack startOfWorld
    = Some (t, i', w')
    /\ printedIn (since startOfWorld w') = [ErrSyntax "abc"]
    /\ RTPIncomingSourceGroup.GetRid <$> registeredIn (since startOfWorld w')
       = [Some "a"; Some "c"]
    /\ dom (IncomingStreamTrack.encodings t) = {["a"; "c"]}.
Proof.
  destruct (malformed_ssrc_is_skipped Runtime.rangeInOrder emptyStream ridTrack
              startOfWorld rangeInOrder_spec)
    as (t & i' & w' & Hc & _ & Hp & Hr & Hd & _).
  - by eexists.
  - exact ridTrack_wellFormed.
  - discriminate.
  - exists t, i', w'. split; [exact Hc|]. split; [exact Hp|]. split; [exact Hr|].
    rewrite Hd. vm_compute. reflexivity.
Defined.

(** ** Examples *)

(** Two queries 150 ms apart return the entry with its timestamp; a third,
    300 ms after the first, stamps a new one. *)
Example freshness_within_and_after :
  let getStats :=
    IncomingStreamTrack.GetStats slowClock Runtime.rangeInOrder
      Runtime.insertionSort (fun g => g) in
  let first := getStats cachedTrack startOfWorld in
  let second := getStats cachedTrack (mkWorld 2 []) in
  IncomingStreamTrack.stats first.1 = IncomingStreamTrack.stats cachedTrack
  /\ trace first.2 = []
  /\ (IncomingAllStats.timestamp <$> IncomingStreamTrack.stats second.1 !! "")
     = Some 1600000000
  /\ trace second.2 = [Call_Update (groupAt "" 300)].
Proof. vm_compute. done. Qed.

(** The selector on the track with a layered, a flat and an idle encoding. *)
Example active_layers_of_mixedTrack :
  let info :=
    (IncomingStreamTrack.GetActiveLayers sampleClock Runtime.rangeReversed
       Runtime.insertionSort (fun g => g) 255 mixedTrack startOfWorld).1.1 in
  (ActiveEncoding.EncodingId <$> ActiveLayersInfo.Active info) = ["lo"; "hi"]
  /\ (ActiveEncoding.EncodingId <$> ActiveLayersInfo.Inactive info) = ["off"]
  /\ ((fun g => (Layer.EncodingId g, Layer.Bitrate g, Layer.SimulcastIdx g))
        <$> ActiveLayersInfo.Layers info)
     = [("lo", 100, 2); ("hi", 300, 1); ("hi", 900, 1)].
Proof. vm_compute. done. Qed.

(** The three strategies on the sample descriptions. *)
Example strategies :
  let keys (track : TrackInfo.t) :=
    (fun r : gmap string RTPIncomingSourceGroup.t * World =>
       (fun kv => (kv.1, RTPIncomingSourceGroup.GetRid kv.2, mediaSsrc kv.2))
         <$> map_to_list r.1)
      <$> IncomingStream.createSources emptyStream track startOfWorld in
  keys ridTrack = Some [("c", Some "c", 0); ("a", Some "a", 100)]
  /\ keys simTrack = Some [("1", None, 2); ("0", None, 1)]
  /\ keys flatTrack = Some [("", None, 5)]
  /\ keys malformedOnly = Some [].
Proof. vm_compute. done. Qed.

(** A description without rid encodings, SIM group or SSRC makes
    [CreateTrack] panic. *)
Example flat_without_ssrc_panics :
  IncomingStream.CreateTrack Runtime.rangeInOrder emptyStream
    (TrackInfo.mk "x" "audio" "" [] [] []) startOfWorld = None.
Proof. reflexivity. Qed.

(** * Further properties of the code *)

(** ** The layer aggregator *)

Lemma Zsum_perm (l l' : list Z) : l ≡ₚ l' -> Zsum l = Zsum l'.
Proof.
  unfold Zsum. induction 1 as [|x l l' _ IH|x y l|l1 l2 l3 _ IH1 _ IH2]; cbn; lia.
Qed.

Lemma sumOver_perm (field : LayerSource.t -> Z) (s t : Z)
    (raw raw' : list LayerSource.t) :
  raw ≡ₚ raw' -> sumOver field s t raw = sumOver field s t raw'.
Proof.
  intros Hp. unfold sumOver. apply Zsum_perm, fmap_Permutation.
  induction Hp as [|x l l' _ IH|x y l|l1 l2 l3 _ IH1 _ IH2]; cbn.
  - done.
  - case_match; [by constructor | done].
  - repeat case_match; try done. apply perm_swap.
  - by etransitivity.
Qed.

(** The sum over the samples that count towards a layer lies between 0 and
    the sum over all samples, and grows with the ids of the layer. *)
Lemma sumOver_bounds (field : LayerSource.t -> Z) (s t : Z)
    (raw : list LayerSource.t) :
  Forall (fun r => 0 <= field r) raw ->
  0 <= sumOver field s t raw <= Zsum (field <$> raw).
Proof.
  induction 1 as [|x raw Hx _ IH]; [done|].
  rewrite sumOver_cons, fmap_cons.
  change (Zsum (field x :: (field <$> raw))) with (field x + Zsum (field <$> raw)).
  case_match; lia.
Qed.

Lemma covers_mono (s t s' t' : Z) (r : LayerSource.t) :
  s <= s' -> t <= t' -> covers s t r = true -> covers s' t' r = true.
Proof. unfold covers. intros Hs Ht. rewrite !andb_true_iff. lia. Qed.

Lemma sumOver_mono (field : LayerSource.t -> Z) (s t s' t' : Z)
    (raw : list LayerSource.t) :
  Forall (fun r => 0 <= field r) raw ->
  s <= s' -> t <= t' ->
  sumOver field s t raw <= sumOver field s' t' raw.
Proof.
  intros Hraw Hs Ht. induction Hraw as [|x raw Hx _ IH]; [done|].
  rewrite !sumOver_cons.
  destruct (covers s t x) eqn:Hc.
  - rewrite (covers_mono s t s' t' x Hs Ht Hc). lia.
  - case_match; lia.
Qed.

Lemma getStats_layer_elem (source : RTPIncomingSource.t) (l : Layer.t) :
  l ∈ IncomingStats.Layers (getStatsFromIncomingSource source) ->
  let raw := RTPIncomingSource.Layers source in
  let s := Layer.SpatialLayerId l in
  let t := Layer.TemporalLayerId l in
  Layer.TotalBytes l = Go.uint (sumOver LayerSource.GetTotalBytes s t raw)
  /\ Layer.NumPackets l = Go.uint (sumOver LayerSource.GetNumPackets s t raw)
  /\ Layer.Bitrate l = Go.uint (sumOver LayerSource.GetBitrate s t raw).
Proof.
  rewrite getStats_layers. intros (r & -> & _)%list_elem_of_fmap. cbv zeta.
  pose proof (aggregate_spec (RTPIncomingSource.Layers source) (layerInfo r))
    as (Hids & _ & _ & Hb & Hp & Hbr). cbv zeta in *.
  injection Hids as Hs Ht. by rewrite Hs, Ht.
Qed.

(** X1.  While nothing wraps around (the raw counters are not negative and
    each sums to less than 2^64 over all samples), the aggregated layers
    grow with their ids: of two output layers, the one whose spatial and
    temporal ids are both at most those of the other has at most its
    bytes, packets and bitrate. *)
Theorem aggregated_layers_grow_with_ids (source : RTPIncomingSource.t)
    (a b : Layer.t) :
  countersFit (RTPIncomingSource.Layers source) ->
  a ∈ IncomingStats.Layers (getStatsFromIncomingSource source) ->
  b ∈ IncomingStats.Layers (getStatsFromIncomingSource source) ->
  Layer.SpatialLayerId a <= Layer.SpatialLayerId b ->
  Layer.TemporalLayerId a <= Layer.TemporalLayerId b ->
  Layer.TotalBytes a <= Layer.TotalBytes b
  /\ Layer.NumPackets a <= Layer.NumPackets b
  /\ Layer.Bitrate a <= Layer.Bitrate b.
Proof.
  intros (Hraw & Hb & Hp & Hbr) Ha Hb' Hs Ht.
  destruct (getStats_layer_elem _ _ Ha) as (A1 & A2 & A3).
  destruct (getStats_layer_elem _ _ Hb') as (B1 & B2 & B3).
  cbv zeta in *. rewrite A1, A2, A3, B1, B2, B3.
  assert (forall field : LayerSource.t -> Z,
            Forall (fun r => 0 <= field r) (RTPIncomingSource.Layers source) ->
            Zsum (field <$> RTPIncomingSource.Layers source) < 2 ^ 64 ->
            Go.uint (sumOver field (Layer.SpatialLayerId a) (Layer.TemporalLayerId a)
                       (RTPIncomingSource.Layers source))
            <= Go.uint (sumOver field (Layer.SpatialLayerId b)
                          (Layer.TemporalLayerId b)
                          (RTPIncomingSource.Layers source))) as Hfield.
  { intros field Hpos Hfit.
    pose proof (sumOver_bounds field (Layer.SpatialLayerId a)
                  (Layer.TemporalLayerId a) _ Hpos).
    pose proof (sumOver_bounds field (Layer.SpatialLayerId b)
                  (Layer.TemporalLayerId b) _ Hpos).
    pose proof (sumOver_mono field _ _ _ _ _ Hpos Hs Ht).
    rewrite !uint_small by (unfold Go.is_uint; lia). done. }
  split_and!; apply Hfield; try done;
    eapply Forall_impl; try exact Hraw; cbn; intros r (? & ? & ?); done.
Qed.

Lemma aggregated_layers_grow_with_ids_witness :
  Layer.TotalBytes (Layer.mk "" 0 0 1000 5 100 0)
  <= Layer.TotalBytes (Layer.mk "" 0 1 3000 15 400 0)
  /\ Layer.NumPackets (Layer.mk "" 0 0 1000 5 100 0)
     <= Layer.NumPackets (Layer.mk "" 0 1 3000 15 400 0)
  /\ Layer.Bitrate (Layer.mk "" 0 0 1000 5 100 0)
     <= Layer.Bitrate (Layer.mk "" 0 1 3000 15 400 0).
Proof.
  apply (aggregated_layers_grow_with_ids threeLayers).
  - unfold countersFit. cbn. split_and!; [|lia..].
    repeat constructor; cbn; lia.
  - vm_compute. set_solver.
  - vm_compute. set_solver.
  - cbn. lia.
  - cbn. lia.
Defined.

Lemma aggregate_perm (raw raw' : list LayerSource.t) (layer : Layer.t) :
  raw ≡ₚ raw' ->
  aggregate (layerInfo <$> raw) layer = aggregate (layerInfo <$> raw') layer.
Proof.
  intros Hp.
  pose proof (aggregate_spec raw layer) as (H1 & H2 & H3 & H4 & H5 & H6).
  pose proof (aggregate_spec raw' layer) as (G1 & G2 & G3 & G4 & G5 & G6).
  cbv zeta in *.
  rewrite (sumOver_perm LayerSource.GetTotalBytes _ _ _ _ Hp) in H4.
  rewrite (sumOver_perm LayerSource.GetNumPackets _ _ _ _ Hp) in H5.
  rewrite (sumOver_perm LayerSource.GetBitrate _ _ _ _ Hp) in H6.
  destruct (aggregate (layerInfo <$> raw) layer),
    (aggregate (layerInfo <$> raw') layer). unfold layerIds in *. cbn in *.
  congruence.
Qed.

(** X2.  The aggregator does not depend on the order of the raw samples:
    the output layer made for a sample is the same wherever the sample and
    the others stand in the list, so that two sources whose sample lists
    are rearrangements of each other get output lists that are
    rearrangements of each other. *)
Theorem aggregator_ignores_sample_order (source source' : RTPIncomingSource.t) :
  RTPIncomingSource.Layers source ≡ₚ RTPIncomingSource.Layers source' ->
  IncomingStats.Layers (getStatsFromIncomingSource source)
  ≡ₚ IncomingStats.Layers (getStatsFromIncomingSource source')
  /\ forall r : LayerSource.t,
       aggregate (layerInfo <$> RTPIncomingSource.Layers source) (layerInfo r)
       = aggregate (layerInfo <$> RTPIncomingSource.Layers source') (layerInfo r).
Proof.
  intros Hp. split; [|intros r; by apply aggregate_perm].
  rewrite !getStats_layers.
  transitivity
    ((fun r => aggregate (layerInfo <$> RTPIncomingSource.Layers source')
                 (layerInfo r)) <$> RTPIncomingSource.Layers source).
  - apply eq_subrelation; [apply _|].
    apply list_fmap_ext. intros _ r _. by apply aggregate_perm.
  - by apply fmap_Permutation.
Qed.

Lemma aggregator_ignores_sample_order_witness :
  IncomingStats.Layers (getStatsFromIncomingSource threeLayers)
  ≡ₚ IncomingStats.Layers
       (getStatsFromIncomingSource
          (RTPIncomingSource.mk 7 1 2 30 4 6000 50 6 7 800
             [LayerSource.mk 0 0 1000 5 100; LayerSource.mk 0 1 2000 10 300;
              LayerSource.mk 1 1 3000 15 400])).
Proof.
  apply (aggregator_ignores_sample_order threeLayers
           (RTPIncomingSource.mk 7 1 2 30 4 6000 50 6 7 800
              [LayerSource.mk 0 0 1000 5 100; LayerSource.mk 0 1 2000 10 300;
               LayerSource.mk 1 1 3000 15 400])).
  cbn. solve_Permutation.
Defined.

(** ** Reference counting *)

Lemma times_S (n : nat)
    (f : IncomingStreamTrack.t -> World -> IncomingStreamTrack.t * World)
    (r : IncomingStreamTrack.t * World) :
  times (S n) f r = times n f (andThen f r).
Proof. unfold times. by rewrite Nat.iter_succ_r. Qed.

(** [Attached] on a counter that is not 0 and [Detached] on a counter that
    is not 1 only count. *)
Lemma attached_quiet (n : nat) (c : Z) (i : IncomingStreamTrack.t) (w : World) :
  1 <= c -> c + Z.of_nat n < 2 ^ 63 ->
  times n IncomingStreamTrack.Attached (IncomingStreamTrack.withCounter c i, w)
  = (IncomingStreamTrack.withCounter (c + Z.of_nat n) i, w).
Proof.
  revert c. induction n as [|n IH]; intros c Hc Hn.
  - unfold times. cbn. by rewrite Z.add_0_r.
  - rewrite times_S. unfold andThen. cbn [fst snd].
    rewrite Attached_spec. cbn [IncomingStreamTrack.counter
      IncomingStreamTrack.withCounter IncomingStreamTrack.id].
    unfold Go.iadd. rewrite int_small by (unfold Go.is_int; lia).
    destruct (c + 1 =? 1) eqn:E; [lia|].
    rewrite withCounter_twice, IH by lia. do 2 f_equal. lia.
Qed.

Lemma detached_quiet (n : nat) (c : Z) (i : IncomingStreamTrack.t) (w : World) :
  1 <= c - Z.of_nat n -> c < 2 ^ 63 ->
  times n IncomingStreamTrack.Detached (IncomingStreamTrack.withCounter c i, w)
  = (IncomingStreamTrack.withCounter (c - Z.of_nat n) i, w).
Proof.
  revert c. induction n as [|n IH]; intros c Hc Hn.
  - unfold times. cbn. by rewrite Z.sub_0_r.
  - rewrite times_S. unfold andThen. cbn [fst snd].
    rewrite Detached_spec. cbn [IncomingStreamTrack.counter
      IncomingStreamTrack.withCounter IncomingStreamTrack.id].
    unfold Go.isub. rewrite int_small by (unfold Go.is_int; lia).
    destruct (c - 1 =? 0) eqn:E; [lia|].
    rewrite withCounter_twice, IH by lia. do 2 f_equal. lia.
Qed.

(** X3.  On a track with counter 0, any number [n >= 1] of [Attached]
    calls (fewer than 2^63) emits "attached" once, at the first call, and
    leaves the counter at [n]; as many [Detached] calls then emit
    "detached" once, at the last call, and give the track back as it was.
    Nothing else is emitted or called. *)
Theorem attach_detach_balanced (n : nat) (i : IncomingStreamTrack.t) (w : World) :
  IncomingStreamTrack.counter i = 0 ->
  (1 <= n)%nat ->
  Z.of_nat n < 2 ^ 63 ->
  let who := OfTrack (IncomingStreamTrack.id i) in
  let up := times n IncomingStreamTrack.Attached (i, w) in
  let down := times n IncomingStreamTrack.Detached up in
  up = (IncomingStreamTrack.withCounter (Z.of_nat n) i,
        call (Call_Emit who "attached") w)
  /\ down = (i, call (Call_Emit who "detached") (call (Call_Emit who "attached") w)).
Proof.
  intros H0 H1 Hn who up down.
  destruct n as [|n]; [lia|].
  assert (up = (IncomingStreamTrack.withCounter (Z.of_nat (S n)) i,
                call (Call_Emit who "attached") w)) as Hup.
  { subst up. rewrite times_S. unfold andThen. cbn [fst snd].
    rewrite Attached_spec, H0. change (Go.iadd 0 1) with 1. cbn [Z.eqb Pos.eqb].
    rewrite attached_quiet by lia. do 2 f_equal. lia. }
  split; [exact Hup|]. subst down. rewrite Hup.
  match goal with |- times (S n) ?f ?r = _ =>
    change (times (S n) f r) with (andThen f (times n f r)) end.
  rewrite detached_quiet by lia.
  unfold andThen. cbn [fst snd]. rewrite Detached_spec.
  cbn [IncomingStreamTrack.counter IncomingStreamTrack.withCounter
       IncomingStreamTrack.id].
  replace (Z.of_nat (S n) - Z.of_nat n) with 1 by lia.
  change (Go.isub 1 1) with 0. cbn [Z.eqb].
  rewrite withCounter_twice, <- H0. by rewrite withCounter_same.
Qed.

Lemma attach_detach_balanced_witness :
  times 5 IncomingStreamTrack.Detached
    (times 5 IncomingStreamTrack.Attached (idleTrack, startOfWorld))
  = (idleTrack,
     mkWorld 0 [Call_Emit (OfTrack "t0") "attached";
                Call_Emit (OfTrack "t0") "detached"]).
Proof.
  apply (attach_detach_balanced 5 idleTrack startOfWorld); [reflexivity | lia | lia].
Defined.

(** ** The track that is built and its descriptor *)

Lemma describe_eq (k : string) (g : RTPIncomingSourceGroup.t) (info : TrackInfo.t) :
  IncomingStream.describe k g info
  = TrackInfo.mk (TrackInfo.GetID info) (TrackInfo.GetMedia info)
      (TrackInfo.GetMediaID info)
      (TrackInfo.GetSSRCS info ++ signaledSsrcs g)
      (TrackInfo.GetSourceGroupS info ++ signaledGroups g)
      (TrackInfo.GetEncodings info ++ signaledEncodings (k, g)).
Proof.
  unfold IncomingStream.describe, signaledSsrcs, signaledGroups, signaledEncodings,
    mediaSsrc, rtxSsrc, fecSsrc. cbn [fst snd List.filter].
  destruct info as [id media mid ssrcs groups encs].
  assert ((0 <? String.length k)%nat = negb (bool_decide (k = ""))) as ->.
  { destruct k; by cbn. }
  destruct (bool_decide (k = ""));
    destruct (RTPIncomingSource.GetSsrc (RTPIncomingSourceGroup.GetMedia g) >? 0);
    destruct (RTPIncomingSource.GetSsrc (RTPIncomingSourceGroup.GetRtx g) >? 0);
    destruct (RTPIncomingSource.GetSsrc (RTPIncomingSourceGroup.GetFec g) >? 0);
    cbn; unfold TrackInfo.AddSSRC, TrackInfo.AddSourceGroup, TrackInfo.AddEncoding;
    cbn; rewrite <- ?app_assoc, ?app_nil_r; reflexivity.
Qed.

(** The loop of lines 165-209, whatever the sources it meets. *)
Lemma foldl_addSource_track (l : list (string * RTPIncomingSourceGroup.t))
    (t : IncomingStreamTrack.t) (w : World) :
  let r := foldl IncomingStream.addSource (t, w) l in
  IncomingStreamTrack.media r.1 = IncomingStreamTrack.media t
  /\ IncomingStreamTrack.counter r.1 = IncomingStreamTrack.counter t
  /\ IncomingStreamTrack.stats r.1 = IncomingStreamTrack.stats t
  /\ IncomingStreamTrack.trackInfo r.1
     = (let info := IncomingStreamTrack.trackInfo t in
        TrackInfo.mk (TrackInfo.GetID info) (TrackInfo.GetMedia info)
          (TrackInfo.GetMediaID info)
          (TrackInfo.GetSSRCS info ++ concat (signaledSsrcs <$> l.*2))
          (TrackInfo.GetSourceGroupS info ++ concat (signaledGroups <$> l.*2))
          (TrackInfo.GetEncodings info ++ concat (signaledEncodings <$> l)))
  /\ r.2 = mkWorld (tick w) (trace w ++ (Call_NewStreamTrackDepacketizer <$> l.*2)).
Proof.
  revert t w. induction l as [|[k g] l IH]; intros t w.
  - cbn. rewrite !app_nil_r. split_and!; try done.
    + by destruct (IncomingStreamTrack.trackInfo t).
    + by destruct w.
  - cbn [foldl IncomingStream.addSource]. cbv zeta.
    match goal with |- context [foldl _ (?t1, ?w1) l] =>
      destruct (IH t1 w1) as (Hm & Hc & Hs & Hi & Hw) end.
    cbn [IncomingStreamTrack.media IncomingStreamTrack.counter
         IncomingStreamTrack.stats IncomingStreamTrack.trackInfo] in *.
    split_and!; try done.
    + rewrite Hi, describe_eq. cbn. by rewrite <- !app_assoc.
    + rewrite Hw. cbn. by rewrite <- app_assoc.
Qed.

(** X4.  [newIncomingStreamTrack] gives a track with the id, media kind
    and receiver it was handed, counter 0, no cached statistics and no
    listener.  It has one encoding per source group, under the key of the
    group, named by that key and holding that group and a depacketizer made
    for it; one depacketizer is made per group and the engine is not
    called otherwise. *)
Theorem new_track_has_an_encoding_per_source
    (rangeMap : nat -> forall V : Type, gmap string V -> list (string * V))
    (media id : string) (receiver : option RTPReceiverFacade)
    (sources : gmap string RTPIncomingSourceGroup.t) (w : World) :
  Runtime.RangeSpec rangeMap ->
  let r := IncomingStream.newIncomingStreamTrack rangeMap media id receiver sources w in
  IncomingStreamTrack.id r.1 = id
  /\ IncomingStreamTrack.media r.1 = media
  /\ IncomingStreamTrack.receiver r.1 = receiver
  /\ IncomingStreamTrack.counter r.1 = 0
  /\ IncomingStreamTrack.stats r.1 = ∅
  /\ IncomingStreamTrack.Emitter r.1 = []
  /\ (forall k,
        IncomingStreamTrack.encodings r.1 !! k
        = (fun g => Encoding.mk k g (Some (Depacketizer g))) <$> sources !! k)
  /\ since w r.2 ≡ₚ Call_NewStreamTrackDepacketizer <$> (map_to_list sources).*2.
Proof.
  intros Hrange r.
  destruct (newIncomingStreamTrack_spec rangeMap media id receiver sources w Hrange)
    as (Hlookup & Hid & Hrecv & Hem & _).
  fold r in Hlookup, Hid, Hrecv, Hem.
  unfold IncomingStream.newIncomingStreamTrack in r.
  match goal with r := foldl _ (?t1, ?w1) ?l |- _ =>
    destruct (foldl_addSource_track l t1 w1) as (Hm & Hc & Hs & _ & Hw) end.
  fold r in Hm, Hc, Hs, Hw. split_and!; try done.
  rewrite Hw. cbn [tick trace next].
  change (mkWorld (S (tick w)) (trace w ++ ?tr))
    with (next (mkWorld (tick w) (trace w ++ tr))).
  unfold since. cbn [trace next]. rewrite drop_app_length.
  by rewrite (Hrange (tick w) _ sources).
Qed.

Lemma new_track_has_an_encoding_per_source_witness :
  let r :=
    IncomingStream.newIncomingStreamTrack Runtime.rangeInOrder "video" "t1"
      (Some 1%nat) sampleSources startOfWorld in
  IncomingStreamTrack.encodings r.1 !! "a"
  = Some (Encoding.mk "a" (sampleGroup "a" 100)
            (Some (Depacketizer (sampleGroup "a" 100))))
  /\ length (since startOfWorld r.2) = 2%nat.
Proof.
  destruct (new_track_has_an_encoding_per_source Runtime.rangeInOrder "video" "t1"
              (Some 1%nat) sampleSources startOfWorld rangeInOrder_spec)
    as (_ & _ & _ & _ & _ & _ & Hlookup & Htrace).
  cbv zeta. split.
  - rewrite Hlookup. reflexivity.
  - rewrite Htrace. reflexivity.
Defined.

Lemma signaledSsrcs_positive (g : RTPIncomingSourceGroup.t) :
  Forall (fun ssrc => 0 < ssrc) (signaledSsrcs g).
Proof.
  unfold signaledSsrcs. apply Forall_forall. intros x Hx.
  apply list_elem_of_In, filter_In in Hx as [_ Hx]. lia.
Qed.

Lemma signaledGroups_pairs (g : RTPIncomingSourceGroup.t) :
  Forall
    (fun r =>
       (SourceGroupInfo.GetSemantics r = "FID"
        /\ SourceGroupInfo.GetSSRCs r = Some [mediaSsrc g; rtxSsrc g]
        /\ 0 < rtxSsrc g)
       \/ (SourceGroupInfo.GetSemantics r = "FEC-FR"
           /\ SourceGroupInfo.GetSSRCs r = Some [mediaSsrc g; fecSsrc g]
           /\ 0 < fecSsrc g))
    (signaledGroups g).
Proof.
  unfold signaledGroups.
  destruct (rtxSsrc g >? 0) eqn:Hr; destruct (fecSsrc g >? 0) eqn:Hf; cbn;
    rewrite ?Forall_cons, ?Forall_nil; cbn; split_and?; try done.
  all: first [left; split_and!; [done | done | lia]
             | right; split_and!; [done | done | lia]].
Qed.

Lemma Forall_concat_fmap {A B : Type} (P : B -> Prop) (f : A -> list B)
    (l : list A) :
  (forall a, a ∈ l -> Forall P (f a)) -> Forall P (concat (f <$> l)).
Proof.
  intros H. induction l as [|a l IH]; cbn; [constructor|].
  apply Forall_app. split; [apply H; by left|].
  apply IH. intros a' Ha'. apply H. by right.
Qed.

Lemma signaledEncodings_ids (l : list (string * RTPIncomingSourceGroup.t)) :
  TrackEncodingInfo.GetID <$> concat (concat (signaledEncodings <$> l))
  = List.filter (fun k => negb (bool_decide (k = ""))) l.*1.
Proof.
  induction l as [|[k g] l IH]; [done|].
  rewrite !fmap_cons. cbn [concat fst List.filter].
  unfold signaledEncodings at 1. cbn [fst snd].
  destruct (bool_decide (k = "")); cbn; [done|]. by rewrite IH.
Qed.

(** X5.  The descriptor of a new track carries the id and media kind of
    the track and no media-stream id.  For the source groups in the order
    the constructor met them, it lists the SSRCs of each group that are
    not 0 (media, rtx, fec), an FID relation (media, rtx) for each group
    with an rtx SSRC, an FEC-FR relation (media, fec) for each group with a
    fec SSRC, and one encoding, named by the key and carrying the media
    SSRC in decimal as its "ssrc" when that is not 0, for each group whose
    key is not empty.  So no SSRC listed is 0, every grouping relation has
    exactly two SSRCs, there is no SIM relation, and the signaled
    encodings are named by the keys that are not empty. *)
Theorem descriptor_of_new_track
    (rangeMap : nat -> forall V : Type, gmap string V -> list (string * V))
    (media id : string) (receiver : option RTPReceiverFacade)
    (sources : gmap string RTPIncomingSourceGroup.t) (w : World) :
  Runtime.RangeSpec rangeMap ->
  let info :=
    IncomingStreamTrack.trackInfo
      (IncomingStream.newIncomingStreamTrack rangeMap media id receiver sources w).1 in
  TrackInfo.GetID info = id
  /\ TrackInfo.GetMedia info = media
  /\ TrackInfo.GetMediaID info = ""
  /\ (exists visited,
        visited ≡ₚ map_to_list sources
        /\ TrackInfo.GetSSRCS info = concat (signaledSsrcs <$> visited.*2)
        /\ TrackInfo.GetSourceGroupS info = concat (signaledGroups <$> visited.*2)
        /\ TrackInfo.GetEncodings info = concat (signaledEncodings <$> visited))
  /\ Forall (fun ssrc => 0 < ssrc) (TrackInfo.GetSSRCS info)
  /\ wellFormedGroups info
  /\ TrackInfo.GetSourceGroup "SIM" info = None
  /\ TrackEncodingInfo.GetID <$> concat (TrackInfo.GetEncodings info)
     ≡ₚ List.filter (fun k => negb (bool_decide (k = ""))) (map_to_list sources).*1.
Proof.
  intros Hrange info. subst info.
  unfold IncomingStream.newIncomingStreamTrack.
  match goal with |- context [foldl _ (?t1, ?w1) ?l] =>
    destruct (foldl_addSource_track l t1 w1) as (_ & _ & _ & -> & _);
    set (visited := l) end.
  cbn [IncomingStreamTrack.trackInfo TrackInfo.NewTrackInfo TrackInfo.GetID
       TrackInfo.GetMedia TrackInfo.GetMediaID TrackInfo.GetSSRCS
       TrackInfo.GetSourceGroupS TrackInfo.GetEncodings app].
  assert (visited ≡ₚ map_to_list sources) as Hv by apply Hrange.
  split_and!; try done.
  - by exists visited.
  - apply Forall_concat_fmap. intros g _. apply signaledSsrcs_positive.
  - unfold wellFormedGroups. cbn [TrackInfo.GetSourceGroupS].
    apply Forall_concat_fmap. intros g _.
    eapply Forall_impl; [apply signaledGroups_pairs|].
    cbn. intros r [(_ & -> & _)|(_ & -> & _)]; by eexists _, _, _.
  - unfold TrackInfo.GetSourceGroup. cbn [TrackInfo.GetSourceGroupS].
    destruct (List.find _ _) as [r|] eqn:Hfind; [|done].
    apply List.find_some in Hfind as [Hin Hsem].
    apply bool_decide_eq_true in Hsem.
    assert (Forall (fun r => SourceGroupInfo.GetSemantics r <> "SIM")
              (concat (signaledGroups <$> visited.*2))) as Hno.
    { apply Forall_concat_fmap. intros g _.
      eapply Forall_impl; [apply signaledGroups_pairs|].
      cbn. intros r' [(-> & _)|(-> & _)]; done. }
    rewrite Forall_forall in Hno. by destruct (Hno r (proj2 (list_elem_of_In _ _) Hin)).
  - rewrite signaledEncodings_ids. apply List_filter_perm.
    by apply fmap_Permutation.
Qed.

Lemma descriptor_of_new_track_witness :
  let info :=
    IncomingStreamTrack.trackInfo
      (IncomingStream.newIncomingStreamTrack Runtime.rangeInOrder "video" "t1"
         (Some 1%nat) sampleSources startOfWorld).1 in
  TrackInfo.GetSourceGroup "SIM" info = None
  /\ TrackEncodingInfo.GetID <$> concat (TrackInfo.GetEncodings info) ≡ₚ ["a"; "b"].
Proof.
  destruct (descriptor_of_new_track Runtime.rangeInOrder "video" "t1"
              (Some 1%nat) sampleSources startOfWorld rangeInOrder_spec)
    as (_ & _ & _ & _ & _ & _ & Hsim & Hids).
  cbv zeta. split; [exact Hsim|]. rewrite Hids. vm_compute. solve_Permutation.
Defined.

(** ** Decimal numbers *)

Lemma of_uint_acc_ge (d : Decimal.uint) (acc : positive) :
  (acc <= Pos.of_uint_acc d acc)%positive.
Proof.
  revert acc. induction d; intros acc; cbn [Pos.of_uint_acc]; [lia|..];
    match goal with |- (_ <= Pos.of_uint_acc _ ?a)%positive =>
      specialize (IHd a); lia end.
Qed.

Lemma parseFrom_acc (num : string) (d : Decimal.uint) (acc : positive) :
  Z.pos (Pos.of_uint_acc d acc) <= 2 ^ 32 - 1 ->
  strconv.parseFrom num (Z.pos acc) (DecimalString.NilEmpty.string_of_uint d)
  = inl (Z.pos (Pos.of_uint_acc d acc)).
Proof.
  revert acc. induction d; intros acc Hfit;
    cbn [Pos.of_uint_acc DecimalString.NilEmpty.string_of_uint strconv.parseFrom] in *;
    [done|..];
    match type of Hfit with Z.pos (Pos.of_uint_acc _ ?a) <= _ =>
      pose proof (of_uint_acc_ge d a) as Hge;
      specialize (IHd a Hfit) end;
    match goal with |- context [strconv.digit ?c] =>
      let v := eval vm_compute in (strconv.digit c) in
      change (strconv.digit c) with v end;
    cbv iota beta;
    match goal with |- context [?n >? 2 ^ 32 - 1] =>
      destruct (n >? 2 ^ 32 - 1) eqn:E; [lia|] end;
    rewrite <- IHd; f_equal; lia.
Qed.

Lemma parseFrom_of_uint (num : string) (d : Decimal.uint) :
  Z.of_N (Pos.of_uint d) <= 2 ^ 32 - 1 ->
  strconv.parseFrom num 0 (DecimalString.NilEmpty.string_of_uint d)
  = inl (Z.of_N (Pos.of_uint d)).
Proof.
  induction d; intros Hfit;
    cbn [Pos.of_uint DecimalString.NilEmpty.string_of_uint strconv.parseFrom] in *;
    [done|..];
    match goal with |- context [strconv.digit ?c] =>
      let v := eval vm_compute in (strconv.digit c) in
      change (strconv.digit c) with v end;
    cbv iota beta.
  - change (0 * 10 + 0) with 0. cbn [Z.gtb Z.compare]. by apply IHd.
  - change (0 * 10 + 1) with (Z.pos 1). cbn [Z.gtb Z.compare Pos.compare Pos.compare_cont].
    by apply parseFrom_acc.
  - change (0 * 10 + 2) with (Z.pos 2). cbn [Z.gtb Z.compare Pos.compare Pos.compare_cont].
    by apply parseFrom_acc.
  - change (0 * 10 + 3) with (Z.pos 3). cbn [Z.gtb Z.compare Pos.compare Pos.compare_cont].
    by apply parseFrom_acc.
  - change (0 * 10 + 4) with (Z.pos 4). cbn [Z.gtb Z.compare Pos.compare Pos.compare_cont].
    by apply parseFrom_acc.
  - change (0 * 10 + 5) with (Z.pos 5). cbn [Z.gtb Z.compare Pos.compare Pos.compare_cont].
    by apply parseFrom_acc.
  - change (0 * 10 + 6) with (Z.pos 6). cbn [Z.gtb Z.compare Pos.compare Pos.compare_cont].
    by apply parseFrom_acc.
  - change (0 * 10 + 7) with (Z.pos 7). cbn [Z.gtb Z.compare Pos.compare Pos.compare_cont].
    by apply parseFrom_acc.
  - change (0 * 10 + 8) with (Z.pos 8). cbn [Z.gtb Z.compare Pos.compare Pos.compare_cont].
    by apply parseFrom_acc.
  - change (0 * 10 + 9) with (Z.pos 9). cbn [Z.gtb Z.compare Pos.compare Pos.compare_cont].
    by apply parseFrom_acc.
Qed.

(** What [FormatUint] writes, [ParseUint] reads back, as long as it fits
    32 bits. *)
Lemma ParseUint_FormatUint (n : Z) :
  0 <= n <= 2 ^ 32 - 1 -> strconv.ParseUint (strconv.FormatUint n) = inl n.
Proof.
  intros Hn. unfold strconv.FormatUint, strconv.ParseUint.
  set (d := N.to_uint (Z.to_N n)).
  assert (Z.of_N (Pos.of_uint d) = n) as Hd.
  { subst d. change (Pos.of_uint ?x) with (N.of_uint x).
    rewrite DecimalN.Unsigned.of_to. lia. }
  assert (d <> Decimal.Nil) as Hnil.
  { subst d. destruct (Z.to_N n); cbn; [done|].
    apply DecimalPos.Unsigned.to_uint_nonnil. }
  assert (DecimalString.NilZero.string_of_uint d
          = DecimalString.NilEmpty.string_of_uint d) as ->.
  { by destruct d. }
  pose proof (parseFrom_of_uint (DecimalString.NilEmpty.string_of_uint d) d) as Hp.
  rewrite Hd in Hp. specialize (Hp ltac:(lia)).
  destruct (DecimalString.NilEmpty.string_of_uint d) eqn:Hs; [by destruct d|].
  exact Hp.
Qed.

(** ** From a descriptor back to source groups *)

Lemma foldlM_app {A B : Type} (f : A -> B -> option A) (a : A) (l1 l2 : list B) :
  foldlM f a (l1 ++ l2) = foldlM f a l1 ≫= fun a' => foldlM f a' l2.
Proof.
  revert a. induction l1 as [|b l1 IH]; intros a; cbn; [done|].
  destruct (f a b); cbn; [apply IH | done].
Qed.

(** The relations signaled for a group with another media SSRC leave a
    source alone. *)
Lemma bindByRid_others (s : RTPIncomingSourceGroup.t)
    (gs : list RTPIncomingSourceGroup.t) :
  Forall (fun g => mediaSsrc g <> mediaSsrc s) gs ->
  foldlM IncomingStream.bindByRid s (concat (signaledGroups <$> gs)) = Some s.
Proof.
  induction 1 as [|g gs Hg _ IH]; [done|].
  rewrite fmap_cons. cbn [concat]. rewrite foldlM_app.
  assert (foldlM IncomingStream.bindByRid s (signaledGroups g) = Some s) as ->;
    [|exact IH].
  pose proof (signaledGroups_pairs g) as Hpairs.
  induction Hpairs as [|r rs Hr _ IHr]; [done|].
  cbn [foldlM]. unfold IncomingStream.bindByRid at 1.
  assert (exists x, SourceGroupInfo.GetSSRCs r = Some [mediaSsrc g; x]) as [x ->].
  { destruct Hr as [(_ & -> & _)|(_ & -> & _)]; by eexists. }
  cbn. fold (mediaSsrc s). destruct (mediaSsrc g =? mediaSsrc s) eqn:E; [lia|].
  exact IHr.
Qed.

Lemma bindRtxFec_FID (a b : Z) (s : RTPIncomingSourceGroup.t) :
  IncomingStream.bindRtxFec (SourceGroupInfo.mk "FID" (Some [a; b])) s
  = Some (RTPIncomingSourceGroup.SetRtxSsrc b s).
Proof. reflexivity. Qed.

Lemma bindRtxFec_FEC (a b : Z) (s : RTPIncomingSourceGroup.t) :
  IncomingStream.bindRtxFec (SourceGroupInfo.mk "FEC-FR" (Some [a; b])) s
  = Some (RTPIncomingSourceGroup.SetFecSsrc b s).
Proof. reflexivity. Qed.

Lemma bindByRid_first (sem : string) (a b : Z) (s : RTPIncomingSourceGroup.t) :
  a = mediaSsrc s ->
  IncomingStream.bindByRid s (SourceGroupInfo.mk sem (Some [a; b]))
  = IncomingStream.bindRtxFec (SourceGroupInfo.mk sem (Some [a; b])) s.
Proof.
  intros ->. unfold IncomingStream.bindByRid. cbn. fold (mediaSsrc s).
  by rewrite Z.eqb_refl.
Qed.

(** The relations signaled for a group with the same media SSRC bind the
    companions of the source to those of the group. *)
Lemma bindByRid_own (s g : RTPIncomingSourceGroup.t) :
  mediaSsrc g = mediaSsrc s ->
  exists s',
    foldlM IncomingStream.bindByRid s (signaledGroups g) = Some s'
    /\ mediaSsrc s' = mediaSsrc s
    /\ rtxSsrc s' = (if rtxSsrc g >? 0 then rtxSsrc g else rtxSsrc s)
    /\ fecSsrc s' = (if fecSsrc g >? 0 then fecSsrc g else fecSsrc s).
Proof.
  intros Hm. unfold signaledGroups.
  destruct (rtxSsrc g >? 0), (fecSsrc g >? 0); cbn [app foldlM].
  - rewrite bindByRid_first, bindRtxFec_FID by done.
    rewrite bindByRid_first, bindRtxFec_FEC by done. by eexists.
  - rewrite bindByRid_first, bindRtxFec_FID by done. by eexists.
  - rewrite bindByRid_first, bindRtxFec_FEC by done. by eexists.
  - by eexists.
Qed.

Lemma bindByRid_signaled (s : RTPIncomingSourceGroup.t)
    (pre post : list RTPIncomingSourceGroup.t) (g : RTPIncomingSourceGroup.t) :
  mediaSsrc g = mediaSsrc s ->
  Forall (fun g' => mediaSsrc g' <> mediaSsrc s) pre ->
  Forall (fun g' => mediaSsrc g' <> mediaSsrc s) post ->
  exists s',
    foldlM IncomingStream.bindByRid s
      (concat (signaledGroups <$> (pre ++ g :: post))) = Some s'
    /\ mediaSsrc s' = mediaSsrc s
    /\ rtxSsrc s' = (if rtxSsrc g >? 0 then rtxSsrc g else rtxSsrc s)
    /\ fecSsrc s' = (if fecSsrc g >? 0 then fecSsrc g else fecSsrc s).
Proof.
  intros Hm Hpre Hpost.
  rewrite fmap_app, fmap_cons, concat_app. cbn [concat].
  rewrite foldlM_app, (bindByRid_others s pre Hpre). cbn [mbind option_bind].
  rewrite foldlM_app.
  destruct (bindByRid_own s g Hm) as (s' & -> & Hm' & Hr & Hf).
  cbn [mbind option_bind].
  rewrite bindByRid_others by by rewrite Hm'.
  by exists s'.
Qed.

Section ReadBack.

Variable i : IncomingStream.t.
Variable info : TrackInfo.t.
Variable mediaType : Z.
Hypothesis Htransport : is_Some (IncomingStream.transport i).
Hypothesis Hmid : TrackInfo.GetMediaID info = "".

(** One turn of the loop of lines 123-163 on an encoding that the
    descriptor of a track signals for the group [g]. *)
Lemma createByRid_signaled (acc : gmap string RTPIncomingSourceGroup.t)
    (w : World) (k : string) (g s' : RTPIncomingSourceGroup.t) :
  0 < mediaSsrc g <= 2 ^ 32 - 1 ->
  foldlM IncomingStream.bindByRid
    (RTPIncomingSourceGroup.SetMediaSsrc (mediaSsrc g)
       (RTPIncomingSourceGroup.SetRid k (NewRTPIncomingSourceGroup mediaType)))
    (TrackInfo.GetSourceGroupS info) = Some s' ->
  exists w',
    IncomingStream.createByRid i info mediaType (acc, w)
      (TrackEncodingInfo.mk k false
         (<["ssrc" := strconv.FormatUint (mediaSsrc g)]> ∅))
    = Some (<[k := s']> acc, w').
Proof.
  intros Hm Hbind. unfold IncomingStream.createByRid.
  cbn [TrackEncodingInfo.GetID TrackEncodingInfo.GetParams].
  rewrite Hmid, lookup_insert_eq, ParseUint_FormatUint by lia.
  rewrite bool_decide_eq_false_2 by (intros H; by apply H).
  rewrite Hbind. cbn [mbind option_bind].
  unfold IncomingStream.register. destruct Htransport as [tr ->].
  cbn. by eexists.
Qed.

(** The loop of lines 121-164 on the encodings signaled for the groups
    [l]. *)
Lemma createByRid_signaled_loop (l : list (string * RTPIncomingSourceGroup.t))
    (acc : gmap string RTPIncomingSourceGroup.t) (w : World) :
  (forall k g,
     (k, g) ∈ l ->
     0 < mediaSsrc g <= 2 ^ 32 - 1
     /\ exists s',
          foldlM IncomingStream.bindByRid
            (RTPIncomingSourceGroup.SetMediaSsrc (mediaSsrc g)
               (RTPIncomingSourceGroup.SetRid k (NewRTPIncomingSourceGroup mediaType)))
            (TrackInfo.GetSourceGroupS info) = Some s'
          /\ sameSsrcs g s') ->
  exists acc' w',
    foldlM (IncomingStream.createByRid i info mediaType) (acc, w)
      ((fun kv => TrackEncodingInfo.mk kv.1 false
                    (<["ssrc" := strconv.FormatUint (mediaSsrc kv.2)]> ∅)) <$> l)
    = Some (acc', w')
    /\ dom acc' = dom acc ∪ list_to_set l.*1
    /\ (forall k,
          k ∈ l.*1 ->
          exists g s', (k, g) ∈ l /\ acc' !! k = Some s' /\ sameSsrcs g s')
    /\ (forall k, k ∉ l.*1 -> acc' !! k = acc !! k).
Proof.
  revert acc w. induction l as [|[k0 g0] l IH]; intros acc w Hl.
  - exists acc, w. split_and!; [done | set_solver | |done].
    intros k Hk. by apply elem_of_nil in Hk.
  - destruct (Hl k0 g0) as (Hm0 & s0 & Hbind0 & Hsame0); [by left|].
    rewrite fmap_cons. cbn [foldlM fst snd].
    destruct (createByRid_signaled acc w k0 g0 s0 Hm0 Hbind0) as (w1 & ->).
    destruct (IH (<[k0 := s0]> acc) w1) as (acc' & w' & -> & Hdom & Hin & Hout).
    { intros k g Hkg. apply Hl. by right. }
    exists acc', w'. split_and!; [done|..].
    + rewrite Hdom, dom_insert_L, fmap_cons. cbn. set_solver.
    + intros k Hk. destruct (decide (k ∈ l.*1)) as [Hkl|Hkl].
      * destruct (Hin k Hkl) as (g & s' & Hg & Hs & Hsame).
        exists g, s'. split_and!; [by right | done | done].
      * rewrite fmap_cons in Hk. cbn in Hk.
        apply elem_of_cons in Hk as [->|Hk]; [|done].
        exists g0, s0. split_and!; [by left| |done].
        rewrite Hout by done. by rewrite lookup_insert_eq.
    + intros k Hk. rewrite fmap_cons in Hk. cbn in Hk.
      apply not_elem_of_cons in Hk as [Hne Hk].
      rewrite Hout by done. by rewrite lookup_insert_ne.
Qed.

End ReadBack.

(** The descriptor [newIncomingStreamTrack] builds, for the sources in the
    order in which it meets them. *)
Lemma newIncomingStreamTrack_info
    (rangeMap : nat -> forall V : Type, gmap string V -> list (string * V))
    (media id : string) (receiver : option RTPReceiverFacade)
    (sources : gmap string RTPIncomingSourceGroup.t) (w : World) :
  let visited := rangeMap (tick w) _ sources in
  IncomingStreamTrack.trackInfo
    (IncomingStream.newIncomingStreamTrack rangeMap media id receiver sources w).1
  = TrackInfo.mk id media ""
      (concat (signaledSsrcs <$> visited.*2))
      (concat (signaledGroups <$> visited.*2))
      (concat (signaledEncodings <$> visited)).
Proof.
  cbv zeta. unfold IncomingStream.newIncomingStreamTrack.
  match goal with |- context [foldl _ (?t1, ?w1) ?l] =>
    by destruct (foldl_addSource_track l t1 w1) as (_ & _ & _ & -> & _) end.
Qed.

Lemma signaledEncodings_rids (l : list (string * RTPIncomingSourceGroup.t)) :
  Forall (fun kv => kv.1 <> "" /\ 0 < mediaSsrc kv.2) l ->
  concat (signaledEncodings <$> l)
  = (fun kv => [TrackEncodingInfo.mk kv.1 false
                  (<["ssrc" := strconv.FormatUint (mediaSsrc kv.2)]> ∅)]) <$> l.
Proof.
  induction 1 as [|[k g] l [Hk Hm] _ IH]; [done|].
  rewrite !fmap_cons. cbn [concat]. rewrite IH.
  unfold signaledEncodings. cbn [fst snd] in *.
  rewrite bool_decide_eq_false_2 by done.
  destruct (mediaSsrc g >? 0) eqn:E; [done|lia].
Qed.

Lemma concat_singletons {A B : Type} (f : A -> B) (l : list A) :
  concat ((fun a => [f a]) <$> l) = f <$> l.
Proof. induction l as [|a l IH]; [done|]. rewrite !fmap_cons. cbn. by rewrite IH. Qed.

Lemma find_signaled (sem : string) (g : RTPIncomingSourceGroup.t) :
  List.find (fun r => bool_decide (SourceGroupInfo.GetSemantics r = sem))
    (signaledGroups g ++ [])
  = if bool_decide (sem = "FID") && (rtxSsrc g >? 0)
    then Some (SourceGroupInfo.mk "FID" (Some [mediaSsrc g; rtxSsrc g]))
    else if bool_decide (sem = "FEC-FR") && (fecSsrc g >? 0)
         then Some (SourceGroupInfo.mk "FEC-FR" (Some [mediaSsrc g; fecSsrc g]))
         else None.
Proof.
  unfold signaledGroups.
  destruct (rtxSsrc g >? 0), (fecSsrc g >? 0); cbn;
    repeat (case_bool_decide; simplify_eq; cbn; try done).
Qed.

(** The source groups that [createSources] reads back from the descriptor
    of a track. *)
Lemma createSources_of_descriptor
    (rangeMap : nat -> forall V : Type, gmap string V -> list (string * V))
    (i : IncomingStream.t) (media id : string) (receiver : option RTPReceiverFacade)
    (sources : gmap string RTPIncomingSourceGroup.t) (w w0 : World) :
  Runtime.RangeSpec rangeMap ->
  is_Some (IncomingStream.transport i) ->
  readBack sources ->
  let info :=
    IncomingStreamTrack.trackInfo
      (IncomingStream.newIncomingStreamTrack rangeMap media id receiver sources w).1 in
  exists sources' w',
    IncomingStream.createSources i info w0 = Some (sources', w')
    /\ dom sources' = dom sources
    /\ forall k g s',
         sources !! k = Some g -> sources' !! k = Some s' -> sameSsrcs g s'.
Proof.
  intros Hrange Htransport (Hssrc & Hdistinct & Hkeys) info. subst info.
  rewrite newIncomingStreamTrack_info.
  set (visited := rangeMap (tick w) _ sources).
  assert (visited ≡ₚ map_to_list sources) as Hv by apply Hrange.
  assert (forall k g, (k, g) ∈ visited <-> sources !! k = Some g) as Hin.
  { intros k g. by rewrite Hv, elem_of_map_to_list. }
  assert (NoDup visited.*1) as Hnd.
  { rewrite Hv. apply NoDup_fst_map_to_list. }
  unfold IncomingStream.createSources.
  cbn [TrackInfo.GetMedia TrackInfo.GetEncodings].
  set (mediaType := if bool_decide (media = "video") then 1 else 0).
  destruct Hkeys as [[Hne Hnokey]|Hflat].
  - (* rid keys *)
    assert (Forall (fun kv => kv.1 <> "" /\ 0 < mediaSsrc kv.2) visited) as Hrids.
    { apply Forall_forall. intros [k g] Hkg. apply Hin in Hkg. cbn. split.
      - intros ->. congruence.
      - by destruct (Hssrc k g Hkg) as ((? & _) & _). }
    rewrite signaledEncodings_rids by done.
    assert (visited <> []) as Hvne.
    { intros Hnil. apply Hne. apply map_to_list_empty_iff.
      apply Permutation_nil_r. by rewrite <- Hv, Hnil. }
    rewrite length_fmap.
    destruct visited as [|kv0 rest] eqn:Hvis; [done|]. cbn [length Nat.ltb Nat.leb].
    rewrite <- Hvis in *. clear Hvne. rewrite concat_singletons.
    match goal with |- context [IncomingStream.createByRid i ?inf mediaType] =>
      destruct (createByRid_signaled_loop i inf mediaType Htransport eq_refl
                  visited ∅ w0) as (sources' & w' & -> & Hdom & Hfound & _) end.
    { intros k g Hkg. pose proof (proj1 (Hin k g) Hkg) as Hkg'.
      destruct (Hssrc k g Hkg') as (Hm & Hr & Hf). split; [done|].
      apply list_elem_of_split in Hkg as (pre & post & Hsplit).
      cbn [TrackInfo.GetSourceGroupS]. rewrite Hsplit, fmap_app, fmap_cons. cbn [snd].
      assert (forall k' g', (k', g') ∈ pre ++ post -> mediaSsrc g' <> mediaSsrc g)
        as Hother.
      { intros k' g' Hel Heq.
        assert ((k', g') ∈ visited) as Hel'.
        { rewrite Hsplit. set_solver. }
        assert (k' = k) as -> by (eapply Hdistinct; [by apply Hin| exact Hkg' | done]).
        rewrite Hsplit, fmap_app, fmap_cons in Hnd. cbn in Hnd.
        apply NoDup_app in Hnd as (_ & Hpre & Hnd).
        apply NoDup_cons in Hnd as [Hpost _].
        apply elem_of_app in Hel as [Hel|Hel].
        - apply (Hpre k); [|by left].
          apply list_elem_of_fmap. by exists (k, g').
        - apply Hpost. apply list_elem_of_fmap. by exists (k, g'). }
      set (s := RTPIncomingSourceGroup.SetMediaSsrc (mediaSsrc g)
                  (RTPIncomingSourceGroup.SetRid k (NewRTPIncomingSourceGroup mediaType))).
      destruct (bindByRid_signaled s pre.*2 post.*2 g) as (s' & -> & Hm' & Hr' & Hf').
      + done.
      + apply Forall_forall. intros g' [[k' g''] [-> Hel]]%list_elem_of_fmap.
        apply (Hother k' g''). set_solver.
      + apply Forall_forall. intros g' [[k' g''] [-> Hel]]%list_elem_of_fmap.
        apply (Hother k' g''). set_solver.
      + exists s'. split; [done|]. unfold sameSsrcs.
        split; [done|].
        change (rtxSsrc s) with 0 in Hr'. change (fecSsrc s) with 0 in Hf'.
        split.
        * rewrite Hr'. destruct (rtxSsrc g >? 0) eqn:E; lia.
        * rewrite Hf'. destruct (fecSsrc g >? 0) eqn:E; lia. }
    exists sources', w'. split; [done|]. split.
    + rewrite Hdom, dom_empty_L, (left_id_L ∅ (∪)). apply set_eq. intros k.
      rewrite elem_of_list_to_set, elem_of_dom, list_elem_of_fmap. split.
      * intros ([k' g] & -> & Hel). exists g. by apply Hin.
      * intros [g Hg]. exists (k, g). split; [done|]. by apply Hin.
    + intros k g s' Hg Hs'.
      destruct (Hfound k) as (g1 & s1 & Hel & Hs1 & Hsame).
      { apply list_elem_of_fmap. exists (k, g). split; [done|]. by apply Hin. }
      apply Hin in Hel. congruence.
  - (* the empty key alone *)
    assert (exists g, sources = {["" := g]}) as [g ->].
    { assert ("" ∈ dom sources) as [g Hg]%elem_of_dom by set_solver.
      exists g. apply map_eq. intros k. destruct (decide (k = "")) as [->|Hk].
      - by rewrite lookup_singleton_eq.
      - rewrite lookup_singleton_ne by done. apply not_elem_of_dom. set_solver. }
    assert (visited = [("", g)]) as Hvis.
    { apply Permutation_singleton_r. by rewrite Hv, map_to_list_singleton. }
    rewrite Hvis in *. clear Hvis.
    destruct (Hssrc "" g) as (Hm & Hr & Hf); [by rewrite lookup_singleton_eq|].
    cbn [fmap list_fmap concat snd app length Nat.ltb Nat.leb].
    change (signaledEncodings ("", g)) with (@nil (list TrackEncodingInfo.t)).
    cbn [app length Nat.ltb Nat.leb].
    unfold TrackInfo.GetSourceGroup at 1. cbn [TrackInfo.GetSourceGroupS].
    rewrite find_signaled. cbn [andb bool_decide].
    rewrite !bool_decide_eq_false_2 by done. cbn [andb].
    assert ((signaledSsrcs g ++ []) !! 0%nat = Some (mediaSsrc g)) as Hfirst.
    { unfold signaledSsrcs. cbn [List.filter].
      destruct (mediaSsrc g >? 0) eqn:E; [done|lia]. }
    unfold IncomingStream.createFlat.
    cbn [TrackInfo.GetSSRCS]. rewrite Hfirst. cbn [mbind option_bind].
    unfold TrackInfo.GetSourceGroup. cbn [TrackInfo.GetSourceGroupS].
    rewrite !find_signaled.
    rewrite (bool_decide_eq_true_2 ("FID" = "FID")) by done.
    rewrite (bool_decide_eq_false_2 ("FEC-FR" = "FID")) by done.
    rewrite (bool_decide_eq_true_2 ("FEC-FR" = "FEC-FR")) by done.
    cbn [andb]. unfold IncomingStream.register.
    destruct Htransport as [tr ->].
    destruct (rtxSsrc g >? 0) eqn:Er; destruct (fecSsrc g >? 0) eqn:Ef;
      cbn [IncomingStream.index SourceGroupInfo.GetSSRCs default lookup list_lookup
           mbind option_bind];
      eexists _, _; (split; [reflexivity|]); (split; [set_solver|]);
      intros k g0 s' [<- <-]%lookup_singleton_Some Hs';
      rewrite lookup_insert_eq in Hs'; injection Hs' as <-;
      unfold sameSsrcs, mediaSsrc, rtxSsrc, fecSsrc in *; cbn; split_and!; lia.
Qed.

(** X6.  A track can be rebuilt from its own descriptor.  Take source
    groups whose media SSRCs are 32-bit numbers other than 0 and differ
    from group to group, keyed either by rids (none empty) or by the empty
    key alone, and the track [newIncomingStreamTrack] builds on them.  On a
    stream with a transport, [CreateTrack] on the descriptor of that track
    does not fail and gives a track with the same id and media kind whose
    encodings have the same keys and, key by key, the same media, rtx and
    fec SSRCs. *)
Theorem track_rebuilt_from_its_descriptor
    (rangeMap : nat -> forall V : Type, gmap string V -> list (string * V))
    (i : IncomingStream.t) (media id : string) (receiver : option RTPReceiverFacade)
    (sources : gmap string RTPIncomingSourceGroup.t) (w w0 : World) :
  Runtime.RangeSpec rangeMap ->
  is_Some (IncomingStream.transport i) ->
  readBack sources ->
  let t :=
    (IncomingStream.newIncomingStreamTrack rangeMap media id receiver sources w).1 in
  exists t' i' w',
    IncomingStream.CreateTrack rangeMap i (IncomingStreamTrack.trackInfo t) w0
    = Some (t', i', w')
    /\ IncomingStreamTrack.id t' = id
    /\ IncomingStreamTrack.media t' = media
    /\ dom (IncomingStreamTrack.encodings t') = dom (IncomingStreamTrack.encodings t)
    /\ forall k e e',
         IncomingStreamTrack.encodings t !! k = Some e ->
         IncomingStreamTrack.encodings t' !! k = Some e' ->
         sameSsrcs (Encoding.source e) (Encoding.source e').
Proof.
  intros Hrange Htransport Hread t.
  destruct (createSources_of_descriptor rangeMap i media id receiver sources w w0
              Hrange Htransport Hread) as (sources' & w1 & Hsources & Hdom & Hsame).
  destruct (newIncomingStreamTrack_spec rangeMap media id receiver sources w Hrange)
    as (Hlookup & _).
  fold t in Hsources, Hlookup.
  assert (TrackInfo.GetID (IncomingStreamTrack.trackInfo t) = id
          /\ TrackInfo.GetMedia (IncomingStreamTrack.trackInfo t) = media)
    as [Hid Hmedia].
  { subst t. by rewrite newIncomingStreamTrack_info. }
  unfold IncomingStream.CreateTrack. rewrite Hsources. cbn [mbind option_bind].
  rewrite Hid, Hmedia.
  destruct (newIncomingStreamTrack_spec rangeMap media id
              (IncomingStream.receiver i) sources' w1 Hrange)
    as (Hlookup' & Hid' & _).
  pose proof (foldl_addSource_track (rangeMap (tick w1) _ sources')
                (IncomingStreamTrack.mk id media (IncomingStream.receiver i) 0 ∅
                   (TrackInfo.NewTrackInfo id media) ∅ []) (next w1))
    as (Hmedia' & _).
  fold (IncomingStream.newIncomingStreamTrack rangeMap media id
          (IncomingStream.receiver i) sources' w1) in Hmedia'.
  destruct (IncomingStream.newIncomingStreamTrack rangeMap media id
              (IncomingStream.receiver i) sources' w1) as [t' w2].
  cbn [fst snd] in *.
  eexists _, _, _. split; [reflexivity|].
  cbn [IncomingStreamTrack.id IncomingStreamTrack.media IncomingStreamTrack.encodings].
  split_and!; try done.
  - apply set_eq. intros k. rewrite !elem_of_dom, Hlookup, Hlookup', !fmap_is_Some.
    by rewrite <- !elem_of_dom, Hdom.
  - intros k e e'. rewrite Hlookup, Hlookup'.
    destruct (sources !! k) as [g|] eqn:Hg; [|done].
    destruct (sources' !! k) as [g'|] eqn:Hg'; [|done].
    intros [= <-] [= <-]. cbn. by eapply Hsame.
Qed.

Lemma track_rebuilt_from_its_descriptor_witness :
  let t :=
    (IncomingStream.newIncomingStreamTrack Runtime.rangeInOrder "video" "t1"
       (Some 1%nat) flatSources startOfWorld).1 in
  exists t' i' w',
    IncomingStream.CreateTrack Runtime.rangeInOrder emptyStream
      (IncomingStreamTrack.trackInfo t) startOfWorld
    = Some (t', i', w')
    /\ dom (IncomingStreamTrack.encodings t') = dom (IncomingStreamTrack.encodings t).
Proof.
  destruct (track_rebuilt_from_its_descriptor Runtime.rangeInOrder emptyStream
              "video" "t1" (Some 1%nat) flatSources startOfWorld startOfWorld
              rangeInOrder_spec)
    as (t' & i' & w' & Hc & _ & _ & Hd & _).
  - by eexists.
  - unfold readBack, flatSources. split_and!.
    + intros k g [<- <-]%lookup_singleton_Some. cbn. lia.
    + by intros k k' g g' [<- _]%lookup_singleton_Some [<- _]%lookup_singleton_Some.
    + right. rewrite dom_insert_L, dom_empty_L. set_solver.
  - cbv zeta. by exists t', i', w'.
Defined.

(** ** Keyframe requests, the first encoding, and a stopped track *)

Lemma range_empty
    (rangeMap : nat -> forall V : Type, gmap string V -> list (string * V))
    (n : nat) (V : Type) :
  Runtime.RangeSpec rangeMap -> rangeMap n V ∅ = [].
Proof.
  intros Hrange. apply Permutation_nil_r.
  by rewrite (Hrange n V ∅), map_to_list_empty.
Qed.

Lemma range_nonempty
    (rangeMap : nat -> forall V : Type, gmap string V -> list (string * V))
    (n : nat) (V : Type) (m : gmap string V) :
  Runtime.RangeSpec rangeMap -> rangeMap n V m = [] -> m = ∅.
Proof.
  intros Hrange Hnil. apply map_to_list_empty_iff, Permutation_nil_r.
  by rewrite <- (Hrange n V m), Hnil.
Qed.

(** X7.  [Refresh] on a track with a receiver requests one keyframe per
    encoding, on the media SSRC of the encoding, and nothing else.  On a
    track without a receiver it panics at the first encoding; when there
    is no encoding either (as after [Stop]) it requests nothing and
    returns. *)
Theorem refresh_requests_a_keyframe_per_encoding
    (rangeMap : nat -> forall V : Type, gmap string V -> list (string * V))
    (i : IncomingStreamTrack.t) (w : World) :
  Runtime.RangeSpec rangeMap ->
  (is_Some (IncomingStreamTrack.receiver i) ->
   exists sent,
     IncomingStreamTrack.Refresh rangeMap i w = Some (sent, next w)
     /\ sent ≡ₚ (fun kv => mediaSsrc (Encoding.source kv.2))
                 <$> map_to_list (IncomingStreamTrack.encodings i))
  /\ (IncomingStreamTrack.receiver i = None ->
      IncomingStreamTrack.Refresh rangeMap i w
      = if decide (IncomingStreamTrack.encodings i = ∅)
        then Some ([], next w) else None).
Proof.
  intros Hrange. unfold IncomingStreamTrack.Refresh. split.
  - intros [r Hr].
    exists ((fun kv => mediaSsrc (Encoding.source kv.2))
              <$> rangeMap (tick w) _ (IncomingStreamTrack.encodings i)).
    split.
    + rewrite (mapM_ext _ (fun kv => Some (mediaSsrc (Encoding.source kv.2)))).
      * assert (forall l : list (string * Encoding.t),
                  mapM (fun kv => Some (mediaSsrc (Encoding.source kv.2))) l
                  = Some ((fun kv => mediaSsrc (Encoding.source kv.2)) <$> l)) as ->.
        { induction l as [|kv l IH]; [done|]. cbn. by rewrite IH. }
        done.
      * intros kv. unfold IncomingStreamTrack.sendPLI. by rewrite Hr.
    + apply fmap_Permutation, Hrange.
  - intros Hr. case_decide as He.
    + by rewrite He, range_empty.
    + destruct (rangeMap (tick w) _ (IncomingStreamTrack.encodings i))
        as [|kv l] eqn:Hl.
      * destruct He. by eapply range_nonempty.
      * assert (mapM (IncomingStreamTrack.sendPLI i) (kv :: l) = None) as ->; [|done].
        apply mapM_None_2. left. unfold IncomingStreamTrack.sendPLI. by rewrite Hr.
Qed.

Lemma refresh_requests_a_keyframe_per_encoding_witness :
  exists sent,
    IncomingStreamTrack.Refresh Runtime.rangeInOrder sampleTrack startOfWorld
    = Some (sent, next startOfWorld)
    /\ sent ≡ₚ [100; 200].
Proof.
  destruct (refresh_requests_a_keyframe_per_encoding Runtime.rangeInOrder
              sampleTrack startOfWorld rangeInOrder_spec) as [Hlive _].
  destruct Hlive as (sent & Hr & Hs); [by eexists|].
  exists sent. split; [exact Hr|]. rewrite Hs. vm_compute. solve_Permutation.
Defined.

(** X8.  [GetFirstEncoding] dumps the encodings of the track and returns
    one of them, whichever the runtime meets first; it returns [nil]
    exactly when the track has no encoding.  A track with one encoding
    gets that one. *)
Theorem first_encoding_is_one_of_the_track
    (rangeMap : nat -> forall V : Type, gmap string V -> list (string * V))
    (i : IncomingStreamTrack.t) (w : World) :
  Runtime.RangeSpec rangeMap ->
  let r := IncomingStreamTrack.GetFirstEncoding rangeMap i w in
  r.1.1 = IncomingStreamTrack.encodings i
  /\ (r.1.2 = None <-> IncomingStreamTrack.encodings i = ∅)
  /\ (forall e, r.1.2 = Some e ->
                exists k, IncomingStreamTrack.encodings i !! k = Some e)
  /\ (forall k e, IncomingStreamTrack.encodings i = {[k := e]} -> r.1.2 = Some e)
  /\ trace r.2 = trace w.
Proof.
  intros Hrange. unfold IncomingStreamTrack.GetFirstEncoding. cbn [fst snd].
  split; [done|].
  pose proof (Hrange (tick w) _ (IncomingStreamTrack.encodings i)) as Hp.
  split_and!.
  - destruct (rangeMap (tick w) _ (IncomingStreamTrack.encodings i)) as [|kv l] eqn:Hl.
    + split; [|done]. intros _. by eapply range_nonempty.
    + cbn. split; [done|]. intros He. rewrite He, range_empty in Hl; done.
  - intros e He.
    destruct (rangeMap (tick w) _ (IncomingStreamTrack.encodings i))
      as [|[k e'] l] eqn:Hl; [done|].
    injection He as <-. exists k. apply elem_of_map_to_list. rewrite <- Hp. by left.
  - intros k e He. rewrite He, map_to_list_singleton in Hp.
    apply Permutation_singleton_r in Hp. by rewrite He, Hp.
  - done.
Qed.

Lemma first_encoding_is_one_of_the_track_witness :
  (IncomingStreamTrack.GetFirstEncoding Runtime.rangeInOrder cachedTrack
     startOfWorld).1.2
  = Some (encodingAt "" 300).
Proof.
  destruct (first_encoding_is_one_of_the_track Runtime.rangeInOrder cachedTrack
              startOfWorld rangeInOrder_spec) as (_ & _ & _ & Hone & _).
  by apply (Hone "").
Defined.

(** ** What [Stop] releases *)

Lemma deletedIn_app (tr tr' : list Call) :
  deletedIn (tr ++ tr') = deletedIn tr ++ deletedIn tr'.
Proof. apply omap_app. Qed.

Lemma deletedIn_released (l : list Encoding.t) :
  deletedIn (concat (released <$> l)) = Encoding.source <$> l.
Proof.
  induction l as [|e l IH]; [done|].
  rewrite !fmap_cons. cbn [concat]. rewrite deletedIn_app, IH.
  unfold released. by destruct (Encoding.depacketizer e).
Qed.

(** X9.  [Stop] on a track with a receiver goes through the encodings
    once: for each it stops and deletes the depacketizer, then deletes the
    source group, and after the last it emits "stopped".  So every source
    group of the track is deleted exactly once, before "stopped" is
    emitted and its listeners run.  The listeners handed back are those of
    the track; the counter, the descriptor and the cached statistics stay
    as they were. *)
Theorem stop_releases_every_encoding
    (rangeMap : nat -> forall V : Type, gmap string V -> list (string * V))
    (i : IncomingStreamTrack.t) (w : World) :
  Runtime.RangeSpec rangeMap ->
  is_Some (IncomingStreamTrack.receiver i) ->
  let r := IncomingStreamTrack.Stop rangeMap i w in
  (exists visited,
     visited ≡ₚ (map_to_list (IncomingStreamTrack.encodings i)).*2
     /\ since w r.2
        = concat (released <$> visited)
          ++ [Call_Emit (OfTrack (IncomingStreamTrack.id i)) "stopped"])
  /\ deletedIn (since w r.2)
     ≡ₚ Encoding.source <$> (map_to_list (IncomingStreamTrack.encodings i)).*2
  /\ r.1.2 = IncomingStreamTrack.Emitter i
  /\ IncomingStreamTrack.counter r.1.1 = IncomingStreamTrack.counter i
  /\ IncomingStreamTrack.trackInfo r.1.1 = IncomingStreamTrack.trackInfo i
  /\ IncomingStreamTrack.stats r.1.1 = IncomingStreamTrack.stats i.
Proof.
  intros Hrange [recv Hr]. unfold IncomingStreamTrack.Stop. rewrite Hr.
  cbn [fst snd IncomingStreamTrack.counter IncomingStreamTrack.trackInfo
       IncomingStreamTrack.stats].
  rewrite foldl_release. cbn [tick trace next].
  set (visited := rangeMap (tick w) _ (IncomingStreamTrack.encodings i)).
  assert (visited.*2 ≡ₚ (map_to_list (IncomingStreamTrack.encodings i)).*2) as Hv.
  { apply fmap_Permutation, Hrange. }
  assert (since w (call (Call_Emit (OfTrack (IncomingStreamTrack.id i)) "stopped")
                     (mkWorld (S (tick w))
                        (trace w ++ concat (released <$> visited.*2))))
          = concat (released <$> visited.*2)
            ++ [Call_Emit (OfTrack (IncomingStreamTrack.id i)) "stopped"]) as Hsince.
  { unfold since, call. cbn [trace]. by rewrite <- app_assoc, drop_app_length. }
  rewrite Hsince. split_and!; try done.
  - by exists visited.*2.
  - rewrite deletedIn_app, deletedIn_released. cbn. by rewrite app_nil_r, Hv.
Qed.

Lemma stop_releases_every_encoding_witness :
  deletedIn
    (since startOfWorld
       (IncomingStreamTrack.Stop Runtime.rangeInOrder sampleTrack startOfWorld).2)
  ≡ₚ [sampleGroup "a" 100; sampleGroup "b" 200].
Proof.
  destruct (stop_releases_every_encoding Runtime.rangeInOrder sampleTrack
              startOfWorld rangeInOrder_spec) as (_ & Hd & _); [by eexists|].
  rewrite Hd. vm_compute. solve_Permutation.
Defined.

(** ** What [GetStats] leaves alone *)

Section Frame.

Variable now : nat -> Z.
Variable Update : RTPIncomingSourceGroup.t -> RTPIncomingSourceGroup.t.

(** One turn of the loop of lines 246-269 either leaves the track and the
    trace alone or asks the engine to update the group of the encoding and
    stores the encoding back. *)
Lemma refresh_frame (i : IncomingStreamTrack.t) (w : World)
    (kv : string * Encoding.t) :
  let r := IncomingStreamTrack.refresh now Update (i, w) kv in
  (IncomingStreamTrack.id r.1 = IncomingStreamTrack.id i
   /\ IncomingStreamTrack.media r.1 = IncomingStreamTrack.media i
   /\ IncomingStreamTrack.receiver r.1 = IncomingStreamTrack.receiver i
   /\ IncomingStreamTrack.counter r.1 = IncomingStreamTrack.counter i
   /\ IncomingStreamTrack.trackInfo r.1 = IncomingStreamTrack.trackInfo i
   /\ IncomingStreamTrack.Emitter r.1 = IncomingStreamTrack.Emitter i)
  /\ ((IncomingStreamTrack.encodings r.1 = IncomingStreamTrack.encodings i
       /\ trace r.2 = trace w)
      \/ (IncomingStreamTrack.encodings r.1
          = <[kv.1 := updatedEncoding Update kv.2]> (IncomingStreamTrack.encodings i)
          /\ trace r.2 = trace w ++ [Call_Update (Encoding.source kv.2)])).
Proof.
  destruct kv as [k e]. unfold IncomingStreamTrack.refresh.
  destruct (IncomingStreamTrack.isStale now (IncomingStreamTrack.stats i !! k) w)
    as [stale w1] eqn:Hstale.
  assert (trace w1 = trace w) as Htr.
  { unfold IncomingStreamTrack.isStale in Hstale.
    destruct (IncomingStreamTrack.stats i !! k); by injection Hstale as _ <-. }
  destruct stale; cbn [fst snd]; (split; [done|]).
  - right. cbn. by rewrite Htr.
  - by left.
Qed.

Lemma foldl_refresh_frame (l : list (string * Encoding.t))
    (i : IncomingStreamTrack.t) (w : World) :
  NoDup l.*1 ->
  (forall k e, (k, e) ∈ l -> IncomingStreamTrack.encodings i !! k = Some e) ->
  let r := foldl (IncomingStreamTrack.refresh now Update) (i, w) l in
  (IncomingStreamTrack.id r.1 = IncomingStreamTrack.id i
   /\ IncomingStreamTrack.media r.1 = IncomingStreamTrack.media i
   /\ IncomingStreamTrack.receiver r.1 = IncomingStreamTrack.receiver i
   /\ IncomingStreamTrack.counter r.1 = IncomingStreamTrack.counter i
   /\ IncomingStreamTrack.trackInfo r.1 = IncomingStreamTrack.trackInfo i
   /\ IncomingStreamTrack.Emitter r.1 = IncomingStreamTrack.Emitter i)
  /\ exists refreshed,
       sublist refreshed l
       /\ trace r.2
          = trace w ++ ((fun kv => Call_Update (Encoding.source kv.2)) <$> refreshed)
       /\ forall k,
            IncomingStreamTrack.encodings r.1 !! k
            = if decide (k ∈ refreshed.*1)
              then updatedEncoding Update <$> IncomingStreamTrack.encodings i !! k
              else IncomingStreamTrack.encodings i !! k.
Proof.
  revert i w. induction l as [|[k0 e0] l IH]; intros i w Hnd Hl.
  - cbn. split; [done|]. exists []. rewrite app_nil_r. by split_and!.
  - rewrite fmap_cons in Hnd. apply NoDup_cons in Hnd as [Hk0 Hnd].
    cbn [foldl]. cbv zeta.
    pose proof (refresh_frame i w (k0, e0)) as (Hf1 & Hstep). cbv zeta in Hf1, Hstep.
    destruct (IncomingStreamTrack.refresh now Update (i, w) (k0, e0)) as [i1 w1].
    cbn [fst snd] in *.
    assert (forall k e, (k, e) ∈ l ->
                        IncomingStreamTrack.encodings i1 !! k = Some e) as Hl1.
    { intros k e Hke.
      assert (k <> k0) as Hne.
      { intros ->. apply Hk0. apply list_elem_of_fmap. by exists (k0, e). }
      destruct Hstep as [[-> _]|[-> _]].
      - apply Hl. by right.
      - rewrite lookup_insert_ne by done. apply Hl. by right. }
    destruct (IH i1 w1 Hnd Hl1) as (Hf2 & refreshed & Hsub & Htr & Henc).
    split.
    { destruct Hf1 as (? & ? & ? & ? & ? & ?), Hf2 as (? & ? & ? & ? & ? & ?).
      split_and!; congruence. }
    assert (k0 ∉ refreshed.*1) as Hk0r.
    { intros Hin. apply Hk0. eapply elem_of_sublist; [exact Hin|].
      by apply fmap_sublist. }
    destruct Hstep as [[He1 Ht1]|[He1 Ht1]].
    + exists refreshed. split_and!.
      * by apply sublist_cons.
      * by rewrite Htr, Ht1.
      * intros k. by rewrite Henc, He1.
    + exists ((k0, e0) :: refreshed). split_and!.
      * by apply sublist_skip.
      * rewrite Htr, Ht1, fmap_cons. cbn. by rewrite <- app_assoc.
      * intros k. rewrite Henc, He1, fmap_cons. cbn [fst].
        destruct (decide (k = k0)) as [->|Hne].
        -- rewrite decide_False by done. rewrite decide_True by by left.
           rewrite lookup_insert_eq, (Hl k0 e0) by by left. done.
        -- rewrite lookup_insert_ne by done.
           destruct (decide (k ∈ refreshed.*1)) as [Hin|Hin].
           ++ by rewrite decide_True by by right.
           ++ rewrite decide_False; [done|]. by intros [?|?]%elem_of_cons.
Qed.

End Frame.

(** X10.  [GetStats] touches the cache of the track and, through the
    engine, the counters of its groups, and nothing else: the id, media
    kind, receiver, counter, descriptor and listeners stay, the encodings
    keep their keys, names and depacketizers, and each group is either
    left alone or updated once.  The only calls it makes are those
    updates, of groups of the track, at most one per encoding; it emits
    nothing. *)
Theorem getstats_touches_only_cache_and_counters (now : nat -> Z)
    (rangeMap : nat -> forall V : Type, gmap string V -> list (string * V))
    (sortSlice : forall A : Type, (A -> A -> bool) -> list A -> list A)
    (Update : RTPIncomingSourceGroup.t -> RTPIncomingSourceGroup.t)
    (i : IncomingStreamTrack.t) (w : World) :
  Runtime.RangeSpec rangeMap ->
  let r := IncomingStreamTrack.GetStats now rangeMap sortSlice Update i w in
  (IncomingStreamTrack.id r.1 = IncomingStreamTrack.id i
   /\ IncomingStreamTrack.media r.1 = IncomingStreamTrack.media i
   /\ IncomingStreamTrack.receiver r.1 = IncomingStreamTrack.receiver i
   /\ IncomingStreamTrack.counter r.1 = IncomingStreamTrack.counter i
   /\ IncomingStreamTrack.trackInfo r.1 = IncomingStreamTrack.trackInfo i
   /\ IncomingStreamTrack.Emitter r.1 = IncomingStreamTrack.Emitter i)
  /\ exists refreshed,
       refreshed ⊆+ map_to_list (IncomingStreamTrack.encodings i)
       /\ since w r.2 = (fun kv => Call_Update (Encoding.source kv.2)) <$> refreshed
       /\ forall k,
            IncomingStreamTrack.encodings r.1 !! k
            = if decide (k ∈ refreshed.*1)
              then updatedEncoding Update <$> IncomingStreamTrack.encodings i !! k
              else IncomingStreamTrack.encodings i !! k.
Proof.
  intros Hrange r. subst r. rewrite GetStats_eq. cbn [fst snd].
  rewrite rerank_eq. cbn [fst snd]. unfold refreshed.
  set (visited := rangeMap (tick w) _ (IncomingStreamTrack.encodings i)).
  assert (visited ≡ₚ map_to_list (IncomingStreamTrack.encodings i)) as Hv
    by apply Hrange.
  destruct (foldl_refresh_frame now Update visited i (next w))
    as (Hframe & refreshed & Hsub & Htr & Henc).
  { rewrite Hv. apply NoDup_fst_map_to_list. }
  { intros k e Hke. apply elem_of_map_to_list. by rewrite <- Hv. }
  destruct (foldl (IncomingStreamTrack.refresh now Update) (i, next w) visited)
    as [i1 w1]. cbn [fst snd] in *.
  split; [by destruct i1|].
  exists refreshed. split_and!.
  - rewrite <- Hv. by apply sublist_submseteq.
  - unfold since. cbn [trace next]. rewrite Htr. cbn [trace next].
    by rewrite drop_app_length.
  - intros k. rewrite <- Henc. by destruct i1.
Qed.

Lemma getstats_touches_only_cache_and_counters_witness :
  let r :=
    IncomingStreamTrack.GetStats sampleClock Runtime.rangeInOrder
      Runtime.insertionSort (fun g => g) fourEncodings startOfWorld in
  IncomingStreamTrack.counter r.1 = 0
  /\ exists refreshed,
       refreshed ⊆+ map_to_list (IncomingStreamTrack.encodings fourEncodings)
       /\ since startOfWorld r.2
          = (fun kv => Call_Update (Encoding.source kv.2)) <$> refreshed.
Proof.
  destruct (getstats_touches_only_cache_and_counters sampleClock
              Runtime.rangeInOrder Runtime.insertionSort (fun g => g)
              fourEncodings startOfWorld rangeInOrder_spec)
    as ((_ & _ & _ & Hc & _) & refreshed & Hsub & Htr & _).
  cbv zeta. split; [exact Hc|]. by exists refreshed.
Defined.

(** X11.  A track that [Stop] has stopped keeps its cached statistics and
    its counter but has no encodings left.  On it, [Refresh] requests
    nothing and does not panic, [GetSSRCs] gives no entry,
    [GetFirstEncoding] gives [nil], and [GetStats] asks the engine for
    nothing: it returns the entries that were cached, under their keys,
    each as it was but for the simulcast index written to it and to its
    media layers, and ranked again.  The reference count goes on:
    [Attached] on a stopped track with counter 0 still emits "attached". *)
Theorem stopped_track_is_inert (now : nat -> Z)
    (rangeMap : nat -> forall V : Type, gmap string V -> list (string * V))
    (sortSlice : forall A : Type, (A -> A -> bool) -> list A -> list A)
    (Update : RTPIncomingSourceGroup.t -> RTPIncomingSourceGroup.t)
    (i : IncomingStreamTrack.t) (w w' : World) :
  Runtime.RangeSpec rangeMap ->
  Runtime.SortSliceSpec sortSlice ->
  is_Some (IncomingStreamTrack.receiver i) ->
  let stopped := (IncomingStreamTrack.Stop rangeMap i w).1.1 in
  IncomingStreamTrack.Refresh rangeMap stopped w' = Some ([], next w')
  /\ IncomingStreamTrack.GetSSRCs rangeMap stopped w' = ([], next w')
  /\ (IncomingStreamTrack.GetFirstEncoding rangeMap stopped w').1.2 = None
  /\ (let r := IncomingStreamTrack.GetStats now rangeMap sortSlice Update stopped w' in
      trace r.2 = trace w'
      /\ IncomingStreamTrack.encodings r.1 = ∅
      /\ dom (IncomingStreamTrack.stats r.1) = dom (IncomingStreamTrack.stats i)
      /\ (forall k,
            exists idx,
              IncomingStreamTrack.stats r.1 !! k
              = IncomingStreamTrack.setSimulcastIdx idx
                  <$> IncomingStreamTrack.stats i !! k)
      /\ (Z.of_nat (size (IncomingStreamTrack.stats i)) < 2 ^ 63 ->
          ranked (IncomingStreamTrack.stats r.1)))
  /\ (IncomingStreamTrack.counter i = 0 ->
      IncomingStreamTrack.Attached stopped w'
      = (IncomingStreamTrack.withCounter 1 stopped,
         call (Call_Emit (OfTrack (IncomingStreamTrack.id i)) "attached") w')).
Proof.
  intros Hrange Hsort [recv Hr] stopped.
  assert (stopped
          = IncomingStreamTrack.mk (IncomingStreamTrack.id i)
              (IncomingStreamTrack.media i) None (IncomingStreamTrack.counter i) ∅
              (IncomingStreamTrack.trackInfo i) (IncomingStreamTrack.stats i) [])
    as Hstopped.
  { subst stopped. unfold IncomingStreamTrack.Stop. by rewrite Hr. }
  rewrite Hstopped. clear stopped Hstopped. split_and!.
  - unfold IncomingStreamTrack.Refresh. cbn [IncomingStreamTrack.encodings].
    by rewrite range_empty.
  - unfold IncomingStreamTrack.GetSSRCs. cbn [IncomingStreamTrack.encodings].
    by rewrite range_empty.
  - unfold IncomingStreamTrack.GetFirstEncoding. cbn [IncomingStreamTrack.encodings].
    by rewrite range_empty.
  - cbv zeta. rewrite GetStats_eq. cbn [fst snd]. unfold refreshed.
    cbn [IncomingStreamTrack.encodings]. rewrite range_empty by done.
    cbn [foldl fst snd IncomingStreamTrack.stats IncomingStreamTrack.withStats
         IncomingStreamTrack.encodings].
    split_and!.
    + by rewrite rerank_eq.
    + done.
    + by apply rerank_dom.
    + intros k. by apply rerank_entry.
    + intros Hsize. by apply rerank_ranked.
  - intros H0. rewrite Attached_spec.
    cbn [IncomingStreamTrack.counter IncomingStreamTrack.id]. by rewrite H0.
Qed.

Lemma stopped_track_is_inert_witness :
  let stopped :=
    (IncomingStreamTrack.Stop Runtime.rangeInOrder cachedTrack startOfWorld).1.1 in
  let r :=
    IncomingStreamTrack.GetStats sampleClock Runtime.rangeInOrder
      Runtime.insertionSort (fun g => g) stopped startOfWorld in
  IncomingStreamTrack.Refresh Runtime.rangeInOrder stopped startOfWorld
  = Some ([], next startOfWorld)
  /\ (IncomingStreamTrack.GetFirstEncoding Runtime.rangeInOrder stopped
        startOfWorld).1.2 = None
  /\ trace r.2 = []
  /\ (exists idx,
        IncomingStreamTrack.stats r.1 !! ""
        = Some (IncomingStreamTrack.setSimulcastIdx idx
                  (IncomingStreamTrack.newEntry (groupAt "" 300) 1000000000)))
  /\ ranked (IncomingStreamTrack.stats r.1).
Proof.
  destruct (stopped_track_is_inert sampleClock Runtime.rangeInOrder
              Runtime.insertionSort (fun g => g) cachedTrack startOfWorld
              startOfWorld rangeInOrder_spec insertionSort_spec)
    as (Hr & _ & Hf & (Htrace & _ & _ & Hentries & Hranked) & _); [by eexists|].
  cbv zeta. split; [exact Hr|]. split; [exact Hf|]. split; [exact Htrace|]. split.
  - destruct (Hentries "") as [idx Hidx]. exists idx. rewrite Hidx. clear.
    unfold cachedTrack. cbn [IncomingStreamTrack.stats].
    rewrite lookup_insert_eq. cbn [fmap option_fmap option_map].
    reflexivity.
  - apply Hranked. unfold cachedTrack. cbn [IncomingStreamTrack.stats].
    rewrite map_size_insert_None by done. rewrite map_size_empty. lia.
Defined.

(** ** Building a track on a stream *)

Lemma Forall_isBuilding_emitted (who : EmitterOf) (ev : string) (tr : list Call) :
  Forall (fun c => isBuilding c = true) tr ->
  length (List.filter (isEmit who ev) tr) = 0%nat.
Proof.
  induction 1 as [|c tr Hc _ IH]; [done|]. cbn.
  destruct c; try done; cbn; exact IH.
Qed.

Section Building.

Variable i : IncomingStream.t.
Variable track : TrackInfo.t.
Variable mediaType : Z.

Lemma built_refl (w : World) : built mediaType w w.
Proof. exists []. rewrite app_nil_r. split_and!; [by destruct w|done..]. Qed.

Lemma built_trans (w1 w2 w3 : World) :
  built mediaType w1 w2 -> built mediaType w2 w3 -> built mediaType w1 w3.
Proof.
  intros (tr1 & -> & B1 & C1) (tr2 & -> & B2 & C2). exists (tr1 ++ tr2).
  cbn. rewrite app_assoc. split_and!; [done|by apply Forall_app|].
  unfold createdIn in *. rewrite omap_app. by apply Forall_app.
Qed.

Lemma built_call (c : Call) (w : World) :
  isBuilding c = true ->
  Forall (fun m => m = mediaType) (createdIn [c]) ->
  built mediaType w (call c w).
Proof. intros Hc Hm. exists [c]. split_and!; [done|by constructor|done]. Qed.

Lemma register_built (source : RTPIncomingSourceGroup.t) (w w' : World) :
  IncomingStream.register i source w = Some w' -> built mediaType w w'.
Proof.
  unfold IncomingStream.register. destruct (IncomingStream.transport i); [|done].
  intros [= <-]. by apply built_call.
Qed.

Lemma createByRid_built (acc acc' : gmap string RTPIncomingSourceGroup.t)
    (w w' : World) (e : TrackEncodingInfo.t) :
  IncomingStream.createByRid i track mediaType (acc, w) e = Some (acc', w') ->
  built mediaType w w'.
Proof.
  unfold IncomingStream.createByRid.
  assert (built mediaType w (call (Call_NewRTPIncomingSourceGroup mediaType) w)) as Hnew.
  { apply built_call; [done|]. by repeat constructor. }
  destruct (TrackEncodingInfo.GetParams e !! "ssrc") as [ssrc|].
  - destruct (strconv.ParseUint ssrc) as [n|err].
    + destruct (foldlM _ _ _) as [source|]; [|done]. cbn.
      destruct (IncomingStream.register i source _) as [w1|] eqn:Hreg; [|done].
      cbn. intros [= _ <-]. eapply built_trans; [exact Hnew|].
      by eapply register_built.
    + intros [= _ <-]. eapply built_trans; [exact Hnew|]. by apply built_call.
  - destruct (IncomingStream.register i _ _) as [w1|] eqn:Hreg; [|done].
    cbn. intros [= _ <-]. eapply built_trans; [exact Hnew|].
    by eapply register_built.
Qed.

Lemma createByRid_loop_built (encs : list TrackEncodingInfo.t)
    (acc acc' : gmap string RTPIncomingSourceGroup.t) (w w' : World) :
  foldlM (IncomingStream.createByRid i track mediaType) (acc, w) encs
  = Some (acc', w') ->
  built mediaType w w'.
Proof.
  revert acc w. induction encs as [|e encs IH]; intros acc w; cbn [foldlM].
  - intros [= _ <-]. apply built_refl.
  - destruct (IncomingStream.createByRid i track mediaType (acc, w) e)
      as [[acc1 w1]|] eqn:Hstep; [|done].
    intros Hrest. eapply built_trans.
    + by eapply createByRid_built.
    + by eapply IH.
Qed.

Lemma createBySsrc_loop_built (ssrcs : list Z) (j j' : nat)
    (acc acc' : gmap string RTPIncomingSourceGroup.t) (w w' : World) :
  foldlM (IncomingStream.createBySsrc i track mediaType) (j, acc, w) ssrcs
  = Some (j', acc', w') ->
  built mediaType w w'.
Proof.
  revert j acc w. induction ssrcs as [|ssrc ssrcs IH]; intros j acc w; cbn [foldlM].
  - intros [= _ _ <-]. apply built_refl.
  - destruct (IncomingStream.createBySsrc i track mediaType (j, acc, w) ssrc)
      as [[[j1 acc1] w1]|] eqn:Hstep; [|done].
    intros Hrest. eapply built_trans; [|by eapply IH].
    unfold IncomingStream.createBySsrc in Hstep.
    destruct (foldlM _ _ _) as [source|]; [|done]. cbn in Hstep.
    destruct (IncomingStream.register i source _) as [w2|] eqn:Hreg; [|done].
    cbn in Hstep. injection Hstep as _ _ <-.
    eapply built_trans; [|by eapply register_built].
    apply built_call; [done|]. by repeat constructor.
Qed.

Lemma createFlat_built (sources : gmap string RTPIncomingSourceGroup.t)
    (w w' : World) :
  IncomingStream.createFlat i track mediaType w = Some (sources, w') ->
  built mediaType w w'.
Proof.
  unfold IncomingStream.createFlat.
  destruct (TrackInfo.GetSSRCS track !! 0%nat) as [first|]; [|done]. cbn.
  destruct (match TrackInfo.GetSourceGroup "FID" track with
            | Some fid => _ | None => _ end) as [s1|]; [|done]. cbn.
  destruct (match TrackInfo.GetSourceGroup "FEC-FR" track with
            | Some fec => _ | None => _ end) as [s2|]; [|done]. cbn.
  destruct (IncomingStream.register i s2 _) as [w2|] eqn:Hreg; [|done].
  cbn. intros [= _ <-].
  eapply built_trans; [|by eapply register_built].
  apply built_call; [done|]. by repeat constructor.
Qed.

End Building.

Lemma createSources_built (i : IncomingStream.t) (track : TrackInfo.t)
    (sources : gmap string RTPIncomingSourceGroup.t) (w w' : World) :
  IncomingStream.createSources i track w = Some (sources, w') ->
  built (mediaTypeOf track) w w'.
Proof.
  unfold IncomingStream.createSources. fold (mediaTypeOf track).
  destruct (0 <? length (TrackInfo.GetEncodings track))%nat.
  - apply createByRid_loop_built.
  - destruct (TrackInfo.GetSourceGroup "SIM" track) as [SIM|].
    + destruct (foldlM _ _ _) as [[[j acc] w1]|] eqn:Hloop; [|done].
      cbn. intros [= _ <-]. by eapply createBySsrc_loop_built.
    + apply createFlat_built.
Qed.

(** On a stream with a transport, the source groups of a buildable
    description are built, and each of them has been registered. *)
Lemma createSources_ok (i : IncomingStream.t) (track : TrackInfo.t) (w : World) :
  is_Some (IncomingStream.transport i) ->
  buildable track ->
  exists sources w',
    IncomingStream.createSources i track w = Some (sources, w')
    /\ forall k g, sources !! k = Some g -> g ∈ registeredIn (since w w').
Proof.
  intros Htransport [Hgroups Hssrcs]. unfold IncomingStream.createSources.
  set (mediaType := if bool_decide (TrackInfo.GetMedia track = "video") then 1 else 0).
  destruct (TrackInfo.GetEncodings track) as [|items encodings] eqn:Hencs.
  - cbn [length Nat.ltb Nat.leb].
    destruct (TrackInfo.GetSourceGroup "SIM" track) as [SIM|] eqn:HSIM.
    + destruct (createBySsrc_loop i track mediaType Htransport Hgroups
                  (default [] (SourceGroupInfo.GetSSRCs SIM)) 0 ∅ w)
        as (sources & tr & Hloop & _ & _ & Hmedia & _ & Hkeys & Hother).
      pose proof (createBySsrc_dom _ _ _ _ _ _ _ _ Hloop) as Hdom.
      rewrite Hloop. cbn [mbind option_bind fst snd] in *.
      eexists _, _. split; [done|]. rewrite since_app.
      intros k g Hg.
      assert (k ∈ dom sources) as Hk by by apply elem_of_dom.
      rewrite Hdom, dom_empty_L, (left_id_L ∅ (∪)) in Hk.
      apply elem_of_list_to_set, list_elem_of_fmap in Hk as (j & -> & Hj).
      apply elem_of_seq in Hj as [_ Hj]. cbn in Hj.
      assert (length (registeredIn tr)
              = length (default [] (SourceGroupInfo.GetSSRCs SIM))) as Hlen.
      { by rewrite <- Hmedia, length_fmap. }
      destruct (lookup_lt_is_Some_2 (registeredIn tr) j) as [g' Hg']; [lia|].
      pose proof (Hkeys j g' Hg') as Hg''. cbn in Hg''.
      rewrite Hg in Hg''. injection Hg'' as ->.
      by eapply list_elem_of_lookup_2.
    + destruct (TrackInfo.GetSSRCS track) as [|first ssrcs] eqn:Hs;
        [by destruct Hssrcs|].
      destruct (createFlat_ok i track mediaType Htransport Hgroups w first)
        as (g & -> & _); [by rewrite Hs|].
      eexists _, _. split; [done|]. rewrite since_app.
      intros k g0 [[_ <-]|[_ ?]]%lookup_insert_Some; [|done].
      cbn. set_solver.
  - cbn [length Nat.ltb Nat.leb].
    destruct (createByRid_loop i track mediaType Htransport Hgroups
                (concat (items :: encodings)) ∅ w)
      as (sources & tr & -> & _ & _ & _ & _ & Hin).
    eexists _, _. split; [done|]. rewrite since_app.
    intros rid g Hg. by destruct (Hin rid g Hg) as [?|[_ ?]].
Qed.

(** [CreateTrack] on a stream with a transport and a buildable
    description. *)
Lemma CreateTrack_builds
    (rangeMap : nat -> forall V : Type, gmap string V -> list (string * V))
    (i : IncomingStream.t) (track : TrackInfo.t) (w : World) :
  Runtime.RangeSpec rangeMap ->
  is_Some (IncomingStream.transport i) ->
  buildable track ->
  exists sources t w',
    IncomingStream.CreateTrack rangeMap i track w
    = Some (t, IncomingStream.withTracks
                 (<[TrackInfo.GetID track := t]> (IncomingStream.tracks i)) i,
            call (Call_Emit (OfStream (IncomingStream.id i)) "track") w')
    /\ t = IncomingStreamTrack.mk (TrackInfo.GetID track) (TrackInfo.GetMedia track)
             (IncomingStream.receiver i) 0 (IncomingStreamTrack.encodings t)
             (IncomingStreamTrack.trackInfo t) ∅ [OnStopped_CreateTrack sources]
    /\ (forall k,
          IncomingStreamTrack.encodings t !! k
          = (fun g => Encoding.mk k g (Some (Depacketizer g))) <$> sources !! k)
    /\ (forall k g, sources !! k = Some g -> g ∈ registeredIn (since w w'))
    /\ built (mediaTypeOf track) w (mkWorld (tick w) (trace w'))
    /\ tick w' = S (tick w).
Proof.
  intros Hrange Htransport Hbuild.
  destruct (createSources_ok i track w Htransport Hbuild)
    as (sources & w1 & Hsources & Hreg).
  pose proof (createSources_built _ _ _ _ _ Hsources) as (tr1 & -> & B1 & C1).
  unfold IncomingStream.CreateTrack. rewrite Hsources. cbn [mbind option_bind].
  destruct (newIncomingStreamTrack_spec rangeMap (TrackInfo.GetMedia track)
              (TrackInfo.GetID track) (IncomingStream.receiver i) sources
              (mkWorld (tick w) (trace w ++ tr1)) Hrange)
    as (Hlookup & Hid & Hrecv & Hem & _).
  pose proof (foldl_addSource_track
                (rangeMap (tick w) _ sources)
                (IncomingStreamTrack.mk (TrackInfo.GetID track)
                   (TrackInfo.GetMedia track) (IncomingStream.receiver i) 0 ∅
                   (TrackInfo.NewTrackInfo (TrackInfo.GetID track)
                      (TrackInfo.GetMedia track)) ∅ [])
                (next (mkWorld (tick w) (trace w ++ tr1))))
    as (Hmedia & Hcounter & Hstats & _ & Hw2).
  unfold IncomingStream.newIncomingStreamTrack in *. cbn [tick] in *.
  destruct (foldl IncomingStream.addSource _ _) as [t w2]. cbn [fst snd] in *.
  cbn [IncomingStreamTrack.media IncomingStreamTrack.counter
       IncomingStreamTrack.stats] in *.
  exists sources.
  eexists _, w2. split; [reflexivity|].
  cbn [IncomingStreamTrack.encodings IncomingStreamTrack.trackInfo].
  split_and!.
  - by rewrite Hid, Hmedia, Hrecv, Hcounter, Hstats, Hem.
  - done.
  - intros k g Hg. specialize (Hreg k g Hg). rewrite since_app in Hreg.
    rewrite Hw2. unfold since. cbn [trace next]. rewrite <- app_assoc, drop_app_length.
    unfold registeredIn in *. rewrite omap_app. set_solver.
  - rewrite Hw2. cbn [trace next tick]. exists (tr1 ++ (Call_NewStreamTrackDepacketizer
      <$> (rangeMap (tick w) _ sources).*2)).
    rewrite app_assoc. split; [done|]. split.
    + apply Forall_app. split; [done|]. apply Forall_fmap. by apply Forall_true.
    + unfold createdIn in *. rewrite omap_app. apply Forall_app. split; [done|].
      assert (forall l : list RTPIncomingSourceGroup.t,
                omap (fun c => match c with
                               | Call_NewRTPIncomingSourceGroup m => Some m
                               | _ => None end)
                  (Call_NewStreamTrackDepacketizer <$> l) = []) as ->; [|done].
      induction l as [|g l IH]; [done|]. by rewrite fmap_cons.
  - by rewrite Hw2.
Qed.

(** X12.  On a stream with a transport, [CreateTrack] on a buildable
    description does not fail.  It returns a track with the id and media
    kind of the description, the receiver of the stream, counter 0 and no
    cached statistics, stores it under its id (in the place of a track
    that was there) and leaves the rest of the stream alone.  Every
    encoding of the track is named by its key and holds a group that has
    been registered with the transport and a depacketizer made for that
    group.  Up to then the engine has only been asked to create groups,
    with media type 1 for the media kind "video" and 0 for any other, to
    register them and to make depacketizers; the last thing that happens
    is that the stream emits "track", once. *)
Theorem create_track_stores_and_announces
    (rangeMap : nat -> forall V : Type, gmap string V -> list (string * V))
    (i : IncomingStream.t) (track : TrackInfo.t) (w : World) :
  Runtime.RangeSpec rangeMap ->
  is_Some (IncomingStream.transport i) ->
  buildable track ->
  exists t i' w',
    IncomingStream.CreateTrack rangeMap i track w = Some (t, i', w')
    /\ IncomingStream.tracks i'
       = <[TrackInfo.GetID track := t]> (IncomingStream.tracks i)
    /\ IncomingStream.id i' = IncomingStream.id i
    /\ IncomingStream.transport i' = IncomingStream.transport i
    /\ IncomingStream.receiver i' = IncomingStream.receiver i
    /\ IncomingStreamTrack.id t = TrackInfo.GetID track
    /\ IncomingStreamTrack.media t = TrackInfo.GetMedia track
    /\ IncomingStreamTrack.receiver t = IncomingStream.receiver i
    /\ IncomingStreamTrack.counter t = 0
    /\ IncomingStreamTrack.stats t = ∅
    /\ (forall k e,
          IncomingStreamTrack.encodings t !! k = Some e ->
          Encoding.id e = k
          /\ Encoding.source e ∈ registeredIn (since w w')
          /\ Encoding.depacketizer e = Some (Depacketizer (Encoding.source e)))
    /\ exists tr,
         since w w' = tr ++ [Call_Emit (OfStream (IncomingStream.id i)) "track"]
         /\ Forall (fun c => isBuilding c = true) tr
         /\ Forall (fun m => m = mediaTypeOf track) (createdIn tr).
Proof.
  intros Hrange Htransport Hbuild.
  destruct (CreateTrack_builds rangeMap i track w Hrange Htransport Hbuild)
    as (sources & t & w1 & -> & Ht & Hlookup & Hreg & (tr & Hw1 & B & C) & Htick).
  eexists _, _, _. split; [reflexivity|].
  cbn [IncomingStream.tracks IncomingStream.withTracks IncomingStream.id
       IncomingStream.transport IncomingStream.receiver].
  assert (w1 = mkWorld (S (tick w)) (trace w ++ tr)) as ->.
  { destruct w1. cbn in *. injection Hw1 as ->. by subst. }
  assert (since w (call (Call_Emit (OfStream (IncomingStream.id i)) "track")
                     (mkWorld (S (tick w)) (trace w ++ tr)))
          = tr ++ [Call_Emit (OfStream (IncomingStream.id i)) "track"]) as Hsince.
  { unfold since, call. cbn [trace]. by rewrite <- app_assoc, drop_app_length. }
  rewrite Hsince.
  split_and!; try done; try (by rewrite Ht).
  - intros k e. rewrite Hlookup.
    destruct (sources !! k) as [g|] eqn:Hg; [|done]. intros [= <-]. cbn.
    split_and!; try done.
    specialize (Hreg k g Hg). unfold since in Hreg. cbn [trace] in Hreg.
    rewrite drop_app_length in Hreg. unfold registeredIn in *.
    rewrite omap_app. set_solver.
  - by exists tr.
Qed.

Lemma create_track_stores_and_announces_witness :
  exists t i' w',
    IncomingStream.CreateTrack Runtime.rangeInOrder emptyStream flatTrack
      startOfWorld = Some (t, i', w')
    /\ IncomingStream.tracks i' = <["a1" := t]> ∅
    /\ IncomingStreamTrack.counter t = 0.
Proof.
  destruct (create_track_stores_and_announces Runtime.rangeInOrder emptyStream
              flatTrack startOfWorld rangeInOrder_spec)
    as (t & i' & w' & Hc & Htracks & _ & _ & _ & _ & _ & _ & Hcount & _).
  - by eexists.
  - split.
    + unfold wellFormedGroups, flatTrack. cbn.
      repeat constructor. by eexists _, _, _.
    + discriminate.
  - by exists t, i', w'.
Defined.

(** ** A track that stops leaves its stream *)

(** The groups of the encodings of a track built on [sources] are those
    of [sources]. *)
Lemma encodings_sources (encodings : gmap string Encoding.t)
    (sources : gmap string RTPIncomingSourceGroup.t) :
  (forall k,
     encodings !! k = (fun g => Encoding.mk k g (Some (Depacketizer g))) <$> sources !! k) ->
  Encoding.source <$> (map_to_list encodings).*2 ≡ₚ (map_to_list sources).*2.
Proof.
  intros Hlookup.
  assert ((fun kv : string * Encoding.t => (kv.1, Encoding.source kv.2))
            <$> map_to_list encodings ≡ₚ map_to_list sources) as Hp.
  { apply NoDup_Permutation.
    - apply (NoDup_fmap_1 fst). rewrite <- list_fmap_compose.
      apply NoDup_fst_map_to_list.
    - apply NoDup_map_to_list.
    - intros [k g]. rewrite list_elem_of_fmap, elem_of_map_to_list. split.
      + intros ([k' e] & [= -> ->] & Hel%elem_of_map_to_list).
        rewrite Hlookup in Hel. destruct (sources !! k') as [g'|]; [|done].
        by injection Hel as <-.
      + intros Hg. exists (k, Encoding.mk k g (Some (Depacketizer g))).
        split; [done|]. apply elem_of_map_to_list. by rewrite Hlookup, Hg. }
  rewrite <- Hp, <- !list_fmap_compose. done.
Qed.

(** X13.  A track that [CreateTrack] has built on a stream with a
    transport and a receiver leaves the stream when it stops: [Stop] on
    the track deletes the group of each encoding and emits "stopped", and
    the listener [CreateTrack] registered then takes the track out of the
    stream and removes from the transport each group the track was built
    on, once.  Every group removed had been registered by [CreateTrack],
    and is removed after it has been deleted. *)
Theorem stopped_track_leaves_its_stream
    (rangeMap : nat -> forall V : Type, gmap string V -> list (string * V))
    (i : IncomingStream.t) (track : TrackInfo.t) (w : World) :
  Runtime.RangeSpec rangeMap ->
  is_Some (IncomingStream.transport i) ->
  is_Some (IncomingStream.receiver i) ->
  buildable track ->
  exists t i1 w1 t' i2 w2,
    IncomingStream.CreateTrack rangeMap i track w = Some (t, i1, w1)
    /\ stopTrackOf rangeMap i1 t w1 = Some (t', i2, w2)
    /\ IncomingStreamTrack.receiver t' = None
    /\ IncomingStream.tracks i2 = delete (TrackInfo.GetID track) (IncomingStream.tracks i)
    /\ exists released removed,
         since w1 w2
         = released
           ++ [Call_Emit (OfTrack (TrackInfo.GetID track)) "stopped"]
           ++ (Call_RemoveIncomingSourceGroup <$> removed)
         /\ removedIn released = []
         /\ deletedIn released ≡ₚ removed
         /\ removed ≡ₚ Encoding.source <$> (map_to_list (IncomingStreamTrack.encodings t)).*2
         /\ Forall (fun g => g ∈ registeredIn (since w w1)) removed.
Proof.
  intros Hrange Htransport [recv Hrecv] Hbuild.
  destruct (CreateTrack_builds rangeMap i track w Hrange Htransport Hbuild)
    as (sources & t & w0 & Hcreate & Ht & Hlookup & Hreg & _ & _).
  set (w1 := call (Call_Emit (OfStream (IncomingStream.id i)) "track") w0) in *.
  set (i1 := IncomingStream.withTracks
               (<[TrackInfo.GetID track := t]> (IncomingStream.tracks i)) i) in *.
  exists t, i1, w1.
  assert (IncomingStreamTrack.receiver t = Some recv) as Hr by by rewrite Ht.
  assert (IncomingStreamTrack.Emitter t = [OnStopped_CreateTrack sources]) as He
    by by rewrite Ht.
  assert (IncomingStreamTrack.id t = TrackInfo.GetID track) as Hid by by rewrite Ht.
  unfold stopTrackOf, IncomingStreamTrack.Stop. rewrite Hr, He, Hid.
  rewrite foldl_release.
  cbn [IncomingStreamTrack.Emitter IncomingStreamTrack.id foldlM].
  cbn [IncomingStream.runListener].
  rewrite remove_sources by done. cbn [mbind option_bind fst snd].
  eexists _, _, _. split; [exact Hcreate|]. split; [reflexivity|].
  cbn [IncomingStreamTrack.receiver IncomingStream.tracks IncomingStream.withTracks].
  split; [done|]. split.
  { subst i1. cbn. by rewrite delete_insert_eq. }
  set (visited := rangeMap (tick w1) _ (IncomingStreamTrack.encodings t)).
  exists (concat (released <$> visited.*2)).
  eexists. split_and!.
  - unfold since, call, next. cbn [trace tick].
    rewrite <- !app_assoc, drop_app_length. reflexivity.
  - induction visited.*2 as [|e l IH]; [done|].
    cbn [fmap list_fmap concat]. unfold removedIn in *. rewrite omap_app.
    change (list_fmap _ _ released l) with (released <$> l). rewrite IH.
    unfold released. by destruct (Encoding.depacketizer e).
  - rewrite deletedIn_released. subst visited.
    transitivity (Encoding.source
                    <$> (map_to_list (IncomingStreamTrack.encodings t)).*2).
    { apply fmap_Permutation, fmap_Permutation, Hrange. }
    transitivity ((map_to_list sources).*2); [by apply encodings_sources|].
    symmetry. apply fmap_Permutation, Hrange.
  - transitivity ((map_to_list sources).*2); [apply fmap_Permutation, Hrange|].
    symmetry. by apply encodings_sources.
  - apply Forall_forall. intros g [[k g'] [-> Hel]]%list_elem_of_fmap.
    rewrite (Hrange _ _ _) in Hel. apply elem_of_map_to_list in Hel.
    specialize (Hreg k g' Hel). subst w1. unfold since, call in *. cbn [trace] in *.
    destruct (decide (length (trace w) <= length (trace w0))%nat).
    + rewrite drop_app_le by done. unfold registeredIn in *.
      rewrite omap_app. set_solver.
    + rewrite drop_ge in Hreg by lia. by apply elem_of_nil in Hreg.
Qed.

Lemma stopped_track_leaves_its_stream_witness :
  exists t i1 w1 t' i2 w2,
    IncomingStream.CreateTrack Runtime.rangeInOrder emptyStream flatTrack
      startOfWorld = Some (t, i1, w1)
    /\ stopTrackOf Runtime.rangeInOrder i1 t w1 = Some (t', i2, w2)
    /\ IncomingStream.tracks i2 = ∅.
Proof.
  destruct (stopped_track_leaves_its_stream Runtime.rangeInOrder emptyStream
              flatTrack startOfWorld rangeInOrder_spec)
    as (t & i1 & w1 & t' & i2 & w2 & Hc & Hs & _ & Htr & _).
  - by eexists.
  - by eexists.
  - split.
    + unfold wellFormedGroups, flatTrack. cbn.
      repeat constructor. by eexists _, _, _.
    + discriminate.
  - exists t, i1, w1, t', i2, w2. split; [exact Hc|]. split; [exact Hs|].
    rewrite Htr. reflexivity.
Defined.

(** X14.  [AddTrack] refuses a track whose id the stream already holds,
    with an error, and otherwise stores the track under its id with one
    more "stopped" listener and leaves the other tracks alone, so that the
    track is found under its id and adding it again is refused.  When a
    live track that had no listener before is so added and then stops, the
    listener takes it out of the stream again. *)
Theorem add_track_refuses_a_known_id
    (rangeMap : nat -> forall V : Type, gmap string V -> list (string * V))
    (i : IncomingStream.t) (track : IncomingStreamTrack.t) :
  (is_Some (IncomingStream.GetTrack (IncomingStreamTrack.id track) i) ->
   IncomingStream.AddTrack i track = inr "Track id already present in stream")
  /\ (IncomingStream.GetTrack (IncomingStreamTrack.id track) i = None ->
      exists i' track',
        IncomingStream.AddTrack i track = inl (i', track')
        /\ IncomingStream.GetTrack (IncomingStreamTrack.id track) i' = Some track'
        /\ (forall k, k <> IncomingStreamTrack.id track ->
                      IncomingStream.GetTrack k i' = IncomingStream.GetTrack k i)
        /\ IncomingStream.transport i' = IncomingStream.transport i
        /\ IncomingStreamTrack.id track' = IncomingStreamTrack.id track
        /\ IncomingStreamTrack.receiver track' = IncomingStreamTrack.receiver track
        /\ IncomingStreamTrack.encodings track' = IncomingStreamTrack.encodings track
        /\ IncomingStreamTrack.Emitter track'
           = IncomingStreamTrack.Emitter track ++ [OnStopped_AddTrack]
        /\ IncomingStream.AddTrack i' track'
           = inr "Track id already present in stream"
        /\ (IncomingStreamTrack.Emitter track = [] ->
            is_Some (IncomingStreamTrack.receiver track) ->
            forall w,
              exists stopped i'' w',
                stopTrackOf rangeMap i' track' w = Some (stopped, i'', w')
                /\ IncomingStreamTrack.receiver stopped = None
                /\ IncomingStream.tracks i'' = IncomingStream.tracks i)).
Proof.
  unfold IncomingStream.GetTrack, IncomingStream.AddTrack. split.
  - by intros [t ->].
  - intros Hnone. rewrite Hnone. eexists _, _. split; [reflexivity|].
    cbn [IncomingStream.tracks IncomingStream.withTracks IncomingStream.transport
         IncomingStreamTrack.id IncomingStreamTrack.receiver
         IncomingStreamTrack.encodings IncomingStreamTrack.Emitter].
    split_and!; try done.
    + by rewrite lookup_insert_eq.
    + intros k Hk. by rewrite lookup_insert_ne.
    + by rewrite lookup_insert_eq.
    + intros Hem [recv Hrecv] w. unfold stopTrackOf, IncomingStreamTrack.Stop.
      cbn [IncomingStreamTrack.receiver IncomingStreamTrack.Emitter
           IncomingStreamTrack.id IncomingStreamTrack.encodings].
      rewrite Hrecv, Hem.
      cbn [app mbind option_bind foldlM IncomingStream.runListener fst snd
           IncomingStreamTrack.id].
      eexists _, _, _. split; [reflexivity|]. split; [done|].
      cbn [IncomingStream.tracks IncomingStream.withTracks].
      rewrite delete_insert_eq. by apply delete_id.
Qed.

Lemma add_track_refuses_a_known_id_witness :
  IncomingStream.AddTrack sampleStream sampleTrack
  = inr "Track id already present in stream".
Proof.
  apply (add_track_refuses_a_known_id Runtime.rangeInOrder sampleStream sampleTrack).
  by eexists.
Defined.

(** X15.  [CreateTrack] tells tracks apart by their id alone.  A second
    track built under the id of a first takes its place in the stream;
    when the first track then stops, the listener [CreateTrack] registered
    on it takes out of the stream the track that is filed under the id,
    which is the second, though the second still has its receiver. *)
Theorem create_track_twice_under_one_id
    (rangeMap : nat -> forall V : Type, gmap string V -> list (string * V))
    (i : IncomingStream.t) (track1 track2 : TrackInfo.t) (w : World) :
  Runtime.RangeSpec rangeMap ->
  is_Some (IncomingStream.transport i) ->
  is_Some (IncomingStream.receiver i) ->
  buildable track1 ->
  buildable track2 ->
  TrackInfo.GetID track2 = TrackInfo.GetID track1 ->
  exists t1 i1 w1 t2 i2 w2 stopped i3 w3,
    IncomingStream.CreateTrack rangeMap i track1 w = Some (t1, i1, w1)
    /\ IncomingStream.CreateTrack rangeMap i1 track2 w1 = Some (t2, i2, w2)
    /\ IncomingStream.GetTrack (TrackInfo.GetID track1) i2 = Some t2
    /\ stopTrackOf rangeMap i2 t1 w2 = Some (stopped, i3, w3)
    /\ IncomingStream.GetTrack (TrackInfo.GetID track1) i3 = None
    /\ is_Some (IncomingStreamTrack.receiver t2).
Proof.
  intros Hrange Htransport [recv Hrecv] Hb1 Hb2 Hid.
  destruct (CreateTrack_builds rangeMap i track1 w Hrange Htransport Hb1)
    as (sources1 & t1 & w1 & Hc1 & Ht1 & _).
  set (i1 := IncomingStream.withTracks
               (<[TrackInfo.GetID track1 := t1]> (IncomingStream.tracks i)) i) in *.
  destruct (CreateTrack_builds rangeMap i1 track2
              (call (Call_Emit (OfStream (IncomingStream.id i)) "track") w1)
              Hrange Htransport Hb2)
    as (sources2 & t2 & w2 & Hc2 & Ht2 & _).
  set (i2 := IncomingStream.withTracks
               (<[TrackInfo.GetID track2 := t2]> (IncomingStream.tracks i1)) i1) in *.
  assert (IncomingStreamTrack.receiver t1 = Some recv) as Hr1 by by rewrite Ht1.
  assert (IncomingStreamTrack.Emitter t1 = [OnStopped_CreateTrack sources1]) as He1
    by by rewrite Ht1.
  assert (IncomingStreamTrack.id t1 = TrackInfo.GetID track1) as Hid1 by by rewrite Ht1.
  eexists t1, i1, _, t2, i2, _.
  unfold stopTrackOf, IncomingStreamTrack.Stop. rewrite Hr1, He1, Hid1.
  cbn [IncomingStreamTrack.id foldlM IncomingStream.runListener].
  rewrite remove_sources by done. cbn [mbind option_bind fst snd].
  eexists _, _, _. split; [exact Hc1|]. split; [exact Hc2|].
  unfold IncomingStream.GetTrack. subst i2 i1.
  cbn [IncomingStream.tracks IncomingStream.withTracks]. rewrite Hid.
  split_and!.
  - by rewrite lookup_insert_eq.
  - reflexivity.
  - cbn [IncomingStream.tracks IncomingStream.withTracks].
    by rewrite lookup_delete_eq.
  - rewrite Ht2. cbn. by rewrite Hrecv.
Qed.

Lemma create_track_twice_under_one_id_witness :
  exists t1 i1 w1 t2 i2 w2 stopped i3 w3,
    IncomingStream.CreateTrack Runtime.rangeInOrder emptyStream flatTrack
      startOfWorld = Some (t1, i1, w1)
    /\ IncomingStream.CreateTrack Runtime.rangeInOrder i1 flatTrack w1
       = Some (t2, i2, w2)
    /\ IncomingStream.GetTrack "a1" i2 = Some t2
    /\ stopTrackOf Runtime.rangeInOrder i2 t1 w2 = Some (stopped, i3, w3)
    /\ IncomingStream.GetTrack "a1" i3 = None.
Proof.
  assert (buildable flatTrack) as Hb.
  { split.
    - unfold wellFormedGroups, flatTrack. cbn. repeat constructor. by eexists _, _, _.
    - discriminate. }
  destruct (create_track_twice_under_one_id Runtime.rangeInOrder emptyStream
              flatTrack flatTrack startOfWorld rangeInOrder_spec)
    as (t1 & i1 & w1 & t2 & i2 & w2 & stopped & i3 & w3 & H1 & H2 & H3 & H4 & H5 & _);
    [by eexists | by eexists | exact Hb | exact Hb | reflexivity |].
  exists t1, i1, w1, t2, i2, w2, stopped, i3, w3.
  split; [exact H1|]. split; [exact H2|]. split; [exact H3|].
  split; [exact H4 | exact H5].
Defined.

(** ** A stream without transport *)

Section NoTransport.

Variable i : IncomingStream.t.
Variable track : TrackInfo.t.
Variable mediaType : Z.
Hypothesis Hnone : IncomingStream.transport i = None.

Lemma createByRid_no_transport (acc : gmap string RTPIncomingSourceGroup.t)
    (w : World) (e : TrackEncodingInfo.t) :
  IncomingStream.createByRid i track mediaType (acc, w) e
  = match parseError e with
    | Some err =>
        Some (acc, call (Call_Println "ssrc parse error " err)
                     (call (Call_NewRTPIncomingSourceGroup mediaType) w))
    | None => None
    end.
Proof.
  unfold IncomingStream.createByRid, parseError, IncomingStream.register.
  rewrite Hnone.
  destruct (TrackEncodingInfo.GetParams e !! "ssrc") as [ssrc|]; [|done].
  destruct (strconv.ParseUint ssrc) as [n|err]; [|done].
  by destruct (foldlM _ _ _).
Qed.

Lemma createByRid_loop_no_transport (encs : list TrackEncodingInfo.t)
    (acc : gmap string RTPIncomingSourceGroup.t) (w : World) :
  is_Some (foldlM (IncomingStream.createByRid i track mediaType) (acc, w) encs)
  <-> Forall (fun e => resolvable e = false) encs.
Proof.
  revert acc w. induction encs as [|e encs IH]; intros acc w; cbn [foldlM].
  - split; [by constructor | by eexists].
  - rewrite createByRid_no_transport, Forall_cons. unfold resolvable.
    destruct (parseError e) as [err|].
    + rewrite IH. tauto.
    + split; [by intros [? ?] | by intros [? _]].
Qed.

Lemma createBySsrc_no_transport (j : nat)
    (acc : gmap string RTPIncomingSourceGroup.t) (w : World) (ssrc : Z) :
  IncomingStream.createBySsrc i track mediaType (j, acc, w) ssrc = None.
Proof.
  unfold IncomingStream.createBySsrc, IncomingStream.register. rewrite Hnone.
  by destruct (foldlM _ _ _).
Qed.

Lemma createFlat_no_transport (w : World) :
  IncomingStream.createFlat i track mediaType w = None.
Proof.
  unfold IncomingStream.createFlat, IncomingStream.register. rewrite Hnone.
  destruct (TrackInfo.GetSSRCS track !! 0%nat); [|done]. cbn.
  destruct (match TrackInfo.GetSourceGroup "FID" track with
            | Some fid => _ | None => _ end); [|done]. cbn.
  by destruct (match TrackInfo.GetSourceGroup "FEC-FR" track with
               | Some fec => _ | None => _ end).
Qed.

End NoTransport.

(** X16.  On a stream without transport (as after [Stop]), [CreateTrack]
    panics as soon as it has a source group to register.  It returns only
    when there is none: the description has rid encodings and the "ssrc"
    of every one is malformed, or it has no encoding and a SIM relation
    that lists no SSRC.  The flat strategy always panics. *)
Theorem create_track_needs_a_transport
    (rangeMap : nat -> forall V : Type, gmap string V -> list (string * V))
    (i : IncomingStream.t) (track : TrackInfo.t) (w : World) :
  IncomingStream.transport i = None ->
  is_Some (IncomingStream.CreateTrack rangeMap i track w)
  <-> (TrackInfo.GetEncodings track <> []
       /\ Forall (fun e => resolvable e = false) (concat (TrackInfo.GetEncodings track)))
      \/ (TrackInfo.GetEncodings track = []
          /\ exists SIM,
               TrackInfo.GetSourceGroup "SIM" track = Some SIM
               /\ default [] (SourceGroupInfo.GetSSRCs SIM) = []).
Proof.
  intros Hnone.
  assert (is_Some (IncomingStream.CreateTrack rangeMap i track w)
          <-> is_Some (IncomingStream.createSources i track w)) as ->.
  { unfold IncomingStream.CreateTrack.
    destruct (IncomingStream.createSources i track w) as [[sources w1]|]; cbn.
    - destruct (IncomingStream.newIncomingStreamTrack _ _ _ _ _ _). split; by eexists.
    - split; by intros [? ?]. }
  unfold IncomingStream.createSources.
  destruct (TrackInfo.GetEncodings track) as [|items encodings] eqn:Hencs.
  - cbn [length Nat.ltb Nat.leb].
    destruct (TrackInfo.GetSourceGroup "SIM" track) as [SIM|].
    + destruct (default [] (SourceGroupInfo.GetSSRCs SIM)) as [|ssrc ssrcs] eqn:Hs.
      * cbn. split; [|by eexists]. intros _. right. split; [done|]. by exists SIM.
      * cbn [foldlM]. rewrite createBySsrc_no_transport by done. cbn. split.
        -- by intros [? ?].
        -- intros [[? _]|[_ (SIM' & [= <-] & ?)]]; [done|congruence].
    + rewrite createFlat_no_transport by done. split.
      * by intros [? ?].
      * intros [[? _]|[_ (SIM' & ? & _)]]; done.
  - cbn [length Nat.ltb Nat.leb].
    rewrite createByRid_loop_no_transport by done. split.
    + intros H. by left.
    + intros [[_ H]|[? _]]; done.
Qed.

Lemma create_track_needs_a_transport_witness :
  IncomingStream.CreateTrack Runtime.rangeInOrder
    (IncomingStream.mk "s0" None (Some 1%nat) ∅) flatTrack startOfWorld = None
  /\ is_Some (IncomingStream.CreateTrack Runtime.rangeInOrder
                (IncomingStream.mk "s0" None (Some 1%nat) ∅) malformedOnly
                startOfWorld).
Proof.
  split.
  - apply eq_None_not_Some. intros H.
    apply (create_track_needs_a_transport Runtime.rangeInOrder
             (IncomingStream.mk "s0" None (Some 1%nat) ∅) flatTrack startOfWorld
             eq_refl) in H.
    destruct H as [[H _]|[_ (SIM & H & _)]]; [by apply H | discriminate H].
  - apply (create_track_needs_a_transport Runtime.rangeInOrder
             (IncomingStream.mk "s0" None (Some 1%nat) ∅) malformedOnly startOfWorld
             eq_refl).
    left. split; [discriminate|]. by repeat constructor.
Defined.

(** ** The tracks of a stream and their statistics *)

Lemma foldl_ofMedia (ToLower : string -> string) (kind : string)
    (l : list (string * IncomingStreamTrack.t)) (acc : list IncomingStreamTrack.t) :
  foldl (IncomingStream.ofMedia ToLower kind) acc l
  = acc ++ List.filter (ofKind ToLower kind) l.*2.
Proof.
  revert acc. induction l as [|kv l IH]; intros acc.
  - cbn. by rewrite app_nil_r.
  - cbn [foldl]. rewrite IH, fmap_cons. cbn [List.filter].
    unfold IncomingStream.ofMedia, ofKind. case_bool_decide; [|done].
    by rewrite <- app_assoc.
Qed.

Lemma foldl_snoc_values {A : Type} (l : list (string * A)) (acc : list A) :
  foldl (fun tracks kv => tracks ++ [kv.2]) acc l = acc ++ l.*2.
Proof.
  revert acc. induction l as [|kv l IH]; intros acc.
  - cbn. by rewrite app_nil_r.
  - cbn [foldl]. rewrite IH, fmap_cons. by rewrite <- app_assoc.
Qed.

Lemma List_filter_submseteq {A : Type} (p : A -> bool) (l : list A) :
  List.filter p l ⊆+ l.
Proof.
  induction l as [|a l IH]; [done|]. cbn. case_match.
  - by apply submseteq_skip.
  - by apply submseteq_cons.
Qed.

(** X17.  [GetTracks] lists every track of the stream once, and
    [GetTrack] finds a track under its key or gives [nil].
    [GetAudioTracks] and [GetVideoTracks] list, once each, exactly the
    tracks whose media kind [strings.ToLower] turns into "audio" and into
    "video"; so no track is in both lists, and a track of another kind is
    in neither. *)
Theorem audio_and_video_tracks_are_apart
    (rangeMap : nat -> forall V : Type, gmap string V -> list (string * V))
    (ToLower : string -> string) (i : IncomingStream.t) (w : World) :
  Runtime.RangeSpec rangeMap ->
  let held := (map_to_list (IncomingStream.tracks i)).*2 in
  let all := (IncomingStream.GetTracks rangeMap i w).1 in
  let audio := (IncomingStream.GetAudioTracks rangeMap ToLower i w).1 in
  let video := (IncomingStream.GetVideoTracks rangeMap ToLower i w).1 in
  all ≡ₚ held
  /\ audio ≡ₚ List.filter (ofKind ToLower "audio") held
  /\ video ≡ₚ List.filter (ofKind ToLower "video") held
  /\ audio ⊆+ all
  /\ video ⊆+ all
  /\ (forall t, t ∈ audio -> t ∉ video)
  /\ (forall k t, IncomingStream.GetTrack k i = Some t -> t ∈ all)
  /\ (forall k, k ∉ dom (IncomingStream.tracks i) -> IncomingStream.GetTrack k i = None).
Proof.
  intros Hrange held all audio video.
  subst all audio video held.
  unfold IncomingStream.GetTracks, IncomingStream.GetAudioTracks,
    IncomingStream.GetVideoTracks, IncomingStream.GetTrack. cbn [fst].
  rewrite foldl_snoc_values, !foldl_ofMedia. cbn [app].
  set (visited := rangeMap (tick w) _ (IncomingStream.tracks i)).
  assert (visited.*2 ≡ₚ (map_to_list (IncomingStream.tracks i)).*2) as Hv.
  { apply fmap_Permutation, Hrange. }
  split_and!.
  - done.
  - by apply List_filter_perm.
  - by apply List_filter_perm.
  - apply List_filter_submseteq.
  - apply List_filter_submseteq.
  - intros t Ha Hb.
    apply list_elem_of_In, filter_In in Ha as [_ Ha].
    apply list_elem_of_In, filter_In in Hb as [_ Hb].
    unfold ofKind in *. apply bool_decide_eq_true in Ha, Hb. congruence.
  - intros k t Hk. rewrite Hv. apply list_elem_of_fmap. exists (k, t).
    split; [done|]. by apply elem_of_map_to_list.
  - intros k Hk. by apply not_elem_of_dom.
Qed.

Lemma audio_and_video_tracks_are_apart_witness :
  (IncomingStream.GetVideoTracks Runtime.rangeInOrder (fun s => s) twoTrackStream
     startOfWorld).1
  ≡ₚ [sampleTrack; idleTrack]
  /\ (IncomingStream.GetAudioTracks Runtime.rangeInOrder (fun s => s) twoTrackStream
        startOfWorld).1
     ≡ₚ [].
Proof.
  destruct (audio_and_video_tracks_are_apart Runtime.rangeInOrder (fun s => s)
              twoTrackStream startOfWorld rangeInOrder_spec)
    as (_ & Ha & Hv & _).
  split.
  - rewrite Hv. vm_compute. solve_Permutation.
  - rewrite Ha. vm_compute. reflexivity.
Defined.

Section TrackFrame.

Variable now : nat -> Z.
Variable rangeMap : nat -> forall V : Type, gmap string V -> list (string * V).
Variable sortSlice : forall A : Type, (A -> A -> bool) -> list A -> list A.
Variable Update : RTPIncomingSourceGroup.t -> RTPIncomingSourceGroup.t.

(** [GetStats] keeps the id of the track. *)
Lemma GetStats_id (t : IncomingStreamTrack.t) (w : World) :
  IncomingStreamTrack.id (IncomingStreamTrack.GetStats now rangeMap sortSlice Update t w).1
  = IncomingStreamTrack.id t.
Proof.
  rewrite GetStats_eq. cbn [fst snd]. unfold refreshed.
  generalize (rangeMap (tick w) _ (IncomingStreamTrack.encodings t)).
  generalize (next w) as w0. intros w0 l.
  assert (IncomingStreamTrack.id
            (foldl (IncomingStreamTrack.refresh now Update) (t, w0) l).1
          = IncomingStreamTrack.id t) as H.
  { revert t w0. induction l as [|kv l IH]; intros t w0; [done|].
    cbn [foldl].
    pose proof (refresh_frame now Update t w0 kv) as ((Hid & _) & _).
    cbv zeta in Hid.
    destruct (IncomingStreamTrack.refresh now Update (t, w0) kv) as [t1 w1].
    rewrite IH. exact Hid. }
  destruct (foldl _ _ _) as [t1 w1]. cbn in *. by destruct t1.
Qed.

(** The loop of lines 55-57 over tracks met once each, each filed under
    its own id. *)
Lemma foldl_statsOf (l : list (string * IncomingStreamTrack.t))
    (stats : gmap string (gmap string IncomingAllStats.t))
    (i : IncomingStream.t) (w : World) :
  NoDup l.*1 ->
  (forall k t, (k, t) ∈ l -> IncomingStreamTrack.id t = k) ->
  let r := foldl (IncomingStream.statsOf now rangeMap sortSlice Update) (stats, i, w) l in
  IncomingStream.id r.1.2 = IncomingStream.id i
  /\ IncomingStream.transport r.1.2 = IncomingStream.transport i
  /\ IncomingStream.receiver r.1.2 = IncomingStream.receiver i
  /\ (forall k, k ∉ l.*1 ->
                r.1.1 !! k = stats !! k
                /\ IncomingStream.tracks r.1.2 !! k = IncomingStream.tracks i !! k)
  /\ (forall k t, (k, t) ∈ l ->
        exists w0,
          let q := IncomingStreamTrack.GetStats now rangeMap sortSlice Update t w0 in
          IncomingStream.tracks r.1.2 !! k = Some q.1
          /\ r.1.1 !! k = Some (IncomingStreamTrack.stats q.1)).
Proof.
  revert stats i w. induction l as [|[k0 t0] l IH]; intros stats i w Hnd Hid.
  - cbn. split_and!; try done. intros k t Hkt. by apply elem_of_nil in Hkt.
  - rewrite fmap_cons in Hnd. apply NoDup_cons in Hnd as [Hk0 Hnd].
    cbn [foldl IncomingStream.statsOf fst snd]. cbv zeta.
    pose proof (GetStats_id t0 w) as Hid0.
    destruct (IncomingStreamTrack.GetStats now rangeMap sortSlice Update t0 w)
      as [t1 w1] eqn:Hq. cbn [fst] in Hid0.
    rewrite Hid0, (Hid k0 t0) by by left.
    match goal with |- context [foldl _ (?s1, ?i1, w1) l] =>
      destruct (IH s1 i1 w1 Hnd) as (H1 & H2 & H3 & Hout & Hin) end.
    { intros k t Hkt. apply Hid. by right. }
    cbn [IncomingStream.id IncomingStream.transport IncomingStream.receiver
         IncomingStream.tracks IncomingStream.withTracks] in *.
    split_and!; try done.
    + intros k Hk. rewrite fmap_cons in Hk. cbn in Hk.
      apply not_elem_of_cons in Hk as [Hne Hk].
      destruct (Hout k Hk) as [-> ->]. by rewrite !lookup_insert_ne.
    + intros k t [[= -> ->]|Hkt]%elem_of_cons; [|by apply Hin].
      exists w. rewrite Hq. cbn [fst].
      destruct (Hout k0 Hk0) as [-> ->]. by rewrite !lookup_insert_eq.
Qed.

End TrackFrame.

(** X18.  The statistics of a stream whose tracks are filed under their
    own ids have one entry per track, under the key of the track:
    [GetStats] runs the [GetStats] of every track once, keeps the track it
    gives under the same key, and files its cache under that key.  The id,
    transport and receiver of the stream stay. *)
Theorem stream_stats_by_track (now : nat -> Z)
    (rangeMap : nat -> forall V : Type, gmap string V -> list (string * V))
    (sortSlice : forall A : Type, (A -> A -> bool) -> list A -> list A)
    (Update : RTPIncomingSourceGroup.t -> RTPIncomingSourceGroup.t)
    (i : IncomingStream.t) (w : World) :
  Runtime.RangeSpec rangeMap ->
  keyedById i ->
  let r := IncomingStream.GetStats now rangeMap sortSlice Update i w in
  IncomingStream.id r.1.2 = IncomingStream.id i
  /\ IncomingStream.transport r.1.2 = IncomingStream.transport i
  /\ IncomingStream.receiver r.1.2 = IncomingStream.receiver i
  /\ dom r.1.1 = dom (IncomingStream.tracks i)
  /\ dom (IncomingStream.tracks r.1.2) = dom (IncomingStream.tracks i)
  /\ keyedById r.1.2
  /\ (forall k t,
        IncomingStream.tracks i !! k = Some t ->
        exists w0,
          let q := IncomingStreamTrack.GetStats now rangeMap sortSlice Update t w0 in
          IncomingStream.tracks r.1.2 !! k = Some q.1
          /\ r.1.1 !! k = Some (IncomingStreamTrack.stats q.1)).
Proof.
  intros Hrange Hkeyed r. subst r. unfold IncomingStream.GetStats.
  set (visited := rangeMap (tick w) _ (IncomingStream.tracks i)).
  assert (forall k t, (k, t) ∈ visited <-> IncomingStream.tracks i !! k = Some t)
    as Hv.
  { intros k t. subst visited. by rewrite (Hrange _ _ _), elem_of_map_to_list. }
  destruct (foldl_statsOf now rangeMap sortSlice Update visited ∅ i (next w))
    as (H1 & H2 & H3 & Hout & Hin).
  { subst visited. rewrite (Hrange _ _ _). apply NoDup_fst_map_to_list. }
  { intros k t Hkt. apply Hkeyed. by apply Hv. }
  set (r := foldl _ _ visited) in *.
  assert (forall k, k ∈ visited.*1 <-> k ∈ dom (IncomingStream.tracks i)) as Hkeys.
  { intros k. rewrite elem_of_dom, list_elem_of_fmap. split.
    - intros ([k' t] & -> & Hel). exists t. by apply Hv.
    - intros [t Ht]. exists (k, t). split; [done|]. by apply Hv. }
  split_and!; try done.
  - apply set_eq. intros k. rewrite <- Hkeys, elem_of_dom. split.
    + intros Hs. destruct (decide (k ∈ visited.*1)) as [|Hn]; [done|].
      destruct (Hout k Hn) as [Hk _]. rewrite Hk, lookup_empty in Hs.
      by destruct Hs.
    + intros ([k' t] & -> & Hel)%list_elem_of_fmap. cbn [fst].
      destruct (Hin k' t Hel) as (w0 & _ & ->). by eexists.
  - apply set_eq. intros k. rewrite !elem_of_dom. split.
    + intros Hs. destruct (decide (k ∈ visited.*1)) as [Hy|Hn].
      * by apply elem_of_dom, Hkeys.
      * destruct (Hout k Hn) as [_ Hk]. by rewrite <- Hk.
    + intros [t Ht]. destruct (Hin k t) as (w0 & -> & _); [by apply Hv|].
      by eexists.
  - intros k t' Ht'. destruct (IncomingStream.tracks i !! k) as [t|] eqn:Ht.
    + destruct (Hin k t) as (w0 & Hk & _); [by apply Hv|].
      rewrite Hk in Ht'. injection Ht' as <-.
      rewrite GetStats_id. by apply Hkeyed.
    + destruct (Hout k) as [_ Hk].
      { rewrite Hkeys. by apply not_elem_of_dom. }
      congruence.
  - intros k t Ht. apply Hin. by apply Hv.
Qed.

Lemma stream_stats_by_track_witness :
  dom (IncomingStream.GetStats sampleClock Runtime.rangeInOrder
         Runtime.insertionSort (fun g => g) twoTrackStream startOfWorld).1.1
  = {["t0"; "t1"]}.
Proof.
  destruct (stream_stats_by_track sampleClock Runtime.rangeInOrder
              Runtime.insertionSort (fun g => g) twoTrackStream startOfWorld
              rangeInOrder_spec) as (_ & _ & _ & Hd & _).
  - intros k t. unfold twoTrackStream. cbn [IncomingStream.tracks].
    rewrite !lookup_insert_Some, lookup_empty.
    intros [[<- <-]|[_ [[<- <-]|[_ ?]]]]; done.
  - rewrite Hd. unfold twoTrackStream. cbn [IncomingStream.tracks].
    rewrite !dom_insert_L, dom_empty_L. set_solver.
Defined.

(** ** A new stream *)

Lemma built_emitted (mediaType : Z) (who : EmitterOf) (ev : string) (w w' : World) :
  built mediaType w w' -> emitted who ev (trace w') = emitted who ev (trace w).
Proof.
  intros (tr & -> & B & _). cbn [trace]. rewrite emitted_app.
  assert (emitted who ev tr = 0%nat) as -> by by apply Forall_isBuilding_emitted.
  lia.
Qed.

(** The loop of lines 30-32, from any stream with a transport. *)
Lemma createNext_loop
    (rangeMap : nat -> forall V : Type, gmap string V -> list (string * V))
    (infoTracks : list TrackInfo.t) (i : IncomingStream.t) (w : World) :
  Runtime.RangeSpec rangeMap ->
  is_Some (IncomingStream.transport i) ->
  Forall buildable infoTracks ->
  keyedById i ->
  exists i' w',
    foldlM (IncomingStream.createNext rangeMap) (i, w) infoTracks = Some (i', w')
    /\ IncomingStream.id i' = IncomingStream.id i
    /\ IncomingStream.transport i' = IncomingStream.transport i
    /\ IncomingStream.receiver i' = IncomingStream.receiver i
    /\ keyedById i'
    /\ dom (IncomingStream.tracks i')
       = dom (IncomingStream.tracks i) ∪ list_to_set (TrackInfo.GetID <$> infoTracks)
    /\ emitted (OfStream (IncomingStream.id i)) "track" (trace w')
       = (emitted (OfStream (IncomingStream.id i)) "track" (trace w)
          + length infoTracks)%nat
    /\ forall k t,
         IncomingStream.tracks i' !! k = Some t ->
         IncomingStream.tracks i !! k = Some t
         \/ builtFrom (IncomingStream.receiver i) infoTracks k t.
Proof.
  intros Hrange. revert i w.
  induction infoTracks as [|track infoTracks IH]; intros i w Htr Hb Hkeyed.
  - exists i, w. split; [done|]. split; [done|]. split; [done|]. split; [done|].
    split; [done|]. split; [set_solver|]. split; [cbn; lia|]. intros k t Ht. by left.
  - apply Forall_cons in Hb as [Hb Hbs]. cbn [foldlM IncomingStream.createNext].
    destruct (CreateTrack_builds rangeMap i track w Hrange Htr Hb)
      as (sources & t & w1 & -> & Ht & _ & _ & Hbuilt & _).
    cbn [mbind option_bind fst snd].
    match goal with |- context [foldlM _ (?i1, ?w2) infoTracks] =>
      destruct (IH i1 w2) as (i' & w' & -> & Hid & Htr' & Hrecv & Hk' & Hdom & Hem & Hin) end.
    { done. }
    { done. }
    { intros k t'. cbn [IncomingStream.tracks IncomingStream.withTracks].
      intros [[<- <-]|[_ Hold]]%lookup_insert_Some; [by rewrite Ht | by apply Hkeyed]. }
    cbn [IncomingStream.id IncomingStream.transport IncomingStream.receiver
         IncomingStream.tracks IncomingStream.withTracks] in *.
    exists i', w'. split_and!; try done.
    + rewrite Hdom, dom_insert_L, fmap_cons. cbn. set_solver.
    + rewrite Hem, loud_call.
      rewrite (built_emitted _ _ _ _ _ Hbuilt). cbn [length]. lia.
    + intros k t' Ht'. destruct (Hin k t' Ht') as [Hold|Hnew].
      * apply lookup_insert_Some in Hold as [[<- <-]|[_ Hold]]; [|by left].
        right. unfold builtFrom. rewrite Ht. cbn. split_and!; try done.
        exists track. split_and!; [by left|done..].
      * right. destruct Hnew as (? & ? & track' & Hel & ? & ?).
        split_and!; try done. exists track'. split_and!; [by right|done..].
Qed.

(** X19.  [newIncomingStream] with a transport and buildable descriptions
    does not fail.  The stream has the id of the description of the
    stream, the transport and the receiver it was given, and one track
    per id among the descriptions, each filed under its own id, with
    counter 0, the receiver of the stream, and the media kind of a
    description with that id.  "track" has been emitted once per
    description. *)
Theorem new_stream_has_a_track_per_id
    (rangeMap : nat -> forall V : Type, gmap string V -> list (string * V))
    (transport : option DTLSICETransport) (receiver : option RTPReceiverFacade)
    (infoID : string) (infoTracks : list TrackInfo.t) (w : World) :
  Runtime.RangeSpec rangeMap ->
  is_Some transport ->
  Forall buildable infoTracks ->
  exists i w',
    IncomingStream.newIncomingStream rangeMap transport receiver infoID infoTracks w
    = Some (i, w')
    /\ IncomingStream.id i = infoID
    /\ IncomingStream.transport i = transport
    /\ IncomingStream.receiver i = receiver
    /\ keyedById i
    /\ dom (IncomingStream.tracks i) = list_to_set (TrackInfo.GetID <$> infoTracks)
    /\ emitted (OfStream infoID) "track" (trace w')
       = (emitted (OfStream infoID) "track" (trace w) + length infoTracks)%nat
    /\ forall k t, IncomingStream.tracks i !! k = Some t ->
                   builtFrom receiver infoTracks k t.
Proof.
  intros Hrange Htr Hb. unfold IncomingStream.newIncomingStream.
  destruct (createNext_loop rangeMap infoTracks
              (IncomingStream.mk infoID transport receiver ∅) w Hrange Htr Hb)
    as (i & w' & -> & Hid & Htr' & Hrecv & Hkeyed & Hdom & Hem & Hin).
  { by intros k t. }
  cbn [IncomingStream.id IncomingStream.transport IncomingStream.receiver
       IncomingStream.tracks] in *.
  exists i, w'. split_and!; try done.
  - rewrite Hdom, dom_empty_L. set_solver.
  - intros k t Ht. by destruct (Hin k t Ht) as [?|?].
Qed.

Lemma new_stream_has_a_track_per_id_witness :
  exists i w',
    IncomingStream.newIncomingStream Runtime.rangeInOrder (Some 1%nat) (Some 2%nat)
      "s3" [flatTrack; simTrack] startOfWorld = Some (i, w')
    /\ dom (IncomingStream.tracks i) = {["a1"; "v2"]}
    /\ emitted (OfStream "s3") "track" (trace w') = 2%nat.
Proof.
  destruct (new_stream_has_a_track_per_id Runtime.rangeInOrder (Some 1%nat)
              (Some 2%nat) "s3" [flatTrack; simTrack] startOfWorld
              rangeInOrder_spec)
    as (i & w' & Hn & _ & _ & _ & _ & Hd & He & _).
  - by eexists.
  - repeat constructor; try discriminate; by eexists _, _, _.
  - exists i, w'. split; [exact Hn|]. split.
    + rewrite Hd. cbn. set_solver.
    + rewrite He. reflexivity.
Defined.

(** ** A stream that stops *)

(** X20.  [Stop] on a stream with a transport, whose tracks are filed
    under their own ids, stops every one of them: a track that still has
    its receiver emits "stopped" exactly once, a track that had stopped
    before emits nothing more, and no other track emits anything.  The
    stream is left without track and without transport, and its own
    "stopped" is the last thing to happen. *)
Theorem stream_stop_stops_every_track
    (rangeMap : nat -> forall V : Type, gmap string V -> list (string * V))
    (i : IncomingStream.t) (w : World) :
  Runtime.RangeSpec rangeMap ->
  is_Some (IncomingStream.transport i) ->
  keyedById i ->
  exists i' w',
    IncomingStream.Stop rangeMap i w = Some (i', w')
    /\ IncomingStream.tracks i' = ∅
    /\ IncomingStream.transport i' = None
    /\ (forall k t,
          IncomingStream.tracks i !! k = Some t ->
          trackStopped k w' = (trackStopped k w + if isLive t then 1 else 0)%nat)
    /\ (forall k, k ∉ dom (IncomingStream.tracks i) ->
                  trackStopped k w' = trackStopped k w)
    /\ last (trace w') = Some (Call_Emit (OfStream (IncomingStream.id i)) "stopped").
Proof.
  intros Hrange Htr Hkeyed.
  destruct (stream_Stop_live rangeMap i w Htr) as (i' & w' & HS & _ & Htr' & _ & Hempty).
  exists i', w'. split; [exact HS|]. split; [by apply Hempty|]. split; [done|].
  unfold IncomingStream.Stop in HS. destruct Htr as [tr Htr]. rewrite Htr in HS.
  set (visited := rangeMap (tick w) _ (IncomingStream.tracks i)) in *.
  assert (forall k t, (k, t) ∈ visited <-> IncomingStream.tracks i !! k = Some t)
    as Hv.
  { intros k t. subst visited. by rewrite (Hrange _ _ _), elem_of_map_to_list. }
  destruct (stopTracks_keyed rangeMap visited i (next w))
    as (i1 & w1 & Hloop & Hid & Hin & Hout & _).
  { by rewrite Htr. }
  { subst visited. rewrite (Hrange _ _ _). apply NoDup_fst_map_to_list. }
  { intros k t Hkt. apply Hv in Hkt. split; [done|]. by apply Hkeyed. }
  rewrite Hloop in HS. cbn [mbind option_bind] in HS. injection HS as <- <-.
  assert (forall k, trackStopped k (call (Call_Emit (OfStream (IncomingStream.id i1))
                                           "stopped") w1)
                    = trackStopped k w1) as Hcall.
  { intros k. unfold trackStopped. rewrite emitted_call.
    rewrite isEmit_other_emitter by done. lia. }
  split_and!.
  - intros k t Ht. rewrite Hcall. apply Hin. by apply Hv.
  - intros k Hk. rewrite Hcall. apply Hout.
    intros ([k' t] & -> & Hel%Hv)%list_elem_of_fmap.
    apply Hk. apply elem_of_dom. by eexists.
  - unfold call. cbn [trace]. by rewrite last_snoc, Hid.
Qed.

Lemma stream_stop_stops_every_track_witness :
  exists i' w',
    IncomingStream.Stop Runtime.rangeInOrder sampleStream startOfWorld
    = Some (i', w')
    /\ trackStopped "t1" w' = 1%nat.
Proof.
  destruct (stream_stop_stops_every_track Runtime.rangeInOrder sampleStream
              startOfWorld rangeInOrder_spec)
    as (i' & w' & HS & _ & _ & Hin & _).
  - by eexists.
  - intros k t. unfold sampleStream. cbn [IncomingStream.tracks].
    by intros [<- <-]%lookup_singleton_Some.
  - exists i', w'. split; [exact HS|].
    apply (Hin "t1" sampleTrack). reflexivity.
Defined.

(** ** A session that stops *)

Lemma track_Stop_trace
    (rangeMap : nat -> forall V : Type, gmap string V -> list (string * V))
    (t : IncomingStreamTrack.t) (w : World) :
  trace (IncomingStreamTrack.Stop rangeMap t w).2
  = trace w ++ since w (IncomingStreamTrack.Stop rangeMap t w).2.
Proof.
  unfold IncomingStreamTrack.Stop, since.
  destruct (IncomingStreamTrack.receiver t); cbn [snd].
  - rewrite foldl_release. unfold call. cbn [trace next].
    by rewrite <- app_assoc, drop_app_length.
  - by rewrite drop_all, app_nil_r.
Qed.

(** X21.  [Stop] on a session that has its session reference first stops
    the incoming track, if there is one, then the outgoing track, if there
    is one, then ends the session, deletes it and emits "stopped", in this
    order, and clears the session reference.  An incoming track that
    still had its receiver has so emitted "stopped" once before the
    session ends, and the reference to it is cleared when among its
    listeners is the one the session registered. *)
Theorem session_stop_ends_after_its_tracks
    (rangeMap : nat -> forall V : Type, gmap string V -> list (string * V))
    (OutgoingStreamTrack : Type)
    (outgoingStop : OutgoingStreamTrack -> OutgoingStreamTrack * bool)
    (s : StreamerSession.t OutgoingStreamTrack) (w : World)
    (session : RTPSessionFacade) :
  StreamerSession.session _ s = Some session ->
  let r := StreamerSession.Stop rangeMap _ outgoingStop s w in
  StreamerSession.session _ r.1 = None
  /\ since w r.2
     = match StreamerSession.incoming _ s with
       | Some t => since w (IncomingStreamTrack.Stop rangeMap t w).2
       | None => []
       end
       ++ match StreamerSession.outgoing _ s with
          | Some _ => [Call_OutgoingStop]
          | None => []
          end
       ++ [Call_SessionEnd session; Call_DeleteRTPSessionFacade session;
           Call_Emit (OfSession (StreamerSession.id _ s)) "stopped"]
  /\ (forall t,
        StreamerSession.incoming _ s = Some t ->
        is_Some (IncomingStreamTrack.receiver t) ->
        trackStopped (IncomingStreamTrack.id t) r.2
        = S (trackStopped (IncomingStreamTrack.id t) w)
        /\ (OnStopped_StreamerSession ∈ IncomingStreamTrack.Emitter t ->
            StreamerSession.incoming _ r.1 = None))
  /\ (StreamerSession.incoming _ s = None -> StreamerSession.incoming _ r.1 = None).
Proof.
  intros Hs r. subst r. unfold StreamerSession.Stop. rewrite Hs.
  destruct (StreamerSession.incoming _ s) as [t|] eqn:Hin.
  - pose proof (track_Stop_trace rangeMap t w) as Htrace.
    destruct (IncomingStreamTrack.Stop rangeMap t w) as [[t' fired] w1] eqn:Hstop.
    cbn [snd] in Htrace.
    set (trIn := since w w1) in *.
    assert (exists out w2,
              match StreamerSession.outgoing _ s with
              | Some track =>
                  let '(track, stopped) := outgoingStop track in
                  (if stopped then None else Some track, call Call_OutgoingStop w1)
              | None => (None, w1)
              end = (out, w2)
              /\ trace w2
                 = trace w1 ++ match StreamerSession.outgoing _ s with
                               | Some _ => [Call_OutgoingStop]
                               | None => []
                               end) as (out & w2 & -> & Hw2).
    { destruct (StreamerSession.outgoing _ s) as [o|].
      - destruct (outgoingStop o). by eexists _, _.
      - eexists _, _. by rewrite app_nil_r. }
    cbn [fst snd StreamerSession.session StreamerSession.incoming].
    split; [done|]. split.
    { unfold since at 1, call. cbn [trace]. rewrite Hw2, Htrace.
      by rewrite <- !app_assoc, drop_app_length. }
    split; [|done].
    intros t0 [= <-] Hlive.
    destruct (track_Stop_live rangeMap t w Hlive)
      as (t1 & w1' & Hstop' & _ & _ & _ & _ & Hem & _).
    rewrite Hstop in Hstop'. injection Hstop' as <- -> <-.
    split.
    + unfold trackStopped, call. cbn [trace]. rewrite Hw2, !emitted_app, Hem.
      unfold emitted at 5. cbn [List.filter].
      rewrite isEmit_other_emitter by done.
      destruct (StreamerSession.outgoing _ s); cbn; lia.
    + intros Hl. unfold StreamerSession.clearsIncoming.
      assert (existsb (fun l => match l with
                                | OnStopped_StreamerSession => true
                                | _ => false end)
                (IncomingStreamTrack.Emitter t) = true) as ->; [|done].
      apply existsb_exists. exists OnStopped_StreamerSession.
      split; [by apply list_elem_of_In|done].
  - assert (exists out w2,
              match StreamerSession.outgoing _ s with
              | Some track =>
                  let '(track, stopped) := outgoingStop track in
                  (if stopped then None else Some track, call Call_OutgoingStop w)
              | None => (None, w)
              end = (out, w2)
              /\ trace w2
                 = trace w ++ match StreamerSession.outgoing _ s with
                              | Some _ => [Call_OutgoingStop]
                              | None => []
                              end) as (out & w2 & -> & Hw2).
    { destruct (StreamerSession.outgoing _ s) as [o|].
      - destruct (outgoingStop o). by eexists _, _.
      - eexists _, _. by rewrite app_nil_r. }
    cbn [fst snd StreamerSession.session StreamerSession.incoming].
    split; [done|]. split.
    { unfold since, call. cbn [trace app]. rewrite Hw2.
      by rewrite <- !app_assoc, drop_app_length. }
    split; [|done]. by intros t0.
Qed.

Lemma session_stop_ends_after_its_tracks_witness :
  since startOfWorld
    (StreamerSession.Stop Runtime.rangeInOrder unit (fun o => (o, true))
       sampleSession startOfWorld).2
  = [Call_Emit (OfTrack "video") "stopped"; Call_OutgoingStop; Call_SessionEnd 3%nat;
     Call_DeleteRTPSessionFacade 3%nat; Call_Emit (OfSession "x1") "stopped"].
Proof.
  destruct (session_stop_ends_after_its_tracks Runtime.rangeInOrder unit
              (fun o => (o, true)) sampleSession startOfWorld 3%nat eq_refl)
    as (_ & Htrace & _).
  rewrite Htrace. reflexivity.
Defined.

(** ** Tracks stay filed under their ids *)

(** X22.  That every track is filed under its own id is kept by what is
    done to a stream: [AddTrack] when it accepts a track, [CreateTrack] on
    a buildable description, which does not fail on a stream with a
    transport, and [Stop], which never fails. *)
Theorem tracks_stay_filed_under_their_ids
    (rangeMap : nat -> forall V : Type, gmap string V -> list (string * V))
    (i : IncomingStream.t) :
  Runtime.RangeSpec rangeMap ->
  keyedById i ->
  (forall track i' track',
     IncomingStream.AddTrack i track = inl (i', track') -> keyedById i')
  /\ (is_Some (IncomingStream.transport i) ->
      forall track w,
        buildable track ->
        exists t i' w',
          IncomingStream.CreateTrack rangeMap i track w = Some (t, i', w')
          /\ keyedById i')
  /\ (forall w,
        exists i' w', IncomingStream.Stop rangeMap i w = Some (i', w') /\ keyedById i').
Proof.
  intros Hrange Hkeyed. split_and!.
  - intros track i' track'. unfold IncomingStream.AddTrack.
    destruct (IncomingStream.tracks i !! IncomingStreamTrack.id track); [done|].
    intros [= <- <-] k t. cbn [IncomingStream.tracks IncomingStream.withTracks
                                IncomingStreamTrack.id].
    intros [[<- <-]|[_ Hold]]%lookup_insert_Some; [done | by apply Hkeyed].
  - intros Htr track w Hb.
    destruct (CreateTrack_builds rangeMap i track w Hrange Htr Hb)
      as (sources & t & w1 & -> & Ht & _).
    eexists _, _, _. split; [reflexivity|]. intros k t'.
    cbn [IncomingStream.tracks IncomingStream.withTracks].
    intros [[<- <-]|[_ Hold]]%lookup_insert_Some; [by rewrite Ht | by apply Hkeyed].
  - intros w. destruct (IncomingStream.transport i) as [tr|] eqn:Htr.
    + destruct (stream_Stop_live rangeMap i w) as (i' & w' & -> & _ & _ & _ & Hempty);
        [by rewrite Htr|].
      exists i', w'. split; [done|]. intros k t. by rewrite Hempty.
    + exists i, w. split; [by apply stream_Stop_stopped|done].
Qed.

Lemma tracks_stay_filed_under_their_ids_witness :
  exists t i' w',
    IncomingStream.CreateTrack Runtime.rangeInOrder sampleStream flatTrack
      startOfWorld = Some (t, i', w')
    /\ keyedById i'.
Proof.
  destruct (tracks_stay_filed_under_their_ids Runtime.rangeInOrder sampleStream
              rangeInOrder_spec) as (_ & Hcreate & _).
  - intros k t. unfold sampleStream. cbn [IncomingStream.tracks].
    by intros [<- <-]%lookup_singleton_Some.
  - apply (Hcreate ltac:(by eexists) flatTrack startOfWorld).
    split.
    + unfold wellFormedGroups, flatTrack. cbn. repeat constructor. by eexists _, _, _.
    + discriminate.
Defined.

(** ** The sources of a track *)

Lemma foldl_ssrcsOf (l : list (string * Encoding.t))
    (acc : list (gmap string RTPIncomingSource.t)) :
  foldl IncomingStreamTrack.ssrcsOf acc l
  = acc ++ ((fun e =>
               <["fec" := RTPIncomingSourceGroup.GetFec (Encoding.source e)]>
                 (<["rtx" := RTPIncomingSourceGroup.GetRtx (Encoding.source e)]>
                    (<["media" := RTPIncomingSourceGroup.GetMedia (Encoding.source e)]>
                       ∅))) <$> l.*2).
Proof.
  revert acc. induction l as [|kv l IH]; intros acc.
  - cbn. by rewrite app_nil_r.
  - cbn [foldl]. rewrite IH, fmap_cons. unfold IncomingStreamTrack.ssrcsOf at 1.
    by rewrite <- app_assoc.
Qed.

(** X23.  [GetSSRCs] gives one map per encoding of the track, and each
    map holds the media, rtx and fec sources of the group of one encoding
    under the keys "media", "rtx" and "fec", and nothing else. *)
Theorem ssrcs_of_every_encoding
    (rangeMap : nat -> forall V : Type, gmap string V -> list (string * V))
    (i : IncomingStreamTrack.t) (w : World) :
  Runtime.RangeSpec rangeMap ->
  let ssrcs := (IncomingStreamTrack.GetSSRCs rangeMap i w).1 in
  length ssrcs = size (IncomingStreamTrack.encodings i)
  /\ (forall m,
        m ∈ ssrcs ->
        dom m = {["media"; "rtx"; "fec"]}
        /\ exists k e,
             IncomingStreamTrack.encodings i !! k = Some e
             /\ m !! "media" = Some (RTPIncomingSourceGroup.GetMedia (Encoding.source e))
             /\ m !! "rtx" = Some (RTPIncomingSourceGroup.GetRtx (Encoding.source e))
             /\ m !! "fec" = Some (RTPIncomingSourceGroup.GetFec (Encoding.source e)))
  /\ (forall k e,
        IncomingStreamTrack.encodings i !! k = Some e ->
        exists m,
          m ∈ ssrcs
          /\ m !! "media" = Some (RTPIncomingSourceGroup.GetMedia (Encoding.source e))).
Proof.
  intros Hrange ssrcs. subst ssrcs. unfold IncomingStreamTrack.GetSSRCs. cbn [fst].
  rewrite foldl_ssrcsOf. cbn [app].
  pose proof (Hrange (tick w) _ (IncomingStreamTrack.encodings i)) as Hv.
  split_and!.
  - rewrite !length_fmap, Hv. by rewrite length_map_to_list.
  - intros m (e & -> & ([k e'] & -> & Hel)%list_elem_of_fmap)%list_elem_of_fmap.
    split.
    + rewrite !dom_insert_L, dom_empty_L. set_solver.
    + exists k, e'. split; [apply elem_of_map_to_list; by rewrite <- Hv|].
      by split_and!.
  - intros k e Hk. eexists. split.
    + apply list_elem_of_fmap. exists e. split; [reflexivity|].
      apply list_elem_of_fmap. exists (k, e). split; [done|].
      rewrite Hv. by apply elem_of_map_to_list.
    + done.
Qed.

Lemma ssrcs_of_every_encoding_witness :
  length (IncomingStreamTrack.GetSSRCs Runtime.rangeInOrder sampleTrack
            startOfWorld).1 = 2%nat.
Proof.
  destruct (ssrcs_of_every_encoding Runtime.rangeInOrder sampleTrack startOfWorld
              rangeInOrder_spec) as (Hlen & _).
  rewrite Hlen. reflexivity.
Defined.
